(** * api-schema-mapper: the mapping and diff engine

    A shallow embedding of [src/utils.js], [src/differ.js],
    [src/normalizer.js], [src/denormalizer.js], [src/payloadBuilder.js] and
    [src/Mapper.js], and the properties of the specification proved or
    refuted on it.

    Modelling conventions, fixed once for the whole development.

    - A JavaScript value is a tree ([value]).  A record keeps its own
      properties in enumeration order; a sequence keeps its slots, an empty
      slot of a sparse array being [None].
    - Only own properties are read: property names are taken not to collide
      with the names [Object.prototype] and the other built-in prototypes
      define ([constructor], [toString], [hasOwnProperty], ...), so that
      [obj[key]] and [key in obj] see own properties and
      [obj.hasOwnProperty] is the inherited method.
    - Numbers, [Number(string)], [Number.prototype.toString] and the [Date]
      parser belong to the host; they are the fields of the class [Host].
      No theorem depends on how a host rounds a decimal literal.
    - Strings are sequences of 8-bit characters.
    - Functions stored in a tree are opaque identifiers, called through
      [call_fn].
    - The sources are sloppy-mode CommonJS modules: an assignment to a
      property of a primitive is silently dropped.
    - A call ends in [Ok], in [Throw] when the program raises, or in
      [Unmodelled] when it leaves the fragment of JavaScript described
      here (a named property stored on an array or a [Date], a [toJSON]
      method): a statement [f x = Ok y] therefore says that the program
      returns [y]. *)

From Stdlib Require Import List String Ascii ZArith NArith Bool Lia PeanoNat.
From Stdlib Require Import DecimalString DecimalPos DecimalN.
From stdpp Require Import base list.
Import ListNotations.
Local Open Scope string_scope.

(** ** Strings *)

Module Str.

Definition is_digit (c : ascii) : bool :=
  let n := nat_of_ascii c in (48 <=? n)%nat && (n <=? 57)%nat.

(** [U+000A] and [U+000D], the line terminators an 8-bit string can hold:
    the characters the regular expression atom [.] refuses. *)
Definition is_line_terminator (c : ascii) : bool :=
  let n := nat_of_ascii c in (n =? 10)%nat || (n =? 13)%nat.

(** White space and line terminators stripped by
    [String.prototype.trim] and skipped by [Number(string)]. *)
Definition is_space (c : ascii) : bool :=
  let n := nat_of_ascii c in
  (n =? 9)%nat || (n =? 10)%nat || (n =? 11)%nat || (n =? 12)%nat
  || (n =? 13)%nat || (n =? 32)%nat || (n =? 160)%nat.

Definition chars (s : string) : list ascii := list_ascii_of_string s.
Definition of_chars (l : list ascii) : string := string_of_list_ascii l.

(** [s.split('.')]: never empty, [''.split('.')] is [['']]. *)
Fixpoint split_dot (s : string) : list string :=
  match s with
  | EmptyString => [EmptyString]
  | String c rest =>
      if Ascii.eqb c "." then EmptyString :: split_dot rest
      else match split_dot rest with
           | [] => [String c EmptyString]
           | seg :: segs => String c seg :: segs
           end
  end.

(** [s.includes('.')] *)
Fixpoint includes_dot (s : string) : bool :=
  match s with
  | EmptyString => false
  | String c rest => Ascii.eqb c "." || includes_dot rest
  end.

(** The template literal [`${n}`] of a non-negative integer. *)
Definition of_N (n : N) : string := NilZero.string_of_uint (N.to_uint n).
Definition of_nat (n : nat) : string := of_N (N.of_nat n).

Definition digit_val (c : ascii) : N := N.of_nat (nat_of_ascii c - 48).

(** [parseInt] of a run of decimal digits. *)
Definition digits_to_N (l : list ascii) : N :=
  fold_left (fun acc c => (10 * acc + digit_val c)%N) l 0%N.

Fixpoint take_while (p : ascii -> bool) (l : list ascii) : list ascii :=
  match l with
  | c :: r => if p c then c :: take_while p r else []
  | [] => []
  end.

Fixpoint drop_while (p : ascii -> bool) (l : list ascii) : list ascii :=
  match l with
  | c :: r => if p c then drop_while p r else l
  | [] => []
  end.

(** [key.match(/^(.+)\[(\d+)\]$/)]: the two captured groups, the second
    already through [parseInt].  The digits are the longest run before
    the closing bracket, so the greedy first group is determined. *)
Definition arrayMatch (key : string) : option (string * N) :=
  match rev (chars key) with
  | "]"%char :: r =>
      match take_while is_digit r, drop_while is_digit r with
      | (_ :: _) as ds, "["%char :: ((_ :: _) as pre) =>
          if forallb (fun c => negb (is_line_terminator c)) pre
          then Some (of_chars (rev pre), digits_to_N (rev ds))
          else None
      | _, _ => None
      end
  | _ => None
  end.

(** An array index in the sense of ECMAScript: the canonical decimal
    spelling of an integer below [2^32 - 1]. *)
Definition max_index : N := 4294967295.

Definition array_index (key : string) : option N :=
  match chars key with
  | [] => None
  | l =>
      if forallb is_digit l then
        let n := digits_to_N l in
        if String.eqb (of_N n) key && (n <? max_index)%N then Some n else None
      else None
  end.

(** [s.trim()] *)
Definition trim (s : string) : string :=
  of_chars (rev (drop_while is_space (rev (drop_while is_space (chars s))))).

(** [/^\d{4}-\d{2}-\d{2}T/.test(s)] *)
Definition iso_prefix (s : string) : bool :=
  match chars s with
  | y1 :: y2 :: y3 :: y4 :: d1 :: m1 :: m2 :: d2 :: a1 :: a2 :: t :: _ =>
      forallb is_digit [y1; y2; y3; y4; m1; m2; a1; a2]
      && Ascii.eqb d1 "-" && Ascii.eqb d2 "-" && Ascii.eqb t "T"
  | _ => false
  end.

End Str.


(** ** The host: numbers and dates *)

(** What the program uses of the JavaScript number type and of [Date].
    [num_eqb] is [===] on two numbers. *)
Class Host := {
  number : Type;
  num_eqb : number -> number -> bool;
  num_isNaN : number -> bool;
  num_isFinite : number -> bool;
  num_of_N : N -> number;
  num_toString : number -> string;
  StringToNumber : string -> number;
  Date_parse : string -> number;
  Date_toISOString : number -> string;
  num_eqb_refl : forall n, num_isNaN n = false -> num_eqb n n = true;
  num_of_N_eqb : forall a b, (a < 2 ^ 53)%N -> (b < 2 ^ 53)%N ->
    num_eqb (num_of_N a) (num_of_N b) = (a =? b)%N;
  num_of_N_isNaN : forall a, num_isNaN (num_of_N a) = false;
  num_of_N_isFinite : forall a, (a < 2 ^ 53)%N -> num_isFinite (num_of_N a) = true;
  StringToNumber_of_N : forall a, StringToNumber (Str.of_N a) = num_of_N a;
  StringToNumber_true : num_isNaN (StringToNumber "true") = true;
  StringToNumber_false : num_isNaN (StringToNumber "false") = true
}.

(** ** Outcomes *)

Inductive error : Type := TypeError | ConfigError | ValidationError.

Inductive result (A : Type) : Type :=
| Ok (a : A)
| Throw (e : error)
| Unmodelled.
Arguments Ok {A} a.
Arguments Throw {A} e.
Arguments Unmodelled {A}.

Definition bind {A B : Type} (m : result A) (k : A -> result B) : result B :=
  match m with
  | Ok a => k a
  | Throw e => Throw e
  | Unmodelled => Unmodelled
  end.

Notation "'let*' x ':=' m 'in' k" := (bind m (fun x => k))
  (at level 10, x name, m at level 100, k at level 200, only parsing).

(** A loop body run over a list, left to right, on an accumulator. *)
Fixpoint foldM {A B : Type} (f : B -> A -> result B) (l : list A) (b : B) : result B :=
  match l with
  | [] => Ok b
  | a :: rest => let* b' := f b a in foldM f rest b'
  end.

(** ** Own properties and slots

    The own properties of an object, in enumeration order, and the slots of
    a sequence, for any type of stored values. *)

Section Props.
Context {V : Type}.

Fixpoint lookup_prop (k : string) (ps : list (string * V)) : option V :=
  match ps with
  | [] => None
  | (k', v) :: rest => if String.eqb k k' then Some v else lookup_prop k rest
  end.

Definition has_key (k : string) (ps : list (string * V)) : bool :=
  match lookup_prop k ps with Some _ => true | None => false end.

Fixpoint replace_prop (k : string) (v : V) (ps : list (string * V)) : list (string * V) :=
  match ps with
  | [] => []
  | (k', v') :: rest =>
      if String.eqb k k' then (k', v) :: rest else (k', v') :: replace_prop k v rest
  end.

(** A new integer-indexed key goes among the integer keys, in ascending
    order, before every other key. *)
Fixpoint insert_index (n : N) (k : string) (v : V) (ps : list (string * V)) : list (string * V) :=
  match ps with
  | [] => [(k, v)]
  | (k', v') :: rest =>
      match Str.array_index k' with
      | Some n' =>
          if (n <? n')%N then (k, v) :: ps else (k', v') :: insert_index n k v rest
      | None => (k, v) :: ps
      end
  end.

(** [obj[k] = v] on the own properties of a record: an existing key keeps
    its place, a new one is enumerated after the others. *)
Definition obj_set (k : string) (v : V) (ps : list (string * V)) : list (string * V) :=
  if has_key k ps then replace_prop k v ps
  else match Str.array_index k with
       | Some n => insert_index n k v ps
       | None => (ps ++ [(k, v)])%list
       end.

(** [arr[i] = v]: slots between the old length and [i] stay empty. *)
Fixpoint arr_set (elems : list (option V)) (i : nat) (v : V)
  : list (option V) :=
  match i, elems with
  | O, [] => [Some v]
  | O, _ :: rest => Some v :: rest
  | S j, [] => None :: arr_set [] j v
  | S j, e :: rest => e :: arr_set rest j v
  end.

End Props.

(** ** Values *)

Section Values.
Context {host : Host}.

Unset Elimination Schemes.
Inductive value : Type :=
| VUndef
| VNull
| VBool (b : bool)
| VNum (n : number)
| VStr (s : string)
| VFun (f : nat)
| VDate (t : number)
| VArr (elems : list (option value))
| VObj (props : list (string * value)).
Set Elimination Schemes.

Inductive jstype : Type :=
  TUndefined | TObject | TBoolean | TNumber | TString | TFunction.

Definition jstype_eqb (a b : jstype) : bool :=
  match a, b with
  | TUndefined, TUndefined | TObject, TObject | TBoolean, TBoolean
  | TNumber, TNumber | TString, TString | TFunction, TFunction => true
  | _, _ => false
  end.

Definition typeof (v : value) : jstype :=
  match v with
  | VUndef => TUndefined
  | VNull | VDate _ | VArr _ | VObj _ => TObject
  | VBool _ => TBoolean
  | VNum _ => TNumber
  | VStr _ => TString
  | VFun _ => TFunction
  end.

(** [ToBoolean] *)
Definition truthy (v : value) : bool :=
  match v with
  | VUndef | VNull => false
  | VBool b => b
  | VNum n => negb (num_isNaN n || num_eqb n (num_of_N 0))
  | VStr s => negb (String.eqb s "")
  | VFun _ | VDate _ | VArr _ | VObj _ => true
  end.

Definition is_nullish (v : value) : bool :=
  match v with VUndef | VNull => true | _ => false end.

Definition is_undefined (v : value) : bool :=
  match v with VUndef => true | _ => false end.

Definition is_null (v : value) : bool :=
  match v with VNull => true | _ => false end.

Definition isArray (v : value) : bool :=
  match v with VArr _ => true | _ => false end.

(** *** Own properties of a record *)

Definition props := list (string * value).

(** *** Slots of a sequence *)

Definition slot (elems : list (option value)) (i : nat) : value :=
  match nth_error elems i with
  | Some (Some v) => v
  | _ => VUndef
  end.

Definition indexed {A : Type} (l : list A) : list (nat * A) :=
  combine (seq 0 (length l)) l.

(** *** Property access on any value *)

Definition string_slot (s : string) (i : nat) : value :=
  match String.get i s with
  | Some c => VStr (String c EmptyString)
  | None => VUndef
  end.

(** [v[k]] for a [v] that is neither [undefined] nor [null]. *)
Definition get_own (v : value) (k : string) : value :=
  match v with
  | VObj ps => match lookup_prop k ps with Some x => x | None => VUndef end
  | VArr elems =>
      match Str.array_index k with
      | Some i => slot elems (N.to_nat i)
      | None =>
          if String.eqb k "length" then VNum (num_of_N (N.of_nat (length elems)))
          else VUndef
      end
  | VStr s =>
      match Str.array_index k with
      | Some i => string_slot s (N.to_nat i)
      | None =>
          if String.eqb k "length" then VNum (num_of_N (N.of_nat (String.length s)))
          else VUndef
      end
  | _ => VUndef
  end.

(** [v[k]] *)
Definition get_prop (v : value) (k : string) : result value :=
  if is_nullish v then Throw TypeError else Ok (get_own v k).

(** [v?.[k]] *)
Definition get_prop_opt (v : value) (k : string) : value :=
  if is_nullish v then VUndef else get_own v k.

(** [recv[k] = x], returning the receiver after the assignment. *)
Definition set_prop (recv : value) (k : string) (x : value) : result value :=
  match recv with
  | VObj ps => Ok (VObj (obj_set k x ps))
  | VArr elems =>
      match Str.array_index k with
      | Some i => Ok (VArr (arr_set elems (N.to_nat i) x))
      | None => Unmodelled
      end
  | VUndef | VNull => Throw TypeError
  | VBool _ | VNum _ | VStr _ => Ok recv
  | VFun _ | VDate _ => Unmodelled
  end.

(** [k in v] for a record, a sequence or a [Date]. *)
Definition has_own (v : value) (k : string) : bool :=
  match v with
  | VObj ps => has_key k ps
  | VArr elems =>
      match Str.array_index k with
      | Some i => match nth_error elems (N.to_nat i) with
                  | Some (Some _) => true
                  | _ => false
                  end
      | None => String.eqb k "length"
      end
  | _ => false
  end.

(** The pairs a [for (key in v)] loop guarded by [v.hasOwnProperty(key)]
    visits, which are also the ones [{...v}], [Object.assign(_, v)] and
    [Object.keys(v)] see. *)
Definition own_props (v : value) : props :=
  match v with
  | VObj ps => ps
  | VArr elems =>
      flat_map (fun '(i, e) => match e with
                               | Some x => [(Str.of_nat i, x)]
                               | None => []
                               end) (indexed elems)
  | VStr s =>
      map (fun '(i, c) => (Str.of_nat i, VStr (String c EmptyString)))
          (indexed (Str.chars s))
  | _ => []
  end.

Definition own_keys (v : value) : list string := map fst (own_props v).

(** [{ ...a, ...b }] and [Object.assign(target, source)] on own properties. *)
Definition assign_props (target : props) (source : value) : props :=
  fold_left (fun acc '(k, v) => obj_set k v acc) (own_props source) target.

Definition spread (vs : list value) : value :=
  VObj (fold_left assign_props vs []).

(** ** utils.js *)

Definition isPlainObject (v : value) : bool :=
  match v with
  | VObj _ | VDate _ => true
  | _ => false
  end.

(** The loop of [getNestedValue] over the segments of the path. *)
Fixpoint getNested_loop (current : value) (keys : list string) : value :=
  match keys with
  | [] => current
  | key :: rest =>
      if is_nullish current then VUndef
      else getNested_loop (get_own current key) rest
  end.

Definition getNestedValue (obj : value) (path : string) : value :=
  getNested_loop obj (Str.split_dot path).

(** The loop of [setNestedValue].  The object reached at [current[key]] is
    updated in place by the program; the tree model writes the updated
    child back at the same key. *)
Fixpoint setNested_loop (current : value) (keys : list string) (lastKey : string)
  (v : value) : result value :=
  match keys with
  | [] => set_prop current lastKey v
  | key :: rest =>
      let* c0 := get_prop current key in
      let* current1 :=
        if negb (truthy c0) || negb (isPlainObject c0)
        then set_prop current key (VObj [])
        else Ok current in
      let* child := get_prop current1 key in
      let* child' := setNested_loop child rest lastKey v in
      set_prop current1 key child'
  end.

Definition setNestedValue (obj : value) (path : string) (v : value) : result value :=
  let keys := Str.split_dot path in
  setNested_loop obj (removelast keys) (List.last keys "") v.

(** [target[k] = v] on the record being built by [invertMapping]. *)
Definition put (k : string) (v : value) (target : props) : props := obj_set k v target.

(** One iteration of the outer loop of [invert]: the pair [key], [value] of
    [source].  The inner call [invert({ [nestedKey]: nestedValue }, target)]
    runs this iteration once, on [nestedKey] and [nestedValue]. *)
Fixpoint invert_entry (key : string) (v : value) (target : props) {struct v} : props :=
  match v with
  | VObj nested =>
      (fix inner (nested : props) (target : props) {struct nested} : props :=
         match nested with
         | [] => target
         | (nestedKey, nestedValue) :: rest =>
             match nestedValue with
             | VStr name => inner rest (put name (VStr (key ++ "." ++ nestedKey)) target)
             | VObj _ | VDate _ =>
                 let target1 :=
                   if truthy (match lookup_prop nestedKey target with
                              | Some x => x | None => VUndef end)
                   then target
                   else put nestedKey (VObj []) target in
                 inner rest (invert_entry nestedKey nestedValue target1)
             | _ => inner rest target
             end
         end) nested target
  | VStr name => put name (VStr key) target
  | _ => target
  end.

Definition invertMapping (mapping : value) : value :=
  VObj (fold_left (fun target '(key, v) => invert_entry key v target)
                  (own_props mapping) []).

(** [deepMerge]: [result = { ...target }], then the keys of [source] in
    enumeration order. *)
Fixpoint deepMerge (target source : value) {struct source} : value :=
  let result := fold_left assign_props [target] [] in
  let merge (key : string) (sv : value) (rec : value -> value) (result : props) :=
    let tv := match lookup_prop key result with Some x => x | None => VUndef end in
    obj_set key (if isPlainObject sv && isPlainObject tv then rec tv else sv) result in
  match source with
  | VObj sps =>
      VObj ((fix loop (sps : props) (result : props) {struct sps} : props :=
               match sps with
               | [] => result
               | (key, sv) :: rest =>
                   loop rest (merge key sv (fun tv => deepMerge tv sv) result)
               end) sps result)
  | VArr elems =>
      VObj ((fix loop (elems : list (option value)) (i : nat) (result : props)
               {struct elems} : props :=
               match elems with
               | [] => result
               | None :: rest => loop rest (S i) result
               | Some sv :: rest =>
                   loop rest (S i)
                        (merge (Str.of_nat i) sv (fun tv => deepMerge tv sv) result)
               end) elems 0%nat result)
  | _ => VObj (fold_left (fun acc '(k, sv) => obj_set k sv acc) (own_props source) result)
  end.

(** ** JSON.stringify *)

Definition dquote : string := String (ascii_of_nat 34) EmptyString.

Definition hex_digit (n : nat) : ascii :=
  ascii_of_nat (if (n <? 10)%nat then 48 + n else 87 + n).

(** [QuoteJSONString], one character at a time. *)
Definition json_escape (c : ascii) : string :=
  let n := nat_of_ascii c in
  if (n =? 34)%nat then "\" ++ dquote
  else if (n =? 92)%nat then "\\"
  else if (n =? 8)%nat then "\b"
  else if (n =? 9)%nat then "\t"
  else if (n =? 10)%nat then "\n"
  else if (n =? 12)%nat then "\f"
  else if (n =? 13)%nat then "\r"
  else if (n <? 32)%nat
       then "\u00" ++ String (hex_digit (n / 16)) (String (hex_digit (n mod 16)) "")
  else String c "".

Definition json_quote (s : string) : string :=
  dquote ++ String.concat "" (map json_escape (Str.chars s)) ++ dquote.

Definition has_toJSON (ps : props) : bool :=
  match lookup_prop "toJSON" ps with
  | Some (VFun _) => true
  | _ => false
  end.

(** [JSON.stringify(v)]; [Ok None] is the result [undefined]. *)
Fixpoint JSON_stringify (v : value) : result (option string) :=
  match v with
  | VUndef | VFun _ => Ok None
  | VNull => Ok (Some "null")
  | VBool b => Ok (Some (if b then "true" else "false"))
  | VNum n => Ok (Some (if num_isFinite n then num_toString n else "null"))
  | VStr s => Ok (Some (json_quote s))
  | VDate t => Ok (Some (if num_isFinite t then json_quote (Date_toISOString t) else "null"))
  | VArr elems =>
      let* items :=
        (fix each (elems : list (option value)) : result (list string) :=
           match elems with
           | [] => Ok []
           | e :: rest =>
               let* s := match e with
                         | Some x => JSON_stringify x
                         | None => Ok None
                         end in
               let* ss := each rest in
               Ok (match s with Some t => t | None => "null" end :: ss)
           end) elems in
      Ok (Some ("[" ++ String.concat "," items ++ "]"))
  | VObj ps =>
      if has_toJSON ps then Unmodelled
      else
        let* members :=
          (fix each (ps : props) : result (list string) :=
             match ps with
             | [] => Ok []
             | (k, x) :: rest =>
                 let* s := JSON_stringify x in
                 let* ss := each rest in
                 Ok (match s with
                     | Some t => (json_quote k ++ ":" ++ t) :: ss
                     | None => ss
                     end)
             end) ps in
        Ok (Some ("{" ++ String.concat "," members ++ "}"))
  end.

Definition option_string_eqb (a b : option string) : bool :=
  match a, b with
  | Some x, Some y => String.eqb x y
  | None, None => true
  | _, _ => false
  end.

(** ** differ.js *)

(** [Object.assign(obj, value)] followed by nothing else: the branch of
    [setChangePath] for the empty path. *)
Definition object_assign (obj : value) (v : value) : result value :=
  foldM (fun acc '(k, x) => set_prop acc k x) (own_props v) obj.

(** The loop of [setChangePath] over the segments before the last one.
    As in [setNested_loop], the object the program walks into is written
    back at the place it was read from. *)
Fixpoint setChange_loop (current : value) (keys : list string) (lastKey : string)
  (v : value) : result value :=
  match keys with
  | [] => set_prop current lastKey v
  | key :: rest =>
      match Str.arrayMatch key with
      | Some (arrayKey, index) =>
          if (Str.max_index <=? index)%N then Unmodelled
          else
            let ik := Str.of_N index in
            let* a0 := get_prop current arrayKey in
            let* current1 :=
              if truthy a0 then Ok current else set_prop current arrayKey (VArr []) in
            let* arr := get_prop current1 arrayKey in
            let* e0 := get_prop arr ik in
            let* arr1 := if truthy e0 then Ok arr else set_prop arr ik (VObj []) in
            let* next := get_prop arr1 ik in
            let* next' := setChange_loop next rest lastKey v in
            let* arr2 := set_prop arr1 ik next' in
            set_prop current1 arrayKey arr2
      | None =>
          let* c0 := get_prop current key in
          let* current1 :=
            if truthy c0 then Ok current else set_prop current key (VObj []) in
          let* next := get_prop current1 key in
          let* next' := setChange_loop next rest lastKey v in
          set_prop current1 key next'
      end
  end.

Definition setChangePath (obj : value) (path : string) (v : value) : result value :=
  if String.eqb path "" then object_assign obj v
  else
    let keys := Str.split_dot path in
    setChange_loop obj (removelast keys) (List.last keys "") v.

Record diff_options : Type := {
  compareArrays : bool;
  ignoreFields : list string
}.

Definition default_options : diff_options :=
  {| compareArrays := true; ignoreFields := [] |}.

(** [path ? `${path}.${key}` : key] *)
Definition child_path (path key : string) : string :=
  if String.eqb path "" then key else path ++ "." ++ key.

(** [path ? `${path}[${i}]` : `[${i}]`] *)
Definition item_path (path : string) (i : nat) : string :=
  if String.eqb path "" then "[" ++ Str.of_nat i ++ "]"
  else path ++ "[" ++ Str.of_nat i ++ "]".

Section Differ.

(** [a === b] on two objects asks whether they are one allocation, which a
    tree does not record: the answer is a parameter. *)
Variable same_ref : value -> value -> bool.

Definition strict_eq (a b : value) : bool :=
  match a, b with
  | VUndef, VUndef | VNull, VNull => true
  | VBool x, VBool y => Bool.eqb x y
  | VNum x, VNum y => num_eqb x y
  | VStr x, VStr y => String.eqb x y
  | VFun f, VFun g => Nat.eqb f g
  | (VDate _ | VArr _ | VObj _), (VDate _ | VArr _ | VObj _) => same_ref a b
  | _, _ => false
  end.

Section ComputeDiff.

(** [computeDiff] closes over [changes] and reports every change through
    [setChangePath(changes, path, value)].  The embedding threads the
    accumulator and takes the reporting call as the parameter [emit];
    [diff] passes [setChangePath]. *)
Context {A : Type}.
Variable emit : A -> string -> value -> result A.
Variable opts : diff_options.

(** The three tests every call starts with. *)
Definition diff_head (oldVal newVal : value) (path : string) (changes : A)
  (body : unit -> result A) : result A :=
  if existsb (String.eqb path) (ignoreFields opts) then Ok changes
  else if strict_eq oldVal newVal then Ok changes
  else if negb (jstype_eqb (typeof oldVal) (typeof newVal)) then emit changes path newVal
  else body tt.

(** The call on a [newVal] that is not an object. *)
Definition diff_primitive (oldVal newVal : value) (path : string) (changes : A)
  : result A :=
  diff_head oldVal newVal path changes (fun _ =>
    if negb (strict_eq oldVal newVal) then emit changes path newVal else Ok changes).

(** The second loop of the record case: the keys of [oldVal] that
    [newVal] has lost. *)
Definition diff_deleted (oldVal newVal : value) (path : string) (changes : A)
  : result A :=
  foldM (fun changes key =>
           if has_own newVal key then Ok changes
           else emit changes (child_path path key) VUndef)
        (own_keys oldVal) changes.

(** The first loop of the record case, over the keys of [newVal]; [rec]
    is [computeDiff] itself. *)
Definition diff_keys (rec : value -> value -> string -> A -> result A)
  (oldVal : value) (path : string) : props -> A -> result A :=
  fix keys (ps : props) (changes : A) {struct ps} : result A :=
    match ps with
    | [] => Ok changes
    | (key, x) :: rest =>
        let* changes1 := rec (get_prop_opt oldVal key) x (child_path path key) changes in
        keys rest changes1
    end.

(** The loop of the sequence case, from index [i] on.  An empty slot of
    [newVal] reads as [undefined]. *)
Definition diff_items (rec : value -> value -> string -> A -> result A)
  (oelems : list (option value)) (path : string)
  : list (option value) -> nat -> A -> result A :=
  fix items (elems : list (option value)) (i : nat) (changes : A)
    {struct elems} : result A :=
    match elems with
    | [] => Ok changes
    | e :: rest =>
        let* changes1 :=
          match e with
          | Some x => rec (slot oelems i) x (item_path path i) changes
          | None => diff_primitive (slot oelems i) VUndef (item_path path i) changes
          end in
        items rest (S i) changes1
    end.

(** A [Date] passes [isPlainObject] and has no enumerable key: the first
    loop of the record case does not run on it. *)
Fixpoint computeDiff (oldVal newVal : value) (path : string) (changes : A)
  {struct newVal} : result A :=
  diff_head oldVal newVal path changes (fun _ =>
    match newVal with
    | VArr elems =>
        if negb (compareArrays opts) then
          let* so := JSON_stringify oldVal in
          let* sn := JSON_stringify newVal in
          if option_string_eqb so sn then Ok changes else emit changes path newVal
        else
          match oldVal with
          | VArr oelems =>
              if negb (length oelems =? length elems)%nat then emit changes path newVal
              else diff_items computeDiff oelems path elems 0%nat changes
          | _ => emit changes path newVal
          end
    | VObj ps =>
        if negb (isPlainObject oldVal) then emit changes path newVal
        else
          let* changes1 := diff_keys computeDiff oldVal path ps changes in
          diff_deleted oldVal newVal path changes1
    | VDate _ =>
        if negb (isPlainObject oldVal) then emit changes path newVal
        else diff_deleted oldVal newVal path changes
    | _ =>
        if negb (strict_eq oldVal newVal) then emit changes path newVal else Ok changes
    end).

End ComputeDiff.

Definition diff (original current : value) (opts : diff_options) : result value :=
  computeDiff setChangePath opts original current "" (VObj []).

(** The call [computeDiff(oldVal, newVal, path)] gets past its three
    opening tests: the path is not ignored, the values are not [===], and
    their [typeof] agree. *)
Definition enters (opts : diff_options) (oldVal newVal : value) (path : string) : bool :=
  negb (existsb (String.eqb path) (ignoreFields opts))
  && negb (strict_eq oldVal newVal)
  && jstype_eqb (typeof oldVal) (typeof newVal).

(** [calls opts o n p o' n' p']: the run of [computeDiff(o, n, p)] reaches
    the call [computeDiff(o', n', p')], through the loop over the keys of a
    record or the loop over the indices of a sequence. *)
Inductive calls (opts : diff_options)
  : value -> value -> string -> value -> value -> string -> Prop :=
| calls_here o n p : calls opts o n p o n p
| calls_key o ps p k x o' n' p' :
    enters opts o (VObj ps) p = true ->
    isPlainObject o = true ->
    In (k, x) ps ->
    calls opts (get_prop_opt o k) x (child_path p k) o' n' p' ->
    calls opts o (VObj ps) p o' n' p'
| calls_item oelems elems p i x o' n' p' :
    enters opts (VArr oelems) (VArr elems) p = true ->
    compareArrays opts = true ->
    length oelems = length elems ->
    nth_error elems i = Some (Some x) ->
    calls opts (slot oelems i) x (item_path p i) o' n' p' ->
    calls opts (VArr oelems) (VArr elems) p o' n' p'.

(** The calls of [setChangePath] a run of [computeDiff] makes, in order. *)
Definition record_write (trace : list (string * value)) (path : string) (v : value)
  : result (list (string * value)) :=
  Ok (trace ++ [(path, v)])%list.

Definition diff_writes (original current : value) (opts : diff_options)
  : result (list (string * value)) :=
  computeDiff record_write opts original current "" [].

(** Making a list of reports, one after the other, on an accumulator. *)
Definition replay {A : Type} (emit : A -> string -> value -> result A)
  (trace : list (string * value)) (changes : A) : result A :=
  foldM (fun changes '(path, v) => emit changes path v) trace changes.

(** The removals the second loop of the record case reports. *)
Definition deleted_writes (oldVal newVal : value) (path : string)
  : list (string * value) :=
  map (fun key => (child_path path key, VUndef))
      (List.filter (fun key => negb (has_own newVal key)) (own_keys oldVal)).

End Differ.

Definition isEqual (obj1 obj2 : value) : result bool :=
  let* s1 := JSON_stringify obj1 in
  let* s2 := JSON_stringify obj2 in
  Ok (option_string_eqb s1 s2).

Definition hasChanges (original current : value) : result bool :=
  let* e := isEqual original current in Ok (negb e).

(** ** normalizer.js *)

Definition coerceType (v : value) : value :=
  let numeric :=
    match v with
    | VStr s =>
        if negb (num_isNaN (StringToNumber s)) && negb (String.eqb (Str.trim s) "")
        then let num := StringToNumber s in
             if num_isFinite num then Some (VNum num) else None
        else None
    | _ => None
    end in
  match numeric with
  | Some r => r
  | None =>
      match v with
      | VStr s =>
          if String.eqb s "true" then VBool true
          else if String.eqb s "false" then VBool false
          else if Str.iso_prefix s && negb (num_isNaN (Date_parse s))
               then VDate (Date_parse s)
               else v
      | _ => v
      end
  end.

(** The coercion as the specification words it: on a string, the first of
    the rules that applies, in order; any other value unchanged.  A strict
    numeric string is one that reads whole as a finite number and is not
    blank. *)
Definition strict_numeric (s : string) : bool :=
  negb (num_isNaN (StringToNumber s))
  && negb (String.eqb (Str.trim s) "")
  && num_isFinite (StringToNumber s).

Definition valid_date_time (s : string) : bool :=
  Str.iso_prefix s && negb (num_isNaN (Date_parse s)).

Definition coerce_by_rules (v : value) : value :=
  match v with
  | VStr s =>
      if strict_numeric s then VNum (StringToNumber s)
      else if String.eqb s "true" then VBool true
      else if String.eqb s "false" then VBool false
      else if valid_date_time s then VDate (Date_parse s)
      else v
  | _ => v
  end.

Section Functions.

(** Calls of the caller's functions (transforms and the validator), by
    identifier. *)
Variable call_fn : nat -> list value -> result value.

(** [f(args)] for a value [f] already found truthy. *)
Definition call (f : value) (args : list value) : result value :=
  match f with
  | VFun id => call_fn id args
  | _ => Throw TypeError
  end.

(** [if (transform[key]) value = transform[key](value, source)] *)
Definition apply_transform (transform : value) (key : string) (v source : value)
  : result value :=
  let* f := get_prop transform key in
  if truthy f then call f [v; source] else Ok v.

Record normalize_options : Type := {
  typeCoercion : bool;
  defaultValues : value;
  n_transform : value
}.

Definition normalize_defaults : normalize_options :=
  {| typeCoercion := true; defaultValues := VObj []; n_transform := VObj [] |}.

Section ProcessMapping.
Variable opts : normalize_options.

(** The branch of [processMapping] for a mapping value that is a string. *)
Definition process_leaf (source : value) (apiKey formKey : string) (formData : value)
  : result value :=
  let sourceValue := get_prop_opt source apiKey in
  let* v := apply_transform (n_transform opts) formKey sourceValue source in
  let v := if typeCoercion opts && negb (is_null v) && negb (is_undefined v)
           then coerceType v else v in
  if negb (is_undefined v) then setNestedValue formData formKey v else Ok formData.

(** [processMapping(source, mappingSchema)], on the [formData] of the
    enclosing call of [normalize]. *)
Fixpoint processMapping (source mappingSchema : value) (formData : value)
  {struct mappingSchema} : result value :=
  let entry (apiKey : string) (mappingValue : value)
            (nested : value -> value -> result value)
            (item : value -> value -> result value)
            (itemIsPlain : bool) (formData : value) : result value :=
    let sourceValue := get_prop_opt source apiKey in
    match mappingValue with
    | VStr formKey => process_leaf source apiKey formKey formData
    | VObj _ | VDate _ =>
        if isPlainObject sourceValue then nested sourceValue formData else Ok formData
    | VArr _ =>
        match sourceValue with
        | VArr selems =>
            let* r :=
              foldM (fun '(out, formData) e =>
                       match e with
                       | None => Ok ((out ++ [None])%list, formData)
                       | Some it =>
                           if itemIsPlain
                           then let* formData1 := item it formData in
                                Ok ((out ++ [Some (VObj [])])%list, formData1)
                           else Ok ((out ++ [Some it])%list, formData)
                       end)
                    selems ([], formData) in
            set_prop (snd r) apiKey (VArr (fst r))
        | _ => Ok formData
        end
    | _ => Ok formData
    end in
  let dispatch (apiKey : string) (mappingValue : value) (formData : value) :=
    match mappingValue with
    | VArr (Some itemMapping :: _) =>
        entry apiKey mappingValue (fun _ fd => Ok fd)
              (fun it fd => processMapping it itemMapping fd)
              (isPlainObject itemMapping) formData
    | VObj _ =>
        entry apiKey mappingValue (fun sv fd => processMapping sv mappingValue fd)
              (fun _ fd => Ok fd) false formData
    | _ =>
        entry apiKey mappingValue (fun _ fd => Ok fd) (fun _ fd => Ok fd) false formData
    end in
  match mappingSchema with
  | VObj ps =>
      (fix loop (ps : props) (formData : value) {struct ps} : result value :=
         match ps with
         | [] => Ok formData
         | (apiKey, mappingValue) :: rest =>
             let* formData1 := dispatch apiKey mappingValue formData in
             loop rest formData1
         end) ps formData
  | VArr elems =>
      (fix loop (elems : list (option value)) (i : nat) (formData : value)
         {struct elems} : result value :=
         match elems with
         | [] => Ok formData
         | None :: rest => loop rest (S i) formData
         | Some mappingValue :: rest =>
             let* formData1 := dispatch (Str.of_nat i) mappingValue formData in
             loop rest (S i) formData1
         end) elems 0%nat formData
  | VStr _ =>
      foldM (fun formData '(apiKey, mappingValue) =>
               match mappingValue with
               | VStr formKey => process_leaf source apiKey formKey formData
               | _ => Ok formData
               end)
            (own_props mappingSchema) formData
  | _ => Ok formData
  end.

End ProcessMapping.

Definition normalize (apiData mapping : value) (opts : normalize_options) : result value :=
  processMapping opts apiData mapping (spread [defaultValues opts]).

(** ** denormalizer.js *)

Record denormalize_options : Type := {
  omitUndefined : bool;
  omitNull : bool;
  d_transform : value
}.

Definition denormalize_defaults : denormalize_options :=
  {| omitUndefined := true; omitNull := false; d_transform := VObj [] |}.

(** One iteration of the loop of [processFormData]. *)
Definition denormalize_entry (opts : denormalize_options) (source : value)
  (formKey : string) (apiPath : value) (apiPayload : value) : result value :=
  let v := getNestedValue source formKey in
  if omitUndefined opts && is_undefined v then Ok apiPayload
  else if omitNull opts && is_null v then Ok apiPayload
  else
    let* v := apply_transform (d_transform opts) formKey v source in
    match apiPath with
    | VStr p =>
        if Str.includes_dot p then setNestedValue apiPayload p v
        else set_prop apiPayload p v
    | VArr _ => Unmodelled
    | _ => Throw TypeError
    end.

Definition processFormData (opts : denormalize_options) (source invertedMapping : value)
  (apiPayload : value) : result value :=
  foldM (fun payload '(formKey, apiPath) =>
           denormalize_entry opts source formKey apiPath payload)
        (own_props invertedMapping) apiPayload.

Definition denormalize (formData mapping : value) (opts : denormalize_options)
  : result value :=
  let formToApi := invertMapping mapping in
  processFormData opts formData formToApi (VObj []).

Definition denormalizeForPost (formData mapping : value) (opts : denormalize_options)
  : result value :=
  denormalize formData mapping
    {| omitUndefined := false; omitNull := false; d_transform := d_transform opts |}.

Definition denormalizeForPatch (formData mapping : value) (opts : denormalize_options)
  : result value :=
  denormalize formData mapping
    {| omitUndefined := true; omitNull := false; d_transform := d_transform opts |}.

(** ** payloadBuilder.js *)

Record builder_options : Type := {
  b_transform : value;
  validation : value;
  b_defaults : value
}.

Definition builder_defaults : builder_options :=
  {| b_transform := VObj []; validation := VNull; b_defaults := VObj [] |}.

(** [if (validation) { ... throw ... }] *)
Definition validate (validation : value) (data : value) : result unit :=
  if truthy validation then
    let* validationResult := call validation [data] in
    let* valid := get_prop validationResult "valid" in
    if truthy valid then Ok tt
    else
      let* errors := get_prop validationResult "errors" in
      match errors with
      | VArr _ => Throw ValidationError
      | VObj _ | VDate _ | VFun _ => Unmodelled
      | _ => Throw TypeError
      end
  else Ok tt.

Section Builders.
Variable same_ref : value -> value -> bool.

(** [null] is the answer "nothing to send". *)
Definition buildPatchPayload (initialForm currentForm mapping : value)
  (opts : builder_options) : result value :=
  let* changed := hasChanges initialForm currentForm in
  if negb changed then Ok VNull
  else
    let* changes := diff same_ref initialForm currentForm default_options in
    let* _ := validate (validation opts) changes in
    let* payload :=
      denormalizeForPatch changes mapping
        {| omitUndefined := true; omitNull := false; d_transform := b_transform opts |} in
    if (0 <? length (own_keys payload))%nat then Ok payload else Ok VNull.

Definition buildPostPayload (formData mapping : value) (opts : builder_options)
  : result value :=
  let completeData := spread [b_defaults opts; formData] in
  let* _ := validate (validation opts) completeData in
  denormalizeForPost completeData mapping
    {| omitUndefined := false; omitNull := false; d_transform := b_transform opts |}.

Definition buildPutPayload (formData mapping : value) (opts : builder_options)
  : result value :=
  buildPostPayload formData mapping opts.

Definition buildPartialPayload (formData : value) (fields : list string)
  (mapping : value) (opts : denormalize_options) : result value :=
  let* partialData :=
    foldM (fun partialData field =>
             match formData with
             | VObj _ | VArr _ | VDate _ | VFun _ =>
                 if has_own formData field
                 then set_prop partialData field (get_own formData field)
                 else Ok partialData
             | _ => Throw TypeError
             end)
          fields (VObj []) in
  denormalize partialData mapping opts.

End Builders.

(** ** Mapper.js *)

Record Mapper : Type := {
  apiToFormMapping : value;
  formToApiMapping : value;
  transforms : value;
  defaults : value;
  validator : value;
  options : value
}.

(** A destructured field with its default, [{ k = dflt } = config]. *)
Definition field_or (config : value) (k : string) (dflt : value) : value :=
  let v := get_own config k in
  if is_undefined v then dflt else v.

Definition base_options : value :=
  VObj [("typeCoercion", VBool true); ("omitUndefined", VBool true);
        ("omitNull", VBool false); ("compareArrays", VBool true)].

(** [new Mapper(config)] *)
Definition Mapper_new (config : value) : result Mapper :=
  let config := if is_undefined config then VObj [] else config in
  if is_null config then Throw TypeError
  else
    let apiToForm := field_or config "apiToForm" (VObj []) in
    let formToApi := field_or config "formToApi" VNull in
    if negb (truthy apiToForm) || (length (own_keys apiToForm) =? 0)%nat
    then Throw ConfigError
    else Ok {| apiToFormMapping := apiToForm;
               formToApiMapping :=
                 if truthy formToApi then formToApi else invertMapping apiToForm;
               transforms := field_or config "transforms" (VObj []);
               defaults := field_or config "defaults" (VObj []);
               validator := field_or config "validator" VNull;
               options := spread [base_options; field_or config "options" (VObj [])] |}.

(** An option read by a callee that destructures it with a default. *)
Definition option_flag (opts : value) (k : string) (dflt : bool) : bool :=
  let v := get_own opts k in
  if is_undefined v then dflt else truthy v.

Section Methods.
Variable same_ref : value -> value -> bool.
Variable this : Mapper.

Definition Mapper_normalize (apiData : value) : result value :=
  normalize apiData (apiToFormMapping this)
    {| typeCoercion := option_flag (options this) "typeCoercion" true;
       defaultValues := defaults this;
       n_transform := transforms this |}.

Definition Mapper_denormalize (formData : value) : result value :=
  denormalize formData (apiToFormMapping this)
    {| omitUndefined := option_flag (options this) "omitUndefined" true;
       omitNull := option_flag (options this) "omitNull" false;
       d_transform := transforms this |}.

Definition Mapper_diff (original current : value) : result value :=
  diff same_ref original current
    {| compareArrays := option_flag (options this) "compareArrays" true;
       ignoreFields := [] |}.

Definition Mapper_buildPatch (initialForm currentForm : value) : result value :=
  buildPatchPayload same_ref initialForm currentForm (apiToFormMapping this)
    {| b_transform := transforms this; validation := validator this;
       b_defaults := VObj [] |}.

Definition Mapper_buildPost (formData : value) : result value :=
  buildPostPayload formData (apiToFormMapping this)
    {| b_transform := transforms this; validation := validator this;
       b_defaults := defaults this |}.

Definition Mapper_buildPut (formData : value) : result value :=
  buildPutPayload formData (apiToFormMapping this)
    {| b_transform := transforms this; validation := validator this;
       b_defaults := defaults this |}.

Definition Mapper_buildPartial (formData : value) (fields : list string) : result value :=
  buildPartialPayload formData fields (apiToFormMapping this)
    {| omitUndefined := true; omitNull := false; d_transform := transforms this |}.

(** The record [clone] lists before it spreads the overrides over it. *)
Definition Mapper_config : value :=
  VObj [("apiToForm", apiToFormMapping this); ("formToApi", formToApiMapping this);
        ("transforms", transforms this); ("defaults", defaults this);
        ("validator", validator this); ("options", options this)].

(** [clone(config = {})] *)
Definition Mapper_clone (config : value) : result Mapper :=
  let config := if is_undefined config then VObj [] else config in
  Mapper_new (spread [Mapper_config; config]).

(** One key of the configuration [clone] builds: the value [overrides]
    holds under the key when it has the key, the handle's otherwise. *)
Definition override (overrides : value) (k : string) (current : value) : value :=
  if has_own overrides k then get_own overrides k else current.

Definition Mapper_overridden (overrides : value) : value :=
  VObj [("apiToForm", override overrides "apiToForm" (apiToFormMapping this));
        ("formToApi", override overrides "formToApi" (formToApiMapping this));
        ("transforms", override overrides "transforms" (transforms this));
        ("defaults", override overrides "defaults" (defaults this));
        ("validator", override overrides "validator" (validator this));
        ("options", override overrides "options" (options this))].

End Methods.

End Functions.

End Values.

(** ** The store

    The same program on a store of objects, for the properties that speak
    of allocation and sharing.  A value is a primitive or the address of
    an object; an operation is a function of the store.  The caller's
    functions (transforms, validator) are left out: what they do to the
    store is theirs.  The recursion of [computeDiff] follows the objects of
    the store and is bounded by [fuel]; a run that needs more nested calls
    ends [Unmodelled]. *)

Module Store.
Section WithHost.
Context {host : Host}.

(** The mapping is a tree; these two name the tree functions the
    operations of the store use on it. *)
Definition tree_isPlainObject (m : value) : bool := isPlainObject m.
Definition tree_own_props (m : value) : list (string * value) := own_props m.

Definition loc : Type := nat.

Inductive hval : Type :=
| HUndef
| HNull
| HBool (b : bool)
| HNum (n : number)
| HStr (s : string)
| HFun (f : nat)
| HRef (l : loc).

Inductive hobj : Type :=
| HRecord (ps : list (string * hval))
| HArray (elems : list (option hval))
| HDate (t : number).

Definition store : Type := list hobj.

Definition M (A : Type) : Type := store -> result (A * store).

Definition ret {A : Type} (a : A) : M A := fun h => Ok (a, h).

Definition mbind {A B : Type} (m : M A) (k : A -> M B) : M B :=
  fun h =>
    match m h with
    | Ok (a, h') => k a h'
    | Throw e => Throw e
    | Unmodelled => Unmodelled
    end.

Definition throw {A : Type} (e : error) : M A := fun _ => Throw e.
Definition unmodelled {A : Type} : M A := fun _ => Unmodelled.

Notation "'let!' x ':=' m 'in' k" := (mbind m (fun x => k))
  (at level 10, x name, m at level 100, k at level 200, only parsing).

Fixpoint mfold {A B : Type} (f : B -> A -> M B) (l : list A) (b : B) : M B :=
  match l with
  | [] => ret b
  | a :: rest => let! b' := f b a in mfold f rest b'
  end.

Fixpoint each {A : Type} (f : A -> M unit) (l : list A) : M unit :=
  match l with
  | [] => ret tt
  | a :: rest => let! _ := f a in each f rest
  end.

(** [{}], [[]], [new Date(..)]: a new object at the next free address. *)
Definition alloc (o : hobj) : M loc := fun h => Ok (length h, (h ++ [o])%list).

Definition load (l : loc) : M hobj :=
  fun h => match h !! l with Some o => Ok (o, h) | None => Unmodelled end.

Definition store_at (l : loc) (o : hobj) : M unit := fun h => Ok (tt, <[l := o]> h).

Definition truthy (v : hval) : bool :=
  match v with
  | HUndef | HNull => false
  | HBool b => b
  | HNum n => negb (num_isNaN n || num_eqb n (num_of_N 0))
  | HStr s => negb (String.eqb s "")
  | HFun _ | HRef _ => true
  end.

Definition typeof (v : hval) : jstype :=
  match v with
  | HUndef => TUndefined
  | HNull | HRef _ => TObject
  | HBool _ => TBoolean
  | HNum _ => TNumber
  | HStr _ => TString
  | HFun _ => TFunction
  end.

Definition is_nullish (v : hval) : bool :=
  match v with HUndef | HNull => true | _ => false end.

Definition is_undefined (v : hval) : bool :=
  match v with HUndef => true | _ => false end.

Definition is_null (v : hval) : bool :=
  match v with HNull => true | _ => false end.

(** [a === b]: two objects are equal when they are one address. *)
Definition strict_eq (a b : hval) : bool :=
  match a, b with
  | HUndef, HUndef | HNull, HNull => true
  | HBool x, HBool y => Bool.eqb x y
  | HNum x, HNum y => num_eqb x y
  | HStr x, HStr y => String.eqb x y
  | HFun f, HFun g => Nat.eqb f g
  | HRef l, HRef m => Nat.eqb l m
  | _, _ => false
  end.

Definition isPlainObject (v : hval) : M bool :=
  match v with
  | HRef l =>
      let! o := load l in
      ret (match o with HArray _ => false | _ => true end)
  | _ => ret false
  end.

Definition isArray (v : hval) : M bool :=
  match v with
  | HRef l =>
      let! o := load l in
      ret (match o with HArray _ => true | _ => false end)
  | _ => ret false
  end.

Definition slot (elems : list (option hval)) (i : nat) : hval :=
  match nth_error elems i with
  | Some (Some v) => v
  | _ => HUndef
  end.

Definition string_slot (s : string) (i : nat) : hval :=
  match String.get i s with
  | Some c => HStr (String c EmptyString)
  | None => HUndef
  end.

Definition get_in (o : hobj) (k : string) : hval :=
  match o with
  | HRecord ps => match lookup_prop k ps with Some x => x | None => HUndef end
  | HArray elems =>
      match Str.array_index k with
      | Some i => slot elems (N.to_nat i)
      | None =>
          if String.eqb k "length" then HNum (num_of_N (N.of_nat (length elems)))
          else HUndef
      end
  | HDate _ => HUndef
  end.

(** [v[k]] for a [v] that is neither [undefined] nor [null]. *)
Definition get_own (v : hval) (k : string) : M hval :=
  match v with
  | HRef l => let! o := load l in ret (get_in o k)
  | HStr s =>
      ret (match Str.array_index k with
           | Some i => string_slot s (N.to_nat i)
           | None =>
               if String.eqb k "length"
               then HNum (num_of_N (N.of_nat (String.length s)))
               else HUndef
           end)
  | _ => ret HUndef
  end.

Definition get_prop (v : hval) (k : string) : M hval :=
  if is_nullish v then throw TypeError else get_own v k.

Definition get_prop_opt (v : hval) (k : string) : M hval :=
  if is_nullish v then ret HUndef else get_own v k.

(** [recv[k] = x]: the object at the address of [recv] is updated in
    place. *)
Definition set_prop (recv : hval) (k : string) (x : hval) : M unit :=
  match recv with
  | HRef l =>
      let! o := load l in
      match o with
      | HRecord ps => store_at l (HRecord (obj_set k x ps))
      | HArray elems =>
          match Str.array_index k with
          | Some i => store_at l (HArray (arr_set elems (N.to_nat i) x))
          | None => unmodelled
          end
      | HDate _ => unmodelled
      end
  | HUndef | HNull => throw TypeError
  | HBool _ | HNum _ | HStr _ => ret tt
  | HFun _ => unmodelled
  end.

Definition props_of (o : hobj) : list (string * hval) :=
  match o with
  | HRecord ps => ps
  | HArray elems =>
      flat_map (fun '(i, e) => match e with
                               | Some x => [(Str.of_nat i, x)]
                               | None => []
                               end) (indexed elems)
  | HDate _ => []
  end.

Definition own_props (v : hval) : M (list (string * hval)) :=
  match v with
  | HRef l => let! o := load l in ret (props_of o)
  | HStr s =>
      ret (map (fun '(i, c) => (Str.of_nat i, HStr (String c EmptyString)))
               (indexed (Str.chars s)))
  | _ => ret []
  end.

(** The slots of a sequence, for [Array.prototype.map]. *)
Definition own_slots (v : hval) : M (list (option hval)) :=
  match v with
  | HRef l =>
      let! o := load l in
      ret (match o with HArray elems => elems | _ => [] end)
  | _ => ret []
  end.

Definition has_own (v : hval) (k : string) : M bool :=
  match v with
  | HRef l =>
      let! o := load l in
      ret (match o with
           | HRecord ps => has_key k ps
           | HArray elems =>
               match Str.array_index k with
               | Some i => match nth_error elems (N.to_nat i) with
                           | Some (Some _) => true
                           | _ => false
                           end
               | None => String.eqb k "length"
               end
           | HDate _ => false
           end)
  | _ => ret false
  end.

(** [{ ...a, ...b }]: a new record with the own properties of each. *)
Definition spread (vs : list hval) : M loc :=
  let! ps := mfold (fun acc v =>
                      let! more := own_props v in
                      ret (fold_left (fun acc '(k, x) => obj_set k x acc) more acc))
                   vs [] in
  alloc (HRecord ps).

(** *** utils.js *)

Fixpoint getNested_loop (current : hval) (keys : list string) : M hval :=
  match keys with
  | [] => ret current
  | key :: rest =>
      if is_nullish current then ret HUndef
      else let! next := get_own current key in getNested_loop next rest
  end.

Definition getNestedValue (obj : hval) (path : string) : M hval :=
  getNested_loop obj (Str.split_dot path).

Fixpoint setNested_loop (current : hval) (keys : list string) (lastKey : string)
  (v : hval) : M unit :=
  match keys with
  | [] => set_prop current lastKey v
  | key :: rest =>
      let! c0 := get_prop current key in
      let! plain := isPlainObject c0 in
      let! _ :=
        if negb (truthy c0) || negb plain
        then let! fresh := alloc (HRecord []) in set_prop current key (HRef fresh)
        else ret tt in
      let! next := get_prop current key in
      setNested_loop next rest lastKey v
  end.

Definition setNestedValue (obj : hval) (path : string) (v : hval) : M unit :=
  let keys := Str.split_dot path in
  setNested_loop obj (removelast keys) (List.last keys "") v.

(** *** normalizer.js *)

(** [new Date(value)] allocates. *)
Definition coerceType (v : hval) : M hval :=
  let numeric :=
    match v with
    | HStr s =>
        if negb (num_isNaN (StringToNumber s)) && negb (String.eqb (Str.trim s) "")
        then let num := StringToNumber s in
             if num_isFinite num then Some (HNum num) else None
        else None
    | _ => None
    end in
  match numeric with
  | Some r => ret r
  | None =>
      match v with
      | HStr s =>
          if String.eqb s "true" then ret (HBool true)
          else if String.eqb s "false" then ret (HBool false)
          else if Str.iso_prefix s
               then let! date := alloc (HDate (Date_parse s)) in
                    if negb (num_isNaN (Date_parse s)) then ret (HRef date) else ret v
               else ret v
      | _ => ret v
      end
  end.

Definition process_leaf (typeCoercion : bool) (source : hval) (apiKey formKey : string)
  (formData : hval) : M unit :=
  let! sourceValue := get_prop_opt source apiKey in
  let! v := if typeCoercion && negb (is_null sourceValue) && negb (is_undefined sourceValue)
            then coerceType sourceValue else ret sourceValue in
  if negb (is_undefined v) then setNestedValue formData formKey v else ret tt.

(** The mapping is only read: it stays a tree. *)
Fixpoint processMapping (typeCoercion : bool) (source : hval) (mappingSchema : value)
  (formData : hval) {struct mappingSchema} : M unit :=
  let entry (apiKey : string) (mappingValue : value)
            (nested : hval -> M unit) (item : hval -> M unit) (itemIsPlain : bool)
    : M unit :=
    let! sourceValue := get_prop_opt source apiKey in
    match mappingValue with
    | VStr formKey => process_leaf typeCoercion source apiKey formKey formData
    | VObj _ | VDate _ =>
        let! plain := isPlainObject sourceValue in
        if plain then nested sourceValue else ret tt
    | VArr _ =>
        let! isArr := isArray sourceValue in
        if isArr then
          let! selems := own_slots sourceValue in
          let! out :=
            mfold (fun out e =>
                     match e with
                     | None => ret (out ++ [None])%list
                     | Some it =>
                         if itemIsPlain
                         then let! normalized := alloc (HRecord []) in
                              let! _ := item it in
                              ret (out ++ [Some (HRef normalized)])%list
                         else ret (out ++ [Some it])%list
                     end)
                  selems [] in
          let! arr := alloc (HArray out) in
          set_prop formData apiKey (HRef arr)
        else ret tt
    | _ => ret tt
    end in
  let dispatch (apiKey : string) (mappingValue : value) : M unit :=
    match mappingValue with
    | VArr (Some itemMapping :: _) =>
        entry apiKey mappingValue (fun _ => ret tt)
              (fun it => processMapping typeCoercion it itemMapping formData)
              (tree_isPlainObject itemMapping)
    | VObj _ =>
        entry apiKey mappingValue
              (fun sv => processMapping typeCoercion sv mappingValue formData)
              (fun _ => ret tt) false
    | _ => entry apiKey mappingValue (fun _ => ret tt) (fun _ => ret tt) false
    end in
  match mappingSchema with
  | VObj ps =>
      (fix loop (ps : list (string * value)) {struct ps} : M unit :=
         match ps with
         | [] => ret tt
         | (apiKey, mappingValue) :: rest =>
             let! _ := dispatch apiKey mappingValue in loop rest
         end) ps
  | VArr elems =>
      (fix loop (elems : list (option value)) (i : nat) {struct elems} : M unit :=
         match elems with
         | [] => ret tt
         | None :: rest => loop rest (S i)
         | Some mappingValue :: rest =>
             let! _ := dispatch (Str.of_nat i) mappingValue in loop rest (S i)
         end) elems 0%nat
  | VStr _ =>
      each (fun '(apiKey, mappingValue) =>
              match mappingValue with
              | VStr formKey => process_leaf typeCoercion source apiKey formKey formData
              | _ => ret tt
              end)
           (tree_own_props mappingSchema)
  | _ => ret tt
  end.

Definition normalize (apiData : hval) (mapping : value) (typeCoercion : bool)
  (defaultValues : hval) : M hval :=
  let! formData := spread [defaultValues] in
  let! _ := processMapping typeCoercion apiData mapping (HRef formData) in
  ret (HRef formData).

(** *** denormalizer.js *)

Definition denormalize_entry (omitUndefined omitNull : bool) (source : hval)
  (formKey : string) (apiPath : value) (apiPayload : hval) : M unit :=
  let! v := getNestedValue source formKey in
  if omitUndefined && is_undefined v then ret tt
  else if omitNull && is_null v then ret tt
  else
    match apiPath with
    | VStr p =>
        if Str.includes_dot p then setNestedValue apiPayload p v
        else set_prop apiPayload p v
    | VArr _ => unmodelled
    | _ => throw TypeError
    end.

Definition denormalize (formData : hval) (mapping : value)
  (omitUndefined omitNull : bool) : M hval :=
  let formToApi := invertMapping mapping in
  let! apiPayload := alloc (HRecord []) in
  let! _ := each (fun '(formKey, apiPath) =>
                    denormalize_entry omitUndefined omitNull formData formKey apiPath
                                      (HRef apiPayload))
                 (tree_own_props formToApi) in
  ret (HRef apiPayload).

(** *** differ.js *)

Definition traverse {A B : Type} (f : A -> option B) : list A -> option (list B) :=
  fix go (l : list A) : option (list B) :=
    match l with
    | [] => Some []
    | a :: rest =>
        match f a, go rest with
        | Some b, Some bs => Some (b :: bs)
        | _, _ => None
        end
    end.

(** The tree below a value of the store, for [JSON.stringify]; [None]
    when an object is met again below itself. *)
Fixpoint reify (fuel : nat) (h : store) (v : hval) : option value :=
  match v with
  | HUndef => Some VUndef
  | HNull => Some VNull
  | HBool b => Some (VBool b)
  | HNum n => Some (VNum n)
  | HStr s => Some (VStr s)
  | HFun f => Some (VFun f)
  | HRef l =>
      match fuel with
      | O => None
      | S fuel' =>
          match h !! l with
          | Some (HRecord ps) =>
              option_map VObj
                (traverse (fun '(k, x) => option_map (pair k) (reify fuel' h x)) ps)
          | Some (HArray elems) =>
              option_map VArr
                (traverse (fun e => match e with
                                    | Some x => option_map Some (reify fuel' h x)
                                    | None => Some None
                                    end) elems)
          | Some (HDate t) => Some (VDate t)
          | None => None
          end
      end
  end.

(** [JSON.stringify(v)]: a [TypeError] on a circular structure. *)
Definition stringify (v : hval) : M (option string) :=
  fun h =>
    match reify (S (length h)) h v with
    | Some t =>
        match JSON_stringify t with
        | Ok text => Ok (text, h)
        | Throw e => Throw e
        | Unmodelled => Unmodelled
        end
    | None => Throw TypeError
    end.

Definition hasChanges (original current : hval) : M bool :=
  let! s1 := stringify original in
  let! s2 := stringify current in
  ret (negb (option_string_eqb s1 s2)).

Definition object_assign (obj : hval) (v : hval) : M unit :=
  let! ps := own_props v in
  each (fun '(k, x) => set_prop obj k x) ps.

Fixpoint setChange_loop (current : hval) (keys : list string) (lastKey : string)
  (v : hval) : M unit :=
  match keys with
  | [] => set_prop current lastKey v
  | key :: rest =>
      match Str.arrayMatch key with
      | Some (arrayKey, index) =>
          if (Str.max_index <=? index)%N then unmodelled
          else
            let ik := Str.of_N index in
            let! a0 := get_prop current arrayKey in
            let! _ :=
              if truthy a0 then ret tt
              else let! fresh := alloc (HArray []) in
                   set_prop current arrayKey (HRef fresh) in
            let! arr := get_prop current arrayKey in
            let! e0 := get_prop arr ik in
            let! _ :=
              if truthy e0 then ret tt
              else let! fresh := alloc (HRecord []) in set_prop arr ik (HRef fresh) in
            let! next := get_prop arr ik in
            setChange_loop next rest lastKey v
      | None =>
          let! c0 := get_prop current key in
          let! _ :=
            if truthy c0 then ret tt
            else let! fresh := alloc (HRecord []) in set_prop current key (HRef fresh) in
          let! next := get_prop current key in
          setChange_loop next rest lastKey v
      end
  end.

Definition setChangePath (obj : hval) (path : string) (v : hval) : M unit :=
  if String.eqb path "" then object_assign obj v
  else
    let keys := Str.split_dot path in
    setChange_loop obj (removelast keys) (List.last keys "") v.

(** [computeDiff] on the change record at [changes].  The keys of a
    record and the length of a sequence are taken when their loop starts;
    the values are read as the loop goes. *)
Fixpoint computeDiff (fuel : nat) (opts : diff_options) (changes : hval)
  (oldVal newVal : hval) (path : string) {struct fuel} : M unit :=
  match fuel with
  | O => unmodelled
  | S fuel' =>
      if existsb (String.eqb path) (ignoreFields opts) then ret tt
      else if strict_eq oldVal newVal then ret tt
      else if negb (jstype_eqb (typeof oldVal) (typeof newVal))
           then setChangePath changes path newVal
      else
        match newVal with
        | HRef _ =>
            let! newIsArray := isArray newVal in
            if newIsArray then
              if negb (compareArrays opts) then
                let! so := stringify oldVal in
                let! sn := stringify newVal in
                if option_string_eqb so sn then ret tt
                else setChangePath changes path newVal
              else
                let! oldIsArray := isArray oldVal in
                let! oelems := own_slots oldVal in
                let! elems := own_slots newVal in
                if negb oldIsArray || negb (length oelems =? length elems)%nat
                then setChangePath changes path newVal
                else
                  each (fun i =>
                          let! o := get_own oldVal (Str.of_nat i) in
                          let! n := get_own newVal (Str.of_nat i) in
                          computeDiff fuel' opts changes o n (item_path path i))
                       (seq 0 (length elems))
            else
              let! oldIsPlain := isPlainObject oldVal in
              if negb oldIsPlain then setChangePath changes path newVal
              else
                let! nps := own_props newVal in
                let! _ :=
                  each (fun key =>
                          let! o := get_prop_opt oldVal key in
                          let! n := get_own newVal key in
                          computeDiff fuel' opts changes o n (child_path path key))
                       (map fst nps) in
                let! ops := own_props oldVal in
                each (fun key =>
                        let! present := has_own newVal key in
                        if present then ret tt
                        else setChangePath changes (child_path path key) HUndef)
                     (map fst ops)
        | _ =>
            if negb (strict_eq oldVal newVal) then setChangePath changes path newVal
            else ret tt
        end
  end.


Definition diff (fuel : nat) (original current : hval) (opts : diff_options) : M hval :=
  let! changes := alloc (HRecord []) in
  let! _ := computeDiff fuel opts (HRef changes) original current "" in
  ret (HRef changes).

(** *** payloadBuilder.js, without validator *)

Definition buildPatchPayload (fuel : nat) (initialForm currentForm : hval)
  (mapping : value) : M hval :=
  let! changed := hasChanges initialForm currentForm in
  if negb changed then ret HNull
  else
    let! changes := diff fuel initialForm currentForm default_options in
    let! payload := denormalize changes mapping true false in
    let! ps := own_props payload in
    if (0 <? length ps)%nat then ret payload else ret HNull.

Definition buildPostPayload (formData : hval) (mapping : value) (defaults : hval)
  : M hval :=
  let! completeData := spread [defaults; formData] in
  denormalize (HRef completeData) mapping false false.

Definition buildPutPayload (formData : hval) (mapping : value) (defaults : hval)
  : M hval :=
  buildPostPayload formData mapping defaults.

Definition buildPartialPayload (formData : hval) (fields : list string)
  (mapping : value) (omitUndefined omitNull : bool) : M hval :=
  let! partialData := alloc (HRecord []) in
  let! _ :=
    each (fun field =>
            match formData with
            | HRef _ | HFun _ =>
                let! present := has_own formData field in
                if present
                then let! x := get_own formData field in
                     set_prop (HRef partialData) field x
                else ret tt
            | _ => throw TypeError
            end)
         fields in
  denormalize (HRef partialData) mapping omitUndefined omitNull.

(** *** Sharing *)




(** An operation never shrinks the store: objects are allocated and
    updated, never freed. *)
Definition grows {A : Type} (m : M A) : Prop :=
  forall h a h', m h = Ok (a, h') -> length h <= length h'.


End WithHost.
End Store.

(** ** Induction on values and the shape of input trees *)

Section ValueInduction.
Context {host : Host}.
Variable P : value -> Prop.
Hypothesis HUndef : P VUndef.
Hypothesis HNull : P VNull.
Hypothesis HBool : forall b, P (VBool b).
Hypothesis HNum : forall n, P (VNum n).
Hypothesis HStr : forall s, P (VStr s).
Hypothesis HFun : forall f, P (VFun f).
Hypothesis HDate : forall t, P (VDate t).
Hypothesis HArr : forall elems,
  Forall (fun e => match e with Some x => P x | None => True end) elems ->
  P (VArr elems).
Hypothesis HObj : forall ps, Forall (fun kv => P (snd kv)) ps -> P (VObj ps).

Fixpoint value_ind (v : value) : P v :=
  match v with
  | VUndef => HUndef
  | VNull => HNull
  | VBool b => HBool b
  | VNum n => HNum n
  | VStr s => HStr s
  | VFun f => HFun f
  | VDate t => HDate t
  | VArr elems =>
      HArr elems
        ((fix each (l : list (option value))
            : Forall (fun e => match e with Some x => P x | None => True end) l :=
            match l with
            | [] => @List.Forall_nil _ _
            | e :: rest =>
                @List.Forall_cons _ _ e rest
                  (match e as e0 return match e0 with Some x => P x | None => True end with
                   | Some x => value_ind x
                   | None => I
                   end)
                  (each rest)
            end) elems)
  | VObj ps =>
      HObj ps
        ((fix each (l : props) : Forall (fun kv => P (snd kv)) l :=
            match l with
            | [] => @List.Forall_nil _ _
            | kv :: rest => @List.Forall_cons _ _ kv rest (value_ind (snd kv)) (each rest)
            end) ps)
  end.

End ValueInduction.

Section Shapes.
Context {host : Host}.

(** A record of the program has each key once. *)
Fixpoint unique_keys (ps : props) : bool :=
  match ps with
  | [] => true
  | (k, _) :: rest => negb (has_key k rest) && unique_keys rest
  end.

Fixpoint well_formed (v : value) : bool :=
  match v with
  | VArr elems =>
      (fix each (l : list (option value)) : bool :=
         match l with
         | [] => true
         | Some x :: rest => well_formed x && each rest
         | None :: rest => each rest
         end) elems
  | VObj ps =>
      unique_keys ps
      && (fix each (l : props) : bool :=
            match l with
            | [] => true
            | (_, x) :: rest => well_formed x && each rest
            end) ps
  | _ => true
  end.

(** No number of the tree is [NaN], the one value that differs from itself. *)
Fixpoint nan_free (v : value) : bool :=
  match v with
  | VNum n => negb (num_isNaN n)
  | VArr elems =>
      (fix each (l : list (option value)) : bool :=
         match l with
         | [] => true
         | Some x :: rest => nan_free x && each rest
         | None :: rest => each rest
         end) elems
  | VObj ps =>
      (fix each (l : props) : bool :=
         match l with
         | [] => true
         | (_, x) :: rest => nan_free x && each rest
         end) ps
  | _ => true
  end.

(** A value that is not an object: [typeof v !== 'object' || v === null]. *)
Definition is_scalar (v : value) : bool :=
  match v with
  | VDate _ | VArr _ | VObj _ => false
  | _ => true
  end.

End Shapes.

(** ** Reports of a run of [computeDiff]

    A computation over the accumulator that only ever reports. *)

Section Reports.
Context {host : Host}.

Definition reporter : Type :=
  forall A : Type, (A -> string -> value -> result A) -> A -> result A.

(** [replays run trace]: whatever the reporting call, [run] amounts to
    making the reports of [trace] in order. *)
Definition replays (run : reporter) (trace : list (string * value)) : Prop :=
  forall (A : Type) (emit : A -> string -> value -> result A) (changes : A),
    run A emit changes = replay emit trace changes.

End Reports.

(** ** Mapping trees of two levels

    The mappings [invertMapping] inverts with the whole source path: leaves
    at the top and leaves one record down. *)

Section Mappings.
Context {host : Host}.

(** [`${key}.${nestedKey}`], for any number of segments. *)
Definition dotted (path : list string) : string := String.concat "." path.

Definition nested_leaves (key : string) (nested : props) : list (list string * string) :=
  flat_map (fun '(nestedKey, v) =>
              match v with
              | VStr name => [([key; nestedKey], name)]
              | _ => []
              end) nested.

(** The leaves of a mapping tree at most two levels deep: the segments of
    the source path and the target name. *)
Definition mapped_leaves (mapping : props) : list (list string * string) :=
  flat_map (fun '(key, v) =>
              match v with
              | VStr name => [([key], name)]
              | VObj nested => nested_leaves key nested
              | _ => []
              end) mapping.

Definition leaf_record (nested : props) : bool :=
  forallb (fun '(_, v) => match v with VStr _ => true | _ => false end) nested.

Definition two_levels (mapping : props) : bool :=
  forallb (fun '(_, v) => match v with
                          | VStr _ => true
                          | VObj nested => leaf_record nested
                          | _ => false
                          end) mapping.

(** A key or a name that is one segment of a path. *)
Definition plain (s : string) : bool := negb (Str.includes_dot s).

Definition plain_leaf (leaf : list string * string) : bool :=
  forallb plain (fst leaf) && plain (snd leaf).

(** Where the mapping nests, the source holds no string and no sequence
    (whose [length] and indices [getNestedValue] would read). *)
Definition fits (x : value) (mapping : props) : bool :=
  forallb (fun '(key, v) =>
             match v with
             | VObj _ => match get_prop_opt x key with
                         | VStr _ | VArr _ => false
                         | _ => true
                         end
             | _ => true
             end) mapping.

(** [normalize] with [{ typeCoercion: false }]. *)
Definition coercion_off : normalize_options :=
  {| typeCoercion := false; defaultValues := VObj []; n_transform := VObj [] |}.

(** What [processMapping] does with one leaf under [coercion_off]. *)
Definition store_leaf (x : value) (fs : props) (leaf : list string * string) : props :=
  let v := getNested_loop x (fst leaf) in
  if is_undefined v then fs else obj_set (snd leaf) v fs.

(** What [invert] does with one leaf. *)
Definition invert_leaf (target : props) (leaf : list string * string) : props :=
  put (snd leaf) (VStr (dotted (fst leaf))) target.

(** What an iteration of [processFormData] writes for a path of one or two
    segments. *)
Definition write_at (path : list string) (v : value) (ps : props) : props :=
  match path with
  | [k] => obj_set k v ps
  | [k; k2] =>
      match lookup_prop k ps with
      | Some (VObj inner) => obj_set k (VObj (obj_set k2 v inner)) ps
      | _ => obj_set k (VObj (obj_set k2 v [])) (obj_set k (VObj []) ps)
      end
  | _ => ps
  end.

(** The payload holds a record, or nothing yet, at the first segment. *)
Definition parent_ready (ps : props) (k : string) : Prop :=
  lookup_prop k ps = None \/ exists inner, lookup_prop k ps = Some (VObj inner).

Definition reads (ps : props) (path : list string) : value :=
  getNested_loop (VObj ps) path.

(** The payload under construction: a record or nothing where the paths
    nest, and at each leaf nothing yet or the value of the source. *)
Definition settled (x : value) (leaves : list (list string * string)) (ps : props)
  : Prop :=
  (forall k k2 t, In ([k; k2], t) leaves -> parent_ready ps k)
  /\ (forall path t, In (path, t) leaves ->
       reads ps path = VUndef \/ reads ps path = getNested_loop x path).

End Mappings.

(** ** The rest of the library

    The functions of [utils.js], [differ.js], [normalizer.js],
    [denormalizer.js] and [Mapper.js] that the sections above leave out. *)

Section Library.
Context {host : Host}.

(** *** utils.js *)

(** [deepClone]: a primitive or a function is returned as it is; a
    sequence is mapped slot by slot ([Array.prototype.map] keeps the empty
    slots); anything else that is an object is copied key by key into
    [{}], so that a [Date], which has no enumerable key, comes out as
    [{}]. *)
Fixpoint deepClone (obj : value) : value :=
  match obj with
  | VArr elems =>
      VArr ((fix each (elems : list (option value)) : list (option value) :=
               match elems with
               | [] => []
               | Some item :: rest => Some (deepClone item) :: each rest
               | None :: rest => None :: each rest
               end) elems)
  | VObj ps =>
      VObj ((fix loop (ps : props) (cloned : props) {struct ps} : props :=
               match ps with
               | [] => cloned
               | (key, x) :: rest => loop rest (obj_set key (deepClone x) cloned)
               end) ps [])
  | VDate _ => VObj []
  | _ => obj
  end.

(** [prefix ? `${prefix}.${key}` : key] is [child_path prefix key]. *)
Fixpoint flattenObject (obj : value) (prefix : string) {struct obj} : value :=
  match obj with
  | VObj ps =>
      VObj ((fix loop (ps : props) (flattened : props) {struct ps} : props :=
               match ps with
               | [] => flattened
               | (key, v) :: rest =>
                   let newKey := child_path prefix key in
                   loop rest
                     (match v with
                      | VObj _ | VDate _ =>
                          assign_props flattened (flattenObject v newKey)
                      | _ => obj_set newKey v flattened
                      end)
               end) ps [])
  | VArr elems =>
      VObj ((fix loop (elems : list (option value)) (i : nat) (flattened : props)
               {struct elems} : props :=
               match elems with
               | [] => flattened
               | None :: rest => loop rest (S i) flattened
               | Some v :: rest =>
                   let newKey := child_path prefix (Str.of_nat i) in
                   loop rest (S i)
                     (match v with
                      | VObj _ | VDate _ =>
                          assign_props flattened (flattenObject v newKey)
                      | _ => obj_set newKey v flattened
                      end)
               end) elems 0%nat [])
  | VStr _ =>
      VObj (fold_left (fun flattened '(key, v) =>
                         obj_set (child_path prefix key) v flattened)
                      (own_props obj) [])
  | _ => VObj []
  end.

Definition unflattenObject (obj : value) : result value :=
  foldM (fun result '(key, v) => setNestedValue result key v) (own_props obj) (VObj []).

(** *** differ.js *)

Section Traverse.
Variable same_ref : value -> value -> bool.

(** The second loop of [traverse], guarded by [isPlainObject(oldVal)]. *)
Definition deleted_paths (oldVal newVal : value) (path : string) (paths : list string)
  : list string :=
  if isPlainObject oldVal
  then (paths ++ map (child_path path)
                     (List.filter (fun key => negb (has_own newVal key))
                                  (own_keys oldVal)))%list
  else paths.

(** [traverse(oldVal, newVal, path)] of [getChangedPaths], on the list
    [paths] it pushes to. *)
Fixpoint traverse (oldVal newVal : value) (path : string) (paths : list string)
  {struct newVal} : result (list string) :=
  if strict_eq same_ref oldVal newVal then Ok paths
  else
    match newVal with
    | VArr _ =>
        if negb (isArray oldVal) then Ok (paths ++ [path])%list
        else
          let* so := JSON_stringify oldVal in
          let* sn := JSON_stringify newVal in
          if option_string_eqb so sn then Ok paths else Ok (paths ++ [path])%list
    | VObj ps =>
        let* paths1 :=
          (fix keys (ps : props) (paths : list string) {struct ps}
             : result (list string) :=
             match ps with
             | [] => Ok paths
             | (key, x) :: rest =>
                 let* paths1 :=
                   traverse (get_prop_opt oldVal key) x (child_path path key) paths in
                 keys rest paths1
             end) ps paths in
        Ok (deleted_paths oldVal newVal path paths1)
    | VDate _ => Ok (deleted_paths oldVal newVal path paths)
    | _ => Ok (paths ++ [path])%list
    end.

Definition getChangedPaths (original current : value) : result (list string) :=
  traverse original current "" [].

End Traverse.

(** *** normalizer.js *)

(** [path.split('.')] in [setNestedValue] on a path that is not a string. *)
Definition setNestedValue_at (obj : value) (path : value) (v : value) : result value :=
  match path with
  | VStr p => setNestedValue obj p v
  | _ => Throw TypeError
  end.

Definition normalizeFlat (apiData flatMapping : value) : result value :=
  foldM (fun formData '(apiPath, formPath) =>
           let v := getNestedValue apiData apiPath in
           if negb (is_undefined v) then setNestedValue_at formData formPath v
           else Ok formData)
        (own_props flatMapping) (VObj []).

(** *** denormalizer.js *)

Definition denormalizeFlat (formData formToApiMapping : value)
  (omitUndefined omitNull : bool) : result value :=
  foldM (fun apiPayload '(formPath, apiPath) =>
           let v := getNestedValue formData formPath in
           if omitUndefined && is_undefined v then Ok apiPayload
           else if omitNull && is_null v then Ok apiPayload
           else
             match apiPath with
             | VStr p =>
                 if Str.includes_dot p then setNestedValue apiPayload p v
                 else set_prop apiPayload p v
             | VArr _ => Unmodelled
             | _ => Throw TypeError
             end)
        (own_props formToApiMapping) (VObj []).

(** *** Mapper.js *)

Section MoreMethods.
Variable call_fn : nat -> list value -> result value.
Variable same_ref : value -> value -> bool.
Variable this : Mapper.

Definition Mapper_hasChanges (original current : value) : result bool :=
  hasChanges original current.

Definition Mapper_getChangedPaths (original current : value) : result (list string) :=
  getChangedPaths same_ref original current.

(** [createPatchFromApi(apiData, editedForm)] *)
Definition Mapper_createPatchFromApi (apiData editedForm : value) : result value :=
  let* initialForm := Mapper_normalize call_fn this apiData in
  Mapper_buildPatch call_fn same_ref this initialForm editedForm.

(** [getConfig()]: the validator is not exported. *)
Definition Mapper_getConfig : value :=
  VObj [("apiToForm", deepClone (apiToFormMapping this));
        ("formToApi", deepClone (formToApiMapping this));
        ("transforms", spread [transforms this]);
        ("defaults", deepClone (defaults this));
        ("options", spread [options this])].

End MoreMethods.

End Library.

(** ** Shapes of inputs for the library *)

Section LibraryShapes.
Context {host : Host}.

(** *** Shapes of trees *)

(** [key] is enumerated after the keys of [acc]: it is new, and when it is
    an array index the keys of [acc] are smaller indices. *)
Definition key_after (key : string) (acc : props) : bool :=
  negb (has_key key acc)
  && match Str.array_index key with
     | Some n =>
         forallb (fun '(k, _) => match Str.array_index k with
                                 | Some n' => (n' <? n)%N
                                 | None => false
                                 end) acc
     | None => true
     end.

(** The own properties [ps] come, after those of [acc], in the order the
    program enumerates them. *)
Fixpoint enumerated_from (acc ps : props) : bool :=
  match ps with
  | [] => true
  | (key, x) :: rest => key_after key acc && enumerated_from (acc ++ [(key, x)])%list rest
  end.

(** Every record of the tree has its keys in enumeration order, each
    once. *)
Fixpoint in_order (v : value) : bool :=
  match v with
  | VArr elems =>
      (fix each (l : list (option value)) : bool :=
         match l with
         | [] => true
         | Some x :: rest => in_order x && each rest
         | None :: rest => each rest
         end) elems
  | VObj ps =>
      enumerated_from [] ps
      && (fix each (l : props) : bool :=
            match l with
            | [] => true
            | (_, x) :: rest => in_order x && each rest
            end) ps
  | _ => true
  end.

(** The tree holds no [Date]. *)
Fixpoint date_free (v : value) : bool :=
  match v with
  | VDate _ => false
  | VArr elems =>
      (fix each (l : list (option value)) : bool :=
         match l with
         | [] => true
         | Some x :: rest => date_free x && each rest
         | None :: rest => each rest
         end) elems
  | VObj ps =>
      (fix each (l : props) : bool :=
         match l with
         | [] => true
         | (_, x) :: rest => date_free x && each rest
         end) ps
  | _ => true
  end.

(** The key a flat mapping sends to [name], the last one when several
    do. *)
Definition key_of_name (name : string) (m : props) : option string :=
  option_map fst
    (find (fun '(_, v) => match v with
                          | VStr t => String.eqb t name
                          | _ => false
                          end) (rev m)).

(** The members of a record that [JSON.stringify] can see: those whose
    value is not [undefined]. *)
Definition defined_members (ps : props) : props :=
  List.filter (fun '(_, v) => negb (is_undefined v)) ps.

Definition scalars (ns : props) : bool := forallb (fun '(_, x) => is_scalar x) ns.

(** A key that is one segment of a path and is not the root path. *)
Definition segment (k : string) : bool := plain k && negb (String.eqb k "").

(** No character of the key is a line terminator (the atom [.] of the
    pattern of [setChangePath] accepts the key whole). *)
Definition one_line (k : string) : bool :=
  forallb (fun c => negb (Str.is_line_terminator c)) (Str.chars k).

(** The value [processMapping] stores for a source value when no transform
    is registered. *)
Definition coerced (opts : normalize_options) (v : value) : value :=
  if typeCoercion opts && negb (is_null v) && negb (is_undefined v)
  then coerceType v else v.

Definition store_coerced (opts : normalize_options) (x : value) (fs : props)
  (leaf : list string * string) : props :=
  let v := coerced opts (getNested_loop x (fst leaf)) in
  if is_undefined v then fs else obj_set (snd leaf) v fs.

Section Changed.
Variable same_ref : value -> value -> bool.

(** The keys [computeDiff] finds changed on a record of scalars. *)
Definition changed_writes (oldVal : value) (ns : props) : list (string * value) :=
  flat_map (fun '(k, x) =>
              if strict_eq same_ref (get_prop_opt oldVal k) x then [] else [(k, x)]) ns.

End Changed.

(** *** Shapes for [flattenObject] and [unflattenObject] *)

(** A key of one segment that is no array index: a new one is enumerated
    last. *)
Definition simple_key (k : string) : bool :=
  segment k && match Str.array_index k with Some _ => false | None => true end.

(** A record of the kind [flattenObject] and [unflattenObject] exchange
    without loss: simple keys, each once, and members that are records of
    the same kind with at least one key, or values that are not plain
    objects. *)
Fixpoint solid (v : value) : bool :=
  match v with
  | VObj ps =>
      unique_keys ps
      && (fix each (l : props) : bool :=
            match l with
            | [] => true
            | (k, x) :: rest =>
                simple_key k
                && match x with
                   | VObj inner => negb (length inner =? 0)%nat && solid x
                   | VDate _ => false
                   | _ => true
                   end
                && each rest
            end) ps
  | _ => false
  end.

(** The entries [flattenObject] makes of a record: the segments of each
    path and the value found there. *)
Fixpoint flat_entries (v : value) : list (list string * value) :=
  match v with
  | VObj ps =>
      (fix each (l : props) : list (list string * value) :=
         match l with
         | [] => []
         | (k, x) :: rest =>
             (match x with
              | VObj _ => map (fun e => (k :: fst e, snd e)) (flat_entries x)
              | VDate _ => []
              | _ => [([k], x)]
              end ++ each rest)%list
         end) ps
  | _ => []
  end.

(** One iteration of [unflattenObject], on the segments of the key. *)
Definition graft (target : value) (entry : list string * value) : result value :=
  setNested_loop target (removelast (fst entry)) (List.last (fst entry) "") (snd entry).

(** The member test of [solid]. *)
Definition solid_member (x : value) : bool :=
  match x with
  | VObj inner => negb (length inner =? 0)%nat && solid x
  | VDate _ => false
  | _ => true
  end.

(** The record [flattenObject] returns for the entries [es] under the
    segments [P]. *)
Definition flat_record (P : list string) (es : list (list string * value)) : props :=
  map (fun e => (dotted (P ++ fst e)%list, snd e)) es.

End LibraryShapes.

(** ** Shallow edits on the store *)

Section ShallowEdits.
Context {host : Host}.
Import Store.




End ShallowEdits.

(** ** Places of the change tree

    [setChangePath] walks from the change record to the record that holds
    the last segment of the path: through the property [key] for a plain
    segment, through the property [arrayKey] and then the slot [index] for
    a segment the pattern matches.  A place is the list of these steps;
    what follows reads a change tree the way [setChangePath] writes
    it. *)

Section ChangeTree.
Context {host : Host}.

Inductive atom : Type :=
| AKey (k : string)
| ASlot (i : N).

(** The steps of one segment that is not the last. *)
Definition steps (key : string) : list atom :=
  match Str.arrayMatch key with
  | Some (arrayKey, index) => [AKey arrayKey; ASlot index]
  | None => [AKey key]
  end.

(** The place of a path: the steps of its segments but the last, then the
    last segment, a literal key. *)
Definition address (path : string) : list atom :=
  let keys := Str.split_dot path in
  (flat_map steps (removelast keys) ++ [AKey (List.last keys "")])%list.

(** A slot that holds a value. *)
Definition slot_opt (elems : list (option value)) (i : nat) : option value :=
  match nth_error elems i with
  | Some (Some x) => Some x
  | _ => None
  end.

(** The value one step away: an own property of a record, a slot of a
    sequence. *)
Definition child (tree : value) (x : atom) : option value :=
  match x, tree with
  | AKey k, VObj ps => lookup_prop k ps
  | ASlot i, VArr elems => slot_opt elems (N.to_nat i)
  | _, _ => None
  end.

(** What a tree holds at a place. *)
Fixpoint read_at (tree : value) (a : list atom) : option value :=
  match a with
  | [] => Some tree
  | x :: rest =>
      match child tree x with
      | Some c => read_at c rest
      | None => None
      end
  end.

(** What the change tree holds at a path: the own property named by the
    last segment, whole, in the record the earlier segments lead to. *)
Definition change_at (changes : value) (path : string) : option value :=
  let keys := Str.split_dot path in
  match read_at changes (flat_map steps (removelast keys)) with
  | Some (VObj ps) => lookup_prop (List.last keys "") ps
  | _ => None
  end.

(** The record a path leads to: the change tree itself for the empty
    path, and else what is found after the steps of all its segments. *)
Definition record_at (changes : value) (path : string) : option value :=
  if String.eqb path "" then Some changes
  else read_at changes (flat_map steps (Str.split_dot path)).

(** The property name of a step. *)
Definition atom_key (x : atom) : string :=
  match x with
  | AKey k => k
  | ASlot i => Str.of_N i
  end.

(** What [setChangePath] creates where a step finds nothing: [[]] before a
    slot, [{}] otherwise. *)
Definition fresh_for (rest : list atom) : value :=
  match rest with
  | ASlot _ :: _ => VArr []
  | _ => VObj []
  end.

(** The loop of [setChangePath], step by step. *)
Fixpoint put_at (current : value) (a : list atom) (v : value) : result value :=
  match a with
  | [] => Ok v
  | x :: rest =>
      match rest with
      | [] => set_prop current (atom_key x) v
      | _ :: _ =>
          let* c0 := get_prop current (atom_key x) in
          let* current1 :=
            if truthy c0 then Ok current
            else set_prop current (atom_key x) (fresh_for rest) in
          let* next := get_prop current1 (atom_key x) in
          let* next' := put_at next rest v in
          set_prop current1 (atom_key x) next'
      end
  end.

(** A key is read on a record, a slot on a sequence. *)
Definition takes (tree : value) (x : atom) : Prop :=
  match x, tree with
  | AKey _, VObj _ | ASlot _, VArr _ => True
  | _, _ => False
  end.

(** The tree can take a write at the place: every step finds a record
    where it reads a key and a sequence where it reads a slot, or
    nothing. *)
Fixpoint admits (tree : value) (a : list atom) : Prop :=
  match a with
  | [] => True
  | x :: rest =>
      takes tree x
      /\ match rest with
         | [] => True
         | _ :: _ =>
             match child tree x with
             | Some c => admits c rest
             | None => True
             end
         end
  end.

(** A slot is an array index. *)
Definition in_bound (x : atom) : Prop :=
  match x with ASlot i => (i < Str.max_index)%N | AKey _ => True end.

(** Every slot of the place is an array index. *)
Definition bounded (a : list atom) : Prop :=
  Forall (fun x => match x with ASlot i => (i < Str.max_index)%N | AKey _ => True end) a.

(** Two places part ways: after a common beginning, at two keys of one
    record or at two slots of one sequence. *)
Inductive apart : list atom -> list atom -> Prop :=
| apart_key k k' a b : k <> k' -> apart (AKey k :: a) (AKey k' :: b)
| apart_slot i j a b : i <> j -> apart (ASlot i :: a) (ASlot j :: b)
| apart_cons x a b : apart a b -> apart (x :: a) (x :: b).

(** *** The paths of a run

    [computeDiff] goes from a path to the path of a key of the record or
    to the path of an element of the sequence it looks at. *)

Inductive move : Type :=
| MKey (k : string)
| MItem (i : nat).

(** The path after the moves, the latest first. *)
Fixpoint path_of (ms : list move) : string :=
  match ms with
  | [] => ""
  | MKey k :: r => child_path (path_of r) k
  | MItem i :: r => item_path (path_of r) i
  end.

(** A key that reads back as one plain segment of a path: not empty, with
    no dot, no opening bracket and no line terminator. *)
Definition path_key (k : string) : bool :=
  segment k && one_line k && negb (existsb (Ascii.eqb "[") (Str.chars k)).

Definition tidy_move (m : move) : bool :=
  match m with
  | MKey k => path_key k
  | MItem i => (N.of_nat i <? Str.max_index)%N
  end.

Definition tidy_moves (ms : list move) : Prop := forallb tidy_move ms = true.

(** A tree whose records have each key once, every key a [path_key], and
    whose sequences have a length a sequence can have. *)
Fixpoint tidy (v : value) : bool :=
  match v with
  | VArr elems =>
      (N.of_nat (length elems) <=? Str.max_index)%N
      && (fix each (l : list (option value)) : bool :=
            match l with
            | [] => true
            | Some x :: rest => tidy x && each rest
            | None :: rest => each rest
            end) elems
  | VObj ps =>
      unique_keys ps
      && (fix each (l : props) : bool :=
            match l with
            | [] => true
            | (k, x) :: rest => path_key k && tidy x && each rest
            end) ps
  | _ => true
  end.

(** The last segment of [path_of ms], and the segments before it. *)
Fixpoint cur (ms : list move) : string :=
  match ms with
  | [] => ""
  | MKey k :: _ => k
  | MItem i :: r => cur r ++ "[" ++ Str.of_nat i ++ "]"
  end.

Fixpoint front (ms : list move) : list string :=
  match ms with
  | [] => []
  | MKey _ :: r => match r with [] => [] | _ :: _ => (front r ++ [cur r])%list end
  | MItem _ :: r => front r
  end.

(** The place of the record that holds the last segment. *)
Definition home (ms : list move) : list atom := flat_map steps (front ms).

(** The text of a run of indices, [[i1][i2]...]. *)
Fixpoint brackets (js : list nat) : string :=
  match js with
  | [] => ""
  | j :: rest => "[" ++ Str.of_nat j ++ "]" ++ brackets rest
  end.

Definition not_bracket (c : ascii) : bool := negb (Ascii.eqb "[" c).

(** *** The writes of a run, by their moves *)

Definition marks (w : list move * value) : string * value :=
  (path_of (fst w), snd w).

(** A write below the path of [ms]. *)
Definition below (ms : list move) (w : list move * value) : Prop :=
  (exists X, fst w = (X ++ ms)%list) /\ tidy_moves (fst w).

Definition apart_writes (w w' : list move * value) : Prop :=
  apart (address (path_of (fst w))) (address (path_of (fst w'))).

Definition scattered (ws : list (list move * value)) : Prop :=
  ForallOrdPairs apart_writes ws.

(** The removals of the second loop of the record case. *)
Definition removals (o n : value) (ms : list move) : list (list move * value) :=
  map (fun key => (MKey key :: ms, VUndef))
      (List.filter (fun key => negb (has_own n key)) (own_keys o)).

(** The places below a move made from the path of [r]: below a key, they
    go on from the record of the key's parent with a key that starts with
    that key; below an element, with a key that starts with the text of
    the element, or with the slot of the element in the sequence. *)
Definition under (m : move) (r : list move) (b : list atom) : Prop :=
  match m with
  | MKey k =>
      exists J rest,
        b = (home (MKey k :: r) ++ AKey (k ++ brackets J) :: rest)%list
  | MItem i =>
      (exists J rest,
         b = (home r ++ AKey (cur r ++ brackets (i :: J)) :: rest)%list)
      \/ (exists rest, b = (home r ++ AKey (cur r) :: ASlot (N.of_nat i) :: rest)%list)
  end.

Definition within (ms : list move) (b : list atom) : Prop :=
  match ms with
  | [] => False
  | m :: r => under m r b
  end.

Section Spread.
Variable same_ref : value -> value -> bool.

(** The run of [computeDiff] under the default options, on tidy trees:
    its writes are below the path of the run and apart from each
    other. *)
Definition spread_ok (n : value) : Prop :=
  forall o ms t0,
    tidy n = true -> tidy o = true -> tidy_moves ms ->
    exists ws,
      computeDiff same_ref record_write default_options o n (path_of ms) t0
      = Ok (t0 ++ map marks ws)%list
      /\ Forall (below ms) ws /\ scattered ws.

End Spread.

End ChangeTree.

(** ** A host with the integers

    The numbers of this host are the integers, [NaN] and the infinities;
    it reads optionally signed decimal integers and the one date form
    [YYYY-MM-DDTHH:MM:SSZ].  It serves the concrete runs below. *)

Module IntHost.

Inductive inum : Type :=
| INaN
| IInf (negative : bool)
| IFin (z : Z).

Definition eqb (a b : inum) : bool :=
  match a, b with
  | IFin x, IFin y => (x =? y)%Z
  | IInf x, IInf y => Bool.eqb x y
  | _, _ => false
  end.

Definition isNaN (a : inum) : bool :=
  match a with INaN => true | _ => false end.

Definition isFinite (a : inum) : bool :=
  match a with IFin _ => true | _ => false end.

Definition toString (a : inum) : string :=
  match a with
  | INaN => "NaN"
  | IInf false => "Infinity"
  | IInf true => "-Infinity"
  | IFin z => NilZero.string_of_int (Z.to_int z)
  end.

Definition of_digits (s : string) : option Z :=
  match NilZero.uint_of_string s with
  | Some d => Some (Z.of_N (N.of_uint d))
  | None => None
  end.

Definition parse (s : string) : inum :=
  match of_digits s with
  | Some z => IFin z
  | None =>
      match Str.trim s with
      | EmptyString => IFin 0
      | String c r as t =>
          let '(negative, body) :=
            if Ascii.eqb c "-" then (true, r)
            else if Ascii.eqb c "+" then (false, r)
            else (false, t) in
          if String.eqb body "Infinity" then IInf negative
          else match of_digits body with
               | Some z => IFin (if negative then - z else z)
               | None => INaN
               end
      end
  end.

(** Days from 1970-01-01 to the civil date, proleptic Gregorian. *)
Definition days_from_civil (y m d : Z) : Z :=
  let y' := (if m <=? 2 then y - 1 else y)%Z in
  let era := (y' / 400)%Z in
  let yoe := (y' - era * 400)%Z in
  let doy := ((153 * (if 2 <? m then m - 3 else m + 9) + 2) / 5 + d - 1)%Z in
  let doe := (yoe * 365 + yoe / 4 - yoe / 100 + doy)%Z in
  (era * 146097 + doe - 719468)%Z.

Definition two (a b : ascii) : option Z :=
  if Str.is_digit a && Str.is_digit b
  then Some (Z.of_N (Str.digits_to_N [a; b]))
  else None.

Definition date_parse (s : string) : inum :=
  match Str.chars s with
  | [y1; y2; y3; y4; "-"; m1; m2; "-"; d1; d2; "T"; h1; h2; ":"; n1; n2; ":"; s1; s2; "Z"]%char =>
      match two y1 y2, two y3 y4, two m1 m2, two d1 d2, two h1 h2, two n1 n2, two s1 s2 with
      | Some yh, Some yl, Some m, Some d, Some h, Some n, Some sec =>
          if ((1 <=? m) && (m <=? 12) && (1 <=? d) && (d <=? 28)
              && (h <=? 23) && (n <=? 59) && (sec <=? 59))%Z
          then IFin ((((days_from_civil (yh * 100 + yl) m d * 24 + h) * 60 + n) * 60 + sec)
                     * 1000)%Z
          else INaN
      | _, _, _, _, _, _, _ => INaN
      end
  | _ => INaN
  end.

(** The time value in decimal stands for the ISO rendering: two dates
    print alike exactly when they are the same instant. *)
Definition date_toISOString (t : inum) : string := toString t.

#[export] Instance host : Host.
Proof.
  refine {| number := inum;
            num_eqb := eqb;
            num_isNaN := isNaN;
            num_isFinite := isFinite;
            num_of_N := fun n => IFin (Z.of_N n);
            num_toString := toString;
            StringToNumber := parse;
            Date_parse := date_parse;
            Date_toISOString := date_toISOString |}.
  - intros [|negative|z] H; simpl in *; try discriminate.
    + now destruct negative.
    + apply Z.eqb_refl.
  - intros a b _ _. simpl.
    destruct (N.eqb_spec a b) as [->|Hne].
    + apply Z.eqb_refl.
    + apply Z.eqb_neq. intros Heq. apply Hne. now apply N2Z.inj.
  - reflexivity.
  - reflexivity.
  - intros [|p]; [reflexivity|].
    unfold parse, of_digits, Str.of_N. simpl N.to_uint.
    rewrite NilZero.usu by apply DecimalPos.Unsigned.to_uint_nonnil.
    change (Pos.to_uint p) with (N.to_uint (N.pos p)).
    now rewrite DecimalN.Unsigned.of_to.
  - reflexivity.
  - reflexivity.
Defined.

End IntHost.

(** ** Concrete trees and stores *)

Module Examples.
Import IntHost.

Definition num (n : N) : value := VNum (num_of_N n).

(** No two objects of these runs are one allocation. *)
Definition distinct : value -> value -> bool := fun _ _ => false.

(** No function is registered. *)
Definition no_fn : nat -> list value -> result value := fun _ _ => Throw TypeError.

Definition nested_tree : value :=
  VObj [("a", num 1);
        ("items", VArr [Some (num 1); None; Some (VObj [("b", VStr "s")])])].

(** A mapping of two levels and a source it fits. *)
Definition contact_mapping : props :=
  [("user_name", VStr "username");
   ("contact", VObj [("email_address", VStr "email"); ("phone", VStr "phone")])].

Definition contact_source : value :=
  VObj [("user_name", VStr "ann");
        ("contact", VObj [("email_address", VStr "ann@example.org")]);
        ("age", num 30)].

Definition unmapped_mapping : value := VObj [("a", VStr "b")].

Definition handle_config : value :=
  VObj [("apiToForm", VObj [("user_name", VStr "username")]);
        ("defaults", VObj [("username", VStr "anonymous"); ("theme", VStr "light")])].

Definition handle : Mapper :=
  {| apiToFormMapping := VObj [("user_name", VStr "username")];
     formToApiMapping := VObj [("username", VStr "user_name")];
     transforms := VObj [];
     defaults := VObj [("username", VStr "anonymous"); ("theme", VStr "light")];
     validator := VNull;
     options := base_options |}.

Definition guest_overrides : value :=
  VObj [("defaults", VObj [("username", VStr "guest")])].

Definition guest_handle : Mapper :=
  {| apiToFormMapping := VObj [("user_name", VStr "username")];
     formToApiMapping := VObj [("username", VStr "user_name")];
     transforms := VObj [];
     defaults := VObj [("username", VStr "guest")];
     validator := VNull;
     options := base_options |}.

(** A store holding the defaults [{address: {country: 'US'}}] at 0 and 1
    and the source [{city: 'Paris'}] at 2. *)
Definition defaults_store : Store.store :=
  [Store.HRecord [("address", Store.HRef 1)];
   Store.HRecord [("country", Store.HStr "US")];
   Store.HRecord [("city", Store.HStr "Paris")]].

Definition city_mapping : value := VObj [("city", VStr "address.city")].




(** A flat mapping in which two keys share a name. *)
Definition shared_name_mapping : props :=
  [("user_name", VStr "username"); ("login", VStr "username"); ("mail", VStr "email")].

Definition phone_default : normalize_options :=
  {| typeCoercion := true;
     defaultValues := VObj [("phone", VStr "none"); ("theme", VStr "light")];
     n_transform := VObj [] |}.

(** A handle with a validator, the function 0 of the caller's table. *)
Definition checked_handle : Mapper :=
  {| apiToFormMapping := VObj [("user_name", VStr "username")];
     formToApiMapping := VObj [("username", VStr "user_name")];
     transforms := VObj [];
     defaults := VObj [];
     validator := VFun 0;
     options := base_options |}.


Definition deep_mapping_inner : props := [("c", VStr "x")].

Definition profile : props :=
  [("a", VObj [("b", num 1); ("c", VObj [("d", VStr "s")])]); ("e", VNull)].

End Examples.

(** * Properties *)

Local Open Scope list_scope.

(** ** Strings *)

Lemma split_dot_nonempty (s : string) : Str.split_dot s <> [].
Proof.
  induction s as [|c s IH]; simpl; [discriminate|].
  destruct (Ascii.eqb c "."); [discriminate|].
  destruct (Str.split_dot s); [contradiction|discriminate].
Qed.

Lemma split_dot_plain (s : string) :
  Str.includes_dot s = false -> Str.split_dot s = [s].
Proof.
  induction s as [|c s IH]; simpl; [reflexivity|].
  destruct (Ascii.eqb c "."); simpl; [discriminate|].
  intros H. now rewrite (IH H).
Qed.

Lemma includes_dot_app (a b : string) :
  Str.includes_dot (a ++ b)%string = Str.includes_dot a || Str.includes_dot b.
Proof.
  induction a as [|c a IH]; simpl; [reflexivity|].
  rewrite IH. now destruct (Ascii.eqb c ".").
Qed.

Lemma includes_dot_of_N (n : N) : Str.includes_dot (Str.of_N n) = false.
Proof.
  unfold Str.of_N. generalize (N.to_uint n) as d. intros d.
  assert (H : Str.includes_dot (NilEmpty.string_of_uint d) = false)
    by (induction d; simpl; auto).
  destruct d; simpl; auto.
Qed.

(** ** The result monad *)

Lemma bind_Ok {A B : Type} (m : result A) (k : A -> result B) (b : B) :
  bind m k = Ok b -> exists a, m = Ok a /\ k a = Ok b.
Proof. destruct m; simpl; try discriminate. intros H. now exists a. Qed.

(** ** The host *)

Lemma num_of_N_inj {host : Host} (a b : N) :
  (a < 2 ^ 53)%N -> (b < 2 ^ 53)%N -> num_of_N a = num_of_N b -> a = b.
Proof.
  intros Ha Hb H. pose proof (num_of_N_eqb a b Ha Hb) as E.
  rewrite H, num_eqb_refl in E by apply num_of_N_isNaN.
  symmetry in E. now apply N.eqb_eq in E.
Qed.

(** ** Own properties *)

Section PropsFacts.
Context {host : Host}.

Lemma lookup_replace_prop (k k' : string) (v : value) (ps : props) :
  has_key k ps = true ->
  lookup_prop k' (replace_prop k v ps)
  = if String.eqb k' k then Some v else lookup_prop k' ps.
Proof.
  unfold has_key. induction ps as [|[k0 v0] rest IH]; simpl; [discriminate|].
  destruct (String.eqb_spec k k0) as [->|Hne]; intros H; simpl.
  - now destruct (String.eqb k' k0).
  - rewrite (IH H).
    destruct (String.eqb_spec k' k0) as [->|_]; [|reflexivity].
    destruct (String.eqb_spec k0 k) as [->|_]; [contradiction|reflexivity].
Qed.

Lemma lookup_insert_index (n : N) (k k' : string) (v : value) (ps : props) :
  has_key k ps = false ->
  lookup_prop k' (insert_index n k v ps)
  = if String.eqb k' k then Some v else lookup_prop k' ps.
Proof.
  unfold has_key. induction ps as [|[k0 v0] rest IH]; simpl; [reflexivity|].
  destruct (String.eqb_spec k k0) as [->|Hne]; [discriminate|]. intros H.
  destruct (Str.array_index k0) as [n'|]; [destruct (n <? n')%N|]; simpl;
    try reflexivity.
  rewrite (IH H).
  destruct (String.eqb_spec k' k0) as [->|_]; [|reflexivity].
  destruct (String.eqb_spec k0 k) as [->|_]; [contradiction|reflexivity].
Qed.

Lemma lookup_append_prop (k k' : string) (v : value) (ps : props) :
  has_key k ps = false ->
  lookup_prop k' (ps ++ [(k, v)])
  = if String.eqb k' k then Some v else lookup_prop k' ps.
Proof.
  unfold has_key. induction ps as [|[k0 v0] rest IH]; simpl; [reflexivity|].
  destruct (String.eqb_spec k k0) as [->|Hne]; [discriminate|]. intros H.
  rewrite (IH H).
  destruct (String.eqb_spec k' k0) as [->|_]; [|reflexivity].
  destruct (String.eqb_spec k0 k) as [->|_]; [contradiction|reflexivity].
Qed.

(** Reading after [obj[k] = v]. *)
Lemma lookup_obj_set (k k' : string) (v : value) (ps : props) :
  lookup_prop k' (obj_set k v ps)
  = if String.eqb k' k then Some v else lookup_prop k' ps.
Proof.
  unfold obj_set. destruct (has_key k ps) eqn:E.
  - now apply lookup_replace_prop.
  - destruct (Str.array_index k).
    + now apply lookup_insert_index.
    + now apply lookup_append_prop.
Qed.

End PropsFacts.

(** ** differ.js *)

Section DifferFacts.
Context {host : Host}.
Variable same_ref : value -> value -> bool.

Lemma strict_eq_refl (v : value) :
  is_scalar v = true -> nan_free v = true -> strict_eq same_ref v v = true.
Proof.
  destruct v; simpl; try discriminate; intros _ H; trivial.
  - now destruct b.
  - apply num_eqb_refl. now destruct (num_isNaN n).
  - apply String.eqb_refl.
  - apply Nat.eqb_refl.
Qed.

Lemma has_key_lookup (k : string) (ps : props) :
  has_key k ps = match lookup_prop k ps with Some _ => true | None => false end.
Proof. reflexivity. Qed.

Section Same.
Context {A : Type}.
Variable emit : A -> string -> value -> result A.
Variable opts : diff_options.
Hypothesis deep : compareArrays opts = true.

Let same (x : value) : Prop :=
  well_formed x = true -> nan_free x = true ->
  forall path changes, computeDiff same_ref emit opts x x path changes = Ok changes.

Lemma diff_head_same (x : value) (path : string) (changes : A) body :
  body tt = Ok changes ->
  diff_head same_ref emit opts x x path changes body = Ok changes.
Proof.
  intros H. unfold diff_head.
  destruct (existsb _ _); [reflexivity|].
  destruct (strict_eq same_ref x x); [reflexivity|].
  destruct (typeof x); simpl; exact H.
Qed.

Lemma diff_items_same (elems : list (option value)) :
  Forall (fun e => match e with Some x => same x | None => True end) elems ->
  forall all path i changes,
    (forall j, nth_error elems j = nth_error all (i + j)) ->
    well_formed (VArr elems) = true -> nan_free (VArr elems) = true ->
    diff_items same_ref emit opts (computeDiff same_ref emit opts) all path elems i changes
    = Ok changes.
Proof.
  induction 1 as [|e rest He _ IH]; intros all path i changes Hnth Hwf Hnan;
    [reflexivity|].
  assert (Hslot : slot all i = match e with Some x => x | None => VUndef end).
  { unfold slot. rewrite <- (Nat.add_0_r i), <- Hnth. simpl. now destruct e. }
  assert (Hrest : forall j, nth_error rest j = nth_error all (S i + j)).
  { intros j. specialize (Hnth (S j)). rewrite Nat.add_succ_r in Hnth. exact Hnth. }
  simpl. rewrite Hslot. destruct e as [x|].
  - simpl in Hwf, Hnan. apply andb_prop in Hwf as [Hwx Hwr].
    apply andb_prop in Hnan as [Hnx Hnr].
    rewrite (He Hwx Hnx). simpl. now apply IH.
  - unfold diff_primitive. rewrite diff_head_same by reflexivity.
    simpl. now apply IH.
Qed.

Lemma diff_keys_same (ps : props) :
  Forall (fun kv => same (snd kv)) ps ->
  forall all path changes,
    (forall k x, In (k, x) ps -> lookup_prop k all = Some x) ->
    nan_free (VObj ps) = true ->
    (fix each (l : props) : bool :=
       match l with
       | [] => true
       | (_, x) :: rest => well_formed x && each rest
       end) ps = true ->
    diff_keys (computeDiff same_ref emit opts) (VObj all) path ps changes = Ok changes.
Proof.
  induction 1 as [|[k x] rest Hx _ IH]; intros all path changes Hall Hnan Hwf;
    [reflexivity|].
  simpl in *. apply andb_prop in Hwf as [Hwx Hwr]. apply andb_prop in Hnan as [Hnx Hnr].
  unfold get_prop_opt. simpl. rewrite (Hall k x) by now left.
  rewrite (Hx Hwx Hnx). simpl. apply IH; auto.
Qed.

Lemma unique_keys_lookup (ps : props) :
  unique_keys ps = true ->
  forall k x, In (k, x) ps -> lookup_prop k ps = Some x.
Proof.
  induction ps as [|[k' x'] rest IH]; intros Hu k x Hin; [destruct Hin|].
  simpl in Hu. apply andb_prop in Hu as [Hk Hr]. simpl.
  destruct Hin as [[= -> ->]|Hin].
  - now rewrite String.eqb_refl.
  - destruct (String.eqb_spec k k') as [->|_]; [|now apply IH].
    exfalso. rewrite has_key_lookup, (IH Hr k' x Hin) in Hk. discriminate.
Qed.

Lemma diff_deleted_same (ps : props) (path : string) (changes : A) :
  diff_deleted emit (VObj ps) (VObj ps) path changes = Ok changes.
Proof.
  unfold diff_deleted, own_keys. simpl own_props.
  assert (H : forall l, (forall k, In k l -> has_key k ps = true) ->
            foldM (fun (changes : A) (key : string) =>
                     if has_own (VObj ps) key then Ok changes
                     else emit changes (child_path path key) VUndef) l changes
            = Ok changes).
  { induction l as [|k l IH]; intros Hl; [reflexivity|].
    simpl. rewrite (Hl k) by now left. simpl. apply IH. intros; apply Hl. now right. }
  apply H. intros k Hk. apply in_map_iff in Hk as [[k' x] [<- Hin]]. simpl.
  clear H. induction ps as [|[k0 x0] rest IH]; [destruct Hin|].
  unfold has_key. simpl. destruct (String.eqb_spec k' k0); [reflexivity|].
  destruct Hin as [[= -> ->]|Hin]; [contradiction|]. now apply IH.
Qed.

Lemma computeDiff_scalar_same (x : value) (path : string) (changes : A) :
  is_scalar x = true -> nan_free x = true ->
  computeDiff same_ref emit opts x x path changes = Ok changes.
Proof.
  destruct x; try discriminate; intros _ Hn; simpl; apply diff_head_same;
    cbv beta; simpl;
    rewrite ?Bool.eqb_reflx, ?String.eqb_refl, ?Nat.eqb_refl,
      ?num_eqb_refl by (simpl in Hn; now destruct (num_isNaN _));
    reflexivity.
Qed.

Lemma computeDiff_same (x : value) : same x.
Proof.
  induction x using value_ind; intros Hwf Hnan path changes;
    try (now apply computeDiff_scalar_same).
  - simpl. apply diff_head_same. reflexivity.
  - simpl. apply diff_head_same. cbv beta. rewrite deep. simpl.
    rewrite Nat.eqb_refl. simpl. now apply diff_items_same.
  - simpl. apply diff_head_same. cbv beta. simpl negb. cbv iota.
    simpl in Hwf. apply andb_prop in Hwf as [Hu Hw].
    rewrite diff_keys_same; auto using unique_keys_lookup.
    simpl. apply diff_deleted_same.
Qed.

End Same.

(** *** The reports of a run

    A computation over the accumulator that only ever reports *)

Lemma replay_app {A : Type} (emit : A -> string -> value -> result A) t1 t2 changes :
  replay emit (t1 ++ t2) changes
  = let* changes1 := replay emit t1 changes in replay emit t2 changes1.
Proof.
  unfold replay. revert changes.
  induction t1 as [|[p v] t1 IH]; intros changes; [reflexivity|].
  simpl. destruct (emit changes p v); simpl; [apply IH|reflexivity..].
Qed.

Lemma replay_record (t t0 : list (string * value)) :
  replay record_write t t0 = Ok (t0 ++ t).
Proof.
  unfold replay. revert t0. induction t as [|[p v] t IH]; intros t0; simpl.
  - now rewrite app_nil_r.
  - rewrite IH. now rewrite <- app_assoc.
Qed.

Lemma replays_trace (run : reporter) (trace t0 : list (string * value)) :
  replays run trace -> run _ record_write t0 = Ok (t0 ++ trace).
Proof. intros H. rewrite H. apply replay_record. Qed.

Lemma replays_nil : replays (fun A emit changes => Ok changes) [].
Proof. intros A emit changes. reflexivity. Qed.

Lemma replays_emit (path : string) (v : value) :
  replays (fun A emit changes => emit changes path v) [(path, v)].
Proof.
  intros A emit changes. unfold replay. simpl. now destruct (emit changes path v).
Qed.

Lemma replays_bind (f g : reporter) t1 t2 :
  replays f t1 -> replays g t2 ->
  replays (fun A emit changes => let* c := f A emit changes in g A emit c) (t1 ++ t2).
Proof.
  intros Hf Hg A emit changes. rewrite replay_app, Hf.
  destruct (replay emit t1 changes); simpl; [apply Hg|reflexivity..].
Qed.

Lemma replays_deleted (oldVal newVal : value) (path : string) :
  replays (fun A emit changes => diff_deleted emit oldVal newVal path changes)
          (deleted_writes oldVal newVal path).
Proof.
  intros A emit changes. unfold diff_deleted, deleted_writes.
  generalize (own_keys oldVal) as l. intros l. revert changes.
  unfold replay.
  induction l as [|k l IH]; intros changes; [reflexivity|].
  simpl. destruct (has_own newVal k); simpl; [apply IH|].
  destruct (emit changes _ VUndef); simpl; [apply IH|reflexivity..].
Qed.

Section Replay.
Variable opts : diff_options.

Let run (o n : value) (p : string) : reporter :=
  fun A emit changes => computeDiff same_ref emit opts o n p changes.

Let traced (n : value) : Prop :=
  forall o p t0 t1,
    computeDiff same_ref record_write opts o n p t0 = Ok t1 ->
    exists t, replays (run o n p) t.

Lemma traced_head (o n : value) (p : string) (body : reporter) t0 t1 :
  diff_head same_ref record_write opts o n p t0 (fun _ => body _ record_write t0) = Ok t1 ->
  (body _ record_write t0 = Ok t1 -> exists t, replays body t) ->
  exists t, replays (fun A emit changes =>
                       diff_head same_ref emit opts o n p changes
                                 (fun _ => body A emit changes)) t.
Proof.
  unfold diff_head. intros H Hbody.
  destruct (existsb _ _); [exists []; apply replays_nil|].
  destruct (strict_eq same_ref o n); [exists []; apply replays_nil|].
  destruct (negb _); [eexists; apply replays_emit|].
  destruct (Hbody H) as [t Ht]. now exists t.
Qed.

Lemma traced_primitive (o n : value) (p : string) :
  exists t, replays (fun A emit changes => diff_primitive same_ref emit opts o n p changes) t.
Proof.
  unfold diff_primitive, diff_head.
  destruct (existsb _ _); [exists []; apply replays_nil|].
  destruct (strict_eq same_ref o n); [exists []; apply replays_nil|].
  destruct (negb _); [eexists; apply replays_emit|].
  simpl. eexists; apply replays_emit.
Qed.

Lemma traced_items (elems : list (option value)) :
  Forall (fun e => match e with Some x => traced x | None => True end) elems ->
  forall oelems p i t0 t1,
    diff_items same_ref record_write opts (computeDiff same_ref record_write opts)
               oelems p elems i t0 = Ok t1 ->
    exists t, replays (fun A emit changes =>
                         diff_items same_ref emit opts (computeDiff same_ref emit opts)
                                    oelems p elems i changes) t.
Proof.
  induction 1 as [|e rest He _ IH]; intros oelems p i t0 t1 Hrun.
  - exists []. apply replays_nil.
  - simpl in Hrun. apply bind_Ok in Hrun as [tm [Hm Hrest]].
    destruct (IH _ _ _ _ _ Hrest) as [t2 Ht2].
    destruct e as [x|].
    + destruct (He _ _ _ _ Hm) as [tx Htx].
      exists (tx ++ t2)%list.
      apply (replays_bind (run (slot oelems i) x (item_path p i))
               (fun A emit changes =>
                  diff_items same_ref emit opts (computeDiff same_ref emit opts)
                             oelems p rest (S i) changes)); assumption.
    + destruct (traced_primitive (slot oelems i) VUndef (item_path p i)) as [tx Htx].
      exists (tx ++ t2)%list.
      apply (replays_bind
               (fun A emit changes =>
                  diff_primitive same_ref emit opts (slot oelems i) VUndef
                                 (item_path p i) changes)
               (fun A emit changes =>
                  diff_items same_ref emit opts (computeDiff same_ref emit opts)
                             oelems p rest (S i) changes)); assumption.
Qed.

Lemma traced_keys (ps : props) :
  Forall (fun kv => traced (snd kv)) ps ->
  forall o p t0 t1,
    diff_keys (computeDiff same_ref record_write opts) o p ps t0 = Ok t1 ->
    exists t, replays (fun A emit changes =>
                         diff_keys (computeDiff same_ref emit opts) o p ps changes) t.
Proof.
  induction 1 as [|[k x] rest Hx _ IH]; intros o p t0 t1 Hrun.
  - exists []. apply replays_nil.
  - simpl in Hrun. apply bind_Ok in Hrun as [tm [Hm Hrest]].
    destruct (IH _ _ _ _ Hrest) as [t2 Ht2].
    destruct (Hx _ _ _ _ Hm) as [tx Htx].
    exists (tx ++ t2)%list.
    apply (replays_bind (run (get_prop_opt o k) x (child_path p k))
             (fun A emit changes =>
                diff_keys (computeDiff same_ref emit opts) o p rest changes));
      assumption.
Qed.

Lemma traced_scalar (n : value) : is_scalar n = true -> traced n.
Proof.
  intros Hn o p t0 t1 H.
  assert (Hb : exists t, replays (fun A emit changes =>
             if negb (strict_eq same_ref o n) then emit changes p n else Ok changes) t).
  { destruct (negb _); eexists; [apply replays_emit|apply replays_nil]. }
  destruct n; try discriminate;
    exact (traced_head o _ p
             (fun A emit changes =>
                if negb (strict_eq same_ref o _) then emit changes p _ else Ok changes)
             t0 t1 H (fun _ => Hb)).
Qed.

Lemma computeDiff_traced (n : value) : traced n.
Proof.
  induction n using value_ind; try (apply traced_scalar; reflexivity);
    intros o p t0 t1 Hrun.
  - (* Date *)
    refine (traced_head o (VDate t) p
              (fun A emit changes =>
                 if negb (isPlainObject o) then emit changes p (VDate t)
                 else diff_deleted emit o (VDate t) p changes) t0 t1 Hrun _).
    intros _. destruct (negb (isPlainObject o)); eexists;
      [apply replays_emit|apply replays_deleted].
  - (* sequence *)
    refine (traced_head o (VArr elems) p
              (fun A emit changes =>
                 if negb (compareArrays opts) then
                   let* so := JSON_stringify o in
                   let* sn := JSON_stringify (VArr elems) in
                   if option_string_eqb so sn then Ok changes
                   else emit changes p (VArr elems)
                 else
                   match o with
                   | VArr oelems =>
                       if negb (length oelems =? length elems)%nat
                       then emit changes p (VArr elems)
                       else diff_items same_ref emit opts (computeDiff same_ref emit opts)
                                       oelems p elems 0%nat changes
                   | _ => emit changes p (VArr elems)
                   end) t0 t1 Hrun _).
    intros Hbody. destruct (negb (compareArrays opts)).
    + destruct (JSON_stringify o) as [so| |]; try discriminate.
      destruct (JSON_stringify (VArr elems)) as [sn| |]; try discriminate.
      simpl. destruct (option_string_eqb so sn); eexists;
        [apply replays_nil|apply replays_emit].
    + destruct o; try (eexists; apply replays_emit).
      destruct (negb _); [eexists; apply replays_emit|].
      exact (traced_items elems H _ _ _ _ _ Hbody).
  - (* record *)
    refine (traced_head o (VObj ps) p
              (fun A emit changes =>
                 if negb (isPlainObject o) then emit changes p (VObj ps)
                 else
                   let* changes1 :=
                     diff_keys (computeDiff same_ref emit opts) o p ps changes in
                   diff_deleted emit o (VObj ps) p changes1) t0 t1 Hrun _).
    intros Hbody. destruct (negb (isPlainObject o)); [eexists; apply replays_emit|].
    apply bind_Ok in Hbody as [tm [Hm _]].
    destruct (traced_keys ps H _ _ _ _ Hm) as [tk Htk].
    exists (tk ++ deleted_writes o (VObj ps) p).
    apply (replays_bind
             (fun A emit changes =>
                diff_keys (computeDiff same_ref emit opts) o p ps changes)
             (fun A emit changes => diff_deleted emit o (VObj ps) p changes));
      [assumption|apply replays_deleted].
Qed.

End Replay.

Section Writes.
Variable opts : diff_options.

Lemma computeDiff_replays (o n : value) (p : string) t0 t1 :
  computeDiff same_ref record_write opts o n p t0 = Ok t1 ->
  exists t,
    t1 = t0 ++ t
    /\ computeDiff same_ref record_write opts o n p [] = Ok t
    /\ forall (A : Type) (emit : A -> string -> value -> result A) (changes : A),
         computeDiff same_ref emit opts o n p changes = replay emit t changes.
Proof.
  intros H. destruct (computeDiff_traced opts n o p t0 t1 H) as [t Ht].
  exists t. split; [|split].
  - pose proof (Ht _ record_write t0) as Ht0. cbv beta in Ht0.
    rewrite replay_record in Ht0. congruence.
  - rewrite Ht. apply replay_record.
  - exact Ht.
Qed.

(** [diff] is the replay of its own reports through [setChangePath]. *)
Lemma diff_replays_writes (original current : value) t :
  diff_writes same_ref original current opts = Ok t ->
  diff same_ref original current opts = replay setChangePath t (VObj []).
Proof.
  intros H. destruct (computeDiff_replays _ _ _ _ _ H) as [t' [Ht' [_ Hr]]].
  simpl in Ht'. subst t'. apply Hr.
Qed.

Lemma diff_head_enters {A : Type} (emit : A -> string -> value -> result A)
  (o n : value) (p : string) (changes : A) body :
  enters same_ref opts o n p = true ->
  diff_head same_ref emit opts o n p changes body = body tt.
Proof.
  unfold enters, diff_head. intros H.
  apply andb_prop in H as [H Ht]. apply andb_prop in H as [Hi Hs].
  destruct (existsb _ _); [discriminate|].
  destruct (strict_eq same_ref o n); [discriminate|].
  now rewrite Ht.
Qed.

Lemma computeDiff_record {A : Type} (emit : A -> string -> value -> result A)
  (o : value) (ps : props) (p : string) (changes : A) :
  enters same_ref opts o (VObj ps) p = true ->
  isPlainObject o = true ->
  computeDiff same_ref emit opts o (VObj ps) p changes
  = let* changes1 := diff_keys (computeDiff same_ref emit opts) o p ps changes in
    diff_deleted emit o (VObj ps) p changes1.
Proof.
  intros He Ho. simpl. rewrite diff_head_enters by assumption. now rewrite Ho.
Qed.

Lemma computeDiff_date {A : Type} (emit : A -> string -> value -> result A)
  (o : value) (d : number) (p : string) (changes : A) :
  enters same_ref opts o (VDate d) p = true ->
  isPlainObject o = true ->
  computeDiff same_ref emit opts o (VDate d) p changes
  = diff_deleted emit o (VDate d) p changes.
Proof.
  intros He Ho. simpl. rewrite diff_head_enters by assumption. now rewrite Ho.
Qed.

Lemma computeDiff_items {A : Type} (emit : A -> string -> value -> result A)
  (oelems elems : list (option value)) (p : string) (changes : A) :
  enters same_ref opts (VArr oelems) (VArr elems) p = true ->
  compareArrays opts = true ->
  length oelems = length elems ->
  computeDiff same_ref emit opts (VArr oelems) (VArr elems) p changes
  = diff_items same_ref emit opts (computeDiff same_ref emit opts) oelems p elems 0 changes.
Proof.
  intros He Hc Hl. simpl. rewrite diff_head_enters by assumption.
  rewrite Hc, Hl, Nat.eqb_refl. reflexivity.
Qed.

Lemma diff_keys_incl (ps : props) (o : value) (p : string) t0 t1 k x :
  diff_keys (computeDiff same_ref record_write opts) o p ps t0 = Ok t1 ->
  In (k, x) ps ->
  exists t, computeDiff same_ref record_write opts (get_prop_opt o k) x (child_path p k) []
            = Ok t /\ incl t t1.
Proof.
  revert t0. induction ps as [|[k' x'] rest IH]; intros t0 Hrun Hin; [destruct Hin|].
  simpl in Hrun. apply bind_Ok in Hrun as [tm [Hm Hrest]].
  assert (Hmono : incl tm t1).
  { clear -Hrest. revert tm Hrest. induction rest as [|[k x] rest IH]; intros tm H.
    - simpl in H. injection H as <-. apply incl_refl.
    - simpl in H. apply bind_Ok in H as [tn [Hn Hr]].
      destruct (computeDiff_replays _ _ _ _ _ Hn) as [t [-> _]].
      intros w Hw. apply (IH _ Hr). apply in_or_app. now left. }
  destruct Hin as [[= -> ->]|Hin].
  - destruct (computeDiff_replays _ _ _ _ _ Hm) as [t [-> [Ht _]]].
    exists t. split; [exact Ht|]. intros w Hw. apply Hmono, in_or_app. now right.
  - exact (IH _ Hrest Hin).
Qed.

Lemma diff_items_incl (elems oelems : list (option value)) (p : string) i0 t0 t1 j x :
  diff_items same_ref record_write opts (computeDiff same_ref record_write opts)
             oelems p elems i0 t0 = Ok t1 ->
  nth_error elems j = Some (Some x) ->
  exists t, computeDiff same_ref record_write opts (slot oelems (i0 + j)) x
                        (item_path p (i0 + j)) [] = Ok t /\ incl t t1.
Proof.
  revert i0 t0 j. induction elems as [|e rest IH]; intros i0 t0 j Hrun Hj;
    [destruct j; discriminate|].
  simpl in Hrun. apply bind_Ok in Hrun as [tm [Hm Hrest]].
  assert (Hmono : incl tm t1).
  { clear -Hrest. revert i0 tm Hrest. induction rest as [|e rest IH]; intros i0 tm H.
    - simpl in H. injection H as <-. apply incl_refl.
    - simpl in H. apply bind_Ok in H as [tn [Hn Hr]].
      assert (Hext : exists t, tn = tm ++ t).
      { destruct e as [x|].
        - destruct (computeDiff_replays _ _ _ _ _ Hn) as [t [-> _]]. now exists t.
        - destruct (traced_primitive opts (slot oelems (S i0)) VUndef (item_path p (S i0)))
            as [t Ht].
          pose proof (replays_trace _ _ tm Ht) as Htr. cbv beta in Htr.
          exists t. congruence. }
      destruct Hext as [t ->].
      intros w Hw. apply (IH _ _ Hr). apply in_or_app. now left. }
  destruct j as [|j].
  - simpl in Hj. injection Hj as ->. rewrite Nat.add_0_r.
    destruct (computeDiff_replays _ _ _ _ _ Hm) as [t [-> [Ht _]]].
    exists t. split; [exact Ht|]. intros w Hw. apply Hmono, in_or_app. now right.
  - simpl in Hj. rewrite Nat.add_succ_r.
    exact (IH (S i0) _ _ Hrest Hj).
Qed.

(** The reports of a call reached by the recursion are reports of the run. *)
Lemma calls_incl o n p o' n' p' :
  calls same_ref opts o n p o' n' p' ->
  forall t, computeDiff same_ref record_write opts o n p [] = Ok t ->
  exists t', computeDiff same_ref record_write opts o' n' p' [] = Ok t' /\ incl t' t.
Proof.
  induction 1 as [o n p | o ps p k x o' n' p' He Ho Hin _ IH
                  | oelems elems p i x o' n' p' He Hc Hl Hi _ IH]; intros t Hrun.
  - exists t. split; [assumption|apply incl_refl].
  - rewrite computeDiff_record in Hrun by assumption.
    apply bind_Ok in Hrun as [tm [Hm Hdel]].
    destruct (diff_keys_incl _ _ _ _ _ _ _ Hm Hin) as [tx [Hx Hincl]].
    destruct (IH _ Hx) as [t' [Ht' Hincl']].
    exists t'. split; [assumption|].
    pose proof (replays_trace _ _ tm (replays_deleted o (VObj ps) p)) as Hd.
    cbv beta in Hd. rewrite Hd in Hdel. injection Hdel as <-.
    intros w Hw. apply in_or_app. left. auto.
  - rewrite computeDiff_items in Hrun by assumption.
    destruct (diff_items_incl _ _ _ _ _ _ _ _ Hrun Hi) as [tx [Hx Hincl]].
    destruct (IH _ Hx) as [t' [Ht' Hincl']].
    exists t'. split; [assumption|]. intros w Hw. auto.
Qed.

(** A call on two records reports the removal of every key the new one
    lacks. *)
Lemma computeDiff_reports_removals (o n : value) (p : string) t k :
  computeDiff same_ref record_write opts o n p [] = Ok t ->
  enters same_ref opts o n p = true ->
  isPlainObject o = true -> isPlainObject n = true ->
  In k (own_keys o) -> has_own n k = false ->
  In (child_path p k, VUndef) t.
Proof.
  intros Hrun He Ho Hn Hk Hno.
  assert (Hdel : In (child_path p k, VUndef) (deleted_writes o n p)).
  { unfold deleted_writes. apply in_map_iff. exists k. split; [reflexivity|].
    apply filter_In. split; [assumption|]. now rewrite Hno. }
  destruct n; try discriminate.
  - rewrite computeDiff_date in Hrun by assumption.
    pose proof (replays_trace _ _ [] (replays_deleted o (VDate t0) p)) as Hd.
    cbv beta in Hd. rewrite Hd in Hrun. injection Hrun as <-. exact Hdel.
  - rewrite computeDiff_record in Hrun by assumption.
    apply bind_Ok in Hrun as [tm [_ Hrun]].
    pose proof (replays_trace _ _ tm (replays_deleted o (VObj props0) p)) as Hd.
    cbv beta in Hd. rewrite Hd in Hrun. injection Hrun as <-.
    apply in_or_app. now right.
Qed.

End Writes.

Section Totality.
Variable opts : diff_options.
Hypothesis deep : compareArrays opts = true.

Let total (n : value) : Prop :=
  forall o p t0, exists t1, computeDiff same_ref record_write opts o n p t0 = Ok t1.

Lemma diff_head_total o n p t0 body :
  (exists t1, body tt = Ok t1) ->
  exists t1, diff_head same_ref record_write opts o n p t0 body = Ok t1.
Proof.
  intros H. unfold diff_head, record_write.
  destruct (existsb _ _); [eauto|].
  destruct (strict_eq same_ref o n); [eauto|].
  destruct (negb _); eauto.
Qed.

Lemma computeDiff_writes_total (n : value) : total n.
Proof.
  induction n using value_ind; intros o p t0; simpl; apply diff_head_total;
    try (destruct (negb (strict_eq same_ref o _)); unfold record_write; eauto; fail).
  - destruct (negb (isPlainObject o)); [unfold record_write; eauto|].
    eexists. apply (replays_trace _ _ t0 (replays_deleted o (VDate t) p)).
  - rewrite deep. simpl. destruct o; try (unfold record_write; eauto; fail).
    destruct (negb _); [unfold record_write; eauto|].
    generalize 0%nat as i. revert t0.
    induction H as [|e rest He _ IH]; intros t0 i; simpl; [eauto|].
    assert (Hstep : exists tm,
      match e with
      | Some x => computeDiff same_ref record_write opts (slot elems0 i) x (item_path p i) t0
      | None => diff_primitive same_ref record_write opts (slot elems0 i) VUndef
                               (item_path p i) t0
      end = Ok tm).
    { destruct e as [x|]; [apply He|].
      destruct (traced_primitive opts (slot elems0 i) VUndef (item_path p i)) as [t Ht].
      eexists. apply (replays_trace _ _ t0 Ht). }
    destruct Hstep as [tm ->]. simpl. apply IH.
  - destruct (negb (isPlainObject o)); [unfold record_write; eauto|].
    assert (Hkeys : exists tm,
      diff_keys (computeDiff same_ref record_write opts) o p ps t0 = Ok tm).
    { revert t0. induction H as [|[k x] rest Hx _ IH]; intros t0; simpl; [eauto|].
      simpl in Hx.
      destruct (Hx (get_prop_opt o k) (child_path p k) t0) as [tm ->]. simpl. apply IH. }
    destruct Hkeys as [tm ->]. simpl.
    eexists. apply (replays_trace _ _ tm (replays_deleted o (VObj ps) p)).
Qed.

End Totality.

(** *** [setChangePath] on the change record *)

Lemma set_prop_record (ps : props) (k : string) (v : value) :
  set_prop (VObj ps) k v = Ok (VObj (obj_set k v ps)).
Proof. reflexivity. Qed.

Lemma set_prop_keeps_record (c : value) (k : string) (v r : value) :
  (exists ps, c = VObj ps) -> set_prop c k v = Ok r -> exists ps, r = VObj ps.
Proof. intros [ps ->] [= <-]. eauto. Qed.

Lemma setChangePath_keeps_record (ps : props) (path : string) (v r : value) :
  setChangePath (VObj ps) path v = Ok r -> exists ps', r = VObj ps'.
Proof.
  unfold setChangePath. destruct (String.eqb path "").
  - unfold object_assign. generalize (own_props v) as l. intros l. revert ps.
    induction l as [|[k x] l IH]; intros ps; simpl.
    + intros [= <-]. eauto.
    + apply IH.
  - generalize (List.last (Str.split_dot path) "") as lastKey.
    destruct (removelast (Str.split_dot path)) as [|key rest]; intros lastKey; simpl.
    + intros [= <-]. eauto.
    + destruct (Str.arrayMatch key) as [[arrayKey index]|].
      * destruct (Str.max_index <=? index)%N; [discriminate|].
        intros H.
        repeat (apply bind_Ok in H as [? [? H]]).
        eapply set_prop_keeps_record; [|exact H].
        match goal with
        | Hc : (if ?b then Ok (VObj ps) else _) = Ok _ |- _ =>
            destruct b; injection Hc as <-; eauto
        end.
      * intros H.
        repeat (apply bind_Ok in H as [? [? H]]).
        eapply set_prop_keeps_record; [|exact H].
        match goal with
        | Hc : (if ?b then Ok (VObj ps) else _) = Ok _ |- _ =>
            destruct b; injection Hc as <-; eauto
        end.
Qed.

Lemma replay_keeps_record t (ps : props) (r : value) :
  replay setChangePath t (VObj ps) = Ok r -> exists ps', r = VObj ps'.
Proof.
  unfold replay. revert ps. induction t as [|[p v] t IH]; intros ps; simpl.
  - intros [= <-]. eauto.
  - intros H. apply bind_Ok in H as [c [Hc H]].
    destruct (setChangePath_keeps_record _ _ _ _ Hc) as [ps' ->]. eauto.
Qed.

(** A path of one segment names a key: nothing is expanded. *)
Lemma setChangePath_plain (ps : props) (path : string) (v : value) :
  Str.includes_dot path = false -> path <> "" ->
  setChangePath (VObj ps) path v = Ok (VObj (obj_set path v ps)).
Proof.
  intros Hd Hne. unfold setChangePath.
  destruct (String.eqb_spec path ""); [contradiction|].
  now rewrite (split_dot_plain _ Hd).
Qed.

Lemma setChangePath_root_undefined (c : value) :
  setChangePath c "" VUndef = Ok c.
Proof. reflexivity. Qed.

(** Removals of plain keys, replayed on a record. *)
Lemma replay_removals (k : string) (ks : list string) (ps : props) (r : value) :
  k <> "" ->
  Forall (fun k' => Str.includes_dot k' = false) ks ->
  replay setChangePath (map (fun k' => (child_path "" k', VUndef)) ks) (VObj ps) = Ok r ->
  exists ps', r = VObj ps'
    /\ (In k ks \/ lookup_prop k ps = Some VUndef -> lookup_prop k ps' = Some VUndef).
Proof.
  intros Hk Hks. revert ps. unfold replay.
  induction Hks as [|k' ks Hd _ IH]; intros ps; simpl.
  - intros [= <-]. exists ps. split; [reflexivity|]. now intros [[]|].
  - change (child_path "" k') with k'.
    destruct (String.eqb_spec k' "") as [->|Hne].
    + rewrite setChangePath_root_undefined. simpl. intros H.
      destruct (IH _ H) as [ps' [-> Hl]]. exists ps'. split; [reflexivity|].
      intros [[He|Hin]|Hl']; [now symmetry in He|auto..].
    + rewrite (setChangePath_plain _ _ _ Hd Hne). simpl. intros H.
      destruct (IH _ H) as [ps' [-> Hl]]. exists ps'. split; [reflexivity|].
      intros Hcase. apply Hl. rewrite lookup_obj_set.
      destruct Hcase as [[He|Hin]|Hl'].
      * right. subst k'. now rewrite String.eqb_refl.
      * now left.
      * right. now destruct (String.eqb k k').
Qed.

End DifferFacts.

Section DifferClaims.
Context {host : Host}.
Variable same_ref : value -> value -> bool.

Lemma has_key_In (k : string) (ps : props) :
  In k (map fst ps) -> has_key k ps = true.
Proof.
  unfold has_key. induction ps as [|[k0 x0] rest IH]; simpl; [intros []|].
  destruct (String.eqb_spec k k0); [reflexivity|].
  intros [He|Hin]; [now symmetry in He|auto].
Qed.

Lemma diff_scalar_same (x : value) :
  is_scalar x = true -> diff same_ref x x default_options = Ok (VObj []).
Proof.
  destruct x; try discriminate; intros _; unfold diff; simpl;
    unfold diff_head; simpl; trivial.
  - now destruct b.
  - now destruct (num_eqb n n).
  - now rewrite String.eqb_refl.
  - now rewrite Nat.eqb_refl.
Qed.

(** C6: [diff(x, x)] with the default options returns the empty change
    tree.  When the two arguments are one scalar or one allocation, the
    opening test of [computeDiff] (or the merge at the root path) ends the
    run with nothing written; when they are two equal trees, with each key
    once in a record and no [NaN], the recursion finds no difference
    whatever [===] answers on the records met. *)
Theorem diff_same (x : value) :
  (is_scalar x = true \/ same_ref x x = true ->
   diff same_ref x x default_options = Ok (VObj []))
  /\ (well_formed x = true -> nan_free x = true ->
      diff same_ref x x default_options = Ok (VObj [])).
Proof.
  split.
  - intros [Hs|Hr]; [now apply diff_scalar_same|].
    destruct (is_scalar x) eqn:E; [now apply diff_scalar_same|].
    unfold diff.
    destruct x; try discriminate; simpl; unfold diff_head; simpl;
      simpl in Hr; now rewrite Hr.
  - intros Hwf Hnan. unfold diff. now apply computeDiff_same.
Qed.

End DifferClaims.

Section SequenceClaims.
Context {host : Host}.
Variable same_ref : value -> value -> bool.

Lemma computeDiff_scalar_changed {A : Type} (emit : A -> string -> value -> result A)
  (opts : diff_options) (o x : value) (p : string) (changes : A) :
  is_scalar x = true ->
  existsb (String.eqb p) (ignoreFields opts) = false ->
  strict_eq same_ref o x = false ->
  computeDiff same_ref emit opts o x p changes = emit changes p x.
Proof.
  intros Hx Hi Hs.
  destruct x; try discriminate; simpl; unfold diff_head; rewrite Hi, Hs;
    destruct (negb (jstype_eqb _ _)); reflexivity.
Qed.


Lemma item_path_plain (k : string) (i : nat) :
  Str.includes_dot k = false ->
  Str.includes_dot (item_path k i) = false /\ item_path k i <> "".
Proof.
  intros Hk. unfold item_path, Str.of_nat.
  destruct (String.eqb_spec k "") as [->|Hne].
  - split; [|discriminate].
    rewrite !includes_dot_app, includes_dot_of_N. reflexivity.
  - split.
    + rewrite !includes_dot_app, includes_dot_of_N, Hk. reflexivity.
    + destruct k; [contradiction|discriminate].
Qed.

End SequenceClaims.

(** C10: [isEqual] compares the two [JSON.stringify] texts, which list the
    keys of a record in enumeration order: two records with the same
    members in another order are reported different. *)
Theorem isEqual_key_order {host : Host} :
  exists xs ys : props,
    Permutation xs ys
    /\ isEqual (VObj xs) (VObj ys) = Ok false
    /\ hasChanges (VObj xs) (VObj ys) = Ok true.
Proof.
  exists [("a", VNum (num_of_N 1)); ("b", VNum (num_of_N 2))],
         [("b", VNum (num_of_N 2)); ("a", VNum (num_of_N 1))].
  split; [apply perm_swap|].
  assert (H : isEqual (VObj [("a", VNum (num_of_N 1)); ("b", VNum (num_of_N 2))])
                      (VObj [("b", VNum (num_of_N 2)); ("a", VNum (num_of_N 1))])
              = Ok false) by reflexivity.
  split; [exact H|]. unfold hasChanges. now rewrite H.
Qed.

(** ** normalizer.js *)

Section NormalizerClaims.
Context {host : Host}.
Variable call_fn : nat -> list value -> result value.

Lemma coerceType_numeral (n : N) :
  (n < 2 ^ 53)%N -> negb (String.eqb (Str.trim (Str.of_N n)) "") = true ->
  coerceType (VStr (Str.of_N n)) = VNum (num_of_N n).
Proof.
  intros Hn Ht. unfold coerceType.
  rewrite StringToNumber_of_N, num_of_N_isNaN, Ht, num_of_N_isFinite by assumption.
  reflexivity.
Qed.

(** C5: [coerceType] is the coercion of the specification: on a string the
    first rule that applies among number, boolean and date, in that order,
    and any other value unchanged; it is a total function, with no
    exceptional outcome.  [normalize] sends [{count:'42', flag:'true'}]
    under [{count:'count', flag:'flag'}] to the number 42 and the boolean
    [true]. *)
Theorem coerceType_rules :
  (forall v, coerceType v = coerce_by_rules v)
  /\ (forall v, (forall s, v <> VStr s) -> coerceType v = v)
  /\ coerceType (VStr "true") = VBool true
  /\ coerceType (VStr "false") = VBool false
  /\ normalize call_fn
       (VObj [("count", VStr "42"); ("flag", VStr "true")])
       (VObj [("count", VStr "count"); ("flag", VStr "flag")])
       normalize_defaults
     = Ok (VObj [("count", VNum (num_of_N 42)); ("flag", VBool true)]).
Proof.
  assert (Htrue : coerceType (VStr "true") = VBool true).
  { unfold coerceType. now rewrite StringToNumber_true. }
  assert (Hfalse : coerceType (VStr "false") = VBool false).
  { unfold coerceType. now rewrite StringToNumber_false. }
  split; [|split; [|split; [|split]]]; trivial.
  - intros v. destruct v; try reflexivity.
    unfold coerceType, coerce_by_rules, strict_numeric, valid_date_time.
    destruct (negb (num_isNaN (StringToNumber s))), (negb (String.eqb (Str.trim s) ""));
      simpl; try reflexivity.
    now destruct (num_isFinite (StringToNumber s)).
  - intros v Hv. destruct v; try reflexivity. now destruct (Hv s).
  - pose proof (coerceType_numeral 42 eq_refl eq_refl) as H42.
    change (Str.of_N 42) with "42" in H42.
    unfold normalize, processMapping, process_leaf, apply_transform.
    cbn -[coerceType]. rewrite H42. cbn -[coerceType]. rewrite Htrue. reflexivity.
Qed.

(** *** The round trip under a mapping of two levels *)

Lemma split_dot_dotted (k s : string) :
  plain k = true -> Str.split_dot (k ++ "." ++ s)%string = k :: Str.split_dot s.
Proof.
  unfold plain. induction k as [|c k IH]; simpl in *; [reflexivity|].
  destruct (Ascii.eqb c "."); simpl; [discriminate|].
  intros H. now rewrite (IH H).
Qed.

Lemma setNestedValue_plain (fs : props) (name : string) (v : value) :
  plain name = true -> setNestedValue (VObj fs) name v = Ok (VObj (obj_set name v fs)).
Proof.
  unfold plain, setNestedValue. intros H.
  rewrite split_dot_plain by now destruct (Str.includes_dot name).
  reflexivity.
Qed.

Lemma getNestedValue_dotted (x : value) (path : list string) :
  forallb plain path = true -> path <> [] ->
  getNestedValue x (dotted path) = getNested_loop x path.
Proof.
  unfold getNestedValue. intros Hp Hne. f_equal.
  induction path as [|k rest IH]; [contradiction|].
  simpl in Hp. apply andb_true_iff in Hp as [Hk Hrest].
  destruct rest as [|k2 rest].
  - simpl. apply split_dot_plain. unfold plain in Hk.
    now destruct (Str.includes_dot k).
  - change (dotted (k :: k2 :: rest)) with (k ++ "." ++ dotted (k2 :: rest))%string.
    rewrite split_dot_dotted by assumption. f_equal. now apply IH.
Qed.

(** *** [normalize] *)

Lemma process_leaf_off (source : value) (apiKey name : string) (fs : props) :
  plain name = true ->
  process_leaf call_fn coercion_off source apiKey name (VObj fs)
  = Ok (VObj (let v := get_prop_opt source apiKey in
              if is_undefined v then fs else obj_set name v fs)).
Proof.
  intros Hp. unfold process_leaf, apply_transform. simpl.
  destruct (get_prop_opt source apiKey) eqn:E; simpl;
    try reflexivity; now apply setNestedValue_plain.
Qed.

Lemma processMapping_cons (opts : normalize_options) (source : value)
  (k : string) (v : value) (rest : props) (fd : value) :
  processMapping call_fn opts source (VObj ((k, v) :: rest)) fd
  = let* fd1 := processMapping call_fn opts source (VObj [(k, v)]) fd in
    processMapping call_fn opts source (VObj rest) fd1.
Proof.
  cbn.
  match goal with |- context [bind ?m _] => destruct m end; reflexivity.
Qed.

Lemma processMapping_leaf (opts : normalize_options) (source : value)
  (k name : string) (fd : value) :
  processMapping call_fn opts source (VObj [(k, VStr name)]) fd
  = process_leaf call_fn opts source k name fd.
Proof. cbn. now destruct (process_leaf call_fn opts source k name fd). Qed.

Lemma processMapping_nested (opts : normalize_options) (source : value)
  (k : string) (nested : props) (fd : value) :
  processMapping call_fn opts source (VObj [(k, VObj nested)]) fd
  = if isPlainObject (get_prop_opt source k)
    then processMapping call_fn opts (get_prop_opt source k) (VObj nested) fd
    else Ok fd.
Proof.
  cbn. destruct (isPlainObject (get_prop_opt source k)); [|reflexivity].
  cbn. match goal with |- bind ?m _ = _ => now destruct m end.
Qed.

Lemma forallb_flat_map {A B : Type} (p : B -> bool) (f : A -> list B) (l : list A) :
  forallb p (flat_map f l) = forallb (fun a => forallb p (f a)) l.
Proof.
  induction l as [|a l IH]; simpl; [reflexivity|].
  now rewrite forallb_app, IH.
Qed.

Lemma normalize_nested (x s : value) (key : string) (nested : props) (fs : props) :
  leaf_record nested = true ->
  forallb plain_leaf (nested_leaves key nested) = true ->
  (forall k2, get_prop_opt s k2 = getNested_loop x [key; k2]) ->
  processMapping call_fn coercion_off s (VObj nested) (VObj fs)
  = Ok (VObj (fold_left (store_leaf x) (nested_leaves key nested) fs)).
Proof.
  intros Hl Hp Hs. revert fs.
  induction nested as [|[k2 v] rest IH]; intros fs; [reflexivity|].
  simpl in Hl. apply andb_true_iff in Hl as [Hv Hl].
  destruct v; try discriminate.
  rewrite processMapping_cons, processMapping_leaf.
  unfold nested_leaves in Hp |- *. cbn [flat_map app fold_left] in Hp |- *.
  cbn [forallb] in Hp. apply andb_true_iff in Hp as [Hn Hp].
  unfold plain_leaf in Hn. cbn [fst snd] in Hn.
  apply andb_true_iff in Hn as [_ Hn].
  rewrite process_leaf_off by assumption.
  cbn [bind]. rewrite (IH Hl Hp), Hs. reflexivity.
Qed.

Lemma store_nothing (x : value) (leaves : list (list string * string)) (fs : props) :
  (forall leaf, In leaf leaves -> getNested_loop x (fst leaf) = VUndef) ->
  fold_left (store_leaf x) leaves fs = fs.
Proof.
  revert fs. induction leaves as [|leaf rest IH]; intros fs H; [reflexivity|].
  simpl. unfold store_leaf at 2. rewrite (H leaf) by now left.
  simpl. apply IH. intros l Hl. apply H. now right.
Qed.

Lemma nested_leaves_path (key : string) (nested : props) (leaf : list string * string) :
  In leaf (nested_leaves key nested) ->
  exists k2, fst leaf = [key; k2] /\ In (k2, VStr (snd leaf)) nested.
Proof.
  unfold nested_leaves. rewrite in_flat_map. intros [[k2 v] [Hin Hl]].
  destruct v; simpl in Hl; try contradiction.
  destruct Hl as [<-|[]]. exists k2. now split.
Qed.

(** [processMapping] on a mapping of two levels stores each leaf the source
    defines, in the order of the mapping. *)
Lemma normalize_leaves (x : value) (ms : props) (fs : props) :
  two_levels ms = true ->
  forallb plain_leaf (mapped_leaves ms) = true ->
  fits x ms = true ->
  processMapping call_fn coercion_off x (VObj ms) (VObj fs)
  = Ok (VObj (fold_left (store_leaf x) (mapped_leaves ms) fs)).
Proof.
  intros Ht Hp Hf. revert fs.
  induction ms as [|[key v] rest IH]; intros fs; [reflexivity|].
  simpl in Ht, Hf. apply andb_true_iff in Ht as [Hv Ht].
  apply andb_true_iff in Hf as [Hx Hf].
  rewrite processMapping_cons.
  unfold mapped_leaves in Hp |- *. cbn [flat_map] in Hp |- *.
  rewrite forallb_app in Hp. apply andb_true_iff in Hp as [Hk Hp].
  rewrite fold_left_app.
  destruct v; try discriminate.
  - cbn [forallb] in Hk. rewrite andb_true_r in Hk.
    unfold plain_leaf in Hk. cbn [fst snd] in Hk.
    apply andb_true_iff in Hk as [_ Hn].
    rewrite processMapping_leaf, process_leaf_off by assumption.
    cbn [bind]. now rewrite (IH Ht Hp Hf).
  - rewrite processMapping_nested.
    destruct (isPlainObject (get_prop_opt x key)) eqn:Hplain.
    + assert (Hs : forall k2, get_prop_opt (get_prop_opt x key) k2
                              = getNested_loop x [key; k2]).
      { intros k2. unfold get_prop_opt in *. simpl.
        destruct (is_nullish x); [discriminate|reflexivity]. }
      rewrite (normalize_nested x _ key _ _ Hv Hk Hs).
      cbn [bind]. now rewrite (IH Ht Hp Hf).
    + cbn [bind]. rewrite (IH Ht Hp Hf). do 2 f_equal. f_equal.
      symmetry. apply store_nothing. intros leaf Hin.
      apply nested_leaves_path in Hin as [k2 [-> _]].
      unfold get_prop_opt in *. simpl.
      destruct (is_nullish x); [reflexivity|].
      now destruct (get_own x key).
Qed.

(** *** [invertMapping] *)

Lemma invert_nested (key : string) (nested : props) (target : props) :
  leaf_record nested = true ->
  invert_entry key (VObj nested) target
  = fold_left invert_leaf (nested_leaves key nested) target.
Proof.
  revert target. induction nested as [|[k2 v] rest IH]; intros target Hl;
    [reflexivity|].
  simpl in Hl. apply andb_true_iff in Hl as [Hv Hl].
  destruct v; try discriminate.
  specialize (IH (put s (VStr (key ++ "." ++ k2)%string) target) Hl).
  simpl in IH |- *. exact IH.
Qed.

Lemma invert_leaves (ms : props) (target : props) :
  two_levels ms = true ->
  fold_left (fun target '(key, v) => invert_entry key v target) ms target
  = fold_left invert_leaf (mapped_leaves ms) target.
Proof.
  revert target. induction ms as [|[key v] rest IH]; intros target Ht;
    [reflexivity|].
  simpl in Ht. apply andb_true_iff in Ht as [Hv Ht].
  unfold mapped_leaves. cbn [flat_map fold_left]. rewrite fold_left_app.
  destruct v; try discriminate.
  - rewrite (IH _ Ht). reflexivity.
  - rewrite (IH _ Ht), (invert_nested _ _ _ Hv). reflexivity.
Qed.

(** *** [denormalize] *)

Lemma includes_dot_dotted (k k2 : string) :
  Str.includes_dot (dotted [k; k2]) = true.
Proof.
  change (dotted [k; k2]) with (k ++ "." ++ k2)%string.
  rewrite includes_dot_app. simpl. apply orb_true_r.
Qed.

Lemma denormalize_entry_defined (form : value) (name : string) (p : string)
  (payload : value) :
  is_undefined (getNestedValue form name) = false ->
  denormalize_entry call_fn denormalize_defaults form name (VStr p) payload
  = if Str.includes_dot p then setNestedValue payload p (getNestedValue form name)
    else set_prop payload p (getNestedValue form name).
Proof.
  intros Hv. unfold denormalize_entry, apply_transform. simpl. rewrite Hv.
  simpl. destruct (getNestedValue form name); try discriminate; reflexivity.
Qed.

Lemma denormalize_entry_undefined (form : value) (name : string) (a payload : value) :
  is_undefined (getNestedValue form name) = true ->
  denormalize_entry call_fn denormalize_defaults form name a payload = Ok payload.
Proof. intros Hv. unfold denormalize_entry. simpl. now rewrite Hv. Qed.

Lemma setNestedValue_two (ps : props) (k k2 : string) (v : value) :
  plain k = true -> plain k2 = true -> parent_ready ps k ->
  setNestedValue (VObj ps) (dotted [k; k2]) v = Ok (VObj (write_at [k; k2] v ps)).
Proof.
  intros Hk Hk2 Hr. unfold setNestedValue.
  change (dotted [k; k2]) with (k ++ "." ++ k2)%string.
  rewrite split_dot_dotted by assumption.
  rewrite split_dot_plain by (unfold plain in Hk2; now destruct (Str.includes_dot k2)).
  cbn [removelast List.last setNested_loop write_at].
  unfold get_prop. cbn [is_nullish get_own bind].
  destruct Hr as [Hn|[inner Hs]].
  - rewrite Hn. cbn [truthy negb orb set_prop bind is_nullish get_own].
    rewrite lookup_obj_set, String.eqb_refl. reflexivity.
  - rewrite Hs. cbn [truthy isPlainObject negb orb set_prop bind is_nullish get_own].
    rewrite Hs. reflexivity.
Qed.

Lemma reads_written (path : list string) (v : value) (ps : props) :
  (exists k, path = [k]) \/ (exists k k2, path = [k; k2]) ->
  reads (write_at path v ps) path = v.
Proof.
  unfold reads. intros [[k ->]|[k [k2 ->]]]; cbn [write_at].
  - simpl. now rewrite lookup_obj_set, String.eqb_refl.
  - destruct (lookup_prop k ps) as [[]|]; simpl;
      rewrite !lookup_obj_set, !String.eqb_refl; simpl;
      now rewrite lookup_obj_set, String.eqb_refl.
Qed.

Lemma lookup_write_at (path : list string) (v : value) (ps : props) (k' : string) :
  k' <> hd "" path -> lookup_prop k' (write_at path v ps) = lookup_prop k' ps.
Proof.
  intros Hne. destruct path as [|k [|k2 [|]]]; try reflexivity; simpl in Hne;
    cbn [write_at].
  - rewrite lookup_obj_set. now destruct (String.eqb_spec k' k).
  - destruct (lookup_prop k ps) as [[]|]; rewrite !lookup_obj_set;
      now destruct (String.eqb_spec k' k).
Qed.

Lemma reads_other_head (path q : list string) (v : value) (ps : props) :
  hd "" q <> hd "" path -> q <> [] ->
  reads (write_at path v ps) q = reads ps q.
Proof.
  intros Hne Hq. destruct q as [|k rest]; [contradiction|].
  unfold reads. simpl. now rewrite lookup_write_at.
Qed.

Lemma reads_sibling (k k2 j : string) (v : value) (ps : props) :
  j <> k2 -> parent_ready ps k ->
  reads (write_at [k; k2] v ps) [k; j] = reads ps [k; j].
Proof.
  intros Hne Hr. unfold reads. cbn [write_at].
  destruct Hr as [Hn|[inner Hs]].
  - rewrite Hn. simpl. rewrite !lookup_obj_set, !String.eqb_refl, Hn. simpl.
    rewrite lookup_obj_set. now destruct (String.eqb_spec j k2).
  - rewrite Hs. simpl. rewrite !lookup_obj_set, !String.eqb_refl, Hs. simpl.
    rewrite lookup_obj_set. now destruct (String.eqb_spec j k2).
Qed.

Lemma parent_ready_write_at (path : list string) (v : value) (ps : props) (k : string) :
  (exists k2, path = [k; k2]) \/ k <> hd "" path ->
  parent_ready ps k -> parent_ready (write_at path v ps) k.
Proof.
  unfold parent_ready. intros [[k2 ->]|Hne] Hr.
  - right. cbn [write_at].
    destruct (lookup_prop k ps) as [[]|]; rewrite !lookup_obj_set, !String.eqb_refl;
      eauto.
  - now rewrite lookup_write_at.
Qed.

Lemma is_undefined_true (v : value) : is_undefined v = true -> v = VUndef.
Proof. now destruct v. Qed.

Lemma lookup_prop_In (k : string) (ps : props) (v : value) :
  lookup_prop k ps = Some v -> In k (map fst ps).
Proof.
  induction ps as [|[k0 v0] rest IH]; simpl; [discriminate|].
  destruct (String.eqb_spec k k0) as [->|_]; [now left|]. intros H. right. auto.
Qed.

Lemma In_obj_set (e : string * value) (k : string) (v : value) (ps : props) :
  In e (obj_set k v ps) -> e = (k, v) \/ In e ps.
Proof.
  unfold obj_set. destruct (has_key k ps).
  - induction ps as [|[k0 v0] rest IH]; simpl; [tauto|].
    destruct (String.eqb_spec k k0) as [->|_]; simpl.
    + intros [<-|H]; auto.
    + intros [<-|H]; auto. destruct (IH H); auto.
  - destruct (Str.array_index k) as [n|].
    + induction ps as [|[k0 v0] rest IH]; simpl; [intros [<-|[]]; auto|].
      destruct (Str.array_index k0) as [n'|]; [destruct (n <? n')%N|]; simpl.
      * intros [<-|H]; auto.
      * intros [<-|H]; auto. destruct (IH H); auto.
      * intros [<-|H]; auto.
    + rewrite in_app_iff. simpl. intros [H|[<-|[]]]; auto.
Qed.

Section Leaves.
Variable x : value.
Variable leaves : list (list string * string).
Hypothesis shape : forall path t, In (path, t) leaves ->
  (exists k, path = [k]) \/ (exists k k2, path = [k; k2]).
Hypothesis apart : forall k t k' k2 t',
  In ([k], t) leaves -> In ([k'; k2], t') leaves -> k <> k'.
Hypothesis single : forall path t t',
  In (path, t) leaves -> In (path, t') leaves -> t = t'.
Hypothesis names : List.NoDup (map snd leaves).
Hypothesis plain_leaves : forallb plain_leaf leaves = true.

Lemma leaf_plain (path : list string) (t : string) :
  In (path, t) leaves -> forallb plain path = true /\ plain t = true.
Proof.
  intros Hin. rewrite forallb_forall in plain_leaves.
  specialize (plain_leaves _ Hin). unfold plain_leaf in plain_leaves.
  now apply andb_true_iff in plain_leaves.
Qed.

Lemma name_path (p1 p2 : list string) (t : string) :
  In (p1, t) leaves -> In (p2, t) leaves -> p1 = p2.
Proof.
  clear shape apart single plain_leaves. revert names.
  induction leaves as [|[p0 t0] rest IH]; simpl; [intros _ []|].
  intros Hnd. apply List.NoDup_cons_iff in Hnd as [Hnot Hnd].
  intros [E1|H1] [E2|H2]; auto.
  - congruence.
  - destruct Hnot. replace t0 with t by congruence.
    now apply (in_map snd _ (p2, t)).
  - destruct Hnot. replace t0 with t by congruence.
    now apply (in_map snd _ (p1, t)).
Qed.

(** *** What [normalize] leaves in the form *)

Lemma store_other (t : string) (ls : list (list string * string)) (fs : props) :
  ~ In t (map snd ls) ->
  lookup_prop t (fold_left (store_leaf x) ls fs) = lookup_prop t fs.
Proof.
  revert fs. induction ls as [|[p0 t0] rest IH]; intros fs Hn; [reflexivity|].
  simpl in Hn |- *. rewrite IH by tauto. unfold store_leaf. simpl.
  destruct (is_undefined (getNested_loop x p0)); [reflexivity|].
  rewrite lookup_obj_set. destruct (String.eqb_spec t t0); [|reflexivity].
  subst. tauto.
Qed.

Lemma form_read (path : list string) (t : string) :
  In (path, t) leaves ->
  getNestedValue (VObj (fold_left (store_leaf x) leaves [])) t
  = getNested_loop x path.
Proof.
  intros Hin. destruct (leaf_plain _ _ Hin) as [_ Ht].
  unfold getNestedValue.
  rewrite split_dot_plain by (unfold plain in Ht; now destruct (Str.includes_dot t)).
  simpl. clear shape apart single plain_leaves Ht.
  assert (Hfs : forall leaf, In leaf leaves ->
                lookup_prop (snd leaf) (@nil (string * value)) = None)
    by reflexivity.
  revert Hfs Hin names. generalize (@nil (string * value)) as fs.
  induction leaves as [|[p0 t0] rest IH]; intros fs Hfs Hin Hnd; [destruct Hin|].
  apply List.NoDup_cons_iff in Hnd as [Hnot Hnd]. simpl in Hnot.
  simpl. destruct Hin as [[= -> ->]|Hin].
  - rewrite store_other by assumption. unfold store_leaf. simpl.
    destruct (is_undefined (getNested_loop x path)) eqn:E.
    + pose proof (Hfs (path, t) (or_introl eq_refl)) as Hnone. simpl in Hnone.
      rewrite Hnone. symmetry. now apply is_undefined_true.
    + now rewrite lookup_obj_set, String.eqb_refl.
  - apply IH; trivial. intros leaf Hl. unfold store_leaf. simpl.
    destruct (is_undefined (getNested_loop x p0)).
    + apply Hfs. now right.
    + rewrite lookup_obj_set. destruct (String.eqb_spec leaf.2 t0) as [E|_].
      * destruct Hnot. rewrite <- E. now apply in_map.
      * apply Hfs. now right.
Qed.

(** *** What [invertMapping] returns *)

Lemma inverted_entries (ls : list (list string * string)) (target : props)
  (t : string) (a : value) :
  In (t, a) (fold_left invert_leaf ls target) ->
  In (t, a) target \/ exists path, a = VStr (dotted path) /\ In (path, t) ls.
Proof.
  revert target. induction ls as [|[p0 t0] rest IH]; intros target; simpl; [auto|].
  intros H. destruct (IH _ H) as [H1|[path [-> Hp]]]; [|eauto].
  unfold invert_leaf, put in H1. simpl in H1.
  apply In_obj_set in H1 as [[= -> ->]|H1]; eauto.
Qed.

Lemma inverted_other (t : string) (ls : list (list string * string)) (target : props) :
  ~ In t (map snd ls) ->
  lookup_prop t (fold_left invert_leaf ls target) = lookup_prop t target.
Proof.
  revert target. induction ls as [|[p0 t0] rest IH]; intros target Hn; [reflexivity|].
  simpl in Hn |- *. rewrite IH by tauto. unfold invert_leaf, put. simpl.
  rewrite lookup_obj_set. destruct (String.eqb_spec t t0); [|reflexivity].
  subst. tauto.
Qed.

Lemma inverted_names (path : list string) (t : string) :
  In (path, t) leaves -> In t (map fst (fold_left invert_leaf leaves [])).
Proof.
  clear shape apart single plain_leaves. revert names.
  generalize (@nil (string * value)) as target.
  induction leaves as [|[p0 t0] rest IH]; intros target Hnd Hin; [destruct Hin|].
  apply List.NoDup_cons_iff in Hnd as [Hnot Hnd]. simpl in Hnot. simpl.
  destruct Hin as [[= -> ->]|Hin]; [|now apply IH].
  apply (lookup_prop_In _ _ (VStr (dotted path))).
  rewrite inverted_other by assumption.
  unfold invert_leaf, put. simpl. now rewrite lookup_obj_set, String.eqb_refl.
Qed.

(** *** What [denormalize] writes *)

Lemma reads_frame (path0 path : list string) (t0 t : string) (v : value) (ps : props) :
  In (path0, t0) leaves -> In (path, t) leaves -> path <> path0 ->
  (forall k k2 t, In ([k; k2], t) leaves -> parent_ready ps k) ->
  reads (write_at path0 v ps) path = reads ps path.
Proof.
  intros H0 H Hne Hr.
  destruct (shape _ _ H0) as [[a ->]|[a [a2 ->]]],
           (shape _ _ H) as [[k ->]|[k [k2 ->]]].
  - apply reads_other_head; [simpl; congruence|discriminate].
  - apply reads_other_head; [simpl|discriminate].
    intros ->. now apply (apart _ _ _ _ _ H0 H).
  - apply reads_other_head; [simpl|discriminate].
    intros ->. now apply (apart _ _ _ _ _ H H0).
  - destruct (String.eqb_spec k a) as [->|Hka].
    + apply reads_sibling; [congruence|]. now apply (Hr _ _ _ H0).
    + apply reads_other_head; [simpl; congruence|discriminate].
Qed.

Lemma denormalize_entry_leaf (form : value) (path : list string) (t : string)
  (ps : props) :
  In (path, t) leaves -> settled x leaves ps ->
  getNestedValue form t = getNested_loop x path ->
  exists ps1,
    denormalize_entry call_fn denormalize_defaults form t (VStr (dotted path)) (VObj ps)
    = Ok (VObj ps1)
    /\ settled x leaves ps1
    /\ reads ps1 path = getNested_loop x path
    /\ (forall q u, In (q, u) leaves -> q <> path -> reads ps1 q = reads ps q).
Proof.
  intros Hin [Hready Hreads] Hv.
  destruct (is_undefined (getNestedValue form t)) eqn:Hu.
  - exists ps. rewrite denormalize_entry_undefined by assumption.
    repeat split; trivial.
    apply is_undefined_true in Hu. rewrite Hv in Hu. rewrite Hu.
    destruct (Hreads _ _ Hin) as [E|E]; congruence.
  - exists (write_at path (getNestedValue form t) ps).
    destruct (leaf_plain _ _ Hin) as [Hp _].
    rewrite denormalize_entry_defined by assumption.
    assert (Hw : reads (write_at path (getNestedValue form t) ps) path
                 = getNested_loop x path).
    { rewrite reads_written by now apply (shape _ _ Hin). exact Hv. }
    split; [|split; [split|split]]; trivial.
    + destruct (shape _ _ Hin) as [[k ->]|[k [k2 ->]]].
      * simpl in Hp. rewrite andb_true_r in Hp. unfold plain in Hp.
        change (dotted [k]) with k.
        destruct (Str.includes_dot k); [discriminate|reflexivity].
      * rewrite includes_dot_dotted. simpl in Hp.
        rewrite andb_true_r in Hp. apply andb_true_iff in Hp as [Hk Hk2].
        apply setNestedValue_two; trivial. now apply (Hready _ _ _ Hin).
    + intros k k2 u Hq. apply parent_ready_write_at; [|now apply (Hready _ _ _ Hq)].
      destruct (shape _ _ Hin) as [[a ->]|[a [a2 ->]]].
      * right. simpl. intros ->. now apply (apart _ _ _ _ _ Hin Hq).
      * destruct (String.eqb_spec k a) as [->|Hka]; [left; eauto|now right].
    + intros q u Hq.
      destruct (List.list_eq_dec String.string_dec q path) as [->|Hne].
      * right. exact Hw.
      * rewrite (reads_frame _ _ _ _ _ _ Hin Hq Hne Hready). now apply (Hreads _ u).
    + intros q u Hq Hne. now apply (reads_frame _ _ _ _ _ _ Hin Hq Hne Hready).
Qed.

Lemma processFormData_leaves (form : value) (es : props) :
  (forall path t, In (path, t) leaves ->
     getNestedValue form t = getNested_loop x path) ->
  (forall t a, In (t, a) es ->
     exists path, a = VStr (dotted path) /\ In (path, t) leaves) ->
  forall ps, settled x leaves ps ->
  exists ps',
    processFormData call_fn denormalize_defaults form (VObj es) (VObj ps) = Ok (VObj ps')
    /\ settled x leaves ps'
    /\ (forall path t, In (path, t) leaves -> In t (map fst es) ->
         reads ps' path = getNested_loop x path)
    /\ (forall path t, In (path, t) leaves -> ~ In t (map fst es) ->
         reads ps' path = reads ps path).
Proof.
  intros Hform. unfold processFormData. cbn [own_props].
  induction es as [|[t0 a0] rest IH]; intros Hes ps Hs.
  - exists ps. split; [reflexivity|]. split; [exact Hs|].
    split; [intros ? ? _ []|reflexivity].
  - destruct (Hes t0 a0 (or_introl eq_refl)) as [path0 [-> Hin0]].
    destruct (denormalize_entry_leaf form path0 t0 ps Hin0 Hs (Hform _ _ Hin0))
      as [ps1 [Hstep [Hs1 [Hr1 Hframe]]]].
    destruct (IH (fun t a H => Hes t a (or_intror H)) ps1 Hs1)
      as [ps' [Hfold [Hs' [Hdone Hrest]]]].
    exists ps'. cbn [foldM]. rewrite Hstep. cbn [bind].
    split; [exact Hfold|]. split; [exact Hs'|]. split.
    + intros path t Hin Ht.
      destruct (in_dec String.string_dec t (map fst rest)) as [Hlater|Hnot].
      * now apply (Hdone _ t).
      * rewrite (Hrest _ t Hin Hnot).
        destruct Ht as [E|Ht]; [|contradiction]. simpl in E. subst t0.
        now rewrite (name_path _ _ _ Hin Hin0).
    + intros path t Hin Ht. simpl in Ht.
      rewrite (Hrest _ t Hin) by tauto.
      apply (Hframe _ t Hin). intros ->. apply Ht. left.
      now apply (single path0).
Qed.

End Leaves.

(** *** The leaves of a well-formed mapping *)

Lemma well_formed_record (ms : props) :
  well_formed (VObj ms) = true ->
  unique_keys ms = true /\ forall k v, In (k, v) ms -> well_formed v = true.
Proof.
  simpl. intros H. apply andb_true_iff in H as [Hu H]. split; [exact Hu|].
  clear Hu. induction ms as [|[k0 v0] rest IH]; [intros ? ? []|].
  apply andb_true_iff in H as [H0 H]. intros k v [[= <- <-]|Hin]; eauto.
Qed.

Lemma mapped_leaves_In (ms : props) (path : list string) (t : string) :
  In (path, t) (mapped_leaves ms) ->
  (exists k, path = [k] /\ In (k, VStr t) ms)
  \/ (exists k k2 nested,
        path = [k; k2] /\ In (k, VObj nested) ms /\ In (k2, VStr t) nested).
Proof.
  unfold mapped_leaves. rewrite in_flat_map. intros [[k v] [Hin Hl]].
  destruct v as [| | | | name | | | |nested]; simpl in Hl; try contradiction.
  - destruct Hl as [[= <- <-]|[]]. left. eauto.
  - apply nested_leaves_path in Hl as [k2 [Hp Hk2]]. simpl in Hp, Hk2.
    right. exists k, k2, nested. auto.
Qed.

Lemma mapped_leaves_shape (ms : props) (path : list string) (t : string) :
  In (path, t) (mapped_leaves ms) ->
  (exists k, path = [k]) \/ (exists k k2, path = [k; k2]).
Proof.
  intros H. apply mapped_leaves_In in H as [[k [-> _]]|[k [k2 [n [-> _]]]]]; eauto.
Qed.

Lemma mapped_leaves_apart (ms : props) (k t k' k2 t' : string) :
  unique_keys ms = true ->
  In ([k], t) (mapped_leaves ms) -> In ([k'; k2], t') (mapped_leaves ms) -> k <> k'.
Proof.
  intros Hu H1 H2 ->.
  apply mapped_leaves_In in H1 as [[a [[= <-] Ha]]|[a [a2 [n [[=] _]]]]].
  apply mapped_leaves_In in H2 as [[b [[=] _]]|[b [b2 [n [[= <- <-] [Hb _]]]]]].
  pose proof (unique_keys_lookup _ Hu _ _ Ha) as E1.
  pose proof (unique_keys_lookup _ Hu _ _ Hb) as E2. congruence.
Qed.

Lemma mapped_leaves_single (ms : props) (path : list string) (t t' : string) :
  well_formed (VObj ms) = true ->
  In (path, t) (mapped_leaves ms) -> In (path, t') (mapped_leaves ms) -> t = t'.
Proof.
  intros Hw H1 H2. destruct (well_formed_record _ Hw) as [Hu Hin].
  apply mapped_leaves_In in H1 as [[a [-> Ha]]|[a [a2 [n [-> [Ha Ha2]]]]]];
    apply mapped_leaves_In in H2 as [[b [[= <-] Hb]]|[b [b2 [m [[= <- <-] [Hb Hb2]]]]]].
  - pose proof (unique_keys_lookup _ Hu _ _ Ha).
    pose proof (unique_keys_lookup _ Hu _ _ Hb). congruence.
  - pose proof (unique_keys_lookup _ Hu _ _ Ha) as E1.
    pose proof (unique_keys_lookup _ Hu _ _ Hb) as E2.
    assert (m = n) as -> by congruence.
    destruct (well_formed_record n (Hin _ _ Ha)) as [Hn _].
    pose proof (unique_keys_lookup _ Hn _ _ Ha2).
    pose proof (unique_keys_lookup _ Hn _ _ Hb2). congruence.
Qed.

(** X23: Under a mapping tree of at most two levels, with dot-free keys and
    names and each target name once, [normalize] with no transform and no
    coercion followed by [denormalize] returns a record that holds, at
    every mapped source path, what the source holds there. *)
Theorem roundtrip_two_levels (ms : props) (x : value) :
  well_formed (VObj ms) = true ->
  two_levels ms = true ->
  forallb plain_leaf (mapped_leaves ms) = true ->
  List.NoDup (map snd (mapped_leaves ms)) ->
  fits x ms = true ->
  exists form r,
    normalize call_fn x (VObj ms) coercion_off = Ok form
    /\ denormalize call_fn form (VObj ms) denormalize_defaults = Ok r
    /\ forall path name, In (path, name) (mapped_leaves ms) ->
         getNestedValue r (dotted path) = getNestedValue x (dotted path).
Proof.
  intros Hw Ht Hp Hn Hf.
  destruct (well_formed_record _ Hw) as [Hu _].
  pose proof (mapped_leaves_shape ms) as shape.
  pose proof (fun k t k' k2 t' => mapped_leaves_apart ms k t k' k2 t' Hu) as apart.
  pose proof (fun path t t' => mapped_leaves_single ms path t t' Hw) as single.
  unfold normalize, denormalize, invertMapping.
  change (spread [defaultValues coercion_off]) with (VObj []).
  rewrite (normalize_leaves _ _ _ Ht Hp Hf).
  cbn [own_props]. rewrite (invert_leaves _ _ Ht).
  destruct (processFormData_leaves x (mapped_leaves ms) shape apart single Hn Hp
              (VObj (fold_left (store_leaf x) (mapped_leaves ms) []))
              (fold_left invert_leaf (mapped_leaves ms) []))
    with (ps := @nil (string * value))
    as [r [Hr [_ [Hdone _]]]].
  - intros path t Hin. now apply form_read.
  - intros t a Hin. apply inverted_entries in Hin as [[]|H]. exact H.
  - split; [intros; now left|]. intros path t Hin. left.
    destruct (shape _ _ Hin) as [[k ->]|[k [k2 ->]]]; reflexivity.
  - exists (VObj (fold_left (store_leaf x) (mapped_leaves ms) [])), (VObj r).
    split; [reflexivity|]. split; [exact Hr|].
    intros path name Hin.
    assert (Hplain : forallb plain path = true).
    { rewrite forallb_forall in Hp. specialize (Hp _ Hin).
      unfold plain_leaf in Hp. now apply andb_true_iff in Hp. }
    assert (Hne : path <> [])
      by (destruct (shape _ _ Hin) as [[k ->]|[k [k2 ->]]]; discriminate).
    rewrite !getNestedValue_dotted by assumption.
    apply (Hdone _ name Hin). now apply (inverted_names _ Hn _ _ Hin).
Qed.

(** C1, at the input where it fails.  A mapping of two levels makes the
    round trip ([roundtrip_two_levels]); one level further down, under the
    mapping [{a: {b: {c: 'x'}}}], whose single target name is unique, with
    no transform and coercion off, [normalize] reads the source
    [{a: {b: {c: 1}}}] into [{x: 1}]; [invertMapping] drops the outer key
    of the path and sends [x] to ["b.c"], so that [denormalize] returns
    [{b: {c: 1}}], where the mapped source path [a.b.c] holds nothing. *)
Theorem deep_mapping_roundtrip_fails :
  let tree := VObj [("a", VObj [("b", VObj [("c", VStr "x")])])] in
  let source := VObj [("a", VObj [("b", VObj [("c", VNum (num_of_N 1))])])] in
  invertMapping tree = VObj [("b", VObj []); ("x", VStr "b.c")]
  /\ normalize call_fn source tree coercion_off = Ok (VObj [("x", VNum (num_of_N 1))])
  /\ denormalize call_fn (VObj [("x", VNum (num_of_N 1))]) tree denormalize_defaults
     = Ok (VObj [("b", VObj [("c", VNum (num_of_N 1))])])
  /\ getNestedValue source "a.b.c" = VNum (num_of_N 1)
  /\ getNestedValue (VObj [("b", VObj [("c", VNum (num_of_N 1))])]) "a.b.c" = VUndef.
Proof. repeat split; reflexivity. Qed.

End NormalizerClaims.

(** ** payloadBuilder.js *)

Section BuilderClaims.
Context {host : Host}.
Variable call_fn : nat -> list value -> result value.
Variable same_ref : value -> value -> bool.

Lemma getNestedValue_empty (path : string) : getNestedValue (VObj []) path = VUndef.
Proof.
  unfold getNestedValue. pose proof (split_dot_nonempty path) as H.
  destruct (Str.split_dot path) as [|k [|k' rest]]; [contradiction|reflexivity..].
Qed.

(** Nothing comes out of the empty change tree: every mapped field is
    absent from it and is left out. *)
Lemma denormalize_empty (mapping transform : value) (omitNull : bool) :
  denormalize call_fn (VObj []) mapping
    {| omitUndefined := true; omitNull := omitNull; d_transform := transform |}
  = Ok (VObj []).
Proof.
  unfold denormalize, processFormData.
  generalize (own_props (invertMapping mapping)) as l.
  induction l as [|[formKey apiPath] l IH]; [reflexivity|].
  simpl. unfold denormalize_entry. simpl. rewrite getNestedValue_empty. simpl.
  exact IH.
Qed.

(** C2, amended: with no validator, [buildPatchPayload] returns [null]
    whenever [diff(initial, current)] is the empty change tree (the two
    trees being ones [JSON.stringify] serialises). *)
Theorem patch_null_when_diff_empty (initial current mapping transform novalidator : value)
  (e : bool) :
  truthy novalidator = false ->
  isEqual initial current = Ok e ->
  diff same_ref initial current default_options = Ok (VObj []) ->
  buildPatchPayload call_fn same_ref initial current mapping
    {| b_transform := transform; validation := novalidator; b_defaults := VObj [] |}
  = Ok VNull.
Proof.
  intros Hv He Hd. unfold buildPatchPayload, hasChanges. rewrite He. simpl.
  destruct e; simpl; [reflexivity|].
  rewrite Hd. simpl. unfold validate. rewrite Hv. simpl.
  unfold denormalizeForPatch. simpl. rewrite denormalize_empty. reflexivity.
Qed.

End BuilderClaims.

(** ** Mapper.js *)

Section MapperClaims.
Context {host : Host}.

Lemma lookup_assign_props (k : string) (target : props) (ops : props) :
  unique_keys ops = true ->
  lookup_prop k (assign_props target (VObj ops))
  = match lookup_prop k ops with
    | Some v => Some v
    | None => lookup_prop k target
    end.
Proof.
  unfold assign_props. simpl own_props. revert target.
  induction ops as [|[k0 v0] rest IH]; intros target Hu; [reflexivity|].
  simpl in Hu. apply andb_prop in Hu as [Hk Hr]. simpl.
  rewrite (IH _ Hr), lookup_obj_set.
  destruct (String.eqb_spec k k0) as [->|_]; [|reflexivity].
  unfold has_key in Hk. now destruct (lookup_prop k0 rest).
Qed.

Lemma override_record (ops : props) (k : string) (current : value) :
  override (VObj ops) k current
  = match lookup_prop k ops with Some v => v | None => current end.
Proof. unfold override. simpl. unfold has_key. now destruct (lookup_prop k ops). Qed.

(** C4, amended: [clone(h, o)] is the constructor run on the
    configuration of [h] overridden key by key: each of the six
    configuration keys takes the value [o] holds under it, whole, when [o]
    has the key, and the value of [h] otherwise.  The handle [h] is an
    argument that is only read. *)
Theorem clone_overrides_keys (h : Mapper) (ops : props) :
  unique_keys ops = true ->
  Mapper_clone h (VObj ops) = Mapper_new (Mapper_overridden h (VObj ops)).
Proof.
  intros Hu. unfold Mapper_clone, Mapper_overridden. simpl is_undefined. cbv iota.
  unfold spread. simpl fold_left.
  change (assign_props [] (Mapper_config h)) with
    [("apiToForm", apiToFormMapping h); ("formToApi", formToApiMapping h);
     ("transforms", transforms h); ("defaults", defaults h);
     ("validator", validator h); ("options", options h)].
  unfold Mapper_new, field_or. simpl is_undefined. simpl is_null. cbv iota.
  unfold get_own. rewrite !lookup_assign_props by assumption.
  rewrite !override_record. simpl lookup_prop.
  destruct (lookup_prop "apiToForm" ops), (lookup_prop "formToApi" ops),
    (lookup_prop "transforms" ops), (lookup_prop "defaults" ops),
    (lookup_prop "validator" ops), (lookup_prop "options" ops); reflexivity.
Qed.

End MapperClaims.

(** ** The rest of the library *)

Section UtilsFacts.
Context {host : Host}.

(** *** [getNestedValue] after [setNestedValue] *)

Lemma setNested_loop_date (t : number) (keys : list string) (lastKey : string)
  (v r : value) :
  setNested_loop (VDate t) keys lastKey v <> Ok r.
Proof. destruct keys; simpl; discriminate. Qed.

Lemma setNested_loop_get (keys : list string) (lastKey : string) (v : value) :
  forall ps r,
    setNested_loop (VObj ps) keys lastKey v = Ok r ->
    (exists ps', r = VObj ps')
    /\ getNested_loop r (keys ++ [lastKey]) = v
    /\ forall k', k' <> hd lastKey keys -> get_own r k' = get_own (VObj ps) k'.
Proof.
  induction keys as [|key rest IH]; intros ps r.
  - simpl. intros [= <-]. split; [eauto|]. simpl.
    split; [now rewrite lookup_obj_set, String.eqb_refl|].
    intros k' Hne. rewrite lookup_obj_set.
    now destruct (String.eqb_spec k' lastKey).
  - cbn [setNested_loop]. unfold get_prop at 1. cbn [is_nullish get_own bind].
    set (c0 := match lookup_prop key ps with Some x => x | None => VUndef end).
    intros H.
    assert (Hstep : exists ps1 c,
               (if negb (truthy c0) || negb (isPlainObject c0)
                then set_prop (VObj ps) key (VObj [])
                else Ok (VObj ps)) = Ok (VObj ps1)
               /\ get_own (VObj ps1) key = c
               /\ (forall k', k' <> key -> lookup_prop k' ps1 = lookup_prop k' ps)
               /\ ((exists cps, c = VObj cps) \/ exists t, c = VDate t)).
    { destruct (negb (truthy c0) || negb (isPlainObject c0)) eqn:E.
      - exists (obj_set key (VObj []) ps), (VObj []). split; [reflexivity|].
        simpl. rewrite lookup_obj_set, String.eqb_refl. split; [reflexivity|].
        split; [|eauto]. intros k' Hne. rewrite lookup_obj_set.
        now destruct (String.eqb_spec k' key).
      - exists ps, c0. split; [reflexivity|]. split; [reflexivity|].
        split; [reflexivity|].
        apply orb_false_iff in E as [_ E]. apply negb_false_iff in E.
        destruct c0; try discriminate; eauto. }
    destruct Hstep as [ps1 [c [Hs [Hc [Hframe Hshape]]]]].
    rewrite Hs in H. cbn [bind] in H. unfold get_prop in H. cbn [is_nullish bind] in H.
    rewrite Hc in H.
    destruct Hshape as [[cps ->]|[t ->]].
    + destruct (setNested_loop (VObj cps) rest lastKey v) as [c'| |] eqn:Hrec;
        try discriminate.
      cbn [bind set_prop] in H. injection H as <-.
      destruct (IH _ _ Hrec) as [[cps' ->] [Hget _]].
      split; [eauto|]. split.
      * cbn [app getNested_loop is_nullish get_own].
        now rewrite lookup_obj_set, String.eqb_refl.
      * intros k' Hne. simpl in Hne. simpl.
        rewrite lookup_obj_set.
        destruct (String.eqb_spec k' key); [contradiction|].
        now rewrite Hframe.
    + destruct (setNested_loop (VDate t) rest lastKey v) eqn:Hrec; try discriminate.
      now apply setNested_loop_date in Hrec.
Qed.

Lemma split_dot_last (path : string) :
  removelast (Str.split_dot path) ++ [List.last (Str.split_dot path) ""]
  = Str.split_dot path.
Proof.
  symmetry. apply app_removelast_last. apply split_dot_nonempty.
Qed.

(** X1: Reading a path of a record just after writing it gives the value
    written, and the result is again a record. *)
Theorem setNestedValue_then_get (ps : props) (path : string) (v r : value) :
  setNestedValue (VObj ps) path v = Ok r ->
  getNestedValue r path = v /\ exists ps', r = VObj ps'.
Proof.
  unfold setNestedValue, getNestedValue. intros H.
  destruct (setNested_loop_get _ _ _ _ _ H) as [Hr [Hget _]].
  rewrite split_dot_last in Hget. now split.
Qed.

Lemma hd_removelast (keys : list string) :
  keys <> [] -> hd (List.last keys "") (removelast keys) = hd "" keys.
Proof.
  destruct keys as [|k [|k2 rest]]; [contradiction|reflexivity..].
Qed.

(** X2: Writing a path of a record leaves every top-level key other than the
    first segment of the path as it was. *)
Theorem setNestedValue_other_keys (ps : props) (path : string) (v r : value)
  (k' : string) :
  setNestedValue (VObj ps) path v = Ok r ->
  k' <> hd "" (Str.split_dot path) ->
  get_own r k' = get_own (VObj ps) k'.
Proof.
  unfold setNestedValue. intros H Hne.
  destruct (setNested_loop_get _ _ _ _ _ H) as [_ [_ Hframe]].
  apply Hframe. now rewrite hd_removelast by apply split_dot_nonempty.
Qed.

End UtilsFacts.

Section UtilsFacts2.
Context {host : Host}.

(** *** [obj_set] on a key enumerated last *)

Lemma insert_index_after (n : N) (k : string) (v : value) (acc : props) :
  forallb (fun '(k', _) => match Str.array_index k' with
                           | Some n' => (n' <? n)%N
                           | None => false
                           end) acc = true ->
  insert_index n k v acc = acc ++ [(k, v)].
Proof.
  induction acc as [|[k0 v0] rest IH]; simpl; [reflexivity|].
  destruct (Str.array_index k0) as [n'|]; [|discriminate].
  intros H. apply andb_true_iff in H as [Hlt H].
  apply N.ltb_lt in Hlt.
  destruct (N.ltb_spec n n'); [lia|]. now rewrite IH.
Qed.

Lemma obj_set_after (k : string) (v : value) (acc : props) :
  key_after k acc = true -> obj_set k v acc = acc ++ [(k, v)].
Proof.
  unfold key_after, obj_set. intros H. apply andb_true_iff in H as [Hk H].
  apply negb_true_iff in Hk. rewrite Hk.
  destruct (Str.array_index k); [now apply insert_index_after|reflexivity].
Qed.

(** *** [deepClone] *)

Lemma in_order_record (ps : props) :
  in_order (VObj ps) = true ->
  enumerated_from [] ps = true /\ Forall (fun kv => in_order (snd kv) = true) ps.
Proof.
  simpl. intros H. apply andb_true_iff in H as [He H]. split; [exact He|].
  clear He. induction ps as [|[k x] rest IH]; [constructor|].
  apply andb_true_iff in H as [Hx H]. constructor; auto.
Qed.

Lemma date_free_record (ps : props) :
  date_free (VObj ps) = true -> Forall (fun kv => date_free (snd kv) = true) ps.
Proof.
  simpl. induction ps as [|[k x] rest IH]; [constructor|].
  intros H. apply andb_true_iff in H as [Hx H]. constructor; auto.
Qed.

(** X3: A tree with no [Date], whose records have their keys in enumeration
    order, is cloned into an equal tree; a [Date] is cloned into the empty
    record. *)
Theorem deepClone_equal :
  (forall x, in_order x = true -> date_free x = true -> deepClone x = x)
  /\ (forall t, deepClone (VDate t) = VObj []).
Proof.
  split; [|reflexivity].
  induction x as [| | | | | | |elems IH|ps IH] using value_ind;
    try reflexivity; try discriminate.
  - intros Ho Hd. simpl. f_equal.
    induction elems as [|[x|] rest IHl]; [reflexivity| |].
    + simpl in Ho, Hd. apply andb_true_iff in Ho as [Hx Ho].
      apply andb_true_iff in Hd as [Hdx Hd].
      inversion IH as [|? ? Hhead Htail]; subst. simpl in Hhead.
      rewrite (Hhead Hx Hdx). f_equal. now apply IHl.
    + inversion IH; subst. f_equal. now apply IHl.
  - intros Ho Hd. apply in_order_record in Ho as [He Ho].
    apply date_free_record in Hd. simpl. f_equal.
    change ps with ([] ++ ps) at 2.
    revert He. generalize (@nil (string * value)) as acc.
    induction ps as [|[k x] rest IHl]; intros acc He.
    + now rewrite app_nil_r.
    + simpl in He. apply andb_true_iff in He as [Hk He].
      inversion IH as [|? ? Hhead Htail]; subst.
      inversion Ho as [|? ? Hox Hor]; subst.
      inversion Hd as [|? ? Hdx Hdr]; subst. simpl in Hhead, Hox, Hdx.
      rewrite (Hhead Hox Hdx), (obj_set_after _ _ _ Hk).
      rewrite (IHl Htail Hor Hdr _ He). now rewrite <- app_assoc.
Qed.

(** *** [invertMapping] on a flat mapping *)

Lemma invert_flat (m : props) (target : props) :
  leaf_record m = true ->
  fold_left (fun target '(key, v) => invert_entry key v target) m target
  = fold_left (fun target '(key, v) =>
                 match v with
                 | VStr name => put name (VStr key) target
                 | _ => target
                 end) m target.
Proof.
  revert target. induction m as [|[k v] rest IH]; intros target Hl; [reflexivity|].
  simpl in Hl. apply andb_true_iff in Hl as [Hv Hl].
  destruct v; try discriminate. simpl. now apply IH.
Qed.

(** X4: Inverting a flat mapping swaps keys and names: the inverted mapping
    sends a name to the key that had it, to the last such key when several
    keys share the name, and holds nothing else. *)
Theorem invertMapping_flat (m : props) (name : string) :
  leaf_record m = true ->
  get_own (invertMapping (VObj m)) name
  = match key_of_name name m with
    | Some key => VStr key
    | None => VUndef
    end.
Proof.
  intros Hl. unfold invertMapping. cbn [own_props get_own].
  rewrite (invert_flat _ _ Hl). unfold key_of_name.
  assert (H : forall target,
             lookup_prop name
               (fold_left (fun target '(key, v) =>
                             match v with
                             | VStr name => put name (VStr key) target
                             | _ => target
                             end) m target)
             = match find (fun '(_, v) => match v with
                                          | VStr t => String.eqb t name
                                          | _ => false
                                          end) (rev m) with
               | Some (key, _) => Some (VStr key)
               | None => lookup_prop name target
               end).
  { clear Hl. induction m as [|[k v] rest IH] using rev_ind; intros target;
      [reflexivity|].
    rewrite fold_left_app, rev_app_distr. simpl.
    destruct v; try apply IH.
    unfold put. rewrite lookup_obj_set, String.eqb_sym.
    destruct (String.eqb s name); [reflexivity|apply IH]. }
  rewrite H. simpl.
  now destruct (find _ (rev m)) as [[key v]|].
Qed.

(** *** [deepMerge] *)

Lemma lookup_spread_record (k : string) (tps : props) :
  unique_keys tps = true ->
  lookup_prop k (fold_left assign_props [VObj tps] []) = lookup_prop k tps.
Proof.
  intros Hu. simpl. rewrite lookup_assign_props by assumption.
  now destruct (lookup_prop k tps).
Qed.

(** X5: Key by key, [deepMerge(target, source)] holds what [source] holds,
    merged with what [target] holds when both are plain objects, and what
    [target] holds under the keys [source] lacks. *)
Theorem deepMerge_lookup (tps sps : props) (k : string) :
  unique_keys tps = true -> unique_keys sps = true ->
  get_own (deepMerge (VObj tps) (VObj sps)) k
  = match lookup_prop k sps with
    | Some sv =>
        let tv := get_own (VObj tps) k in
        if isPlainObject sv && isPlainObject tv then deepMerge tv sv else sv
    | None => get_own (VObj tps) k
    end.
Proof.
  intros Ht Hs. cbn [deepMerge get_own].
  rewrite <- (lookup_spread_record k tps Ht).
  generalize (fold_left assign_props [VObj tps] []) as result.
  induction sps as [|[key sv] rest IH]; intros result; [reflexivity|].
  simpl in Hs. apply andb_true_iff in Hs as [Hk Hs]. apply negb_true_iff in Hk.
  cbn [lookup_prop]. rewrite (IH Hs). clear IH.
  rewrite lookup_obj_set.
  destruct (String.eqb_spec k key) as [->|Hne]; [|reflexivity].
  unfold has_key in Hk. now destruct (lookup_prop key rest).
Qed.

End UtilsFacts2.

Section FlatClaims.
Context {host : Host}.
Variable call_fn : nat -> list value -> result value.

Lemma apply_transform_none (key : string) (v source : value) :
  apply_transform call_fn (VObj []) key v source = Ok v.
Proof. reflexivity. Qed.

Lemma processFormData_flat (formData : value) (ou on : bool) (l : props)
  (payload : value) :
  foldM (fun payload '(formKey, apiPath) =>
           denormalize_entry call_fn
             {| omitUndefined := ou; omitNull := on; d_transform := VObj [] |}
             formData formKey apiPath payload) l payload
  = foldM (fun apiPayload '(formPath, apiPath) =>
             let v := getNestedValue formData formPath in
             if ou && is_undefined v then Ok apiPayload
             else if on && is_null v then Ok apiPayload
             else
               match apiPath with
               | VStr p =>
                   if Str.includes_dot p then setNestedValue apiPayload p v
                   else set_prop apiPayload p v
               | VArr _ => Unmodelled
               | _ => Throw TypeError
               end) l payload.
Proof.
  revert payload.
  induction l as [|[formKey apiPath] l IH]; intros payload; [reflexivity|].
  cbn [foldM]. unfold denormalize_entry at 1.
  cbn [omitUndefined omitNull d_transform]. rewrite apply_transform_none. cbn [bind].
  destruct (ou && is_undefined (getNestedValue formData formKey)); [apply IH|].
  destruct (on && is_null (getNestedValue formData formKey)); [apply IH|].
  match goal with |- bind ?m _ = bind ?m _ => destruct m end; cbn [bind]; auto.
Qed.

(** X6: [denormalize] with no transform is [denormalizeFlat] on the inverted
    mapping, failures included. *)
Theorem denormalize_is_denormalizeFlat (formData mapping : value) (ou on : bool) :
  denormalize call_fn formData mapping
    {| omitUndefined := ou; omitNull := on; d_transform := VObj [] |}
  = denormalizeFlat formData (invertMapping mapping) ou on.
Proof. apply processFormData_flat. Qed.

Lemma process_leaf_plain_key (source : value) (apiKey name : string) (fd : value) :
  process_leaf call_fn coercion_off source apiKey name fd
  = if negb (is_undefined (get_prop_opt source apiKey))
    then setNestedValue fd name (get_prop_opt source apiKey)
    else Ok fd.
Proof.
  unfold process_leaf. rewrite apply_transform_none. reflexivity.
Qed.

Lemma getNestedValue_plain (x : value) (k : string) :
  plain k = true -> getNestedValue x k = get_prop_opt x k.
Proof.
  intros Hk. unfold getNestedValue.
  rewrite split_dot_plain by (unfold plain in Hk; now destruct (Str.includes_dot k)).
  reflexivity.
Qed.

(** X7: On a flat mapping whose keys hold no dot, [normalize] with coercion off
    and [normalizeFlat] are one function, failures included. *)
Theorem normalize_is_normalizeFlat (apiData : value) (m : props) :
  leaf_record m = true ->
  forallb (fun '(apiKey, _) => plain apiKey) m = true ->
  normalize call_fn apiData (VObj m) coercion_off = normalizeFlat apiData (VObj m).
Proof.
  intros Hl Hp. unfold normalize, normalizeFlat.
  change (spread [defaultValues coercion_off]) with (VObj []).
  cbn [own_props]. generalize (VObj []) as fd.
  induction m as [|[k v] rest IH]; intros fd; [reflexivity|].
  simpl in Hl, Hp. apply andb_true_iff in Hl as [Hv Hl].
  apply andb_true_iff in Hp as [Hk Hp].
  destruct v; try discriminate.
  rewrite processMapping_cons, processMapping_leaf, process_leaf_plain_key.
  cbn [foldM]. rewrite getNestedValue_plain by assumption.
  cbn [setNestedValue_at].
  destruct (negb (is_undefined (get_prop_opt apiData k)));
    [destruct (setNestedValue fd s (get_prop_opt apiData k))|]; cbn [bind];
    auto.
Qed.

Lemma coerceType_string (s s' : string) :
  coerceType (VStr s) = VStr s' -> s' = s.
Proof.
  unfold coerceType.
  destruct (negb (num_isNaN (StringToNumber s)) && negb (String.eqb (Str.trim s) ""));
    [destruct (num_isFinite (StringToNumber s)); [discriminate|]|];
    destruct (String.eqb s "true"); try discriminate;
    destruct (String.eqb s "false"); try discriminate;
    destruct (Str.iso_prefix s && negb (num_isNaN (Date_parse s)));
    try discriminate; congruence.
Qed.

(** X8: A coerced value is not coerced further. *)
Theorem coerceType_idempotent (v : value) :
  coerceType (coerceType v) = coerceType v.
Proof.
  destruct v; try reflexivity.
  destruct (coerceType (VStr s)) eqn:E; try reflexivity.
  apply coerceType_string in E as E'. subst. exact E.
Qed.

End FlatClaims.

Section NormalizeDefaults.
Context {host : Host}.
Variable call_fn : nat -> list value -> result value.
Variable opts : normalize_options.
Hypothesis no_transform : n_transform opts = VObj [].

Lemma coerceType_defined (v : value) :
  is_undefined (coerceType v) = is_undefined v.
Proof.
  destruct v; try reflexivity. unfold coerceType.
  destruct (_ && _); [destruct (num_isFinite _); [reflexivity|]|];
    destruct (String.eqb s "true"); try reflexivity;
    destruct (String.eqb s "false"); try reflexivity;
    destruct (_ && _); reflexivity.
Qed.

Lemma coerced_defined (v : value) : is_undefined (coerced opts v) = is_undefined v.
Proof.
  unfold coerced. destruct (_ && _); [apply coerceType_defined|reflexivity].
Qed.

Lemma process_leaf_coerced (source : value) (apiKey name : string) (fs : props) :
  plain name = true ->
  process_leaf call_fn opts source apiKey name (VObj fs)
  = Ok (VObj (let v := coerced opts (get_prop_opt source apiKey) in
              if is_undefined v then fs else obj_set name v fs)).
Proof.
  intros Hp. unfold process_leaf. rewrite no_transform.
  change (apply_transform call_fn (VObj []) name (get_prop_opt source apiKey) source)
    with (Ok (get_prop_opt source apiKey)).
  cbn [bind]. fold (coerced opts (get_prop_opt source apiKey)).
  cbv zeta. destruct (is_undefined (coerced opts _)); cbn [negb];
    [reflexivity|now apply setNestedValue_plain].
Qed.

Lemma normalize_nested_coerced (x s : value) (key : string) (nested : props)
  (fs : props) :
  leaf_record nested = true ->
  forallb plain_leaf (nested_leaves key nested) = true ->
  (forall k2, get_prop_opt s k2 = getNested_loop x [key; k2]) ->
  processMapping call_fn opts s (VObj nested) (VObj fs)
  = Ok (VObj (fold_left (store_coerced opts x) (nested_leaves key nested) fs)).
Proof.
  intros Hl Hp Hs. revert fs.
  induction nested as [|[k2 v] rest IH]; intros fs; [reflexivity|].
  simpl in Hl. apply andb_true_iff in Hl as [Hv Hl].
  destruct v; try discriminate.
  rewrite processMapping_cons, processMapping_leaf.
  unfold nested_leaves in Hp |- *. cbn [flat_map app fold_left] in Hp |- *.
  cbn [forallb] in Hp. apply andb_true_iff in Hp as [Hn Hp].
  unfold plain_leaf in Hn. cbn [fst snd] in Hn.
  apply andb_true_iff in Hn as [_ Hn].
  rewrite process_leaf_coerced by assumption.
  cbn [bind]. rewrite (IH Hl Hp), Hs. reflexivity.
Qed.

Lemma store_coerced_nothing (x : value) (leaves : list (list string * string))
  (fs : props) :
  (forall leaf, In leaf leaves -> getNested_loop x (fst leaf) = VUndef) ->
  fold_left (store_coerced opts x) leaves fs = fs.
Proof.
  revert fs. induction leaves as [|leaf rest IH]; intros fs H; [reflexivity|].
  simpl. unfold store_coerced at 2. rewrite (H leaf) by now left.
  unfold coerced. rewrite andb_false_r. simpl. apply IH. intros l Hl. apply H. now right.
Qed.

Lemma normalize_leaves_coerced (x : value) (ms : props) (fs : props) :
  two_levels ms = true ->
  forallb plain_leaf (mapped_leaves ms) = true ->
  fits x ms = true ->
  processMapping call_fn opts x (VObj ms) (VObj fs)
  = Ok (VObj (fold_left (store_coerced opts x) (mapped_leaves ms) fs)).
Proof.
  intros Ht Hp Hf. revert fs.
  induction ms as [|[key v] rest IH]; intros fs; [reflexivity|].
  simpl in Ht, Hf. apply andb_true_iff in Ht as [Hv Ht].
  apply andb_true_iff in Hf as [Hx Hf].
  rewrite processMapping_cons.
  unfold mapped_leaves in Hp |- *. cbn [flat_map] in Hp |- *.
  rewrite forallb_app in Hp. apply andb_true_iff in Hp as [Hk Hp].
  rewrite fold_left_app.
  destruct v; try discriminate.
  - cbn [forallb] in Hk. rewrite andb_true_r in Hk.
    unfold plain_leaf in Hk. cbn [fst snd] in Hk.
    apply andb_true_iff in Hk as [_ Hn].
    rewrite processMapping_leaf, process_leaf_coerced by assumption.
    cbn [bind]. now rewrite (IH Ht Hp Hf).
  - rewrite processMapping_nested.
    destruct (isPlainObject (get_prop_opt x key)) eqn:Hplain.
    + assert (Hs : forall k2, get_prop_opt (get_prop_opt x key) k2
                              = getNested_loop x [key; k2]).
      { intros k2. unfold get_prop_opt in *. simpl.
        destruct (is_nullish x); [discriminate|reflexivity]. }
      rewrite (normalize_nested_coerced x _ key _ _ Hv Hk Hs).
      cbn [bind]. now rewrite (IH Ht Hp Hf).
    + cbn [bind]. rewrite (IH Ht Hp Hf). do 2 f_equal. f_equal.
      symmetry. apply store_coerced_nothing. intros leaf Hin.
      apply nested_leaves_path in Hin as [k2 [-> _]].
      unfold get_prop_opt in *. simpl.
      destruct (is_nullish x); [reflexivity|].
      now destruct (get_own x key).
Qed.

Lemma store_coerced_other (x : value) (t : string)
  (ls : list (list string * string)) (fs : props) :
  ~ In t (map snd ls) ->
  lookup_prop t (fold_left (store_coerced opts x) ls fs) = lookup_prop t fs.
Proof.
  revert fs. induction ls as [|[p0 t0] rest IH]; intros fs Hn; [reflexivity|].
  simpl in Hn |- *. rewrite IH by tauto. unfold store_coerced. simpl.
  destruct (is_undefined _); [reflexivity|].
  rewrite lookup_obj_set. destruct (String.eqb_spec t t0); [|reflexivity].
  subst. tauto.
Qed.

Lemma store_coerced_read (x : value) (ls : list (list string * string))
  (fs : props) (path : list string) (t : string) :
  List.NoDup (map snd ls) -> In (path, t) ls ->
  lookup_prop t (fold_left (store_coerced opts x) ls fs)
  = let v := getNested_loop x path in
    if is_undefined v then lookup_prop t fs else Some (coerced opts v).
Proof.
  revert fs. induction ls as [|[p0 t0] rest IH]; intros fs Hnd Hin; [destruct Hin|].
  apply List.NoDup_cons_iff in Hnd as [Hnot Hnd]. simpl in Hnot. simpl.
  destruct Hin as [[= -> ->]|Hin].
  - rewrite store_coerced_other by assumption. unfold store_coerced. simpl.
    rewrite coerced_defined.
    destruct (is_undefined (getNested_loop x path)); [reflexivity|].
    now rewrite lookup_obj_set, String.eqb_refl.
  - rewrite (IH _ Hnd Hin). cbv zeta.
    destruct (is_undefined (getNested_loop x path)); [|reflexivity].
    unfold store_coerced. simpl. destruct (is_undefined _); [reflexivity|].
    rewrite lookup_obj_set. destruct (String.eqb_spec t t0) as [->|_]; [|reflexivity].
    destruct Hnot. now apply (in_map snd _ (path, t0)).
Qed.

(** X9: What [normalize] returns under a mapping of two levels when no
    transform is registered: under the name of a leaf, the value of the
    source at the path of the leaf, coerced when coercion is on, and the
    default when the source holds nothing there; under any other key, the
    default. *)
Theorem normalize_source_over_defaults (ms : props) (x : value) :
  two_levels ms = true ->
  forallb plain_leaf (mapped_leaves ms) = true ->
  List.NoDup (map snd (mapped_leaves ms)) ->
  fits x ms = true ->
  exists fs,
    normalize call_fn x (VObj ms) opts = Ok (VObj fs)
    /\ (forall path name, In (path, name) (mapped_leaves ms) ->
          get_own (VObj fs) name
          = let v := getNested_loop x path in
            if is_undefined v then get_own (spread [defaultValues opts]) name
            else coerced opts v)
    /\ (forall k, ~ In k (map snd (mapped_leaves ms)) ->
          get_own (VObj fs) k = get_own (spread [defaultValues opts]) k).
Proof.
  intros Ht Hp Hn Hf. unfold normalize, spread.
  rewrite (normalize_leaves_coerced _ _ _ Ht Hp Hf).
  eexists. split; [reflexivity|]. split.
  - intros path name Hin. cbn [get_own].
    rewrite (store_coerced_read x _ _ path name Hn Hin). cbv zeta.
    now destruct (is_undefined (getNested_loop x path)).
  - intros k Hk. cbn [get_own]. now rewrite store_coerced_other.
Qed.

End NormalizeDefaults.

Section BuilderFacts.
Context {host : Host}.
Variable call_fn : nat -> list value -> result value.
Variable same_ref : value -> value -> bool.

(** *** Members [JSON.stringify] does not see *)

Lemma lookup_defined_members (k : string) (ps : props) :
  unique_keys ps = true ->
  lookup_prop k (defined_members ps)
  = match lookup_prop k ps with
    | Some v => if is_undefined v then None else Some v
    | None => None
    end.
Proof.
  induction ps as [|[k0 v0] rest IH]; intros Hu; [reflexivity|].
  simpl in Hu. apply andb_true_iff in Hu as [Hk Hu]. apply negb_true_iff in Hk.
  simpl. destruct (String.eqb_spec k k0) as [->|Hne].
  - destruct (is_undefined v0); simpl.
    + rewrite (IH Hu). unfold has_key in Hk. now destruct (lookup_prop k0 rest).
    + now rewrite String.eqb_refl.
  - destruct (is_undefined v0); simpl; [now apply IH|].
    destruct (String.eqb_spec k k0); [contradiction|now apply IH].
Qed.

Lemma stringify_defined_members (ps : props) :
  unique_keys ps = true ->
  JSON_stringify (VObj (defined_members ps)) = JSON_stringify (VObj ps).
Proof.
  intros Hu. cbn [JSON_stringify].
  assert (Ht : has_toJSON (defined_members ps) = has_toJSON ps).
  { unfold has_toJSON. rewrite lookup_defined_members by assumption.
    destruct (lookup_prop "toJSON" ps) as [[]|]; reflexivity. }
  rewrite Ht. destruct (has_toJSON ps); [reflexivity|]. f_equal.
  clear Hu Ht. unfold defined_members.
  induction ps as [|[k x] rest IH]; [reflexivity|].
  cbn [List.filter].
  destruct (is_undefined x) eqn:E; cbn [negb].
  - destruct x; try discriminate. cbn [JSON_stringify bind]. rewrite IH.
    match goal with |- ?m = bind ?m _ => now destruct m end.
  - cbn [JSON_stringify bind]. now rewrite IH.
Qed.

Lemma option_string_eqb_refl (s : option string) : option_string_eqb s s = true.
Proof. destruct s; simpl; [apply String.eqb_refl|reflexivity]. Qed.

(** X10: A member whose value is [undefined] is no change for [hasChanges], and
    [buildPatchPayload] answers [null] for it, whatever the mapping and the
    options: the validator is not consulted. *)
Theorem undefined_member_is_no_change (ps : props) (s : option string) :
  unique_keys ps = true ->
  JSON_stringify (VObj ps) = Ok s ->
  hasChanges (VObj (defined_members ps)) (VObj ps) = Ok false
  /\ forall mapping opts,
       buildPatchPayload call_fn same_ref (VObj (defined_members ps)) (VObj ps)
                         mapping opts = Ok VNull.
Proof.
  intros Hu Hs.
  assert (H : hasChanges (VObj (defined_members ps)) (VObj ps) = Ok false).
  { unfold hasChanges, isEqual. rewrite stringify_defined_members, Hs by assumption.
    cbn [bind]. now rewrite option_string_eqb_refl. }
  split; [exact H|]. intros mapping opts. unfold buildPatchPayload. now rewrite H.
Qed.

(** *** [buildPartialPayload] reads the listed fields only *)

(** X11: [buildPartialPayload] reads the listed fields of the form only: two
    forms that hold the same under every listed field give the same
    payload, or the same failure, whatever else they hold. *)
Theorem buildPartialPayload_listed_only (fps fps' : props) (fields : list string)
  (mapping : value) (opts : denormalize_options) :
  (forall f, In f fields -> lookup_prop f fps = lookup_prop f fps') ->
  buildPartialPayload call_fn (VObj fps) fields mapping opts
  = buildPartialPayload call_fn (VObj fps') fields mapping opts.
Proof.
  intros H. unfold buildPartialPayload. f_equal.
  generalize (@VObj host []) as partial.
  induction fields as [|f rest IH]; intros partial; [reflexivity|].
  cbn [foldM has_own get_own]. unfold has_key.
  rewrite (H f) by now left.
  destruct (match lookup_prop f fps' with Some _ => true | None => false end);
    [|apply IH; intros; apply H; now right].
  match goal with |- bind ?m _ = bind ?m _ => destruct m end; cbn [bind]; trivial.
  apply IH. intros; apply H; now right.
Qed.

(** *** A form no one edited *)

(** X12: [createPatchFromApi] on the form [normalize] returns for the same API
    data answers [null]: there is nothing to send. *)
Theorem createPatchFromApi_unedited (h : Mapper) (apiData form : value)
  (s : option string) :
  Mapper_normalize call_fn h apiData = Ok form ->
  JSON_stringify form = Ok s ->
  Mapper_createPatchFromApi call_fn same_ref h apiData form = Ok VNull.
Proof.
  intros Hn Hs. unfold Mapper_createPatchFromApi. rewrite Hn. cbn [bind].
  unfold Mapper_buildPatch, buildPatchPayload, hasChanges, isEqual.
  rewrite Hs. cbn [bind]. now rewrite option_string_eqb_refl.
Qed.

(** *** Mappings of three levels *)

Lemma invert_third_level (a b : string) (inner : props) :
  leaf_record inner = true ->
  Forall (fun leaf => snd leaf <> b /\ Str.array_index (snd leaf) = None)
         (nested_leaves b inner) ->
  exists rest,
    invertMapping (VObj [(a, VObj [(b, VObj inner)])]) = VObj ((b, VObj []) :: rest).
Proof.
  intros Hl Hn.
  change (invertMapping (VObj [(a, VObj [(b, VObj inner)])]))
    with (VObj (invert_entry b (VObj inner) (put b (VObj []) []))).
  assert (Hb : put b (@VObj host []) [] = [(b, VObj [])])
    by (unfold put, obj_set; simpl; now destruct (Str.array_index b)).
  rewrite Hb.
  rewrite (invert_nested b inner _ Hl).
  revert Hn. generalize (nested_leaves b inner) as leaves.
  intros leaves.
  assert (G : forall tail, Forall (fun leaf => snd leaf <> b
                                   /\ Str.array_index (snd leaf) = None) leaves ->
              exists rest, fold_left invert_leaf leaves ((b, VObj []) :: tail)
                           = (b, VObj []) :: rest).
  { induction leaves as [|[p t] more IH]; intros tail Hf; [simpl; eauto|].
    inversion Hf as [|? ? [Hne Hidx] Hmore]; subst. simpl in Hne, Hidx.
    cbn [fold_left]. unfold invert_leaf at 2, put, obj_set. cbn [fst snd].
    unfold has_key. cbn [lookup_prop].
    destruct (String.eqb_spec t b) as [->|_]; [contradiction|].
    destruct (lookup_prop t tail).
    - cbn [replace_prop]. destruct (String.eqb_spec t b); [contradiction|].
      apply IH; assumption.
    - rewrite Hidx. cbn [app]. apply IH; assumption. }
  intros Hf. destruct (G [] Hf) as [rest Hrest]. rewrite Hrest. eauto.
Qed.

Lemma denormalize_entry_record (opts : denormalize_options) (source : value)
  (formKey : string) (ps : props) (payload : value) :
  omitUndefined opts = false -> omitNull opts = false ->
  (forall r, denormalize_entry call_fn opts source formKey (VObj ps) payload <> Ok r)
  /\ (d_transform opts = VObj [] ->
      denormalize_entry call_fn opts source formKey (VObj ps) payload = Throw TypeError).
Proof.
  intros Hu Hn. unfold denormalize_entry. rewrite Hu, Hn. cbn [andb]. split.
  - intros r. destruct (apply_transform _ _ _ _ _); cbn [bind]; discriminate.
  - intros ->. reflexivity.
Qed.

(** X13: Under a mapping nested three levels deep, [buildPostPayload] and
    [buildPutPayload] return no payload, whatever the form and the
    options: [invertMapping] leaves the record [{}] under the second key,
    and the loop of [denormalize], which skips nothing for a POST, calls
    [includes] on it.  With no validator and no transform the call throws
    a [TypeError]. *)
Theorem post_fails_on_third_level (formData : value) (a b : string) (inner : props)
  (opts : builder_options) :
  leaf_record inner = true ->
  Forall (fun leaf => snd leaf <> b /\ Str.array_index (snd leaf) = None)
         (nested_leaves b inner) ->
  let mapping := VObj [(a, VObj [(b, VObj inner)])] in
  (forall r, buildPostPayload call_fn formData mapping opts <> Ok r)
  /\ (forall r, buildPutPayload call_fn formData mapping opts <> Ok r)
  /\ (truthy (validation opts) = false -> b_transform opts = VObj [] ->
      buildPostPayload call_fn formData mapping opts = Throw TypeError).
Proof.
  intros Hl Hn mapping.
  destruct (invert_third_level a b inner Hl Hn) as [rest Hinv].
  assert (H : forall r, buildPostPayload call_fn formData mapping opts <> Ok r).
  { intros r. unfold buildPostPayload.
    destruct (validate _ _ _); cbn [bind]; try discriminate.
    unfold denormalizeForPost, denormalize. subst mapping. rewrite Hinv.
    unfold processFormData. cbn [own_props foldM].
    match goal with |- bind ?m _ <> _ => destruct m eqn:E end;
      cbn [bind]; try discriminate.
    now apply denormalize_entry_record in E. }
  split; [exact H|]. split; [exact H|].
  intros Hv Ht. unfold buildPostPayload, validate. rewrite Hv. cbn [bind].
  unfold denormalizeForPost, denormalize. subst mapping. rewrite Hinv.
  unfold processFormData. cbn [own_props foldM].
  match goal with
  | |- bind (denormalize_entry _ ?o ?src ?k (VObj ?ps) ?p) _ = _ =>
      rewrite (proj2 (denormalize_entry_record o src k ps p eq_refl eq_refl))
        by exact Ht
  end.
  reflexivity.
Qed.

End BuilderFacts.

Section DifferExtras.
Context {host : Host}.
Variable same_ref : value -> value -> bool.

(** *** What every write of a run satisfies *)

Section Invariant.
Variable opts : diff_options.
Variable Q : string * value -> Prop.
Hypothesis Q_emit : forall p v,
  existsb (String.eqb p) (ignoreFields opts) = false -> Q (p, v).
Hypothesis Q_removal : forall p, Q (p, VUndef).

Let keeps (n : value) : Prop :=
  forall o p t0 t,
    computeDiff same_ref record_write opts o n p t0 = Ok t ->
    Forall Q t0 -> Forall Q t.

Lemma keeps_emit (p : string) (v : value) t0 t :
  existsb (String.eqb p) (ignoreFields opts) = false ->
  record_write t0 p v = Ok t -> Forall Q t0 -> Forall Q t.
Proof.
  intros Hi [= <-] H0. apply Forall_app. split; [exact H0|].
  constructor; [now apply Q_emit|constructor].
Qed.

Lemma keeps_head (o n : value) (p : string) t0 t body :
  diff_head same_ref record_write opts o n p t0 body = Ok t ->
  Forall Q t0 ->
  (existsb (String.eqb p) (ignoreFields opts) = false -> body tt = Ok t -> Forall Q t) ->
  Forall Q t.
Proof.
  unfold diff_head. intros H H0 Hbody.
  destruct (existsb _ _) eqn:Hi; [now injection H as <-|].
  destruct (strict_eq same_ref o n); [now injection H as <-|].
  destruct (negb _); [now apply (keeps_emit p n t0)|auto].
Qed.

Lemma keeps_deleted (o n : value) (p : string) t0 t :
  diff_deleted record_write o n p t0 = Ok t -> Forall Q t0 -> Forall Q t.
Proof.
  unfold diff_deleted. revert t0.
  induction (own_keys o) as [|k ks IH]; intros t0; simpl.
  - now intros [= <-].
  - destruct (has_own n k); simpl; [apply IH|].
    intros H H0. apply (IH _ H). apply Forall_app. split; [exact H0|].
    constructor; [apply Q_removal|constructor].
Qed.

Lemma keeps_primitive (o n : value) (p : string) t0 t :
  diff_primitive same_ref record_write opts o n p t0 = Ok t ->
  Forall Q t0 -> Forall Q t.
Proof.
  unfold diff_primitive. intros H H0. apply (keeps_head _ _ _ _ _ _ H H0).
  intros Hi Hb. cbv beta in Hb. clear H.
  destruct (negb (strict_eq same_ref o n));
    [exact (keeps_emit p n t0 t Hi Hb H0)|now injection Hb as <-].
Qed.

Lemma keeps_items (elems : list (option value)) :
  Forall (fun e => match e with Some x => keeps x | None => True end) elems ->
  forall oelems p i t0 t,
    diff_items same_ref record_write opts (computeDiff same_ref record_write opts)
               oelems p elems i t0 = Ok t ->
    Forall Q t0 -> Forall Q t.
Proof.
  induction 1 as [|e rest He _ IH]; intros oelems p i t0 t Hrun H0.
  - now injection Hrun as <-.
  - simpl in Hrun. apply bind_Ok in Hrun as [tm [Hm Hrest]].
    apply (IH _ _ _ _ _ Hrest). destruct e as [x|].
    + now apply (He _ _ _ _ Hm).
    + now apply (keeps_primitive _ _ _ _ _ Hm).
Qed.

Lemma keeps_keys (ps : props) :
  Forall (fun kv => keeps (snd kv)) ps ->
  forall o p t0 t,
    diff_keys (computeDiff same_ref record_write opts) o p ps t0 = Ok t ->
    Forall Q t0 -> Forall Q t.
Proof.
  induction 1 as [|[k x] rest Hx _ IH]; intros o p t0 t Hrun H0.
  - now injection Hrun as <-.
  - simpl in Hrun. apply bind_Ok in Hrun as [tm [Hm Hrest]].
    apply (IH _ _ _ _ Hrest). now apply (Hx _ _ _ _ Hm).
Qed.

Lemma computeDiff_keeps (n : value) : keeps n.
Proof.
  induction n as [| | | | | |d|elems IH|ps IH] using value_ind;
    intros o p t0 t Hrun H0; simpl in Hrun;
    apply (keeps_head _ _ _ _ _ _ Hrun H0); intros Hi Hbody; cbv beta in Hbody;
    clear Hrun;
    try (destruct (negb (strict_eq same_ref o _));
         [exact (keeps_emit p _ t0 t Hi Hbody H0)|now injection Hbody as <-]).
  - destruct (negb (isPlainObject o)); [exact (keeps_emit p _ t0 t Hi Hbody H0)|].
    now apply (keeps_deleted _ _ _ _ _ Hbody).
  - destruct (negb (compareArrays opts)).
    + apply bind_Ok in Hbody as [so [_ Hbody]].
      apply bind_Ok in Hbody as [sn [_ Hbody]].
      destruct (option_string_eqb so sn);
        [now injection Hbody as <-|exact (keeps_emit p _ t0 t Hi Hbody H0)].
    + destruct o; try exact (keeps_emit p _ t0 t Hi Hbody H0).
      destruct (negb _); [exact (keeps_emit p _ t0 t Hi Hbody H0)|].
      now apply (keeps_items _ IH _ _ _ _ _ Hbody).
  - destruct (negb (isPlainObject o)); [exact (keeps_emit p _ t0 t Hi Hbody H0)|].
    apply bind_Ok in Hbody as [tm [Hm Hdel]].
    apply (keeps_deleted _ _ _ _ _ Hdel).
    now apply (keeps_keys _ IH _ _ _ _ Hm).
Qed.

End Invariant.

(** X14: [ignoreFields] keeps every new value away from the paths it lists:
    the only write a run makes at an ignored path is the removal of a key,
    which the loop over the deleted keys reports without looking at the
    list. *)
Theorem ignored_path_gets_no_value (opts : diff_options) (original current : value)
  (t : list (string * value)) :
  diff_writes same_ref original current opts = Ok t ->
  diff same_ref original current opts = replay setChangePath t (VObj [])
  /\ forall p v,
       In (p, v) t -> existsb (String.eqb p) (ignoreFields opts) = true -> v = VUndef.
Proof.
  intros H. split; [now apply diff_replays_writes|].
  assert (HQ : Forall (fun e => existsb (String.eqb (fst e)) (ignoreFields opts) = true
                               -> snd e = VUndef) t).
  { apply (computeDiff_keeps opts _) with (o := original) (n := current) (p := "")
                                          (t0 := []).
    - intros p v Hi. simpl. rewrite Hi. discriminate.
    - reflexivity.
    - exact H.
    - constructor. }
  intros p v Hin. rewrite List.Forall_forall in HQ. exact (HQ _ Hin).
Qed.

(** *** Flat forms *)



Lemma scalar_write (o x : value) (p : string) (t0 : list (string * value)) :
  is_scalar x = true ->
  computeDiff same_ref record_write default_options o x p t0
  = Ok (t0 ++ if strict_eq same_ref o x then [] else [(p, x)]).
Proof.
  intros Hx. destruct (strict_eq same_ref o x) eqn:Hs.
  - rewrite app_nil_r. destruct x; try discriminate; simpl; unfold diff_head;
      simpl existsb; cbv iota; now rewrite Hs.
  - now rewrite computeDiff_scalar_changed.
Qed.

Lemma scalar_path (o x : value) (p : string) (paths : list string) :
  is_scalar x = true ->
  traverse same_ref o x p paths
  = Ok (paths ++ if strict_eq same_ref o x then [] else [p]).
Proof.
  intros Hx. destruct x; try discriminate; simpl;
    destruct (strict_eq same_ref o _); now rewrite ?app_nil_r.
Qed.

Lemma flat_keys_writes (o : value) (ns : props) (t0 : list (string * value)) :
  scalars ns = true ->
  diff_keys (computeDiff same_ref record_write default_options) o "" ns t0
  = Ok (t0 ++ changed_writes same_ref o ns).
Proof.
  revert t0. induction ns as [|[k x] rest IH]; intros t0 Hs.
  - simpl. now rewrite app_nil_r.
  - simpl in Hs. apply andb_true_iff in Hs as [Hx Hs].
    cbn [diff_keys]. change (child_path "" k) with k.
    rewrite scalar_write by assumption. cbn [bind].
    rewrite (IH _ Hs). unfold changed_writes; cbn [flat_map]. now rewrite app_assoc.
Qed.

Lemma flat_writes (os ns : props) :
  scalars ns = true ->
  diff_writes same_ref (VObj os) (VObj ns) default_options
  = Ok (if same_ref (VObj os) (VObj ns) then []
        else changed_writes same_ref (VObj os) ns ++ deleted_writes (VObj os) (VObj ns) "").
Proof.
  intros Hs. unfold diff_writes.
  destruct (same_ref (VObj os) (VObj ns)) eqn:E.
  - simpl. unfold diff_head. simpl. now rewrite E.
  - rewrite computeDiff_record;
      [|unfold enters; simpl; now rewrite E|reflexivity].
    rewrite flat_keys_writes by assumption. cbn [bind app].
    apply (replays_trace _ _ _ (replays_deleted (VObj os) (VObj ns) "")).
Qed.

(** X15: On a form whose current values are all scalars, [getChangedPaths]
    lists the paths [diff] writes, in the order it writes them. *)
Theorem changed_paths_of_flat_form (os ns : props) :
  scalars ns = true ->
  exists t,
    diff_writes same_ref (VObj os) (VObj ns) default_options = Ok t
    /\ diff same_ref (VObj os) (VObj ns) default_options
       = replay setChangePath t (VObj [])
    /\ getChangedPaths same_ref (VObj os) (VObj ns) = Ok (map fst t).
Proof.
  intros Hs. eexists. split; [now apply flat_writes|].
  split; [apply diff_replays_writes; now apply flat_writes|].
  unfold getChangedPaths. cbn [traverse strict_eq].
  destruct (same_ref (VObj os) (VObj ns)); [reflexivity|].
  assert (Hk : forall paths,
             (fix keys (ps : props) (paths : list string) {struct ps}
                : result (list string) :=
                match ps with
                | [] => Ok paths
                | (key, x) :: rest =>
                    let* paths1 :=
                      traverse same_ref (get_prop_opt (VObj os) key) x
                               (child_path "" key) paths in
                    keys rest paths1
                end) ns paths
             = Ok (paths ++ map fst (changed_writes same_ref (VObj os) ns))).
  { clear -Hs. induction ns as [|[k x] rest IH]; intros paths.
    - simpl. now rewrite app_nil_r.
    - simpl in Hs. apply andb_true_iff in Hs as [Hx Hs].
      change (child_path "" k) with k.
      rewrite scalar_path by assumption. cbn [bind]. rewrite (IH Hs).
      unfold changed_writes; cbn [flat_map]. rewrite map_app, app_assoc. f_equal. f_equal.
      now destruct (strict_eq same_ref _ x). }
  rewrite Hk. cbn [bind app]. unfold deleted_paths, deleted_writes.
  cbn [isPlainObject]. rewrite map_app, map_map. reflexivity.
Qed.

(** *** Applying the change tree *)

Lemma has_key_obj_set (k k' : string) (v : value) (ps : props) :
  has_key k' (obj_set k v ps) = String.eqb k' k || has_key k' ps.
Proof.
  unfold has_key. rewrite lookup_obj_set. now destruct (String.eqb k' k).
Qed.

Lemma unique_keys_app (l1 l2 : props) :
  unique_keys l1 = true -> unique_keys l2 = true ->
  (forall k, has_key k l1 = true -> has_key k l2 = false) ->
  unique_keys (l1 ++ l2) = true.
Proof.
  induction l1 as [|[k v] rest IH]; intros H1 H2 Hd; [exact H2|].
  simpl in H1. apply andb_true_iff in H1 as [Hk H1]. apply negb_true_iff in Hk.
  simpl. apply andb_true_iff. split.
  - apply negb_true_iff. unfold has_key in *.
    assert (Hl : forall l, lookup_prop k (rest ++ l)
                           = match lookup_prop k rest with
                             | Some x => Some x
                             | None => lookup_prop k l
                             end).
    { intros l. clear. induction rest as [|[k0 v0] r IHr]; simpl; [reflexivity|].
      now destruct (String.eqb k k0). }
    rewrite Hl. destruct (lookup_prop k rest); [discriminate|].
    specialize (Hd k). simpl in Hd. rewrite String.eqb_refl in Hd. now apply Hd.
  - apply IH; trivial. intros k' Hk'. apply Hd. unfold has_key in *. simpl.
    now destruct (String.eqb k' k).
Qed.

Lemma lookup_app (k : string) (l1 l2 : props) :
  lookup_prop k (l1 ++ l2)
  = match lookup_prop k l1 with
    | Some x => Some x
    | None => lookup_prop k l2
    end.
Proof.
  induction l1 as [|[k0 v0] r IH]; simpl; [reflexivity|].
  now destruct (String.eqb k k0).
Qed.

Lemma unique_keys_obj_set (k : string) (v : value) (ps : props) :
  unique_keys ps = true -> unique_keys (obj_set k v ps) = true.
Proof.
  intros Hu. unfold obj_set. destruct (has_key k ps) eqn:Hk.
  - induction ps as [|[k0 v0] rest IH]; [reflexivity|].
    simpl in Hu. apply andb_true_iff in Hu as [H0 Hu]. simpl.
    unfold has_key in Hk. simpl in Hk.
    destruct (String.eqb_spec k k0) as [->|Hne]; simpl.
    + now rewrite H0, Hu.
    + rewrite (IH Hu Hk), andb_true_r.
      apply negb_true_iff. apply negb_true_iff in H0.
      unfold has_key in *. rewrite lookup_replace_prop by exact Hk.
      destruct (String.eqb_spec k0 k) as [E|_]; [now symmetry in E|exact H0].
  - assert (Happ : unique_keys (ps ++ [(k, v)]) = true).
    { apply unique_keys_app; trivial. intros k' Hk'. unfold has_key. simpl.
      destruct (String.eqb_spec k' k) as [->|_]; [congruence|reflexivity]. }
    destruct (Str.array_index k) as [n|]; [|exact Happ].
    clear Happ. induction ps as [|[k0 v0] rest IH]; [reflexivity|].
    simpl in Hu. apply andb_true_iff in Hu as [H0 Hu].
    unfold has_key in Hk. simpl in Hk.
    destruct (String.eqb_spec k k0) as [->|Hne]; [discriminate|].
    assert (Hnew : unique_keys ((k, v) :: (k0, v0) :: rest) = true).
    { simpl. unfold has_key at 1. simpl.
      destruct (String.eqb_spec k k0); [contradiction|].
      rewrite H0, Hu. unfold has_key in *. now destruct (lookup_prop k rest). }
    simpl. destruct (Str.array_index k0) as [n'|]; [|exact Hnew].
    destruct (n <? n')%N; [exact Hnew|].
    simpl. rewrite (IH Hu) by (unfold has_key; exact Hk). rewrite andb_true_r.
    apply negb_true_iff. unfold has_key.
    rewrite lookup_insert_index by (unfold has_key; now destruct (lookup_prop k rest)).
    destruct (String.eqb_spec k0 k) as [E|_]; [now symmetry in E|].
    apply negb_true_iff in H0. exact H0.
Qed.

Lemma unique_keys_assign (target : props) (src : props) :
  unique_keys target = true -> unique_keys (assign_props target (VObj src)) = true.
Proof.
  unfold assign_props. cbn [own_props]. revert target.
  induction src as [|[k v] rest IH]; intros target Hu; [exact Hu|].
  simpl. apply IH. now apply unique_keys_obj_set.
Qed.


Lemma replay_segments (t : list (string * value)) (ps : props) :
  forallb (fun '(k, _) => segment k) t = true ->
  replay setChangePath t (VObj ps) = Ok (VObj (assign_props ps (VObj t))).
Proof.
  unfold replay, assign_props. cbn [own_props]. revert ps.
  induction t as [|[k v] rest IH]; intros ps Hs; [reflexivity|].
  simpl in Hs. apply andb_true_iff in Hs as [Hk Hs].
  unfold segment, plain in Hk. apply andb_true_iff in Hk as [Hd Hne].
  apply negb_true_iff in Hd. apply negb_true_iff in Hne.
  cbn [foldM fold_left].
  rewrite setChangePath_plain by (trivial; intros ->; discriminate).
  cbn [bind]. now apply IH.
Qed.

Lemma lookup_changed_writes (o : value) (ns : props) (k : string) :
  unique_keys ns = true ->
  lookup_prop k (changed_writes same_ref o ns)
  = match lookup_prop k ns with
    | Some x => if strict_eq same_ref (get_prop_opt o k) x then None else Some x
    | None => None
    end.
Proof.
  induction ns as [|[k0 x0] rest IH]; intros Hu; [reflexivity|].
  simpl in Hu. apply andb_true_iff in Hu as [H0 Hu]. apply negb_true_iff in H0.
  unfold changed_writes; cbn [flat_map]. rewrite lookup_app. fold (changed_writes same_ref o rest).
  rewrite (IH Hu). simpl.
  destruct (String.eqb_spec k k0) as [->|Hne].
  - unfold has_key in H0.
    destruct (strict_eq same_ref (get_prop_opt o k0) x0); simpl.
    + now destruct (lookup_prop k0 rest).
    + now rewrite String.eqb_refl.
  - destruct (strict_eq same_ref (get_prop_opt o k0) x0); simpl; [reflexivity|].
    now destruct (String.eqb_spec k k0).
Qed.

Lemma lookup_removed (ks : list string) (f : string -> bool) (k : string) :
  lookup_prop k (map (fun key => (child_path "" key, @VUndef host)) (List.filter f ks))
  = if existsb (String.eqb k) ks && f k then Some VUndef else None.
Proof.
  induction ks as [|k0 rest IH]; [reflexivity|].
  cbn [List.filter existsb].
  destruct (f k0) eqn:E; cbn [map lookup_prop]; change (child_path "" k0) with k0;
    destruct (String.eqb_spec k k0) as [->|Hne]; cbn [orb]; trivial.
  - now rewrite E.
  - rewrite IH, E. now rewrite andb_false_r.
Qed.

Lemma existsb_keys (k : string) (ps : props) :
  existsb (String.eqb k) (map fst ps) = has_key k ps.
Proof.
  unfold has_key. induction ps as [|[k0 v0] rest IH]; [reflexivity|].
  simpl. destruct (String.eqb k k0); [reflexivity|exact IH].
Qed.

Lemma unique_changed_writes (o : value) (ns : props) :
  unique_keys ns = true -> unique_keys (changed_writes same_ref o ns) = true.
Proof.
  induction ns as [|[k x] rest IH]; intros Hu; [reflexivity|].
  pose proof (lookup_changed_writes o rest k) as Hl.
  simpl in Hu. apply andb_true_iff in Hu as [H0 Hu]. apply negb_true_iff in H0.
  unfold changed_writes; cbn [flat_map]. fold (changed_writes same_ref o rest).
  destruct (strict_eq same_ref (get_prop_opt o k) x); [now apply IH|].
  simpl. rewrite (IH Hu), andb_true_r. apply negb_true_iff.
  unfold has_key in *. rewrite (Hl Hu). now destruct (lookup_prop k rest).
Qed.

Lemma unique_removed (os : props) (f : string -> bool) :
  unique_keys os = true ->
  unique_keys (map (fun key => (child_path "" key, @VUndef host))
                   (List.filter f (map fst os))) = true.
Proof.
  induction os as [|[k x] rest IH]; intros Hu; [reflexivity|].
  simpl in Hu. apply andb_true_iff in Hu as [H0 Hu]. apply negb_true_iff in H0.
  cbn [map List.filter fst]. destruct (f k); [|now apply IH].
  cbn [map unique_keys]. rewrite (IH Hu), andb_true_r. apply negb_true_iff.
  unfold has_key at 1. change (child_path "" k) with k.
  now rewrite lookup_removed, existsb_keys, H0.
Qed.

(** X16: Spreading the change tree over the original form gives the current
    form, key by key: on two forms with keys of one segment, the current
    one holding scalars, [{ ...original, ...diff(original, current) }]
    holds under every key what [current] holds, up to [===]; a key that
    [current] has lost holds [undefined]. *)
Theorem diff_applies_to_flat_form (os ns : props) :
  (forall a b, same_ref a b = true -> a = b) ->
  unique_keys os = true -> unique_keys ns = true ->
  forallb (fun '(k, _) => segment k) os = true ->
  forallb (fun '(k, _) => segment k) ns = true ->
  scalars ns = true ->
  exists ds,
    diff same_ref (VObj os) (VObj ns) default_options = Ok (VObj ds)
    /\ forall k,
         get_own (spread [VObj os; VObj ds]) k = get_own (VObj ns) k
         \/ strict_eq same_ref (get_own (spread [VObj os; VObj ds]) k)
                               (get_own (VObj ns) k) = true.
Proof.
  intros Hsound Huo Hun Hso Hsn Hsc.
  pose proof (flat_writes os ns Hsc) as Hw.
  pose proof (diff_replays_writes same_ref default_options _ _ _ Hw) as Hd.
  assert (Hspread : forall ds k,
             unique_keys ds = true ->
             get_own (spread [VObj os; VObj ds]) k
             = match lookup_prop k ds with
               | Some v => v
               | None => get_own (VObj os) k
               end).
  { intros ds k Hds. unfold spread. cbn [fold_left get_own].
    rewrite !lookup_assign_props by assumption.
    now destruct (lookup_prop k ds), (lookup_prop k os). }
  destruct (same_ref (VObj os) (VObj ns)) eqn:E.
  - exists []. split; [exact Hd|]. intros k. left.
    apply Hsound in E. injection E as ->.
    now rewrite Hspread.
  - set (t := changed_writes same_ref (VObj os) ns ++ deleted_writes (VObj os) (VObj ns) "") in *.
    assert (Hut : unique_keys t = true).
    { apply unique_keys_app.
      - now apply unique_changed_writes.
      - unfold deleted_writes. cbn [own_keys own_props]. now apply unique_removed.
      - intros k Hk. unfold has_key in *.
        rewrite lookup_changed_writes in Hk by assumption.
        unfold deleted_writes. cbn [own_keys own_props has_own].
        rewrite lookup_removed. unfold has_key.
        destruct (lookup_prop k ns); [|discriminate].
        now rewrite andb_false_r. }
    assert (Hst : forallb (fun '(k, _) => segment k) t = true).
    { unfold t. rewrite forallb_app. apply andb_true_iff. split.
      - rewrite forallb_forall in Hsn |- *. intros [k x] Hin.
        unfold changed_writes in Hin. apply in_flat_map in Hin as [[k0 x0] [Hin0 Hin]].
        destruct (strict_eq _ _ _); [destruct Hin|].
        destruct Hin as [[= <- <-]|[]]. exact (Hsn _ Hin0).
      - rewrite forallb_forall in Hso |- *. intros [k x] Hin.
        unfold deleted_writes in Hin. apply in_map_iff in Hin as [k0 [[= <- <-] Hin]].
        apply filter_In in Hin as [Hin _]. cbn [own_keys own_props] in Hin.
        apply in_map_iff in Hin as [[k1 x1] [<- Hin]].
        change (child_path "" k1) with k1. exact (Hso _ Hin). }
    rewrite (replay_segments t [] Hst) in Hd.
    exists (assign_props [] (VObj t)). split; [exact Hd|].
    intros k. rewrite Hspread by now apply unique_keys_assign.
    rewrite lookup_assign_props by assumption. cbn [lookup_prop].
    unfold t. rewrite lookup_app, lookup_changed_writes by assumption.
    unfold deleted_writes. cbn [own_keys own_props has_own get_own get_prop_opt is_nullish].
    rewrite lookup_removed. change (own_keys (VObj os)) with (map fst os).
    rewrite existsb_keys. unfold has_key.
    destruct (lookup_prop k ns) as [x|] eqn:Hn.
    + destruct (strict_eq same_ref _ x) eqn:Hs; [|now left].
      rewrite andb_false_r. now right.
    + destruct (lookup_prop k os); simpl; now left.
Qed.

End DifferExtras.

Section ItemPaths.
Context {host : Host}.

(** *** Decimal numerals *)

Ltac digit_step IH :=
  cbn [NilEmpty.string_of_uint Str.chars list_ascii_of_string fold_left Pos.of_uint_acc];
  match goal with
  | |- fold_left _ _ ?a = N.pos (Pos.of_uint_acc _ ?q) =>
      replace a with (N.pos q)
        by (match goal with
            | |- context [Str.digit_val ?c] =>
                let v := eval vm_compute in (Str.digit_val c) in
                change (Str.digit_val c) with v
            end; lia);
      apply IH
  end.

Lemma digits_acc (d : Decimal.uint) (p : positive) :
  fold_left (fun acc c => (10 * acc + Str.digit_val c)%N)
            (Str.chars (NilEmpty.string_of_uint d)) (N.pos p)
  = N.pos (Pos.of_uint_acc d p).
Proof.
  revert p. induction d; intros p; [reflexivity|digit_step IHd..].
Qed.

Lemma digits_of_uint (d : Decimal.uint) :
  Str.digits_to_N (Str.chars (NilEmpty.string_of_uint d)) = N.of_uint d.
Proof.
  unfold Str.digits_to_N, N.of_uint.
  induction d; try reflexivity;
    cbn [NilEmpty.string_of_uint Str.chars list_ascii_of_string fold_left Pos.of_uint];
    [exact IHd|apply digits_acc..].
Qed.

Lemma digits_are_digits (d : Decimal.uint) :
  forallb Str.is_digit (Str.chars (NilEmpty.string_of_uint d)) = true.
Proof. induction d; simpl; trivial. Qed.

Lemma of_N_chars (n : N) :
  exists c l, Str.chars (Str.of_N n) = c :: l
    /\ forallb Str.is_digit (c :: l) = true
    /\ Str.digits_to_N (c :: l) = n.
Proof.
  unfold Str.of_N.
  pose proof (DecimalN.Unsigned.of_to n) as Hn.
  pose proof (digits_of_uint (N.to_uint n)) as Hd.
  pose proof (digits_are_digits (N.to_uint n)) as Ha.
  destruct (N.to_uint n) eqn:E;
    try (cbn [NilZero.string_of_uint] in *;
         match goal with
         | |- context [Str.chars (NilEmpty.string_of_uint ?d)] =>
             destruct (Str.chars (NilEmpty.string_of_uint d)) as [|c l] eqn:Hc;
             [discriminate Hc|exists c, l; repeat split; congruence]
         end).
  exists "0"%char, []. simpl in Hn. subst n. repeat split.
Qed.

(** The spelling of an index is an array index. *)
Lemma array_index_of_N (n : N) :
  (n < Str.max_index)%N -> Str.array_index (Str.of_N n) = Some n.
Proof.
  intros Hn. unfold Str.array_index.
  destruct (of_N_chars n) as [c [l [Hc [Hd Hv]]]]. rewrite Hc, Hd, Hv.
  rewrite String.eqb_refl. cbn [andb].
  now apply N.ltb_lt in Hn as ->.
Qed.

(** *** The pattern of [setChangePath] on the paths of [computeDiff] *)

Lemma chars_app (a b : string) : Str.chars (a ++ b) = Str.chars a ++ Str.chars b.
Proof. induction a as [|c a IH]; simpl; [reflexivity|]. now f_equal. Qed.

Lemma take_while_app (p : ascii -> bool) (l r : list ascii) (c : ascii) :
  forallb p l = true -> p c = false ->
  Str.take_while p (l ++ c :: r) = l /\ Str.drop_while p (l ++ c :: r) = c :: r.
Proof.
  intros Hl Hc. induction l as [|a l IH]; simpl.
  - now rewrite Hc.
  - simpl in Hl. apply andb_true_iff in Hl as [Ha Hl]. rewrite Ha.
    destruct (IH Hl) as [-> ->]. now split.
Qed.

Lemma forallb_rev {A : Type} (p : A -> bool) (l : list A) :
  forallb p (rev l) = forallb p l.
Proof.
  induction l as [|a l IH]; [reflexivity|].
  simpl. rewrite forallb_app, IH. simpl. rewrite andb_true_r. apply andb_comm.
Qed.

Lemma arrayMatch_keyed (k : string) (i : nat) :
  k <> "" -> one_line k = true ->
  Str.arrayMatch (item_path k i) = Some (k, N.of_nat i).
Proof.
  intros Hk Hl.
  destruct (of_N_chars (N.of_nat i)) as [c [l [Hc [Hd Hv]]]].
  assert (Hb : Str.is_digit "[" = false) by reflexivity.
  unfold item_path.
  destruct (String.eqb_spec k ""); [contradiction|].
  unfold Str.arrayMatch, Str.of_nat.
  rewrite !chars_app, Hc. change (Str.chars "[") with ["["%char].
  change (Str.chars "]") with ["]"%char].
  rewrite !rev_app_distr. cbn [rev app]. rewrite <- !app_assoc. cbn [app].
  destruct (take_while_app Str.is_digit (rev l ++ [c]) (rev (Str.chars k)) "["%char)
    as [Ht Hdr]; [|exact Hb|].
  { change (rev l ++ [c]) with (rev (c :: l)). now rewrite forallb_rev. }
  rewrite <- !app_assoc in Ht, Hdr. cbn [app] in Ht, Hdr. rewrite Ht, Hdr.
  destruct (rev l ++ [c]) as [|d ds] eqn:E; [now destruct (rev l)|].
  change (rev ds ++ [d]) with (rev (d :: ds)). rewrite <- E.
  change (rev l ++ [c]) with (rev (c :: l)). rewrite !rev_involutive, Hv.
  unfold one_line in Hl. rewrite <- forallb_rev in Hl. rewrite Hl.
  unfold Str.of_chars, Str.chars. rewrite string_of_list_ascii_of_string.
  destruct k as [|a k]; [contradiction|]. simpl.
  now destruct (rev (list_ascii_of_string k)).
Qed.

Lemma arrayMatch_root (i : nat) : Str.arrayMatch (item_path "" i) = None.
Proof.
  destruct (of_N_chars (N.of_nat i)) as [c [l [Hc [Hd Hv]]]].
  assert (Hb : Str.is_digit "[" = false) by reflexivity.
  unfold item_path, Str.arrayMatch, Str.of_nat. cbn [String.eqb].
  rewrite !chars_app, Hc. change (Str.chars "[") with ["["%char].
  change (Str.chars "]") with ["]"%char].
  rewrite !rev_app_distr. cbn [rev app]. rewrite <- !app_assoc. cbn [app].
  destruct (take_while_app Str.is_digit (rev l ++ [c]) [] "["%char)
    as [Ht Hdr]; [|exact Hb|].
  { change (rev l ++ [c]) with (rev (c :: l)). now rewrite forallb_rev. }
  rewrite <- !app_assoc in Ht, Hdr. cbn [app] in Ht, Hdr. rewrite Ht, Hdr.
  now destruct (rev l ++ [c]).
Qed.

(** X17: [setChangePath] reads back the key and the index [computeDiff] put in
    the path of an element: the pattern [/^(.+)\[(\d+)\]$/] matches
    [`${key}[${i}]`] with the groups [key] and [i].  The path [`[${i}]`]
    of an element of a sequence at the root does not match. *)
Theorem arrayMatch_item_path (i : nat) :
  (forall k, k <> "" -> one_line k = true ->
             Str.arrayMatch (item_path k i) = Some (k, N.of_nat i))
  /\ Str.arrayMatch (item_path "" i) = None.
Proof.
  split; [intros k Hk Hl; now apply arrayMatch_keyed|apply arrayMatch_root].
Qed.

Lemma arr_set_nil (i : nat) (x : value) :
  arr_set [] i x = repeat None i ++ [Some x].
Proof. induction i as [|i IH]; simpl; [reflexivity|]. now rewrite IH. Qed.

Lemma slot_arr_set (l : list (option value)) (i : nat) (x : value) :
  slot (arr_set l i x) i = x.
Proof.
  unfold slot. revert l. induction i as [|i IH]; intros [|e l]; simpl; trivial;
    apply IH.
Qed.

Lemma arr_set_twice (l : list (option value)) (i : nat) (x y : value) :
  arr_set (arr_set l i x) i y = arr_set l i y.
Proof.
  revert l. induction i as [|i IH]; intros [|e l]; simpl; trivial; now rewrite IH.
Qed.

Lemma obj_set_on_empty (k : string) (x : value) : obj_set k x [] = [(k, x)].
Proof. unfold obj_set. simpl. now destruct (Str.array_index k). Qed.

Lemma obj_set_only (k : string) (x y : value) : obj_set k y [(k, x)] = [(k, y)].
Proof. unfold obj_set, has_key. simpl. now rewrite String.eqb_refl. Qed.

(** X18: The change [computeDiff] reports below an element of a sequence is
    stored in a sequence: on the empty change tree,
    [`${key}[${i}].${field}`] builds a sequence under [key] with [i] empty
    slots and then the record [{ [field]: value }]. *)
Theorem setChangePath_item_field (k f : string) (i : nat) (v : value) :
  k <> "" -> plain k = true -> one_line k = true -> plain f = true ->
  (N.of_nat i < Str.max_index)%N ->
  setChangePath (VObj []) (item_path k i ++ "." ++ f)%string v
  = Ok (VObj [(k, VArr (repeat None i ++ [Some (VObj [(f, v)])]))]).
Proof.
  intros Hk Hp Hl Hf Hi.
  assert (Hd : Str.includes_dot k = false)
    by (unfold plain in Hp; now destruct (Str.includes_dot k)).
  destruct (item_path_plain k i Hd) as [Hip Hne].
  unfold setChangePath.
  destruct (String.eqb_spec (item_path k i ++ "." ++ f)%string "") as [E|_].
  { destruct (item_path k i); [contradiction|discriminate]. }
  rewrite split_dot_dotted by (unfold plain; now rewrite Hip).
  rewrite split_dot_plain by (unfold plain in Hf; now destruct (Str.includes_dot f)).
  cbn [removelast List.last setChange_loop].
  rewrite (arrayMatch_keyed k i Hk Hl).
  destruct (N.leb_spec Str.max_index (N.of_nat i)); [lia|].
  unfold get_prop at 1. cbn [is_nullish get_own lookup_prop bind truthy set_prop].
  rewrite obj_set_on_empty.
  unfold get_prop at 1. cbn [is_nullish get_own lookup_prop bind].
  rewrite String.eqb_refl.
  unfold get_prop at 1. cbn [is_nullish get_own bind].
  rewrite (array_index_of_N _ Hi), Nat2N.id.
  unfold slot at 1. rewrite nth_error_nil. cbn [truthy bind set_prop].
  rewrite (array_index_of_N _ Hi), Nat2N.id.
  unfold get_prop at 1. cbn [is_nullish get_own bind].
  rewrite (array_index_of_N _ Hi), Nat2N.id, slot_arr_set.
  cbn [setChange_loop set_prop bind].
  rewrite (array_index_of_N _ Hi), Nat2N.id, arr_set_twice, arr_set_nil.
  rewrite obj_set_on_empty. cbn [bind]. now rewrite obj_set_only.
Qed.

End ItemPaths.

Section FlattenFacts.
Context {host : Host}.

Lemma solid_record (ps : props) :
  solid (VObj ps) = true ->
  unique_keys ps = true
  /\ Forall (fun kv => simple_key (fst kv) = true /\ solid_member (snd kv) = true) ps.
Proof.
  simpl. intros H. apply andb_true_iff in H as [Hu H]. split; [exact Hu|].
  clear Hu. induction ps as [|[k x] rest IH]; [constructor|].
  apply andb_true_iff in H as [H Hr]. apply andb_true_iff in H as [Hk Hx].
  constructor; [split; assumption|auto].
Qed.

Lemma simple_key_facts (k : string) :
  simple_key k = true ->
  plain k = true /\ k <> "" /\ Str.array_index k = None.
Proof.
  unfold simple_key, segment. intros H.
  apply andb_true_iff in H as [H Hi]. apply andb_true_iff in H as [Hp Hn].
  split; [exact Hp|]. split.
  - intros ->. discriminate.
  - now destruct (Str.array_index k).
Qed.

(** *** [unflattenObject] on the entries of a record *)

Lemma graft_record (ps : props) (e : list string * value) (r : value) :
  graft (VObj ps) e = Ok r -> exists ps', r = VObj ps'.
Proof. unfold graft. intros H. now destruct (setNested_loop_get _ _ _ _ _ H). Qed.

Lemma obj_set_new (k : string) (v : value) (acc : props) :
  simple_key k = true -> has_key k acc = false ->
  obj_set k v acc = acc ++ [(k, v)].
Proof.
  intros Hk Ha. destruct (simple_key_facts k Hk) as [_ [_ Hi]].
  unfold obj_set. now rewrite Ha, Hi.
Qed.

Lemma obj_set_last (k : string) (v w : value) (acc : props) :
  has_key k acc = false ->
  obj_set k v (acc ++ [(k, w)]) = acc ++ [(k, v)].
Proof.
  intros Ha. unfold obj_set.
  assert (Hk : has_key k (acc ++ [(k, w)]) = true).
  { unfold has_key in *. rewrite lookup_app. simpl. rewrite String.eqb_refl.
    now destruct (lookup_prop k acc). }
  rewrite Hk. clear Hk. unfold has_key in Ha.
  induction acc as [|[k0 v0] rest IH]; simpl in *.
  - now rewrite String.eqb_refl.
  - destruct (String.eqb k k0); [discriminate|]. now rewrite IH.
Qed.

Lemma lookup_last (k : string) (w : value) (acc : props) :
  has_key k acc = false -> lookup_prop k (acc ++ [(k, w)]) = Some w.
Proof.
  unfold has_key. intros Ha. rewrite lookup_app. simpl. rewrite String.eqb_refl.
  now destruct (lookup_prop k acc).
Qed.

Lemma graft_under (k : string) (p : list string) (y : value) (acc c c1 : props) :
  p <> [] -> has_key k acc = false ->
  graft (VObj c) (p, y) = Ok (VObj c1) ->
  graft (VObj (acc ++ [(k, VObj c)])) (k :: p, y) = Ok (VObj (acc ++ [(k, VObj c1)])).
Proof.
  intros Hp Ha. unfold graft. cbn [fst snd]. intros H.
  destruct p as [|k2 p]; [contradiction|].
  change (removelast (k :: k2 :: p)) with (k :: removelast (k2 :: p)).
  change (List.last (k :: k2 :: p) "") with (List.last (k2 :: p) "").
  cbn [setNested_loop]. unfold get_prop. cbn [is_nullish get_own bind].
  rewrite (lookup_last _ _ _ Ha). cbn [truthy isPlainObject negb orb bind].
  cbn [is_nullish get_own]. rewrite (lookup_last _ _ _ Ha). cbn [bind].
  rewrite H. cbn [bind set_prop]. now rewrite obj_set_last.
Qed.

Lemma graft_create (k : string) (p : list string) (y : value) (acc : props) :
  p <> [] -> simple_key k = true -> has_key k acc = false ->
  graft (VObj acc) (k :: p, y) = graft (VObj (acc ++ [(k, VObj [])])) (k :: p, y).
Proof.
  intros Hp Hk Ha. unfold graft. cbn [fst snd].
  destruct p as [|k2 p]; [contradiction|].
  change (removelast (k :: k2 :: p)) with (k :: removelast (k2 :: p)).
  change (List.last (k :: k2 :: p) "") with (List.last (k2 :: p) "").
  cbn [setNested_loop]. unfold get_prop. cbn [is_nullish get_own bind].
  rewrite (lookup_last _ _ _ Ha).
  assert (Hn : lookup_prop k acc = None)
    by (unfold has_key in Ha; now destruct (lookup_prop k acc)).
  rewrite Hn. cbn [truthy isPlainObject negb orb bind set_prop is_nullish get_own].
  rewrite (obj_set_new _ _ _ Hk Ha). rewrite (lookup_last _ _ _ Ha). cbn [bind].
  reflexivity.
Qed.

Lemma graft_fold_under (k : string) (L : list (list string * value)) :
  Forall (fun e => fst e <> []) L ->
  forall acc c c',
    has_key k acc = false ->
    foldM graft L (VObj c) = Ok (VObj c') ->
    foldM graft (map (fun e => (k :: fst e, snd e)) L) (VObj (acc ++ [(k, VObj c)]))
    = Ok (VObj (acc ++ [(k, VObj c')])).
Proof.
  induction 1 as [|[p y] L Hp _ IH]; intros acc c c' Ha Hrun.
  - simpl in Hrun. injection Hrun as <-. reflexivity.
  - cbn [foldM] in Hrun. apply bind_Ok in Hrun as [r1 [H1 Hrest]].
    destruct (graft_record _ _ _ H1) as [c1 ->].
    cbn [map foldM fst snd]. simpl in Hp.
    rewrite (graft_under k p y acc c c1 Hp Ha H1). cbn [bind].
    now apply IH.
Qed.

Lemma unique_app_head (acc : props) (k : string) (x : value) (rest : props) :
  unique_keys (acc ++ (k, x) :: rest) = true -> has_key k acc = false.
Proof.
  induction acc as [|[k0 v0] acc IH]; [reflexivity|].
  simpl. intros H. apply andb_true_iff in H as [H0 H]. apply negb_true_iff in H0.
  unfold has_key in *. simpl.
  destruct (String.eqb_spec k k0) as [->|_]; [|now apply IH].
  rewrite lookup_app in H0. simpl in H0. rewrite String.eqb_refl in H0.
  now destruct (lookup_prop k0 acc).
Qed.

Lemma entries_paths (v : value) : Forall (fun e => fst e <> []) (flat_entries v).
Proof.
  induction v as [| | | | | | | |ps IH] using value_ind; try constructor.
  simpl. induction ps as [|[k x] rest IHl]; [constructor|].
  inversion IH as [|? ? Hx Hrest]; subst. apply Forall_app. split; [|auto].
  destruct x; try (constructor; [discriminate|constructor]); try constructor.
  apply List.Forall_forall. intros e He. apply in_map_iff in He as [e0 [<- _]].
  discriminate.
Qed.

Lemma entries_nonempty (v : value) :
  forall ps, v = VObj ps -> ps <> [] -> solid v = true -> flat_entries v <> [].
Proof.
  induction v as [| | | | | | | |ps0 IH] using value_ind; try discriminate.
  intros ps [= <-] Hne Hs. destruct ps0 as [|[k x] rest]; [contradiction|].
  apply solid_record in Hs as [_ Hm].
  inversion Hm as [|? ? [_ Hx] _]; subst. inversion IH as [|? ? IHx _]; subst.
  simpl in Hx, IHx. cbn [flat_entries].
  destruct x as [| | | | | | | |inner]; try discriminate.
  apply andb_true_iff in Hx as [Hlen Hx].
  specialize (IHx _ eq_refl).
  destruct inner as [|m ms]; [discriminate|].
  specialize (IHx ltac:(discriminate) Hx).
  destruct (flat_entries (VObj (m :: ms))); [contradiction|discriminate].
Qed.

Lemma foldM_app {A B : Type} (f : B -> A -> result B) (l1 l2 : list A) (b : B) :
  foldM f (l1 ++ l2) b = let* b1 := foldM f l1 b in foldM f l2 b1.
Proof.
  revert b. induction l1 as [|a l1 IH]; intros b; [reflexivity|].
  simpl. destruct (f b a); simpl; auto.
Qed.

Lemma graft_entries (v : value) :
  forall ps, v = VObj ps -> solid v = true ->
  foldM graft (flat_entries v) (VObj []) = Ok (VObj ps).
Proof.
  induction v as [| | | | | | | |ps0 IH] using value_ind; try discriminate.
  intros ps [= <-] Hs. apply solid_record in Hs as [Hu Hm].
  change ps0 with ([] ++ ps0) at 2. change ps0 with ([] ++ ps0) in Hu.
  revert Hu. generalize (@nil (string * value)) as acc.
  induction ps0 as [|[k x] rest IHl]; intros acc Hu.
  - now rewrite app_nil_r.
  - inversion IH as [|? ? IHx IHrest]; subst.
    inversion Hm as [|? ? [Hk Hx] Hmrest]; subst. simpl in IHx, Hk, Hx.
    pose proof (unique_app_head _ _ _ _ Hu) as Ha.
    change (flat_entries (VObj ((k, x) :: rest)))
      with (match x with
            | VObj _ => map (fun e => (k :: fst e, snd e)) (flat_entries x)
            | VDate _ => []
            | _ => [([k], x)]
            end ++ flat_entries (VObj rest)).
    rewrite foldM_app.
    assert (Hstep : foldM graft
                      (match x with
                       | VObj _ => map (fun e => (k :: fst e, snd e)) (flat_entries x)
                       | VDate _ => []
                       | _ => [([k], x)]
                       end) (VObj acc) = Ok (VObj (acc ++ [(k, x)]))).
    { destruct x as [| | | | | | | |inner]; try discriminate;
        try (cbn [foldM graft fst snd removelast List.last setNested_loop set_prop bind];
             now rewrite (obj_set_new _ _ _ Hk Ha)).
      apply andb_true_iff in Hx as [Hlen Hx].
      pose proof (IHx _ eq_refl Hx) as Hin.
      assert (Hne : flat_entries (VObj inner) <> []).
      { apply (entries_nonempty _ inner); trivial.
        destruct inner; [discriminate|discriminate]. }
      pose proof (entries_paths (VObj inner)) as Hp.
      pose proof (graft_fold_under k _ Hp acc [] inner Ha Hin) as Hg.
      destruct (flat_entries (VObj inner)) as [|[p1 y1] L']; [contradiction|].
      cbn [map foldM fst snd] in Hg |- *.
      inversion Hp as [|? ? Hp1 _]; subst. simpl in Hp1.
      now rewrite (graft_create k p1 y1 acc Hp1 Hk Ha). }
    rewrite Hstep. cbn [bind].
    rewrite (IHl IHrest Hmrest (acc ++ [(k, x)])).
    + now rewrite <- app_assoc.
    + now rewrite <- app_assoc.
Qed.

(** *** The keys [flattenObject] builds *)

Lemma append_assoc (a b c : string) : ((a ++ b) ++ c)%string = (a ++ b ++ c)%string.
Proof. induction a as [|x a IH]; simpl; [reflexivity|]. now rewrite IH. Qed.

Lemma dotted_cons (k : string) (path : list string) :
  path <> [] -> dotted (k :: path) = (k ++ "." ++ dotted path)%string.
Proof. destruct path; [contradiction|reflexivity]. Qed.

Lemma dotted_nonempty (path : list string) :
  Forall (fun k => k <> "") path -> path <> [] -> dotted path <> "".
Proof.
  intros Hf Hne. destruct path as [|k [|k2 rest]]; [contradiction| |].
  - inversion Hf; subst. assumption.
  - inversion Hf as [|? ? Hk _]; subst. rewrite dotted_cons by discriminate.
    destruct k; [contradiction|discriminate].
Qed.

Lemma dotted_snoc (P : list string) (k : string) :
  Forall (fun k => k <> "") P ->
  child_path (dotted P) k = dotted (P ++ [k]).
Proof.
  intros Hf. induction P as [|a P IH]; [reflexivity|].
  inversion Hf as [|? ? Ha HP]; subst.
  unfold child_path.
  destruct (String.eqb_spec (dotted (a :: P)) "") as [E|_].
  { exfalso. apply (dotted_nonempty (a :: P)); trivial. discriminate. }
  destruct P as [|b P]; [reflexivity|].
  rewrite (dotted_cons a (b :: P)) by discriminate.
  change ((a :: b :: P) ++ [k]) with (a :: ((b :: P) ++ [k])).
  rewrite (dotted_cons a ((b :: P) ++ [k])) by discriminate.
  rewrite <- (IH HP). unfold child_path.
  destruct (String.eqb_spec (dotted (b :: P)) "") as [E|_].
  { exfalso. apply (dotted_nonempty (b :: P)); trivial. discriminate. }
  now rewrite !append_assoc.
Qed.

Lemma split_dot_path (path : list string) :
  forallb plain path = true -> path <> [] -> Str.split_dot (dotted path) = path.
Proof.
  intros Hp Hne. induction path as [|k rest IH]; [contradiction|].
  simpl in Hp. apply andb_true_iff in Hp as [Hk Hrest].
  destruct rest as [|k2 rest].
  - simpl. apply split_dot_plain. unfold plain in Hk.
    now destruct (Str.includes_dot k).
  - rewrite dotted_cons by discriminate.
    rewrite split_dot_dotted by assumption. f_equal. now apply IH.
Qed.

Lemma array_index_dot (s : string) :
  Str.includes_dot s = true -> Str.array_index s = None.
Proof.
  intros H. unfold Str.array_index.
  assert (Hd : forallb Str.is_digit (Str.chars s) = false).
  { induction s as [|c s IH]; [discriminate|]. simpl in H |- *.
    destruct (Ascii.eqb_spec c ".") as [->|_]; [reflexivity|].
    simpl in H. rewrite (IH H). apply andb_false_r. }
  destruct (Str.chars s); [reflexivity|]. now rewrite Hd.
Qed.

Lemma array_index_path (path : list string) :
  forallb simple_key path = true -> path <> [] ->
  Str.array_index (dotted path) = None.
Proof.
  intros Hs Hne. destruct path as [|k [|k2 rest]]; [contradiction| |].
  - simpl in Hs. rewrite andb_true_r in Hs.
    now destruct (simple_key_facts k Hs) as [_ [_ Hi]].
  - apply array_index_dot. rewrite dotted_cons by discriminate.
    rewrite !includes_dot_app. simpl. now rewrite orb_true_r.
Qed.

Lemma simple_plain (path : list string) :
  forallb simple_key path = true ->
  forallb plain path = true /\ Forall (fun k => k <> "") path.
Proof.
  induction path as [|k rest IH]; [split; [reflexivity|constructor]|].
  simpl. intros H. apply andb_true_iff in H as [Hk H].
  destruct (simple_key_facts k Hk) as [Hp [Hn _]]. destruct (IH H) as [Hr Hf].
  split; [now rewrite Hp, Hr|now constructor].
Qed.

(** *** The entries of a solid record *)

Lemma entries_simple (v : value) :
  solid v = true ->
  Forall (fun e => forallb simple_key (fst e) = true) (flat_entries v).
Proof.
  induction v as [| | | | | | | |ps IH] using value_ind; try discriminate.
  intros Hs. apply solid_record in Hs as [_ Hm]. cbn [flat_entries].
  induction ps as [|[k x] rest IHl]; [constructor|].
  inversion IH as [|? ? IHx IHrest]; subst.
  inversion Hm as [|? ? [Hk Hx] Hmrest]; subst. simpl in IHx, Hk, Hx.
  apply Forall_app. split; [|auto].
  destruct x as [| | | | | | | |inner]; try discriminate;
    try (constructor; [simpl; now rewrite Hk|constructor]).
  apply andb_true_iff in Hx as [_ Hx].
  apply List.Forall_forall. intros e He. apply in_map_iff in He as [e0 [<- He0]].
  specialize (IHx Hx). rewrite List.Forall_forall in IHx.
  simpl. now rewrite Hk, (IHx _ He0).
Qed.

Lemma entries_heads (ps : props) (e : list string * value) :
  In e (flat_entries (VObj ps)) ->
  exists k q, fst e = k :: q /\ In k (map fst ps).
Proof.
  cbn [flat_entries]. induction ps as [|[k x] rest IH]; [intros []|].
  intros H. apply in_app_or in H as [H|H].
  - exists k. destruct x; try (destruct H as [<-|[]]; exists []; split; [reflexivity|now left]);
      try destruct H.
    apply in_map_iff in H as [e0 [<- _]]. exists (fst e0). split; [reflexivity|now left].
  - destruct (IH H) as [k' [q [Hq Hin]]]. exists k', q. split; [exact Hq|now right].
Qed.

Lemma has_key_In_keys (k : string) (ps : props) :
  has_key k ps = false -> ~ In k (map fst ps).
Proof.
  unfold has_key. induction ps as [|[k0 v0] rest IH]; simpl; [tauto|].
  destruct (String.eqb_spec k k0) as [->|Hne]; [discriminate|].
  intros H [E|Hin]; [now symmetry in E|]. now apply IH.
Qed.

Lemma entries_nodup (v : value) :
  solid v = true -> List.NoDup (map fst (flat_entries v)).
Proof.
  induction v as [| | | | | | | |ps IH] using value_ind; try discriminate.
  intros Hs. apply solid_record in Hs as [Hu Hm].
  induction ps as [|[k x] rest IHl]; [constructor|].
  inversion IH as [|? ? IHx IHrest]; subst.
  inversion Hm as [|? ? [Hk Hx] Hmrest]; subst. simpl in IHx, Hk, Hx.
  simpl in Hu. apply andb_true_iff in Hu as [Hkr Hu]. apply negb_true_iff in Hkr.
  change (flat_entries (VObj ((k, x) :: rest)))
    with (match x with
          | VObj _ => map (fun e => (k :: fst e, snd e)) (flat_entries x)
          | VDate _ => []
          | _ => [([k], x)]
          end ++ flat_entries (VObj rest)).
  rewrite map_app. apply List.NoDup_app; [|now apply IHl|].
  - destruct x as [| | | | | | | |inner]; try discriminate;
      try (constructor; [intros []|constructor]).
    apply andb_true_iff in Hx as [_ Hx]. specialize (IHx Hx).
    rewrite map_map. cbn [fst].
    rewrite <- (map_map fst (cons k)).
    apply List.NoDup_map_NoDup_ForallPairs; [|exact IHx].
    intros a b _ _ [= ->]. reflexivity.
  - intros p Hp Hq. apply in_map_iff in Hq as [e [<- He]].
    destruct (entries_heads _ _ He) as [k' [q [Hq Hin]]].
    apply (has_key_In_keys _ _ Hkr).
    assert (Hhead : exists q', fst e = k :: q').
    { destruct x as [| | | | | | | |inner]; try discriminate;
        try (destruct Hp as [Hp|[]]; rewrite <- Hp; eauto).
      rewrite map_map in Hp. apply in_map_iff in Hp as [e2 [He2 _]].
      cbn [fst] in He2. rewrite <- He2. eauto. }
    destruct Hhead as [q' Hq']. rewrite Hq' in Hq. injection Hq as -> _. exact Hin.
Qed.

(** *** [flattenObject] on a solid record *)

Lemma not_In_has_key (k : string) (ps : props) :
  ~ In k (map fst ps) -> has_key k ps = false.
Proof.
  unfold has_key. induction ps as [|[k0 v0] rest IH]; simpl; [reflexivity|].
  intros H. destruct (String.eqb_spec k k0) as [->|Hne]; [exfalso; apply H; now left|].
  apply IH. intros Hin. apply H. now right.
Qed.

Lemma assign_fresh (sub : props) :
  Forall (fun kv => Str.array_index (fst kv) = None) sub ->
  forall acc,
    List.NoDup (map fst (acc ++ sub)) ->
    fold_left (fun acc '(k, v) => obj_set k v acc) sub acc = acc ++ sub.
Proof.
  induction 1 as [|[k v] sub Hk _ IH]; intros acc Hnd; [now rewrite app_nil_r|].
  cbn [fold_left]. simpl in Hk.
  assert (Hfresh : has_key k acc = false).
  { apply not_In_has_key. rewrite map_app in Hnd.
    apply List.NoDup_remove_2 in Hnd. intros Hin. apply Hnd.
    apply in_or_app. now left. }
  unfold obj_set at 2. rewrite Hfresh, Hk.
  rewrite IH; rewrite <- app_assoc; [reflexivity|exact Hnd].
Qed.

Lemma flat_record_cons (P : list string) (k : string) (es : list (list string * value)) :
  flat_record P (map (fun e => (k :: fst e, snd e)) es) = flat_record (P ++ [k]) es.
Proof.
  unfold flat_record. rewrite map_map. apply map_ext. intros e. cbn [fst snd].
  now rewrite <- app_assoc.
Qed.

Lemma flat_record_fresh (P : list string) (v : value) :
  forallb simple_key P = true -> solid v = true ->
  Forall (fun kv => Str.array_index (fst kv) = None) (flat_record P (flat_entries v))
  /\ List.NoDup (map fst (flat_record P (flat_entries v))).
Proof.
  intros HP Hs.
  pose proof (entries_simple v Hs) as Hsimple.
  pose proof (entries_paths v) as Hne.
  rewrite List.Forall_forall in Hsimple, Hne.
  assert (Hall : forall e, In e (flat_entries v) ->
                           forallb simple_key (P ++ fst e) = true /\ P ++ fst e <> []).
  { intros e He. split.
    - rewrite forallb_app, HP. now apply Hsimple.
    - intros E. apply app_eq_nil in E as [_ E]. now apply (Hne e He). }
  split.
  - apply List.Forall_forall. intros kv Hkv. apply in_map_iff in Hkv as [e [<- He]].
    cbn [fst]. destruct (Hall e He). now apply array_index_path.
  - unfold flat_record. rewrite map_map. cbn [fst].
    rewrite <- (map_map fst (fun p => dotted (P ++ p))).
    apply List.NoDup_map_NoDup_ForallPairs; [|now apply entries_nodup].
    intros p q Hp Hq E.
    apply in_map_iff in Hp as [e1 [<- He1]]. apply in_map_iff in Hq as [e2 [<- He2]].
    destruct (Hall e1 He1) as [H1 N1]. destruct (Hall e2 He2) as [H2 N2].
    apply (f_equal Str.split_dot) in E.
    rewrite !split_dot_path in E by (trivial; now apply simple_plain).
    now apply app_inv_head in E.
Qed.

Lemma flattenObject_solid (v : value) :
  forall P, forallb simple_key P = true -> solid v = true ->
  flattenObject v (dotted P) = VObj (flat_record P (flat_entries v)).
Proof.
  induction v as [| | | | | | | |ps IH] using value_ind; try discriminate.
  intros P HP Hs.
  destruct (flat_record_fresh P (VObj ps) HP Hs) as [Hidx Hnd].
  rewrite <- (app_nil_l (flat_record P (flat_entries (VObj ps)))).
  rewrite <- (assign_fresh _ Hidx [] Hnd).
  apply solid_record in Hs as [_ Hm]. clear Hidx Hnd.
  cbn [flattenObject]. f_equal. generalize (@nil (string * value)) as acc.
  induction ps as [|[k x] rest IHl]; intros acc; [reflexivity|].
  inversion IH as [|? ? IHx IHrest]; subst.
  inversion Hm as [|? ? [Hk Hx] Hmrest]; subst. cbn [fst snd] in IHx, Hk, Hx.
  change (flat_entries (VObj ((k, x) :: rest)))
    with (match x with
          | VObj _ => map (fun e => (k :: fst e, snd e)) (flat_entries x)
          | VDate _ => []
          | _ => [([k], x)]
          end ++ flat_entries (VObj rest)).
  unfold flat_record at 1. rewrite map_app, fold_left_app.
  fold (flat_record P (flat_entries (VObj rest))).
  rewrite <- (IHl IHrest Hmrest).
  assert (Hkey : child_path (dotted P) k = dotted (P ++ [k]))
    by (apply dotted_snoc; now apply simple_plain).
  destruct x as [| | | | | | | |inner]; try discriminate;
    try (cbn [map fold_left fst snd]; rewrite Hkey; reflexivity).
  apply andb_true_iff in Hx as [_ Hx].
  rewrite Hkey, (IHx (P ++ [k])); [|rewrite forallb_app, HP; simpl; now rewrite Hk|exact Hx].
  fold (flat_record P (map (fun e => (k :: fst e, snd e)) (flat_entries (VObj inner)))).
  rewrite flat_record_cons. reflexivity.
Qed.

Lemma setNestedValue_graft (target : value) (p : list string) (y : value) :
  forallb plain p = true -> p <> [] ->
  setNestedValue target (dotted p) y = graft target (p, y).
Proof.
  intros Hp Hne. unfold setNestedValue, graft. now rewrite split_dot_path.
Qed.

(** X19: [unflattenObject] undoes [flattenObject] on a solid record: one whose
    keys, at every level, are single segments that are no array index,
    each once, and whose members are non-empty records of the same kind or
    values that are not plain objects. *)
Theorem unflatten_flatten (ps : props) :
  solid (VObj ps) = true ->
  unflattenObject (flattenObject (VObj ps) "") = Ok (VObj ps).
Proof.
  intros Hs.
  change "" with (dotted []). rewrite (flattenObject_solid (VObj ps) [] eq_refl Hs).
  rewrite <- (graft_entries (VObj ps) ps eq_refl Hs).
  unfold unflattenObject. cbn [own_props].
  pose proof (entries_simple _ Hs) as Hsimple. pose proof (entries_paths (VObj ps)) as Hne.
  generalize (VObj []) as target.
  induction (flat_entries (VObj ps)) as [|[p y] es IHe]; intros target; [reflexivity|].
  inversion Hsimple as [|? ? Hp Hrest]; subst. inversion Hne as [|? ? Hn Hnrest]; subst.
  cbn [fst] in Hp, Hn. cbn [flat_record map foldM fst snd app].
  rewrite setNestedValue_graft by (trivial; now apply simple_plain).
  destruct (graft target (p, y)); cbn [bind]; try reflexivity.
  now apply IHe.
Qed.

(** X20: [flattenObject] leaves out a member that is an empty record or a
    [Date]: the flat record of the record without the member is the same,
    so [unflattenObject] cannot bring the member back. *)
Theorem flattenObject_drops_empty (l1 l2 : props) (k prefix : string) :
  flattenObject (VObj (l1 ++ (k, VObj []) :: l2)) prefix
  = flattenObject (VObj (l1 ++ l2)) prefix
  /\ forall t, flattenObject (VObj (l1 ++ (k, VDate t) :: l2)) prefix
               = flattenObject (VObj (l1 ++ l2)) prefix.
Proof.
  split; [set (e := VObj [])|intros t; set (e := VDate t)];
    cbn [flattenObject]; f_equal;
    generalize (@nil (string * value)) as acc;
    (induction l1 as [|[k1 x1] l1 IH]; intros acc; [reflexivity|]);
    exact (IH _).
Qed.

End FlattenFacts.

Section ConfigFacts.
Context {host : Host}.

Lemma obj_set_nonempty (k : string) (v : value) (acc : props) : obj_set k v acc <> [].
Proof.
  unfold obj_set. destruct (has_key k acc) eqn:Hk.
  - destruct acc as [|[k0 v0] rest]; [discriminate|]. simpl.
    destruct (String.eqb k k0); discriminate.
  - destruct (Str.array_index k).
    + destruct acc as [|[k0 v0] rest]; simpl; [discriminate|].
      destruct (Str.array_index k0); [destruct (_ <? _)%N|]; discriminate.
    + destruct acc; discriminate.
Qed.

Lemma deepClone_nonempty (ps : props) :
  ps <> [] -> exists qs, deepClone (VObj ps) = VObj qs /\ qs <> [].
Proof.
  intros Hne. cbn [deepClone]. eexists. split; [reflexivity|].
  destruct ps as [|[k x] rest]; [contradiction|]. clear Hne.
  generalize (obj_set_nonempty k (deepClone x) []).
  generalize (obj_set k (deepClone x) []) as acc.
  induction rest as [|[k1 x1] rest IH]; intros acc Hacc; [exact Hacc|].
  apply (IH (obj_set k1 (deepClone x1) acc)). apply obj_set_nonempty.
Qed.

(** X21: A handle built from what [getConfig] exports has no validator,
    whatever validator the exporting handle has: [getConfig] leaves the
    validator out, and the constructor takes [null] for it.  The mapping
    of the new handle is the clone of the exported one. *)
Theorem getConfig_drops_validator (this : Mapper) (ps : props) :
  apiToFormMapping this = VObj ps -> ps <> [] ->
  exists m,
    Mapper_new (Mapper_getConfig this) = Ok m
    /\ validator m = VNull
    /\ apiToFormMapping m = deepClone (apiToFormMapping this).
Proof.
  intros Hm Hne. destruct (deepClone_nonempty ps Hne) as [qs [Hq Hqne]].
  unfold Mapper_new, Mapper_getConfig. rewrite Hm, Hq.
  cbn [is_undefined is_null].
  unfold field_or. 
  change (get_own (VObj _) "apiToForm") with (VObj qs).
  change (get_own (VObj _) "validator") with VUndef.
  cbn [is_undefined truthy negb orb own_keys own_props].
  destruct qs as [|q qs']; [contradiction|]. cbn [map length Nat.eqb].
  eexists. split; [reflexivity|]. split; reflexivity.
Qed.
End ConfigFacts.

Section RemovalFacts.
Context {host : Host}.
Variable call_fn : nat -> list value -> result value.
Variable same_ref : value -> value -> bool.

Lemma lookup_removals (ds : props) (k : string) :
  Forall (fun kv => snd kv = VUndef) ds -> get_own (VObj ds) k = VUndef.
Proof.
  intros H. cbn [get_own]. induction H as [|[k0 v0] rest Hv _ IH]; [reflexivity|].
  cbn [lookup_prop]. simpl in Hv. destruct (String.eqb k k0); [exact Hv|exact IH].
Qed.

Lemma getNestedValue_removals (ds : props) (path : string) :
  Forall (fun kv => snd kv = VUndef) ds -> getNestedValue (VObj ds) path = VUndef.
Proof.
  intros H. unfold getNestedValue.
  pose proof (split_dot_nonempty path) as Hne.
  destruct (Str.split_dot path) as [|k rest]; [contradiction|].
  cbn [getNested_loop is_nullish]. rewrite (lookup_removals ds k H).
  now destruct rest.
Qed.

Lemma denormalize_removals (ds : props) (mapping transform : value) (omitNull : bool) :
  Forall (fun kv => snd kv = VUndef) ds ->
  denormalize call_fn (VObj ds) mapping
    {| omitUndefined := true; omitNull := omitNull; d_transform := transform |}
  = Ok (VObj []).
Proof.
  intros H. unfold denormalize, processFormData.
  generalize (own_props (invertMapping mapping)) as l.
  induction l as [|[formKey apiPath] l IH]; [reflexivity|].
  cbn [foldM]. unfold denormalize_entry at 1. cbn [omitUndefined].
  rewrite (getNestedValue_removals ds formKey H). cbn [is_undefined andb bind].
  exact IH.
Qed.

(** A removal inside a nested record: the value at the form key is the
    record that holds it, which is sent. *)
Lemma nested_removal_is_sent (opts : builder_options) :
  (forall a b, same_ref a b = true -> a = b) ->
  truthy (validation opts) = false -> b_transform opts = VObj [] ->
  diff same_ref (VObj [("a", VObj [("b", VStr "x")])]) (VObj [("a", VObj [])])
       default_options
  = Ok (VObj [("a", VObj [("b", VUndef)])])
  /\ buildPatchPayload call_fn same_ref (VObj [("a", VObj [("b", VStr "x")])])
       (VObj [("a", VObj [])]) (VObj [("api_a", VStr "a")]) opts
     = Ok (VObj [("api_a", VObj [("b", VUndef)])]).
Proof.
  intros Hsound Hv Htr.
  assert (Hne : forall a b, a <> b -> same_ref a b = false).
  { intros a b Hab. destruct (same_ref a b) eqn:E; [|reflexivity]. now apply Hsound in E. }
  assert (Hd : diff same_ref (VObj [("a", VObj [("b", VStr "x")])]) (VObj [("a", VObj [])])
                    default_options
               = Ok (VObj [("a", VObj [("b", VUndef)])])).
  { unfold diff. rewrite computeDiff_record;
      [|unfold enters; simpl; now rewrite Hne by discriminate|reflexivity].
    simpl. unfold diff_head. simpl. rewrite Hne by discriminate. reflexivity. }
  split; [exact Hd|].
  unfold buildPatchPayload, hasChanges.
  assert (He : isEqual (VObj [("a", VObj [("b", VStr "x")])]) (VObj [("a", VObj [])])
               = Ok false) by reflexivity.
  rewrite He. cbn [bind negb]. rewrite Hd. cbn [bind]. unfold validate. rewrite Hv.
  cbn [bind]. unfold denormalizeForPatch. cbn [d_transform]. rewrite Htr. reflexivity.
Qed.

(** X22: A PATCH carries no removal of a top-level key: when every member
    of the change tree [diff] returns is [undefined] (each change is the
    removal of a key of the form itself), [denormalizeForPatch] omits them
    all and [buildPatchPayload], with no validator, answers [null],
    whatever the mapping and the transforms.  A removal inside a nested
    record is not omitted: the test is on the value at the form key, and
    the record that holds the removal is sent. *)
Theorem patch_omits_top_level_removals (initial current mapping : value)
  (opts : builder_options) (e : bool) (ds : props) :
  truthy (validation opts) = false ->
  (isEqual initial current = Ok e ->
   diff same_ref initial current default_options = Ok (VObj ds) ->
   Forall (fun kv => snd kv = VUndef) ds ->
   buildPatchPayload call_fn same_ref initial current mapping opts = Ok VNull)
  /\ ((forall a b, same_ref a b = true -> a = b) ->
      b_transform opts = VObj [] ->
      buildPatchPayload call_fn same_ref (VObj [("a", VObj [("b", VStr "x")])])
        (VObj [("a", VObj [])]) (VObj [("api_a", VStr "a")]) opts
      = Ok (VObj [("api_a", VObj [("b", VUndef)])])).
Proof.
  intros Hv. split.
  - intros He Hd Hds. unfold buildPatchPayload, hasChanges. rewrite He. cbn [bind].
    destruct e; cbn [negb]; [reflexivity|].
    rewrite Hd. cbn [bind]. unfold validate. rewrite Hv. cbn [bind].
    unfold denormalizeForPatch. cbn [d_transform].
    now rewrite (denormalize_removals ds mapping _ false Hds).
  - intros Hsound Htr. exact (proj2 (nested_removal_is_sent opts Hsound Hv Htr)).
Qed.

End RemovalFacts.

(** ** The change tree [diff] returns *)

Section PlaceFacts.
Context {host : Host}.

Lemma apart_sym (a b : list atom) : apart a b -> apart b a.
Proof.
  induction 1; [apply apart_key|apply apart_slot|apply apart_cons]; auto.
Qed.

Lemma apart_app (c a b : list atom) : apart a b -> apart (c ++ a) (c ++ b).
Proof. intros H. induction c as [|x c IH]; [exact H|]. now apply apart_cons. Qed.

Lemma apart_nonempty (a b : list atom) : apart a b -> a <> [] /\ b <> [].
Proof. destruct 1; split; discriminate. Qed.

Lemma read_at_app (t : value) (a b : list atom) :
  read_at t (a ++ b)
  = match read_at t a with Some c => read_at c b | None => None end.
Proof.
  revert t. induction a as [|x a IH]; intros t; [reflexivity|].
  simpl. destruct (child t x); [apply IH|reflexivity].
Qed.

Lemma change_at_address (t : value) (path : string) :
  change_at t path = read_at t (address path).
Proof.
  unfold change_at, address. rewrite read_at_app.
  destruct (read_at t _) as [c|]; [|reflexivity].
  destruct c; try reflexivity. simpl. now destruct (lookup_prop _ _).
Qed.

(** *** One step *)

Lemma slot_opt_arr_set (l : list (option value)) (i j : nat) (x : value) :
  slot_opt (arr_set l i x) j = if Nat.eqb i j then Some x else slot_opt l j.
Proof.
  unfold slot_opt. revert l j.
  induction i as [|i IH]; intros [|e l] [|j]; simpl; trivial.
  - now destruct j.
  - rewrite IH. destruct (Nat.eqb i j); [reflexivity|]. now destruct j.
Qed.

Lemma slot_of_opt (l : list (option value)) (i : nat) :
  slot l i = match slot_opt l i with Some x => x | None => VUndef end.
Proof. unfold slot, slot_opt. now destruct (nth_error l i) as [[x|]|]. Qed.

Lemma get_step (t : value) (x : atom) :
  takes t x -> in_bound x ->
  get_prop t (atom_key x)
  = Ok (match child t x with Some c => c | None => VUndef end).
Proof.
  destruct x as [k|i], t; try contradiction; intros _ Hb; simpl.
  - reflexivity.
  - unfold get_prop. simpl. rewrite (array_index_of_N i Hb). now rewrite slot_of_opt.
Qed.

Lemma set_step (t : value) (x : atom) (c : value) :
  takes t x -> in_bound x ->
  exists t', set_prop t (atom_key x) c = Ok t'
    /\ takes t' x
    /\ child t' x = Some c
    /\ forall y, (match x, y with
                  | AKey k, AKey k' => k <> k'
                  | ASlot i, ASlot j => i <> j
                  | _, _ => False
                  end) -> takes t' y /\ child t' y = child t y.
Proof.
  destruct x as [k|i], t; try contradiction; intros _ Hb; simpl.
  - eexists. split; [reflexivity|]. split; [exact I|]. split.
    + now rewrite lookup_obj_set, String.eqb_refl.
    + intros [k'|j] Hy; [|contradiction]. split; [exact I|].
      simpl. rewrite lookup_obj_set.
      destruct (String.eqb_spec k' k) as [->|_]; [contradiction|reflexivity].
  - rewrite (array_index_of_N i Hb). eexists. split; [reflexivity|].
    split; [exact I|]. split.
    + simpl. now rewrite slot_opt_arr_set, Nat.eqb_refl.
    + intros [k'|j] Hy; [contradiction|]. split; [exact I|].
      simpl. rewrite slot_opt_arr_set.
      destruct (Nat.eqb_spec (N.to_nat i) (N.to_nat j)) as [E|_]; [|reflexivity].
      apply N2Nat.inj in E. contradiction.
Qed.

Lemma admits_kind (c : value) (a : list atom) :
  a <> [] -> admits c a -> truthy c = true.
Proof.
  destruct a as [|x a]; [contradiction|]. intros _ [Hf _].
  destruct x, c; try contradiction; reflexivity.
Qed.

Lemma fresh_fits (x : atom) (rest : list atom) : takes (fresh_for (x :: rest)) x.
Proof. now destruct x. Qed.

Lemma fresh_child (a : list atom) (x : atom) : child (fresh_for a) x = None.
Proof.
  unfold fresh_for. destruct a as [|[k|i] a], x as [k'|j]; try reflexivity.
  simpl. unfold slot_opt. now destruct (N.to_nat j).
Qed.

Lemma fresh_admits (a : list atom) : admits (fresh_for a) a.
Proof.
  destruct a as [|x a]; [exact I|]. split; [apply fresh_fits|].
  destruct a; [exact I|]. now rewrite fresh_child.
Qed.

Lemma fresh_falsy (a : list atom) (x : atom) :
  child (fresh_for a) x = None.
Proof. apply fresh_child. Qed.

Lemma fresh_admits_apart (a b : list atom) : apart a b -> admits (fresh_for a) b.
Proof.
  intros H. destruct H as [k k' a b _|i j a b _|x a b _].
  - split; [exact I|]. destruct b; [exact I|]. reflexivity.
  - split; [exact I|]. destruct b; [exact I|]. simpl. unfold slot_opt.
    now destruct (N.to_nat j).
  - split; [apply fresh_fits|]. destruct b; [exact I|]. now rewrite fresh_child.
Qed.

Lemma fresh_read (a b : list atom) : b <> [] -> read_at (fresh_for a) b = None.
Proof. destruct b as [|x b]; [contradiction|]. intros _. simpl. now rewrite fresh_child. Qed.

(** *** A write and what it leaves alone *)

Lemma put_write (a : list atom) :
  forall (t v : value),
    a <> [] -> admits t a -> bounded a ->
    exists t',
      put_at t a v = Ok t'
      /\ read_at t' a = Some v
      /\ forall b, apart a b ->
           read_at t' b = read_at t b /\ (admits t b -> admits t' b).
Proof.
  induction a as [|x rest IH]; intros t v Hne Hadm0 Hb; [contradiction|].
  destruct Hadm0 as [Hfit Hadm].
  inversion Hb as [|? ? Hbx Hbrest]; subst.
  destruct rest as [|y rest'].
  - (* the last step *)
    destruct (set_step t x v Hfit Hbx) as [t' [Hset [Hfit' [Hc Hothers]]]].
    exists t'. cbn [put_at]. split; [exact Hset|]. split.
    + cbn [read_at]. now rewrite Hc.
    + intros b Hap. inversion Hap as [k k' a0 b0 Hk|i j a0 b0 Hi|x0 a0 b0 Hrest]; subst.
      * destruct (Hothers (AKey k') Hk) as [Hf He]. cbn [read_at admits].
        rewrite He. split; [reflexivity|]. intros [_ H]. split; [exact Hf|exact H].
      * destruct (Hothers (ASlot j) Hi) as [Hf He]. cbn [read_at admits].
        rewrite He. split; [reflexivity|]. intros [_ H]. split; [exact Hf|exact H].
      * inversion Hrest.
  - (* a step on the way *)
    set (rest := y :: rest') in *.
    assert (Hrne : rest <> []) by discriminate.
    change (put_at t (x :: rest) v)
      with (let* c0 := get_prop t (atom_key x) in
            let* current1 :=
              if truthy c0 then Ok t else set_prop t (atom_key x) (fresh_for rest) in
            let* next := get_prop current1 (atom_key x) in
            let* next' := put_at next rest v in
            set_prop current1 (atom_key x) next').
    rewrite (get_step t x Hfit Hbx). cbn [bind].
    assert (Hstart : exists t1 c,
               (if truthy (match child t x with Some c => c | None => VUndef end)
                then Ok t else set_prop t (atom_key x) (fresh_for rest)) = Ok t1
               /\ takes t1 x /\ child t1 x = Some c /\ admits c rest
               /\ (forall b0, apart rest b0 ->
                     read_at c b0 = match child t x with
                                    | Some c0 => read_at c0 b0
                                    | None => None
                                    end
                     /\ (match child t x with
                         | Some c0 => admits c0 b0
                         | None => True
                         end -> admits c b0))
               /\ forall y0, (match x, y0 with
                              | AKey k, AKey k' => k <> k'
                              | ASlot i, ASlot j => i <> j
                              | _, _ => False
                              end) -> takes t1 y0 /\ child t1 y0 = child t y0).
    { destruct (child t x) as [c|] eqn:Hc.
      - rewrite (admits_kind c rest Hrne Hadm). exists t, c.
        split; [reflexivity|]. split; [exact Hfit|]. split; [exact Hc|].
        split; [exact Hadm|]. split; [intros b0 _; split; [reflexivity|tauto]|].
        intros y0 Hy. split; [|reflexivity].
        destruct x, y0, t; try contradiction; exact I.
      - cbn [truthy].
        destruct (set_step t x (fresh_for rest) Hfit Hbx) as [t1 [Hset [Hf1 [Hc1 Ho1]]]].
        exists t1, (fresh_for rest). split; [exact Hset|]. split; [exact Hf1|].
        split; [exact Hc1|]. split; [apply fresh_admits|]. split; [|exact Ho1].
        intros b0 Hap. split.
        + apply fresh_read. now destruct (apart_nonempty _ _ Hap).
        + intros _. now apply fresh_admits_apart. }
    destruct Hstart as [t1 [c [Hs [Hf1 [Hc1 [Hadm1 [Hframe1 Hothers1]]]]]]].
    rewrite Hs. cbn [bind]. rewrite (get_step t1 x Hf1 Hbx), Hc1. cbn [bind].
    destruct (IH c v Hrne Hadm1 Hbrest) as [c' [Hput [Hread Hframe]]].
    rewrite Hput. cbn [bind].
    destruct (set_step t1 x c' Hf1 Hbx) as [t' [Hset [Hfit' [Hc' Hothers]]]].
    exists t'. split; [exact Hset|]. split.
    + cbn [read_at]. now rewrite Hc'.
    + intros b Hap.
      inversion Hap as [k k' a0 b0 Hk|i j a0 b0 Hi|x0 a0 b0 Hrest]; subst.
      * destruct (Hothers (AKey k') Hk) as [Hf He].
        destruct (Hothers1 (AKey k') Hk) as [_ He1].
        cbn [read_at admits]. rewrite He, He1. split; [reflexivity|].
        intros [_ H]. split; [exact Hf|exact H].
      * destruct (Hothers (ASlot j) Hi) as [Hf He].
        destruct (Hothers1 (ASlot j) Hi) as [_ He1].
        cbn [read_at admits]. rewrite He, He1. split; [reflexivity|].
        intros [_ H]. split; [exact Hf|exact H].
      * destruct (Hframe b0 Hrest) as [Hr Ha].
        destruct (Hframe1 b0 Hrest) as [Hr1 Ha1].
        cbn [read_at admits]. rewrite Hc'. split.
        -- rewrite Hr, Hr1. reflexivity.
        -- intros [_ H]. split; [exact Hfit'|].
           destruct (apart_nonempty _ _ Hrest) as [_ Hb0].
           destruct b0 as [|z b0]; [contradiction|].
           apply Ha, Ha1. exact H.
Qed.

(** *** The loop of [setChangePath] is [put_at] *)

Lemma bind_assoc {A B C : Type} (m : result A) (f : A -> result B) (g : B -> result C) :
  bind (bind m f) g = bind m (fun x => bind (f x) g).
Proof. now destruct m. Qed.

Lemma walk_head (keys : list string) (lastKey : string) :
  exists k R, flat_map steps keys ++ [AKey lastKey] = AKey k :: R.
Proof.
  destruct keys as [|key rest]; [now exists lastKey, []|].
  cbn [flat_map]. unfold steps at 1.
  destruct (Str.arrayMatch key) as [[ak idx]|]; cbn [app]; eauto.
Qed.

Lemma put_at_step (t : value) (x y : atom) (R : list atom) (v : value) :
  put_at t (x :: y :: R) v
  = let* c0 := get_prop t (atom_key x) in
    let* current1 :=
      if truthy c0 then Ok t else set_prop t (atom_key x) (fresh_for (y :: R)) in
    let* next := get_prop current1 (atom_key x) in
    let* next' := put_at next (y :: R) v in
    set_prop current1 (atom_key x) next'.
Proof. reflexivity. Qed.

Lemma setChange_loop_put (keys : list string) :
  forall (t : value) (lastKey : string) (v : value),
    bounded (flat_map steps keys) ->
    setChange_loop t keys lastKey v = put_at t (flat_map steps keys ++ [AKey lastKey]) v.
Proof.
  induction keys as [|key rest IH]; intros t lastKey v Hb; [reflexivity|].
  cbn [flat_map] in Hb |- *. unfold bounded in Hb. apply Forall_app in Hb as [Hkey Hrest].
  destruct (walk_head rest lastKey) as [k [R HR]].
  cbn [setChange_loop].
  destruct (Str.arrayMatch key) as [[ak idx]|] eqn:E.
  - assert (Hs : steps key = [AKey ak; ASlot idx]) by (unfold steps; now rewrite E).
    rewrite Hs in Hkey |- *.
    inversion Hkey as [|? ? _ Hidx]; subst. inversion Hidx as [|? ? Hlt _]; subst.
    apply N.leb_gt in Hlt. rewrite Hlt.
    cbn [app]. rewrite HR, put_at_step.
    cbn [atom_key fresh_for].
    destruct (get_prop t ak) as [a0| |]; cbn [bind]; try reflexivity.
    destruct (if truthy a0 then Ok t else set_prop t ak (VArr [])) as [t1| |];
      cbn [bind]; try reflexivity.
    destruct (get_prop t1 ak) as [arr| |]; cbn [bind]; try reflexivity.
    rewrite put_at_step. cbn [atom_key fresh_for].
    destruct (get_prop arr (Str.of_N idx)) as [e0| |]; cbn [bind]; try reflexivity.
    destruct (if truthy e0 then Ok arr else set_prop arr (Str.of_N idx) (VObj []))
      as [arr1| |]; cbn [bind]; try reflexivity.
    destruct (get_prop arr1 (Str.of_N idx)) as [next| |]; cbn [bind]; try reflexivity.
    rewrite <- HR, <- (IH next lastKey v Hrest). now rewrite bind_assoc.
  - assert (Hs : steps key = [AKey key]) by (unfold steps; now rewrite E).
    rewrite Hs.
    cbn [app]. rewrite HR, put_at_step. cbn [atom_key fresh_for].
    destruct (get_prop t key) as [c0| |]; cbn [bind]; try reflexivity.
    destruct (if truthy c0 then Ok t else set_prop t key (VObj [])) as [t1| |];
      cbn [bind]; try reflexivity.
    destruct (get_prop t1 key) as [next| |]; cbn [bind]; try reflexivity.
    rewrite <- HR, <- (IH next lastKey v Hrest). reflexivity.
Qed.

(** A write at a path is read back at the path and leaves alone what the
    tree holds at the places apart from it. *)
Lemma setChangePath_write (t : value) (path : string) (v : value) :
  path <> "" -> admits t (address path) -> bounded (address path) ->
  exists t',
    setChangePath t path v = Ok t'
    /\ read_at t' (address path) = Some v
    /\ forall b, apart (address path) b ->
         read_at t' b = read_at t b /\ (admits t b -> admits t' b).
Proof.
  intros Hp Ha Hb. unfold setChangePath.
  destruct (String.eqb_spec path "") as [->|_]; [contradiction|].
  rewrite setChange_loop_put.
  - apply put_write; trivial. unfold address. now destruct (flat_map _ _).
  - unfold address, bounded in Hb. now apply Forall_app in Hb as [Hb _].
Qed.

(** *** Writes at places apart from each other *)

Lemma replay_apart (ws : list (string * value)) :
  Forall (fun w => fst w <> "" /\ bounded (address (fst w))) ws ->
  ForallOrdPairs (fun w w' => apart (address (fst w)) (address (fst w'))) ws ->
  forall t,
    Forall (fun w => admits t (address (fst w))) ws ->
    exists r,
      replay setChangePath ws t = Ok r
      /\ Forall (fun w => read_at r (address (fst w)) = Some (snd w)) ws
      /\ forall b, Forall (fun w => apart (address (fst w)) b) ws ->
           read_at r b = read_at t b.
Proof.
  induction ws as [|[p v] ws IH]; intros Hwf Hap t Hadm.
  - exists t. split; [reflexivity|]. split; [constructor|]. reflexivity.
  - inversion Hwf as [|? ? [Hp Hb] Hwf']; subst.
    inversion Hap as [|? ? Hhead Hap']; subst.
    inversion Hadm as [|? ? Ha Hadm']; subst. cbn [fst snd] in *.
    destruct (setChangePath_write t p v Hp Ha Hb) as [t1 [Hw [Hr Hframe]]].
    assert (Hadm1 : Forall (fun w => admits t1 (address (fst w))) ws).
    { rewrite List.Forall_forall in Hadm', Hhead |- *. intros w Hin.
      now apply (Hframe _ (Hhead w Hin)), Hadm'. }
    destruct (IH Hwf' Hap' t1 Hadm1) as [r [Hrun [Hall Hrest]]].
    exists r. split; [|split].
    + unfold replay in Hrun |- *. cbn [foldM]. rewrite Hw. exact Hrun.
    + constructor; [|exact Hall]. cbn [fst snd].
      rewrite Hrest; [exact Hr|].
      rewrite List.Forall_forall in Hhead |- *. intros w Hin.
      now apply apart_sym, Hhead.
    + intros b Hb0. inversion Hb0 as [|? ? Hb1 Hb2]; subst.
      rewrite (Hrest b Hb2). now apply Hframe.
Qed.

End PlaceFacts.

Section PathFacts.
Context {host : Host}.

(** *** Splitting a path *)

Lemma split_dot_app_dot (a b : string) :
  Str.split_dot (a ++ "." ++ b)%string = Str.split_dot a ++ Str.split_dot b.
Proof.
  change ("." ++ b)%string with (String "." b).
  induction a as [|c a IH]; [reflexivity|].
  cbn [append Str.split_dot]. rewrite IH. destruct (Ascii.eqb c "."); [reflexivity|].
  pose proof (split_dot_nonempty a) as Hne.
  now destruct (Str.split_dot a).
Qed.

Lemma split_dot_app_plain (p s : string) :
  Str.includes_dot s = false ->
  Str.split_dot (p ++ s)%string
  = removelast (Str.split_dot p) ++ [(List.last (Str.split_dot p) "" ++ s)%string].
Proof.
  intros Hs. induction p as [|c p IH]; [now apply split_dot_plain|].
  pose proof (split_dot_nonempty p) as Hne.
  cbn [append Str.split_dot]. rewrite IH. destruct (Ascii.eqb c ".").
  - destruct (Str.split_dot p) as [|x xs]; [contradiction|]. reflexivity.
  - destruct (Str.split_dot p) as [|x [|y xs]]; [contradiction|reflexivity|reflexivity].
Qed.

Lemma item_path_app (p : string) (i : nat) :
  item_path p i = (p ++ "[" ++ Str.of_nat i ++ "]")%string.
Proof. unfold item_path. now destruct (String.eqb_spec p "") as [->|_]. Qed.

Lemma includes_dot_item (i : nat) :
  Str.includes_dot ("[" ++ Str.of_nat i ++ "]") = false.
Proof.
  unfold Str.of_nat. rewrite !includes_dot_app, includes_dot_of_N. reflexivity.
Qed.

(** *** The moves of a path *)

Lemma path_key_facts (k : string) :
  path_key k = true ->
  Str.includes_dot k = false /\ k <> "" /\ one_line k = true
  /\ existsb (Ascii.eqb "[") (Str.chars k) = false.
Proof.
  unfold path_key, segment, plain. intros H.
  apply andb_true_iff in H as [H Hb]. apply andb_true_iff in H as [H Hl].
  apply andb_true_iff in H as [Hd Hn].
  apply negb_true_iff in Hd, Hn, Hb. repeat split; trivial.
  now apply String.eqb_neq.
Qed.

Lemma cur_nonempty (ms : list move) :
  tidy_moves ms -> ms <> [] -> cur ms <> "".
Proof.
  destruct ms as [|[k|i] r]; [contradiction| |]; intros Ht _; simpl.
  - apply andb_true_iff in Ht as [Hk _]. now destruct (path_key_facts k Hk) as [_ [Hn _]].
  - now destruct (cur r).
Qed.

Lemma path_of_nonempty (ms : list move) :
  tidy_moves ms -> ms <> [] -> path_of ms <> "".
Proof.
  destruct ms as [|[k|i] r]; [contradiction| |]; intros Ht _; simpl.
  - apply andb_true_iff in Ht as [Hk _].
    destruct (path_key_facts k Hk) as [_ [Hn _]].
    unfold child_path. destruct (String.eqb_spec (path_of r) ""); [exact Hn|].
    now destruct (path_of r).
  - rewrite item_path_app. now destruct (path_of r).
Qed.

Lemma split_path (ms : list move) :
  tidy_moves ms -> Str.split_dot (path_of ms) = front ms ++ [cur ms].
Proof.
  induction ms as [|[k|i] r IH]; intros Ht; [reflexivity| |];
    pose proof Ht as Ht0; apply andb_true_iff in Ht0 as [Hm Hr].
  - destruct (path_key_facts k Hm) as [Hd _].
    destruct r as [|m r'].
    + simpl. now apply split_dot_plain.
    + set (r := m :: r') in *. cbn [path_of cur front]. unfold child_path.
      pose proof (path_of_nonempty r Hr) as Hne.
      destruct (String.eqb_spec (path_of r) "") as [E|_];
        [destruct Hne; [discriminate|exact E]|].
      rewrite split_dot_app_dot, (IH Hr), (split_dot_plain k Hd). reflexivity.
  - cbn [path_of cur front]. rewrite item_path_app.
    rewrite split_dot_app_plain by apply includes_dot_item.
    rewrite (IH Hr), removelast_last, last_last. reflexivity.
Qed.

Lemma address_path (ms : list move) :
  tidy_moves ms -> address (path_of ms) = home ms ++ [AKey (cur ms)].
Proof.
  intros Ht. unfold address, home.
  now rewrite (split_path ms Ht), removelast_last, last_last.
Qed.

(** *** Segments with indices *)

Lemma chars_inj (a b : string) : Str.chars a = Str.chars b -> a = b.
Proof.
  unfold Str.chars. intros H.
  rewrite <- (string_of_list_ascii_of_string a), <- (string_of_list_ascii_of_string b).
  now rewrite H.
Qed.

Lemma append_nil_r (a : string) : (a ++ "")%string = a.
Proof. induction a as [|c a IH]; simpl; [reflexivity|]. now rewrite IH. Qed.

Lemma brackets_snoc (js : list nat) (i : nat) :
  brackets (js ++ [i]) = (brackets js ++ "[" ++ Str.of_nat i ++ "]")%string.
Proof.
  induction js as [|j js IH].
  - reflexivity.
  - cbn [app brackets]. rewrite IH, !append_assoc. reflexivity.
Qed.

Lemma drop_while_In (p : ascii -> bool) (l r : list ascii) (c : ascii) :
  Str.drop_while p l = c :: r -> In c l.
Proof.
  induction l as [|a l IH]; simpl; [discriminate|].
  destruct (p a); [intros H; right; now apply IH|intros [= -> _]; now left].
Qed.

Lemma arrayMatch_no_bracket (k : string) :
  existsb (Ascii.eqb "[") (Str.chars k) = false -> Str.arrayMatch k = None.
Proof.
  intros Hk. unfold Str.arrayMatch.
  destruct (rev (Str.chars k)) as [|c r] eqn:E; [reflexivity|].
  destruct (Ascii.eqb_spec c "]") as [->|Hc].
  - destruct (Str.take_while Str.is_digit r); [reflexivity|].
    destruct (Str.drop_while Str.is_digit r) as [|d pre] eqn:D; [reflexivity|].
    destruct (Ascii.eqb_spec d "[") as [->|Hd].
    + exfalso. apply drop_while_In in D.
      assert (Hin : In "["%char (Str.chars k)).
      { apply in_rev. rewrite E. now right. }
      assert (existsb (Ascii.eqb "[") (Str.chars k) = true).
      { apply existsb_exists. exists "["%char. split; [exact Hin|reflexivity]. }
      congruence.
    + destruct d as [[] [] [] [] [] [] [] []]; try reflexivity. now destruct Hd.
  - destruct c as [[] [] [] [] [] [] [] []]; try reflexivity. now destruct Hc.
Qed.

Lemma digit_one_line (c : ascii) :
  Str.is_digit c = true -> negb (Str.is_line_terminator c) = true.
Proof.
  unfold Str.is_digit, Str.is_line_terminator. intros H.
  apply andb_true_iff in H as [H1 _]. apply Nat.leb_le in H1.
  apply negb_true_iff, orb_false_iff. split; apply Nat.eqb_neq; lia.
Qed.

Lemma one_line_app (a b : string) :
  one_line (a ++ b) = one_line a && one_line b.
Proof. unfold one_line. now rewrite chars_app, forallb_app. Qed.

Lemma one_line_of_nat (i : nat) : one_line (Str.of_nat i) = true.
Proof.
  unfold one_line, Str.of_nat.
  destruct (of_N_chars (N.of_nat i)) as [c [l [Hc [Hd _]]]]. rewrite Hc.
  revert Hd. generalize (c :: l) as ds. induction ds as [|d ds IH]; [reflexivity|].
  simpl. intros H. apply andb_true_iff in H as [Hd Hds].
  now rewrite (digit_one_line d Hd), IH.
Qed.

Lemma one_line_item (i : nat) : one_line ("[" ++ Str.of_nat i ++ "]") = true.
Proof. now rewrite !one_line_app, one_line_of_nat. Qed.

Lemma one_line_brackets (js : list nat) : one_line (brackets js) = true.
Proof.
  induction js as [|j js IH]; [reflexivity|].
  cbn [brackets]. now rewrite !one_line_app, one_line_of_nat, IH.
Qed.

Lemma one_line_cur (ms : list move) : tidy_moves ms -> one_line (cur ms) = true.
Proof.
  induction ms as [|[k|i] r IH]; intros Ht; [reflexivity| |];
    apply andb_true_iff in Ht as [Hm Hr].
  - now destruct (path_key_facts k Hm) as [_ [_ [Hl _]]].
  - cbn [cur]. now rewrite one_line_app, (IH Hr), one_line_item.
Qed.

Lemma cur_empty (ms : list move) : tidy_moves ms -> cur ms = "" -> ms = [].
Proof.
  intros Ht E. destruct ms as [|m r]; [reflexivity|].
  now destruct (cur_nonempty (m :: r) Ht).
Qed.

(** The steps of a segment that ends in an index. *)
Lemma steps_item (c : string) (i : nat) :
  one_line c = true ->
  steps (c ++ "[" ++ Str.of_nat i ++ "]")
  = if String.eqb c "" then [AKey ("[" ++ Str.of_nat i ++ "]")%string]
    else [AKey c; ASlot (N.of_nat i)].
Proof.
  intros Hl. rewrite <- item_path_app. unfold steps.
  destruct (String.eqb_spec c "") as [->|Hc].
  - now rewrite arrayMatch_root.
  - now rewrite (arrayMatch_keyed c i Hc Hl).
Qed.

Lemma steps_key (k : string) : path_key k = true -> steps k = [AKey k].
Proof.
  intros Hk. destruct (path_key_facts k Hk) as [_ [_ [_ Hb]]].
  unfold steps. now rewrite (arrayMatch_no_bracket k Hb).
Qed.

(** *** Telling segments apart *)

Lemma take_while_all (p : ascii -> bool) (l : list ascii) :
  forallb p l = true -> Str.take_while p l = l.
Proof.
  induction l as [|a l IH]; [reflexivity|]. simpl. intros H.
  apply andb_true_iff in H as [Ha Hl]. now rewrite Ha, IH.
Qed.

Lemma path_key_chars (k : string) :
  path_key k = true -> forallb not_bracket (Str.chars k) = true.
Proof.
  intros Hk. destruct (path_key_facts k Hk) as [_ [_ [_ Hb]]].
  apply forallb_forall. intros c Hc. unfold not_bracket. apply negb_true_iff.
  destruct (Ascii.eqb "[" c) eqn:E; [|reflexivity].
  assert (existsb (Ascii.eqb "[") (Str.chars k) = true)
    by (apply existsb_exists; eauto).
  congruence.
Qed.

Lemma take_key (k : string) (js : list nat) :
  path_key k = true ->
  Str.take_while not_bracket (Str.chars (k ++ brackets js)) = Str.chars k.
Proof.
  intros Hk. rewrite chars_app. pose proof (path_key_chars k Hk) as Hc.
  destruct js as [|j js].
  - change (Str.chars (brackets [])) with (@nil ascii). rewrite app_nil_r.
    now apply take_while_all.
  - cbn [brackets]. rewrite chars_app. change (Str.chars "[") with ["["%char].
    cbn [app]. now apply take_while_app.
Qed.

(** Two keys followed by indices are two texts. *)
Lemma keys_differ (k k' : string) (js js' : list nat) :
  path_key k = true -> path_key k' = true -> k <> k' ->
  (k ++ brackets js)%string <> (k' ++ brackets js')%string.
Proof.
  intros Hk Hk' Hne E. apply Hne, chars_inj.
  rewrite <- (take_key k js Hk), <- (take_key k' js' Hk'). now rewrite E.
Qed.

Lemma of_nat_inj (i j : nat) : Str.chars (Str.of_nat i) = Str.chars (Str.of_nat j) -> i = j.
Proof.
  unfold Str.of_nat. intros E.
  destruct (of_N_chars (N.of_nat i)) as [c [l [Hc [_ Hv]]]].
  destruct (of_N_chars (N.of_nat j)) as [c' [l' [Hc' [_ Hv']]]].
  rewrite Hc in E. rewrite Hc' in E. rewrite <- E in Hv'. 
  apply Nat2N.inj. congruence.
Qed.

(** Two indices after one beginning are two texts. *)
Lemma items_differ (c : string) (i j : nat) (js js' : list nat) :
  i <> j -> (c ++ brackets (i :: js))%string <> (c ++ brackets (j :: js'))%string.
Proof.
  intros Hne E. apply Hne. apply (f_equal Str.chars) in E.
  rewrite !chars_app in E. apply app_inv_head in E.
  cbn [brackets] in E. rewrite !chars_app in E.
  change (Str.chars "[") with ["["%char] in E. change (Str.chars "]") with ["]"%char] in E.
  cbn [app] in E. injection E as E.
  assert (Hd : forall n, forallb Str.is_digit (Str.chars (Str.of_nat n)) = true).
  { intros n. unfold Str.of_nat.
    destruct (of_N_chars (N.of_nat n)) as [d [l [Hc [Hd _]]]]. now rewrite Hc. }
  apply of_nat_inj.
  destruct (take_while_app Str.is_digit (Str.chars (Str.of_nat i))
              (Str.chars (brackets js)) "]"%char (Hd i) eq_refl) as [<- _].
  destruct (take_while_app Str.is_digit (Str.chars (Str.of_nat j))
              (Str.chars (brackets js')) "]"%char (Hd j) eq_refl) as [<- _].
  now rewrite E.
Qed.

Lemma item_differs (c : string) (i : nat) (js : list nat) :
  (c ++ brackets (i :: js))%string <> c.
Proof.
  intros E. apply (f_equal Str.chars) in E. rewrite chars_app in E.
  rewrite <- (app_nil_r (Str.chars c)) in E at 2. apply app_inv_head in E.
  discriminate E.
Qed.

(** *** Where the paths below a path lead *)

Lemma tidy_moves_app (X ms : list move) :
  tidy_moves (X ++ ms) <-> tidy_moves X /\ tidy_moves ms.
Proof. unfold tidy_moves. rewrite forallb_app. apply andb_true_iff. Qed.

Lemma below_shape (ms0 X : list move) :
  ms0 <> [] ->
  (front (X ++ ms0) = front ms0
   /\ exists J, cur (X ++ ms0) = (cur ms0 ++ brackets J)%string)
  \/ (exists J tail,
        front (X ++ ms0) = front ms0 ++ (cur ms0 ++ brackets J)%string :: tail).
Proof.
  intros Hne. induction X as [|[k|i] X IH].
  - left. split; [reflexivity|]. exists []. simpl. now rewrite append_nil_r.
  - right. cbn [app front].
    destruct (X ++ ms0) as [|m rest] eqn:E; [now destruct X|]. rewrite <- E in *.
    destruct IH as [[Hf [J Hc]]|[J [tail Hf]]].
    + exists J, []. now rewrite Hf, Hc.
    + exists J, (tail ++ [cur (X ++ ms0)]). rewrite Hf, <- app_assoc. reflexivity.
  - cbn [app front cur]. destruct IH as [[Hf [J Hc]]|[J [tail Hf]]].
    + left. split; [exact Hf|]. exists (J ++ [i]).
      now rewrite Hc, brackets_snoc, append_assoc.
    + right. now exists J, tail.
Qed.

Lemma address_below (ms0 X : list move) :
  ms0 <> [] -> tidy_moves (X ++ ms0) ->
  exists J,
    address (path_of (X ++ ms0)) = home ms0 ++ [AKey (cur ms0 ++ brackets J)%string]
    \/ exists rest,
         address (path_of (X ++ ms0))
         = home ms0 ++ steps (cur ms0 ++ brackets J)%string ++ rest.
Proof.
  intros Hne Ht. rewrite (address_path _ Ht). unfold home.
  destruct (below_shape ms0 X Hne) as [[Hf [J Hc]]|[J [tail Hf]]].
  - exists J. left. now rewrite Hf, Hc.
  - exists J. right. exists (flat_map steps tail ++ [AKey (cur (X ++ ms0))]).
    rewrite Hf, flat_map_app. cbn [flat_map]. now rewrite <- !app_assoc.
Qed.

Lemma steps_brackets (c0 : string) (J : list nat) :
  one_line c0 = true -> c0 <> "" -> J <> [] ->
  exists J' j,
    steps (c0 ++ brackets J)%string = [AKey (c0 ++ brackets J')%string; ASlot (N.of_nat j)].
Proof.
  intros Hl Hc HJ. destruct (exists_last HJ) as [J' [j ->]]. exists J', j.
  rewrite brackets_snoc, <- append_assoc, steps_item.
  - destruct (String.eqb_spec (c0 ++ brackets J') "") as [E|_]; [|reflexivity].
    now destruct c0.
  - now rewrite one_line_app, Hl, one_line_brackets.
Qed.

(** Below the path of a key, every place goes on, from the record of the
    key's parent, with a key that starts with that key. *)
Lemma head_key (k : string) (r X : list move) :
  tidy_moves (X ++ MKey k :: r) ->
  exists J rest,
    address (path_of (X ++ MKey k :: r))
    = home (MKey k :: r) ++ AKey (k ++ brackets J)%string :: rest.
Proof.
  intros Ht.
  assert (Hk : path_key k = true).
  { apply tidy_moves_app in Ht as [_ Ht]. now apply andb_true_iff in Ht as [Hk _]. }
  destruct (path_key_facts k Hk) as [_ [Hn [Hl _]]].
  destruct (address_below (MKey k :: r) X ltac:(discriminate) Ht) as [J [E|[rest E]]];
    rewrite E; cbn [cur].
  - now exists J, [].
  - destruct J as [|j0 J0].
    + exists [], rest. cbn [brackets]. rewrite append_nil_r, (steps_key k Hk). reflexivity.
    + destruct (steps_brackets k (j0 :: J0) Hl Hn ltac:(discriminate)) as [J' [j Hs]].
      rewrite Hs. now exists J', (ASlot (N.of_nat j) :: rest).
Qed.

(** Below the path of an element, every place goes on, from the record
    that holds the sequence, with a key that starts with the text of the
    element, or with the slot of the element in the sequence. *)
Lemma head_item (i : nat) (r X : list move) :
  tidy_moves (X ++ MItem i :: r) ->
  (exists J rest,
     address (path_of (X ++ MItem i :: r))
     = home r ++ AKey (cur r ++ brackets (i :: J))%string :: rest)
  \/ (exists rest,
        address (path_of (X ++ MItem i :: r))
        = home r ++ AKey (cur r) :: ASlot (N.of_nat i) :: rest).
Proof.
  intros Ht.
  assert (Hr : tidy_moves r).
  { apply tidy_moves_app in Ht as [_ Ht]. now apply andb_true_iff in Ht as [_ Hr]. }
  pose proof (one_line_cur r Hr) as Hl.
  assert (Hfold : forall J, ((cur r ++ "[" ++ Str.of_nat i ++ "]") ++ brackets J)%string
                            = (cur r ++ brackets (i :: J))%string).
  { intros J. cbn [brackets]. now rewrite !append_assoc. }
  destruct (address_below (MItem i :: r) X ltac:(discriminate) Ht) as [J [E|[rest E]]];
    rewrite E; cbn [cur]; change (home (MItem i :: r)) with (home r).
  - left. exists J, []. now rewrite Hfold.
  - destruct J as [|j0 J0].
    + cbn [brackets]. rewrite append_nil_r, (steps_item (cur r) i Hl).
      destruct (String.eqb_spec (cur r) "") as [Ec|_].
      * left. exists [], rest. rewrite Ec. reflexivity.
      * right. now exists rest.
    + assert (Hl' : one_line (cur r ++ "[" ++ Str.of_nat i ++ "]") = true)
        by now rewrite one_line_app, Hl, one_line_item.
      assert (Hn' : (cur r ++ "[" ++ Str.of_nat i ++ "]")%string <> "")
        by now destruct (cur r).
      destruct (steps_brackets _ (j0 :: J0) Hl' Hn' ltac:(discriminate)) as [J' [j Hs]].
      rewrite Hs, Hfold. left. now exists J', (ASlot (N.of_nat j) :: rest).
Qed.

(** The places below two keys of a record are apart. *)
Lemma apart_keys (k k' : string) (r X X' : list move) :
  k <> k' ->
  tidy_moves (X ++ MKey k :: r) -> tidy_moves (X' ++ MKey k' :: r) ->
  apart (address (path_of (X ++ MKey k :: r))) (address (path_of (X' ++ MKey k' :: r))).
Proof.
  intros Hne Ht Ht'.
  destruct (head_key k r X Ht) as [J [rest ->]].
  destruct (head_key k' r X' Ht') as [J' [rest' ->]].
  change (home (MKey k' :: r)) with (home (MKey k :: r)).
  apply apart_app, apart_key, keys_differ; trivial.
  - apply tidy_moves_app in Ht as [_ Ht]. now apply andb_true_iff in Ht as [Hk _].
  - apply tidy_moves_app in Ht' as [_ Ht']. now apply andb_true_iff in Ht' as [Hk _].
Qed.

(** The places below two elements of a sequence are apart. *)
Lemma apart_items (i j : nat) (r X X' : list move) :
  i <> j ->
  tidy_moves (X ++ MItem i :: r) -> tidy_moves (X' ++ MItem j :: r) ->
  apart (address (path_of (X ++ MItem i :: r))) (address (path_of (X' ++ MItem j :: r))).
Proof.
  intros Hne Ht Ht'.
  destruct (head_item i r X Ht) as [[J [rest ->]]|[rest ->]];
    destruct (head_item j r X' Ht') as [[J' [rest' ->]]|[rest' ->]];
    apply apart_app.
  - now apply apart_key, items_differ.
  - apply apart_key, item_differs.
  - apply apart_key. intros E. symmetry in E. now apply item_differs in E.
  - apply apart_cons, apart_slot. intros E. now apply Nat2N.inj in E.
Qed.

End PathFacts.

Section Scatter.
Context {host : Host}.
Variable same_ref : value -> value -> bool.

(** *** Tidy trees *)

Lemma tidy_record (ps : props) :
  tidy (VObj ps) = true ->
  unique_keys ps = true
  /\ Forall (fun kv => path_key (fst kv) = true /\ tidy (snd kv) = true) ps.
Proof.
  cbn [tidy]. intros H. apply andb_true_iff in H as [Hu H]. split; [exact Hu|].
  clear Hu. induction ps as [|[k x] rest IH]; [constructor|].
  apply andb_true_iff in H as [H Hrest]. apply andb_true_iff in H as [Hk Hx].
  constructor; [now split|now apply IH].
Qed.

Lemma tidy_sequence (elems : list (option value)) :
  tidy (VArr elems) = true ->
  (N.of_nat (length elems) <= Str.max_index)%N
  /\ Forall (fun e => match e with Some x => tidy x = true | None => True end) elems.
Proof.
  cbn [tidy]. intros H. apply andb_true_iff in H as [Hl H].
  split; [now apply N.leb_le|].
  clear Hl. induction elems as [|[x|] rest IH]; [constructor| |].
  - apply andb_true_iff in H as [Hx Hrest]. constructor; [exact Hx|now apply IH].
  - constructor; [exact I|now apply IH].
Qed.

Lemma tidy_lookup (ps : props) (k : string) (x : value) :
  tidy (VObj ps) = true -> lookup_prop k ps = Some x -> tidy x = true.
Proof.
  intros H. apply tidy_record in H as [_ H]. induction H as [|[k0 x0] rest [_ Hx] _ IH];
    simpl; [discriminate|].
  destruct (String.eqb k k0); [now intros [= <-]|exact IH].
Qed.

Lemma tidy_slot (elems : list (option value)) (i : nat) :
  tidy (VArr elems) = true -> tidy (slot elems i) = true.
Proof.
  intros H. apply tidy_sequence in H as [_ H]. unfold slot.
  destruct (nth_error elems i) as [[x|]|] eqn:E; try reflexivity.
  rewrite List.Forall_forall in H. now apply (H (Some x)), (nth_error_In _ _ E).
Qed.

Lemma tidy_get_prop_opt (o : value) (k : string) :
  tidy o = true -> tidy (get_prop_opt o k) = true.
Proof.
  intros H. unfold get_prop_opt.
  destruct o as [| |b|x|s|f|d|elems|ps]; try reflexivity; cbn [is_nullish get_own].
  - destruct (Str.array_index k); [|now destruct (String.eqb k "length")].
    unfold string_slot. now destruct (String.get _ _).
  - destruct (Str.array_index k); [now apply tidy_slot|].
    now destruct (String.eqb k "length").
  - destruct (lookup_prop k ps) eqn:E; [now apply (tidy_lookup ps k)|reflexivity].
Qed.

Lemma tidy_keys (o : value) (k : string) :
  tidy o = true -> isPlainObject o = true -> In k (own_keys o) -> path_key k = true.
Proof.
  intros H Hp Hin. destruct o; try discriminate; [destruct Hin|].
  apply tidy_record in H as [_ H]. unfold own_keys in Hin. cbn [own_props] in Hin.
  apply in_map_iff in Hin as [[k0 x0] [<- Hin]].
  rewrite List.Forall_forall in H. now destruct (H _ Hin).
Qed.

Lemma unique_keys_NoDup (ps : props) :
  unique_keys ps = true -> List.NoDup (map fst ps).
Proof.
  induction ps as [|[k x] rest IH]; [constructor|].
  simpl. intros H. apply andb_true_iff in H as [Hk H]. apply negb_true_iff in Hk.
  constructor; [|now apply IH].
  intros Hin. now rewrite (has_key_In _ _ Hin) in Hk.
Qed.

(** *** The writes of a run, by their moves *)

Lemma scattered_app (a b : list (list move * value)) :
  scattered a -> scattered b ->
  (forall w w', In w a -> In w' b -> apart_writes w w') ->
  scattered (a ++ b).
Proof.
  intros Ha Hb Hab. induction Ha as [|w a Hw Ha IH]; [exact Hb|].
  cbn [app]. constructor.
  - apply Forall_app. split; [exact Hw|].
    apply List.Forall_forall. intros w' Hin. apply Hab; [now left|exact Hin].
  - apply IH. intros w1 w2 H1 H2. apply Hab; [now right|exact H2].
Qed.

Lemma below_self (ms : list move) (v : value) :
  tidy_moves ms -> below ms (ms, v).
Proof. intros Ht. split; [now exists []|exact Ht]. Qed.

Lemma below_move (m : move) (ms : list move) (w : list move * value) :
  below (m :: ms) w -> below ms w.
Proof.
  intros [[X E] Ht]. split; [|exact Ht]. exists (X ++ [m]). now rewrite <- app_assoc.
Qed.

Lemma apart_below_keys (k k' : string) (ms : list move) (w w' : list move * value) :
  k <> k' -> below (MKey k :: ms) w -> below (MKey k' :: ms) w' -> apart_writes w w'.
Proof.
  intros Hne [[X E] Ht] [[X' E'] Ht']. unfold apart_writes. rewrite E, E' in *.
  now apply apart_keys.
Qed.

Lemma apart_below_items (i j : nat) (ms : list move) (w w' : list move * value) :
  i <> j -> below (MItem i :: ms) w -> below (MItem j :: ms) w' -> apart_writes w w'.
Proof.
  intros Hne [[X E] Ht] [[X' E'] Ht']. unfold apart_writes. rewrite E, E' in *.
  now apply apart_items.
Qed.

Lemma computeDiff_unfold {A : Type} (emit : A -> string -> value -> result A)
  (opts : diff_options) (o n : value) (p : string) (c : A) :
  computeDiff same_ref emit opts o n p c
  = diff_head same_ref emit opts o n p c (fun _ =>
      match n with
      | VArr elems =>
          if negb (compareArrays opts) then
            let* so := JSON_stringify o in
            let* sn := JSON_stringify n in
            if option_string_eqb so sn then Ok c else emit c p n
          else
            match o with
            | VArr oelems =>
                if negb (length oelems =? length elems)%nat then emit c p n
                else diff_items same_ref emit opts (computeDiff same_ref emit opts)
                                oelems p elems 0%nat c
            | _ => emit c p n
            end
      | VObj ps =>
          if negb (isPlainObject o) then emit c p n
          else
            let* c1 := diff_keys (computeDiff same_ref emit opts) o p ps c in
            diff_deleted emit o n p c1
      | VDate _ =>
          if negb (isPlainObject o) then emit c p n
          else diff_deleted emit o n p c
      | _ =>
          if negb (strict_eq same_ref o n) then emit c p n else Ok c
      end).
Proof. destruct n; reflexivity. Qed.

Lemma self_ok (ms : list move) (n : value) t0 :
  tidy_moves ms ->
  exists ws,
    record_write t0 (path_of ms) n = Ok (t0 ++ map marks ws)
    /\ Forall (below ms) ws /\ scattered ws.
Proof.
  intros Ht. exists [(ms, n)]. split; [reflexivity|]. split.
  - constructor; [now apply below_self|constructor].
  - constructor; constructor.
Qed.

Lemma none_ok (ms : list move) t0 :
  exists ws : list (list move * value),
    Ok t0 = Ok (t0 ++ map marks ws) /\ Forall (below ms) ws /\ scattered ws.
Proof.
  exists []. split; [now rewrite app_nil_r|]. split; constructor.
Qed.

Lemma head_ok (o n : value) (ms : list move) t0 body :
  tidy_moves ms ->
  (strict_eq same_ref o n = false ->
   exists ws, body tt = Ok (t0 ++ map marks ws) /\ Forall (below ms) ws /\ scattered ws) ->
  exists ws,
    diff_head same_ref record_write default_options o n (path_of ms) t0 body
    = Ok (t0 ++ map marks ws)
    /\ Forall (below ms) ws /\ scattered ws.
Proof.
  intros Ht Hbody. unfold diff_head. cbn [default_options ignoreFields existsb].
  destruct (strict_eq same_ref o n); [apply none_ok|].
  destruct (negb _); [now apply self_ok|]. now apply Hbody.
Qed.

Lemma scalar_ok (n : value) : is_scalar n = true -> spread_ok same_ref n.
Proof.
  intros Hs o ms t0 _ _ Ht. rewrite computeDiff_unfold.
  apply head_ok; [exact Ht|]. intros Hne.
  destruct n; try discriminate; rewrite Hne; now apply self_ok.
Qed.

Lemma deleted_ok (o n : value) (ms : list move) t0 :
  tidy o = true -> isPlainObject o = true -> tidy_moves ms ->
  diff_deleted record_write o n (path_of ms) t0 = Ok (t0 ++ map marks (removals o n ms))
  /\ Forall (fun w => exists k, In k (own_keys o) /\ has_own n k = false
                               /\ below (MKey k :: ms) w) (removals o n ms)
  /\ scattered (removals o n ms).
Proof.
  intros Ho Hp Ht. split; [|split].
  - pose proof (replays_trace _ _ t0 (replays_deleted o n (path_of ms))) as H.
    cbv beta in H. rewrite H. unfold deleted_writes, removals. now rewrite map_map.
  - unfold removals. apply List.Forall_forall. intros w Hin.
    apply in_map_iff in Hin as [k [<- Hin]]. apply filter_In in Hin as [Hin Hno].
    apply negb_true_iff in Hno. exists k. split; [exact Hin|]. split; [exact Hno|].
    apply below_self. unfold tidy_moves. cbn [forallb tidy_move].
    now rewrite (tidy_keys o k Ho Hp Hin).
  - unfold removals.
    assert (Hnd : List.NoDup (own_keys o)).
    { destruct o; try discriminate; [constructor|].
      apply tidy_record in Ho as [Hu _]. now apply unique_keys_NoDup. }
    assert (Hall : forall k, In k (own_keys o) -> path_key k = true)
      by (intros k; now apply tidy_keys).
    induction (own_keys o) as [|k ks IH]; [constructor|].
    inversion Hnd as [|? ? Hk Hnd']; subst.
    cbn [List.filter]. destruct (negb (has_own n k)).
    + cbn [map]. constructor; [|apply IH; trivial; intros; apply Hall; now right].
      apply List.Forall_forall. intros w Hin.
      apply in_map_iff in Hin as [k' [<- Hin]]. apply filter_In in Hin as [Hin _].
      apply (apart_below_keys k k' ms).
      * intros ->. contradiction.
      * apply below_self. unfold tidy_moves. cbn [forallb tidy_move].
        rewrite (Hall k); [exact Ht|now left].
      * apply below_self. unfold tidy_moves. cbn [forallb tidy_move].
        rewrite (Hall k'); [exact Ht|now right].
    + apply IH; trivial. intros; apply Hall; now right.
Qed.

Lemma keys_ok (ps : props) :
  Forall (fun kv => spread_ok same_ref (snd kv)) ps ->
  forall o ms t0,
    Forall (fun kv => path_key (fst kv) = true /\ tidy (snd kv) = true) ps ->
    List.NoDup (map fst ps) ->
    tidy o = true -> tidy_moves ms ->
    exists ws,
      diff_keys (computeDiff same_ref record_write default_options) o (path_of ms) ps t0
      = Ok (t0 ++ map marks ws)
      /\ Forall (fun w => exists k, In k (map fst ps) /\ below (MKey k :: ms) w) ws
      /\ scattered ws.
Proof.
  induction 1 as [|[k x] rest Hx _ IH]; intros o ms t0 Hps Hnd Ho Ht.
  - exists []. split; [cbn; now rewrite app_nil_r|]. split; constructor.
  - inversion Hps as [|? ? [Hk Htx] Hps']; subst. cbn [fst snd] in *.
    inversion Hnd as [|? ? Hfresh Hnd']; subst.
    assert (Ht1 : tidy_moves (MKey k :: ms)).
    { unfold tidy_moves. cbn [forallb tidy_move]. now rewrite Hk. }
    destruct (Hx (get_prop_opt o k) (MKey k :: ms) t0 Htx (tidy_get_prop_opt o k Ho) Ht1)
      as [ws1 [Hrun1 [Hb1 Hs1]]].
    destruct (IH o ms (t0 ++ map marks ws1) Hps' Hnd' Ho Ht) as [ws2 [Hrun2 [Hb2 Hs2]]].
    exists (ws1 ++ ws2). split; [|split].
    + cbn [diff_keys]. change (child_path (path_of ms) k) with (path_of (MKey k :: ms)).
      rewrite Hrun1. cbn [bind]. rewrite Hrun2, map_app, app_assoc. reflexivity.
    + apply Forall_app. split.
      * eapply List.Forall_impl; [|exact Hb1]. intros w Hw. exists k.
        split; [now left|exact Hw].
      * eapply List.Forall_impl; [|exact Hb2]. intros w [k' [Hin Hw]].
        exists k'. split; [now right|exact Hw].
    + apply scattered_app; trivial. intros w w' Hin Hin'.
      rewrite List.Forall_forall in Hb1, Hb2.
      destruct (Hb2 _ Hin') as [k' [Hk' Hw']].
      apply (apart_below_keys k k' ms); [|now apply Hb1|exact Hw'].
      intros ->. contradiction.
Qed.

Lemma items_ok (elems : list (option value)) :
  Forall (fun e => match e with Some x => spread_ok same_ref x | None => True end) elems ->
  forall oelems ms i0 t0,
    Forall (fun e => match e with Some x => tidy x = true | None => True end) elems ->
    (N.of_nat (i0 + length elems) <= Str.max_index)%N ->
    tidy (VArr oelems) = true -> tidy_moves ms ->
    exists ws,
      diff_items same_ref record_write default_options
                 (computeDiff same_ref record_write default_options)
                 oelems (path_of ms) elems i0 t0
      = Ok (t0 ++ map marks ws)
      /\ Forall (fun w => exists i, (i0 <= i)%nat /\ below (MItem i :: ms) w) ws
      /\ scattered ws.
Proof.
  induction 1 as [|e rest He _ IH]; intros oelems ms i0 t0 Hel Hlen Ho Ht.
  - exists []. split; [cbn; now rewrite app_nil_r|]. split; constructor.
  - inversion Hel as [|? ? Hte Hel']; subst. cbn [length] in Hlen.
    assert (Ht1 : tidy_moves (MItem i0 :: ms)).
    { unfold tidy_moves. cbn [forallb tidy_move]. apply andb_true_iff. split; [|exact Ht].
      apply N.ltb_lt. lia. }
    assert (Hhead : exists ws1,
               match e with
               | Some x => computeDiff same_ref record_write default_options
                                       (slot oelems i0) x (item_path (path_of ms) i0) t0
               | None => diff_primitive same_ref record_write default_options
                                        (slot oelems i0) VUndef (item_path (path_of ms) i0) t0
               end = Ok (t0 ++ map marks ws1)
               /\ Forall (below (MItem i0 :: ms)) ws1 /\ scattered ws1).
    { change (item_path (path_of ms) i0) with (path_of (MItem i0 :: ms)).
      destruct e as [x|].
      - apply He; trivial. now apply tidy_slot.
      - unfold diff_primitive. apply head_ok; [exact Ht1|]. intros ->. now apply self_ok. }
    destruct Hhead as [ws1 [Hrun1 [Hb1 Hs1]]].
    destruct (IH oelems ms (S i0) (t0 ++ map marks ws1) Hel' ltac:(lia) Ho Ht)
      as [ws2 [Hrun2 [Hb2 Hs2]]].
    exists (ws1 ++ ws2). split; [|split].
    + cbn [diff_items]. rewrite Hrun1. cbn [bind]. rewrite Hrun2, map_app, app_assoc.
      reflexivity.
    + apply Forall_app. split.
      * eapply List.Forall_impl; [|exact Hb1]. intros w Hw. exists i0. split; [lia|exact Hw].
      * eapply List.Forall_impl; [|exact Hb2]. intros w [i [Hi Hw]].
        exists i. split; [lia|exact Hw].
    + apply scattered_app; trivial. intros w w' Hin Hin'.
      rewrite List.Forall_forall in Hb1, Hb2.
      destruct (Hb2 _ Hin') as [i [Hi Hw']].
      apply (apart_below_items i0 i ms); [lia|now apply Hb1|exact Hw'].
Qed.

(** Under the default options a run on tidy trees writes at places that
    are apart from each other, each below the path of the run. *)
Lemma computeDiff_spread (n : value) : spread_ok same_ref n.
Proof.
  induction n as [| | | | | | |elems IH|ps IH] using value_ind;
    try (apply scalar_ok; reflexivity).
  - (* a Date *)
    intros o ms t0 _ Ho Ht. rewrite computeDiff_unfold. apply head_ok; [exact Ht|].
    intros _. destruct (isPlainObject o) eqn:Hp; cbn [negb]; [|now apply self_ok].
    destruct (deleted_ok o (VDate t) ms t0 Ho Hp Ht) as [Hrun [Hb Hs]].
    exists (removals o (VDate t) ms). split; [exact Hrun|]. split; [|exact Hs].
    eapply List.Forall_impl; [|exact Hb]. intros w [k [_ [_ Hw]]].
    now apply (below_move (MKey k)).
  - (* a sequence *)
    intros o ms t0 Hn Ho Ht. rewrite computeDiff_unfold. apply head_ok; [exact Ht|].
    intros _. cbn [default_options compareArrays negb].
    destruct o as [| | | | | | |oelems|]; try now apply self_ok.
    destruct (negb (length oelems =? length elems)%nat); [now apply self_ok|].
    destruct (tidy_sequence elems Hn) as [Hlen Hel].
    destruct (items_ok elems IH oelems ms 0%nat t0 Hel Hlen Ho Ht) as [ws [Hrun [Hb Hs]]].
    exists ws. split; [exact Hrun|]. split; [|exact Hs].
    eapply List.Forall_impl; [|exact Hb]. intros w [i [_ Hw]].
    now apply (below_move (MItem i)).
  - (* a record *)
    intros o ms t0 Hn Ho Ht. rewrite computeDiff_unfold. apply head_ok; [exact Ht|].
    intros _. destruct (isPlainObject o) eqn:Hp; cbn [negb]; [|now apply self_ok].
    destruct (tidy_record ps Hn) as [Hu Hps].
    destruct (keys_ok ps IH o ms t0 Hps (unique_keys_NoDup ps Hu) Ho Ht)
      as [ws1 [Hrun1 [Hb1 Hs1]]].
    destruct (deleted_ok o (VObj ps) ms (t0 ++ map marks ws1) Ho Hp Ht) as [Hrun2 [Hb2 Hs2]].
    exists (ws1 ++ removals o (VObj ps) ms). split; [|split].
    + rewrite Hrun1. cbn [bind]. rewrite Hrun2, map_app, app_assoc. reflexivity.
    + apply Forall_app. split.
      * eapply List.Forall_impl; [|exact Hb1]. intros w [k [_ Hw]].
        now apply (below_move (MKey k)).
      * eapply List.Forall_impl; [|exact Hb2]. intros w [k [_ [_ Hw]]].
        now apply (below_move (MKey k)).
    + apply scattered_app; trivial. intros w w' Hin Hin'.
      rewrite List.Forall_forall in Hb1, Hb2.
      destruct (Hb1 _ Hin) as [k [Hk Hw]]. destruct (Hb2 _ Hin') as [k' [_ [Hno Hw']]].
      apply (apart_below_keys k k' ms); [|exact Hw|exact Hw'].
      intros ->. cbn [has_own] in Hno. now rewrite (has_key_In _ _ Hk) in Hno.
Qed.

End Scatter.

Section ChangeTreeFacts.
Context {host : Host}.
Variable same_ref : value -> value -> bool.

Lemma bounded_steps_cur (ms : list move) :
  tidy_moves ms -> bounded (steps (cur ms)).
Proof.
  intros Ht. destruct ms as [|[k|i] r].
  - repeat constructor.
  - apply andb_true_iff in Ht as [Hk _]. cbn [cur]. rewrite (steps_key k Hk).
    repeat constructor.
  - apply andb_true_iff in Ht as [Hi Hr]. cbn [cur tidy_move] in *.
    rewrite (steps_item _ _ (one_line_cur r Hr)).
    destruct (String.eqb (cur r) ""); repeat constructor. now apply N.ltb_lt.
Qed.

Lemma bounded_home (ms : list move) : tidy_moves ms -> bounded (home ms).
Proof.
  unfold home. induction ms as [|[k|i] r IH]; intros Ht; [constructor| |];
    apply andb_true_iff in Ht as [_ Hr]; cbn [front]; [|now apply IH].
  destruct r as [|m r']; [constructor|].
  rewrite flat_map_app. apply Forall_app. split; [now apply IH|].
  cbn [flat_map]. rewrite app_nil_r. now apply bounded_steps_cur.
Qed.

Lemma bounded_address (ms : list move) :
  tidy_moves ms -> bounded (address (path_of ms)).
Proof.
  intros Ht. rewrite (address_path ms Ht). apply Forall_app. split.
  - now apply bounded_home.
  - repeat constructor.
Qed.

Lemma admits_empty (path : string) : admits (VObj []) (address path).
Proof.
  unfold address. destruct (walk_head (removelast (Str.split_dot path))
                                      (List.last (Str.split_dot path) "")) as [k [R ->]].
  split; [exact I|]. now destruct R.
Qed.

Lemma ForallOrdPairs_map {A B : Type} (f : A -> B) (R : B -> B -> Prop) (l : list A) :
  ForallOrdPairs (fun a a' => R (f a) (f a')) l -> ForallOrdPairs R (map f l).
Proof.
  induction 1 as [|a l Ha _ IH]; [constructor|].
  cbn [map]. constructor; [|exact IH].
  apply List.Forall_forall. intros b Hb. apply in_map_iff in Hb as [a' [<- Hin]].
  rewrite List.Forall_forall in Ha. now apply Ha.
Qed.

End ChangeTreeFacts.

Section Held.
Context {host : Host}.
Variable same_ref : value -> value -> bool.

(** The writes of [diff] on two tidy trees: one write at the root path,
    or writes below it. *)
Lemma run_spread (o n : value) :
  tidy o = true -> tidy n = true ->
  exists ws,
    diff_writes same_ref o n default_options = Ok (map marks ws)
    /\ Forall (fun w => tidy_moves (fst w)) ws
    /\ scattered ws
    /\ (ws = [([], n)] \/ Forall (fun w => fst w <> []) ws).
Proof.
  intros Ho Hn.
  assert (Hself : exists ws,
             record_write [] "" n = Ok (map marks ws)
             /\ Forall (fun w => tidy_moves (fst w)) ws
             /\ scattered ws
             /\ (ws = [([], n)] \/ Forall (fun w => fst w <> []) ws)).
  { exists [([], n)]. split; [reflexivity|]. split; [now repeat constructor|].
    split; [repeat constructor|now left]. }
  assert (Hnone : exists ws : list (list move * value),
             Ok [] = Ok (map marks ws)
             /\ Forall (fun w => tidy_moves (fst w)) ws
             /\ scattered ws
             /\ (ws = [([], n)] \/ Forall (fun w => fst w <> []) ws)).
  { exists []. split; [reflexivity|]. split; [constructor|].
    split; [constructor|right; constructor]. }
  assert (Hsub : forall (m : move) (w : list move * value),
             below [m] w -> fst w <> [] /\ tidy_moves (fst w)).
  { intros m w [[X E] Ht]. split; [|exact Ht]. rewrite E. now destruct X. }
  unfold diff_writes. rewrite computeDiff_unfold.
  unfold diff_head. cbn [default_options ignoreFields existsb compareArrays negb].
  destruct (strict_eq same_ref o n) eqn:Hs; [exact Hnone|].
  destruct (jstype_eqb (typeof o) (typeof n)); cbn [negb]; [|exact Hself].
  destruct n as [| |b|x|s|f|d|elems|ps]; try exact Hself.
  - (* a Date *)
    destruct (isPlainObject o) eqn:Hp; cbn [negb]; [|exact Hself].
    destruct (deleted_ok o (VDate d) [] [] Ho Hp eq_refl) as [Hrun [Hb Hsc]].
    exists (removals o (VDate d) []). split; [exact Hrun|]. split; [|split; [exact Hsc|right]].
    + eapply List.Forall_impl; [|exact Hb]. intros w [k [_ [_ Hw]]]. now apply (Hsub (MKey k)).
    + eapply List.Forall_impl; [|exact Hb]. intros w [k [_ [_ Hw]]]. now apply (Hsub (MKey k)).
  - (* a sequence *)
    destruct o as [| | | | | | |oelems|]; try exact Hself.
    destruct (negb (length oelems =? length elems)%nat); [exact Hself|].
    destruct (tidy_sequence elems Hn) as [Hlen Hel].
    assert (Hspread : Forall (fun e => match e with
                                       | Some x => spread_ok same_ref x
                                       | None => True
                                       end) elems).
    { apply List.Forall_forall. intros [x|] _; [apply computeDiff_spread|exact I]. }
    destruct (items_ok same_ref elems Hspread oelems [] 0%nat [] Hel Hlen Ho eq_refl)
      as [ws [Hrun [Hb Hsc]]].
    exists ws. split; [exact Hrun|]. split; [|split; [exact Hsc|right]].
    + eapply List.Forall_impl; [|exact Hb]. intros w [i [_ Hw]]. now apply (Hsub (MItem i)).
    + eapply List.Forall_impl; [|exact Hb]. intros w [i [_ Hw]]. now apply (Hsub (MItem i)).
  - (* a record *)
    destruct (isPlainObject o) eqn:Hp; cbn [negb]; [|exact Hself].
    destruct (tidy_record ps Hn) as [Hu Hps].
    destruct (keys_ok same_ref ps
                (proj2 (List.Forall_forall _ _)
                   (fun kv _ => computeDiff_spread same_ref (snd kv)))
                o [] [] Hps (unique_keys_NoDup ps Hu) Ho eq_refl)
      as [ws1 [Hrun1 [Hb1 Hs1]]].
    destruct (deleted_ok o (VObj ps) [] ([] ++ map marks ws1) Ho Hp eq_refl)
      as [Hrun2 [Hb2 Hs2]].
    assert (Hall : Forall (fun w => fst w <> [] /\ tidy_moves (fst w))
                          (ws1 ++ removals o (VObj ps) [])).
    { apply Forall_app. split.
      - eapply List.Forall_impl; [|exact Hb1]. intros w [k [_ Hw]]. now apply (Hsub (MKey k)).
      - eapply List.Forall_impl; [|exact Hb2]. intros w [k [_ [_ Hw]]].
        now apply (Hsub (MKey k)). }
    exists (ws1 ++ removals o (VObj ps) []). split; [|split; [|split; [|right]]].
    + change (path_of []) with "" in Hrun1, Hrun2. rewrite Hrun1. cbn [bind].
      rewrite Hrun2, map_app. reflexivity.
    + eapply List.Forall_impl; [|exact Hall]. now intros w [_ H].
    + apply scattered_app; trivial. intros w w' Hin Hin'.
      rewrite List.Forall_forall in Hb1, Hb2.
      destruct (Hb1 _ Hin) as [k [Hk Hw]]. destruct (Hb2 _ Hin') as [k' [_ [Hno Hw']]].
      apply (apart_below_keys k k' []); [|exact Hw|exact Hw'].
      intros ->. cbn [has_own] in Hno. now rewrite (has_key_In _ _ Hk) in Hno.
    + eapply List.Forall_impl; [|exact Hall]. now intros w [H _].
Qed.

End Held.

Section Reading.
Context {host : Host}.

(** Reading the path of a key: the own property of that name, in the
    record the path of the parent leads to. *)
Lemma change_at_child (r : value) (q k : string) :
  Str.includes_dot k = false ->
  change_at r (child_path q k)
  = match record_at r q with
    | Some (VObj ps) => lookup_prop k ps
    | _ => None
    end.
Proof.
  intros Hk. unfold change_at, child_path, record_at.
  destruct (String.eqb q "").
  - now rewrite (split_dot_plain k Hk).
  - rewrite split_dot_app_dot, (split_dot_plain k Hk), removelast_last, last_last.
    reflexivity.
Qed.

(** Reading the path of an element of the sequence at a key: the own
    property named by the key followed by the bracketed index, in the
    record the path of the parent leads to. *)
Lemma change_at_item (r : value) (q k : string) (i : nat) :
  Str.includes_dot k = false ->
  change_at r (item_path (child_path q k) i)
  = match record_at r q with
    | Some (VObj ps) => lookup_prop (k ++ "[" ++ Str.of_nat i ++ "]")%string ps
    | _ => None
    end.
Proof.
  intros Hk. rewrite item_path_app.
  assert (Hd : Str.includes_dot (k ++ "[" ++ Str.of_nat i ++ "]") = false)
    by now rewrite includes_dot_app, Hk, includes_dot_item.
  unfold change_at, child_path, record_at.
  destruct (String.eqb q "").
  - now rewrite (split_dot_plain _ Hd).
  - rewrite !append_assoc.
    change ("." ++ k ++ "[" ++ Str.of_nat i ++ "]")%string
      with ("." ++ (k ++ "[" ++ Str.of_nat i ++ "]"))%string.
    rewrite split_dot_app_dot, (split_dot_plain _ Hd), removelast_last, last_last.
    reflexivity.
Qed.

Lemma item_path_nonempty (p : string) (i : nat) : item_path p i <> "".
Proof.
  unfold item_path. destruct (String.eqb p "") eqn:E; [discriminate|].
  destruct p; [discriminate E|discriminate].
Qed.

Lemma address_item (p : string) (i : nat) :
  exists pre last,
    address p = pre ++ [AKey last]
    /\ address (item_path p i) = pre ++ [AKey (last ++ "[" ++ Str.of_nat i ++ "]")%string].
Proof.
  exists (flat_map steps (removelast (Str.split_dot p))), (List.last (Str.split_dot p) "").
  split; [reflexivity|].
  unfold address. rewrite item_path_app.
  rewrite (split_dot_app_plain p _ (includes_dot_item i)), removelast_last, last_last.
  reflexivity.
Qed.

Lemma append_not_self (a b : string) : b <> "" -> (a ++ b)%string <> a.
Proof.
  intros Hb E. apply Hb. induction a as [|c a IH]; [exact E|].
  apply IH. now injection E.
Qed.

(** The write of an element's change: the literal key takes the value,
    and the slot of that index in a sequence under the key of the
    sequence is as it was. *)
Lemma setChangePath_item_literal (c : value) (p : string) (i : nat) (x : value) :
  admits c (address (item_path p i)) ->
  bounded (address (item_path p i)) ->
  exists c',
    setChangePath c (item_path p i) x = Ok c'
    /\ change_at c' (item_path p i) = Some x
    /\ read_at c' (address p ++ [ASlot (N.of_nat i)])
       = read_at c (address p ++ [ASlot (N.of_nat i)]).
Proof.
  intros Ha Hb.
  destruct (setChangePath_write c (item_path p i) x (item_path_nonempty p i) Ha Hb)
    as [c' [Hrun [Hread Hframe]]].
  exists c'. split; [exact Hrun|]. split; [now rewrite change_at_address|].
  apply Hframe. destruct (address_item p i) as [pre [last [-> ->]]].
  rewrite <- app_assoc. apply apart_app. cbn [app]. apply apart_key.
  now apply append_not_self.
Qed.

End Reading.

Section Under.
Context {host : Host}.

Lemma under_address (m : move) (r X : list move) :
  tidy_moves (X ++ m :: r) -> under m r (address (path_of (X ++ m :: r))).
Proof.
  destruct m as [k|i]; intros Ht; [exact (head_key k r X Ht)|exact (head_item i r X Ht)].
Qed.

Lemma home_key (k : string) (m : move) (r : list move) :
  home (MKey k :: m :: r) = home (m :: r) ++ steps (cur (m :: r)).
Proof.
  unfold home. cbn [front]. rewrite flat_map_app. cbn [flat_map].
  now rewrite app_nil_r.
Qed.

Lemma under_up (m' m : move) (r : list move) (b : list atom) :
  tidy_moves (m :: r) -> under m' (m :: r) b -> under m r b.
Proof.
  intros Ht. pose proof Ht as Ht0.
  apply andb_true_iff in Ht0 as [Hm Hr].
  assert (Hfold : forall i J, ((cur r ++ "[" ++ Str.of_nat i ++ "]") ++ brackets J)%string
                            = (cur r ++ brackets (i :: J))%string).
  { intros i J. cbn [brackets]. now rewrite !append_assoc. }
  destruct m' as [k'|i']; cbn [under].
  - intros [J [rest ->]]. rewrite home_key, <- app_assoc.
    destruct m as [k|j]; cbn [under cur].
    + cbn [tidy_move] in Hm. rewrite (steps_key k Hm).
      exists [], (AKey (k' ++ brackets J)%string :: rest). cbn [brackets app].
      now rewrite append_nil_r.
    + change (home (MItem j :: r)) with (home r).
      rewrite (steps_item (cur r) j (one_line_cur r Hr)).
      destruct (String.eqb_spec (cur r) "") as [E|_].
      * left. exists [], (AKey (k' ++ brackets J)%string :: rest). rewrite E. reflexivity.
      * right. now exists (AKey (k' ++ brackets J)%string :: rest).
  - destruct m as [k|j]; cbn [under cur].
    + intros [[J [rest ->]]|[rest ->]].
      * now exists (i' :: J), rest.
      * exists [], (ASlot (N.of_nat i') :: rest). cbn [brackets].
        now rewrite append_nil_r.
    + change (home (MItem j :: r)) with (home r).
      intros [[J [rest ->]]|[rest ->]]; left.
      * exists (i' :: J), rest. rewrite (Hfold j (i' :: J)). reflexivity.
      * exists [], (ASlot (N.of_nat i') :: rest). rewrite <- (Hfold j []). cbn [brackets].
        now rewrite append_nil_r.
Qed.

Lemma within_under (X : list move) (m0 : move) (r0 : list move) (b : list atom) :
  tidy_moves (X ++ m0 :: r0) -> within (X ++ m0 :: r0) b -> under m0 r0 b.
Proof.
  induction X as [|y X IH]; intros Ht Hw; [exact Hw|].
  assert (Ht' : tidy_moves (X ++ m0 :: r0)) by now apply andb_true_iff in Ht as [_ Ht].
  apply IH; [exact Ht'|].
  cbn [app within] in Hw. revert Ht' Hw.
  destruct (X ++ m0 :: r0) as [|m r] eqn:E; [now destruct X|].
  intros Ht' Hw. cbn [within]. now apply (under_up y).
Qed.

Lemma under_apart_keys (k k' : string) (r : list move) (a b : list atom) :
  k <> k' -> path_key k = true -> path_key k' = true ->
  under (MKey k) r a -> under (MKey k') r b -> apart a b.
Proof.
  intros Hne Hk Hk' [J [rest ->]] [J' [rest' ->]].
  change (home (MKey k' :: r)) with (home (MKey k :: r)).
  now apply apart_app, apart_key, keys_differ.
Qed.

Lemma under_apart_items (i j : nat) (r : list move) (a b : list atom) :
  i <> j -> under (MItem i) r a -> under (MItem j) r b -> apart a b.
Proof.
  intros Hne [[J [rest ->]]|[rest ->]] [[J' [rest' ->]]|[rest' ->]]; apply apart_app.
  - now apply apart_key, items_differ.
  - apply apart_key, item_differs.
  - apply apart_key. intros E. symmetry in E. now apply item_differs in E.
  - apply apart_cons, apart_slot. intros E. now apply Nat2N.inj in E.
Qed.

(** Below a path, the slot of an index in a sequence under the last
    segment, and the literal key of the element of that index. *)
Lemma under_slot (ms : list move) (i : nat) (rest : list atom) :
  tidy_moves ms ->
  under (MItem i) ms (address (path_of ms) ++ ASlot (N.of_nat i) :: rest).
Proof.
  intros Ht. right. exists rest. now rewrite (address_path ms Ht), <- app_assoc.
Qed.


End Under.

Section Frame.
Context {host : Host}.
Variable same_ref : value -> value -> bool.

(** The loop over the keys of a record: the writes of the call on one
    key, between writes below the other keys. *)
Lemma keys_split (ps : props) :
  forall o ms t0 k x,
    Forall (fun kv => path_key (fst kv) = true /\ tidy (snd kv) = true) ps ->
    List.NoDup (map fst ps) ->
    tidy o = true -> tidy_moves ms ->
    In (k, x) ps ->
    exists pre tk post,
      computeDiff same_ref record_write default_options (get_prop_opt o k) x
                  (child_path (path_of ms) k) [] = Ok tk
      /\ diff_keys (computeDiff same_ref record_write default_options) o (path_of ms) ps t0
         = Ok (t0 ++ map marks pre ++ tk ++ map marks post)
      /\ Forall (fun w => exists k', k' <> k /\ below (MKey k' :: ms) w) (pre ++ post).
Proof.
  induction ps as [|[k0 x0] rest IH]; intros o ms t0 k x Hps Hnd Ho Ht Hin; [destruct Hin|].
  inversion Hps as [|? ? [Hk0 Hx0] Hps']; subst. cbn [fst snd] in *.
  inversion Hnd as [|? ? Hfresh Hnd']; subst.
  assert (Ht0 : tidy_moves (MKey k0 :: ms)).
  { unfold tidy_moves. cbn [forallb tidy_move]. now rewrite Hk0. }
  destruct (computeDiff_spread same_ref x0 (get_prop_opt o k0) (MKey k0 :: ms) t0
              Hx0 (tidy_get_prop_opt o k0 Ho) Ht0) as [ws0 [Hrun0 [Hb0 _]]].
  change (path_of (MKey k0 :: ms)) with (child_path (path_of ms) k0) in Hrun0.
  destruct Hin as [E|Hin].
  - injection E as -> ->.
    destruct (computeDiff_replays same_ref default_options _ _ _ _ _ Hrun0)
      as [tk [Etk [Hrun _]]].
    apply app_inv_head in Etk.
    assert (Hspread : Forall (fun kv => spread_ok same_ref (snd kv)) rest).
    { apply List.Forall_forall. intros kv _. apply computeDiff_spread. }
    destruct (keys_ok same_ref rest Hspread o ms (t0 ++ map marks ws0) Hps' Hnd' Ho Ht)
      as [ws2 [Hrun2 [Hb2 _]]].
    exists [], tk, ws2. split; [exact Hrun|]. split.
    + cbn [diff_keys]. rewrite Hrun0. cbn [bind]. rewrite Hrun2, Etk.
      cbn [map app]. now rewrite <- app_assoc.
    + cbn [app]. eapply List.Forall_impl; [|exact Hb2]. intros w [k' [Hk' Hw]].
      exists k'. split; [|exact Hw]. intros ->. contradiction.
  - destruct (IH o ms (t0 ++ map marks ws0) k x Hps' Hnd' Ho Ht Hin)
      as [pre [tk [post [Hrun [Hloop Hothers]]]]].
    exists (ws0 ++ pre), tk, post. split; [exact Hrun|]. split.
    + cbn [diff_keys]. rewrite Hrun0. cbn [bind]. rewrite Hloop, map_app.
      now rewrite <- !app_assoc.
    + rewrite <- app_assoc. apply Forall_app. split; [|exact Hothers].
      eapply List.Forall_impl; [|exact Hb0]. intros w Hw. exists k0. split; [|exact Hw].
      intros ->. apply Hfresh. apply in_map_iff. now exists (k, x).
Qed.

(** The loop over the elements of a sequence, likewise. *)
Lemma items_split (elems : list (option value)) :
  forall oelems ms i0 t0 j x,
    Forall (fun e => match e with Some y => tidy y = true | None => True end) elems ->
    (N.of_nat (i0 + length elems) <= Str.max_index)%N ->
    tidy (VArr oelems) = true -> tidy_moves ms ->
    nth_error elems j = Some (Some x) ->
    exists pre tj post,
      computeDiff same_ref record_write default_options (slot oelems (i0 + j)) x
                  (item_path (path_of ms) (i0 + j)) [] = Ok tj
      /\ diff_items same_ref record_write default_options
                    (computeDiff same_ref record_write default_options)
                    oelems (path_of ms) elems i0 t0
         = Ok (t0 ++ map marks pre ++ tj ++ map marks post)
      /\ Forall (fun w => exists i', i' <> (i0 + j)%nat /\ below (MItem i' :: ms) w)
                (pre ++ post).
Proof.
  induction elems as [|e rest IH]; intros oelems ms i0 t0 j x Hel Hlen Ho Ht Hj;
    [destruct j; discriminate|].
  inversion Hel as [|? ? Hte Hel']; subst. cbn [length] in Hlen.
  assert (Ht1 : tidy_moves (MItem i0 :: ms)).
  { unfold tidy_moves. cbn [forallb tidy_move]. apply andb_true_iff. split; [|exact Ht].
    apply N.ltb_lt. lia. }
  assert (Hhead : exists ws1,
             match e with
             | Some y => computeDiff same_ref record_write default_options
                                     (slot oelems i0) y (item_path (path_of ms) i0) t0
             | None => diff_primitive same_ref record_write default_options
                                      (slot oelems i0) VUndef (item_path (path_of ms) i0) t0
             end = Ok (t0 ++ map marks ws1)
             /\ Forall (below (MItem i0 :: ms)) ws1).
  { change (item_path (path_of ms) i0) with (path_of (MItem i0 :: ms)).
    destruct e as [y|].
    - destruct (computeDiff_spread same_ref y (slot oelems i0) (MItem i0 :: ms) t0
                  Hte (tidy_slot oelems i0 Ho) Ht1) as [ws [Hrun [Hb _]]]. eauto.
    - unfold diff_primitive.
      destruct (head_ok same_ref (slot oelems i0) VUndef (MItem i0 :: ms) t0
                  (fun _ => if negb (strict_eq same_ref (slot oelems i0) VUndef)
                            then record_write t0 (path_of (MItem i0 :: ms)) VUndef
                            else Ok t0) Ht1) as [ws [Hrun [Hb _]]]; [|eauto].
      intros ->. now apply self_ok. }
  destruct Hhead as [ws1 [Hrun1 Hb1]].
  assert (Hspread : Forall (fun e => match e with
                                     | Some y => spread_ok same_ref y
                                     | None => True
                                     end) rest).
  { apply List.Forall_forall. intros [y|] _; [apply computeDiff_spread|exact I]. }
  destruct j as [|j].
  - injection Hj as ->. rewrite Nat.add_0_r.
    destruct (computeDiff_replays same_ref default_options _ _ _ _ _ Hrun1)
      as [tj [Etj [Hrun _]]].
    apply app_inv_head in Etj.
    destruct (items_ok same_ref rest Hspread oelems ms (S i0) (t0 ++ map marks ws1)
                Hel' ltac:(lia) Ho Ht) as [ws2 [Hrun2 [Hb2 _]]].
    exists [], tj, ws2. split; [exact Hrun|]. split.
    + cbn [diff_items]. rewrite Hrun1. cbn [bind]. rewrite Hrun2, Etj.
      cbn [map app]. now rewrite <- app_assoc.
    + cbn [app]. eapply List.Forall_impl; [|exact Hb2]. intros w [i' [Hi' Hw]].
      exists i'. split; [lia|exact Hw].
  - cbn [nth_error] in Hj.
    destruct (IH oelems ms (S i0) (t0 ++ map marks ws1) j x Hel' ltac:(lia) Ho Ht Hj)
      as [pre [tj [post [Hrun [Hloop Hothers]]]]].
    replace (S i0 + j)%nat with (i0 + S j)%nat in * by lia.
    exists (ws1 ++ pre), tj, post. split; [exact Hrun|]. split.
    + cbn [diff_items]. rewrite Hrun1. cbn [bind]. rewrite Hloop, map_app.
      now rewrite <- !app_assoc.
    + rewrite <- app_assoc. apply Forall_app. split; [|exact Hothers].
      eapply List.Forall_impl; [|exact Hb1]. intros w Hw. exists i0. split; [lia|exact Hw].
Qed.

(** A write below a move is apart from the places under another move. *)
Lemma below_apart_key (k k' : string) (ms X : list move) (w : list move * value)
  (b : list atom) :
  k' <> k -> tidy_moves (X ++ MKey k :: ms) ->
  below (MKey k' :: ms) w -> within (X ++ MKey k :: ms) b ->
  apart (address (fst (marks w))) b.
Proof.
  intros Hne Ht [[Y E] Htw] Hb. cbn [marks fst]. rewrite E in *.
  apply (under_apart_keys k' k ms); trivial.
  - apply tidy_moves_app in Htw as [_ Htw]. now apply andb_true_iff in Htw as [Hk _].
  - apply tidy_moves_app in Ht as [_ Ht]. now apply andb_true_iff in Ht as [Hk _].
  - now apply under_address.
  - now apply (within_under X).
Qed.

Lemma below_apart_item (i i' : nat) (ms X : list move) (w : list move * value)
  (b : list atom) :
  i' <> i -> tidy_moves (X ++ MItem i :: ms) ->
  below (MItem i' :: ms) w -> within (X ++ MItem i :: ms) b ->
  apart (address (fst (marks w))) b.
Proof.
  intros Hne Ht [[Y E] Htw] Hb. cbn [marks fst]. rewrite E in *.
  apply (under_apart_items i' i ms); trivial.
  - now apply under_address.
  - now apply (within_under X).
Qed.

(** Where the run reaches a call, each of its writes is a write of that
    call or is apart from every place within the path of the call. *)
Lemma calls_frame o0 n0 p0 o n p :
  calls same_ref default_options o0 n0 p0 o n p ->
  forall ms0 t0,
    p0 = path_of ms0 -> tidy_moves ms0 -> tidy o0 = true -> tidy n0 = true ->
    computeDiff same_ref record_write default_options o0 n0 p0 [] = Ok t0 ->
    exists X t1,
      p = path_of (X ++ ms0) /\ tidy_moves (X ++ ms0)
      /\ tidy o = true /\ tidy n = true
      /\ computeDiff same_ref record_write default_options o n p [] = Ok t1
      /\ forall w, In w t0 ->
           In w t1
           \/ (X <> [] /\ forall b, within (X ++ ms0) b -> apart (address (fst w)) b).
Proof.
  induction 1 as [o n p | o ps p k x o' n' p' He Ho Hin _ IH
                  | oelems elems p i x o' n' p' He Hc Hl Hi _ IH];
    intros ms0 t0 Hp Ht Hto Htn Hrun.
  - exists [], t0. repeat split; trivial. intros w Hw. now left.
  - subst p. destruct (tidy_record ps Htn) as [Hu Hps].
    assert (Hkx : path_key k = true /\ tidy x = true).
    { rewrite List.Forall_forall in Hps. exact (Hps _ Hin). }
    destruct Hkx as [Hk Hx].
    assert (Ht1 : tidy_moves (MKey k :: ms0)).
    { unfold tidy_moves. cbn [forallb tidy_move]. now rewrite Hk. }
    rewrite computeDiff_record in Hrun by assumption.
    destruct (keys_split ps o ms0 [] k x Hps (unique_keys_NoDup ps Hu) Hto Ht Hin)
      as [pre [tk [post [Hrunk [Hloop Hothers]]]]].
    rewrite Hloop in Hrun. cbn [bind app] in Hrun.
    destruct (deleted_ok o (VObj ps) ms0 (map marks pre ++ tk ++ map marks post)
                Hto Ho Ht) as [Hdel [Hbd _]].
    rewrite Hdel in Hrun. injection Hrun as <-.
    destruct (IH (MKey k :: ms0) tk eq_refl Ht1 (tidy_get_prop_opt o k Hto) Hx Hrunk)
      as [X [t1 [Hp' [HtX [Hto' [Htn' [Hrun1 Hclass]]]]]]].
    exists (X ++ [MKey k]), t1. rewrite <- app_assoc. cbn [app].
    repeat split; trivial.
    intros w Hw. apply Forall_app in Hothers as [Hpre Hpost].
    rewrite List.Forall_forall in Hpre, Hpost, Hbd.
    rewrite !in_app_iff in Hw. destruct Hw as [[Hw|[Hw|Hw]]|Hw].
    + right. split; [now destruct X|]. intros b Hb. apply in_map_iff in Hw as [w0 [<- Hw0]].
      destruct (Hpre _ Hw0) as [k' [Hne Hbel]]. now apply (below_apart_key k k' ms0 X).
    + destruct (Hclass _ Hw) as [Hin1|[_ Hap]]; [now left|right].
      split; [now destruct X|exact Hap].
    + right. split; [now destruct X|]. intros b Hb. apply in_map_iff in Hw as [w0 [<- Hw0]].
      destruct (Hpost _ Hw0) as [k' [Hne Hbel]]. now apply (below_apart_key k k' ms0 X).
    + right. split; [now destruct X|]. intros b Hb. apply in_map_iff in Hw as [w0 [<- Hw0]].
      destruct (Hbd _ Hw0) as [k' [_ [Hno Hbel]]].
      apply (below_apart_key k k' ms0 X); trivial.
      intros ->. cbn [has_own] in Hno.
      rewrite has_key_In in Hno; [discriminate|]. apply in_map_iff. now exists (k, x).
  - subst p. destruct (tidy_sequence elems Htn) as [Hlen Hel].
    assert (Hx : tidy x = true).
    { rewrite List.Forall_forall in Hel. exact (Hel _ (nth_error_In _ _ Hi)). }
    assert (Hlt : (i < length elems)%nat) by (apply nth_error_Some; congruence).
    assert (Ht1 : tidy_moves (MItem i :: ms0)).
    { unfold tidy_moves. cbn [forallb tidy_move]. apply andb_true_iff. split; [|exact Ht].
      apply N.ltb_lt. lia. }
    rewrite computeDiff_items in Hrun by assumption.
    destruct (items_split elems oelems ms0 0%nat [] i x Hel Hlen Hto Ht Hi)
      as [pre [ti [post [Hruni [Hloop Hothers]]]]].
    cbn [Nat.add] in Hruni, Hothers.
    rewrite Hloop in Hrun. cbn [app] in Hrun. injection Hrun as <-.
    destruct (IH (MItem i :: ms0) ti eq_refl Ht1 (tidy_slot oelems i Hto) Hx Hruni)
      as [X [t1 [Hp' [HtX [Hto' [Htn' [Hrun1 Hclass]]]]]]].
    exists (X ++ [MItem i]), t1. rewrite <- app_assoc. cbn [app].
    repeat split; trivial.
    intros w Hw. apply Forall_app in Hothers as [Hpre Hpost].
    rewrite List.Forall_forall in Hpre, Hpost.
    rewrite !in_app_iff in Hw. destruct Hw as [Hw|[Hw|Hw]].
    + right. split; [now destruct X|]. intros b Hb. apply in_map_iff in Hw as [w0 [<- Hw0]].
      destruct (Hpre _ Hw0) as [i' [Hne Hbel]]. now apply (below_apart_item i i' ms0 X).
    + destruct (Hclass _ Hw) as [Hin1|[_ Hap]]; [now left|right].
      split; [now destruct X|exact Hap].
    + right. split; [now destruct X|]. intros b Hb. apply in_map_iff in Hw as [w0 [<- Hw0]].
      destruct (Hpost _ Hw0) as [i' [Hne Hbel]]. now apply (below_apart_item i i' ms0 X).
Qed.

End Frame.

Section Results.
Context {host : Host}.
Variable same_ref : value -> value -> bool.

(** On two tidy trees [diff] either makes its one report at the root
    path, or returns a change tree that holds every value the run
    reports, at the path it reports it at, and nothing at a place apart
    from the places of all the reports. *)
Lemma diff_holds_frame (original current : value) :
  tidy original = true -> tidy current = true ->
  exists t,
    diff_writes same_ref original current default_options = Ok t
    /\ (t = [("", current)]
        \/ exists r,
             diff same_ref original current default_options = Ok r
             /\ (forall p v, In (p, v) t -> change_at r p = Some v)
             /\ (forall b, b <> [] ->
                   (forall p v, In (p, v) t -> apart (address p) b) ->
                   read_at r b = None)).
Proof.
  intros Ho Hn. destruct (run_spread same_ref original current Ho Hn)
    as [ws [Hrun [Hwf [Hs Hroot]]]].
  exists (map marks ws). split; [exact Hrun|].
  destruct Hroot as [->|Hne]; [now left|right].
  destruct (replay_apart (map marks ws)) with (t := VObj []) as [r [Hr [Hall Hframe]]].
  - apply List.Forall_forall. intros w Hin. apply in_map_iff in Hin as [w0 [<- Hin]].
    rewrite List.Forall_forall in Hwf, Hne. cbn [marks fst].
    split; [apply path_of_nonempty|apply bounded_address]; auto.
  - now apply ForallOrdPairs_map.
  - apply List.Forall_forall. intros w _. apply admits_empty.
  - exists r. split; [|split].
    + now rewrite (diff_replays_writes same_ref default_options _ _ _ Hrun).
    + intros p v Hin. rewrite change_at_address.
      rewrite List.Forall_forall in Hall. now apply (Hall (p, v)).
    + intros b Hb Hap. rewrite Hframe.
      * destruct b as [|[k|i] b]; [contradiction|reflexivity|reflexivity].
      * apply List.Forall_forall. intros [p v] Hin. now apply (Hap p v).
Qed.

(** What a call the run reaches reports is held by the tree [diff]
    returns; a place within the path of the call, apart from the places
    of the call's own reports, holds nothing. *)
Lemma diff_holds_call (original current o n : value) (p : string) t1 :
  tidy original = true -> tidy current = true ->
  calls same_ref default_options original current "" o n p ->
  computeDiff same_ref record_write default_options o n p [] = Ok t1 ->
  (exists q v, In (q, v) t1 /\ (q, v) <> ("", current)) ->
  exists r ms,
    diff same_ref original current default_options = Ok r
    /\ p = path_of ms /\ tidy_moves ms
    /\ (forall q v, In (q, v) t1 -> change_at r q = Some v)
    /\ (forall m b, under m ms b ->
          (forall q v, In (q, v) t1 -> apart (address q) b) ->
          read_at r b = None).
Proof.
  intros Ho Hn Hcalls Hrun1 [q0 [v0 [Hin0 Hroot]]].
  destruct (diff_holds_frame original current Ho Hn) as [t [Ht Hcase]].
  destruct (calls_frame same_ref _ _ _ _ _ _ Hcalls [] t eq_refl eq_refl Ho Hn Ht)
    as [X [t1' [Hp [HtX [_ [_ [Hrun1' Hclass]]]]]]].
  rewrite app_nil_r in *. rewrite Hrun1 in Hrun1'. injection Hrun1' as <-.
  destruct (calls_incl same_ref default_options _ _ _ _ _ _ Hcalls t Ht)
    as [t1' [Hrun1' Hincl]].
  rewrite Hrun1 in Hrun1'. injection Hrun1' as <-.
  destruct Hcase as [->|[r [Hr [Hall Hframe]]]].
  - destruct (Hincl _ Hin0) as [E|[]]. now symmetry in E.
  - exists r, X. split; [exact Hr|]. split; [exact Hp|]. split; [exact HtX|]. split.
    + intros q v Hin. now apply Hall, Hincl.
    + intros m b Hb Hap. apply Hframe.
      * destruct m; [destruct Hb as [J [rest ->]]|destruct Hb as [[J [rest ->]]|[rest ->]]];
          now destruct (home _).
      * intros q v Hin. destruct (Hclass _ Hin) as [Hin1|[HX Hw]]; [now apply (Hap q v)|].
        apply (Hw b). destruct X as [|m0 r0]; [contradiction|].
        cbn [within]. apply (under_up m); [exact HtX|exact Hb].
Qed.

(** A removal at a call the run reaches. *)
Lemma removal_held (original current o n : value) (p k : string) :
  tidy original = true -> tidy current = true ->
  calls same_ref default_options original current "" o n p ->
  enters same_ref default_options o n p = true ->
  isPlainObject o = true -> isPlainObject n = true ->
  In k (own_keys o) -> has_own n k = false ->
  exists r,
    diff same_ref original current default_options = Ok r
    /\ change_at r (child_path p k) = Some VUndef.
Proof.
  intros Ho Hn Hcalls He Hpo Hpn Hk Hno.
  destruct (computeDiff_writes_total same_ref default_options eq_refl n o p [])
    as [t1 Hrun1].
  pose proof (computeDiff_reports_removals same_ref default_options o n p t1 k
                Hrun1 He Hpo Hpn Hk Hno) as Hin.
  destruct (diff_holds_call original current o n p t1 Ho Hn Hcalls Hrun1)
    as [r [ms [Hr [_ [_ [Hall _]]]]]].
  - exists (child_path p k), VUndef. split; [exact Hin|].
    intros [= _ <-]. inversion Hcalls; subst; discriminate.
  - exists r. split; [exact Hr|now apply Hall].
Qed.

(** The change of a scalar element at a call on two sequences of one
    length. *)
Lemma item_held (original current : value) (oelems elems : list (option value))
  (p : string) (i : nat) (x : value) :
  tidy original = true -> tidy current = true ->
  calls same_ref default_options original current "" (VArr oelems) (VArr elems) p ->
  enters same_ref default_options (VArr oelems) (VArr elems) p = true ->
  length oelems = length elems ->
  nth_error elems i = Some (Some x) ->
  is_scalar x = true ->
  strict_eq same_ref (slot oelems i) x = false ->
  exists r,
    diff same_ref original current default_options = Ok r
    /\ change_at r (item_path p i) = Some x
    /\ read_at r (address p ++ [ASlot (N.of_nat i)]) = None.
Proof.
  intros Ho Hn Hcalls He Hl Hi Hx Hs.
  destruct (computeDiff_writes_total same_ref default_options eq_refl
              (VArr elems) (VArr oelems) p []) as [t1 Hrun1].
  destruct (diff_holds_frame original current Ho Hn) as [t [Ht _]].
  destruct (calls_frame same_ref _ _ _ _ _ _ Hcalls [] t eq_refl eq_refl Ho Hn Ht)
    as [X [t1' [Hp [HtX [Hto [Htn [Hrun1' _]]]]]]].
  rewrite app_nil_r in *. rewrite Hrun1 in Hrun1'. injection Hrun1' as <-.
  pose proof Hrun1 as Hloop. rewrite computeDiff_items in Hloop by trivial.
  destruct (tidy_sequence elems Htn) as [Hlen Hel].
  subst p.
  destruct (items_split same_ref elems oelems X 0%nat [] i x Hel Hlen Hto HtX Hi)
    as [pre [ti [post [Hruni [Hsplit Hothers]]]]].
  cbn [Nat.add app] in Hruni, Hothers, Hsplit.
  rewrite computeDiff_scalar_changed in Hruni by trivial.
  injection Hruni as <-. rewrite Hloop in Hsplit. injection Hsplit as ->.
  destruct (diff_holds_call original current _ _ _ _ Ho Hn Hcalls Hrun1)
    as [r [ms [Hr [Hp [Hms [Hall Hframe]]]]]].
  - exists (item_path (path_of X) i), x. split.
    + rewrite in_app_iff. right. now left.
    + intros [= E _]. now apply item_path_nonempty in E.
  - exists r. split; [exact Hr|]. split.
    + apply Hall. rewrite in_app_iff. right. now left.
    + apply (Hframe (MItem i)).
      * rewrite Hp. now apply under_slot.
      * intros q v Hin. apply Forall_app in Hothers as [Hpre Hpost].
        rewrite List.Forall_forall in Hpre, Hpost.
        assert (Hother : forall w, (exists i', i' <> i /\ below (MItem i' :: X) w) ->
                  apart (address (fst (marks w)))
                        (address (path_of X) ++ [ASlot (N.of_nat i)])).
        { intros w [i' [Hne [[Y E] Htw]]]. cbn [marks fst]. rewrite E in *.
          apply (under_apart_items i' i X); trivial.
          - now apply under_address.
          - now apply under_slot. }
        rewrite in_app_iff in Hin. destruct Hin as [Hin|[E|Hin]].
        -- apply in_map_iff in Hin as [w [E Hw]].
           change q with (fst (q, v)). rewrite <- E. now apply Hother, Hpre.
        -- injection E as <- _.
           destruct (address_item (path_of X) i) as [pre0 [last [-> ->]]].
           rewrite <- app_assoc. apply apart_app. cbn [app]. apply apart_key.
           now apply append_not_self.
        -- apply in_map_iff in Hin as [w [E Hw]].
           change q with (fst (q, v)). rewrite <- E. now apply Hother, Hpost.
Qed.


End Results.

Section ChangeTreeClaims.
Context {host : Host}.
Variable same_ref : value -> value -> bool.

Lemma record_at_child (r : value) (q k : string) :
  Str.includes_dot k = false ->
  read_at r (address (child_path q k))
  = match record_at r q with
    | Some (VObj ps) => lookup_prop k ps
    | _ => None
    end.
Proof. intros Hk. now rewrite <- change_at_address, change_at_child. Qed.

(** C7, amended: in trees whose records name their members by path
    segments (each key once, not empty, with no dot, no opening bracket
    and no line terminator: [tidy]), at every call the run reaches on two
    records, each key of the old record that the new one lacks is an own
    property with the value [undefined] in the change tree [diff]
    returns, in the record the path of the call leads to.  For all trees
    the removal is among the reports of the run, which [diff] replays
    through [setChangePath]; at the top level, when no key of [original]
    holds a dot, the change tree has the removed non-empty key as an own
    property whose value is [undefined].  [diff({a:1,b:2}, {a:1})] is
    [{b: undefined}] and [diff({a:{b:1,c:2}}, {a:{c:2}})] is
    [{a:{b: undefined}}]. *)
Theorem diff_reports_removals :
  (forall original current,
     exists t,
       diff_writes same_ref original current default_options = Ok t
       /\ diff same_ref original current default_options
          = replay setChangePath t (VObj [])
       /\ forall o n p k,
            calls same_ref default_options original current "" o n p ->
            enters same_ref default_options o n p = true ->
            isPlainObject o = true -> isPlainObject n = true ->
            In k (own_keys o) -> has_own n k = false ->
            In (child_path p k, VUndef) t)
  /\ (forall original current,
        tidy original = true -> tidy current = true ->
        forall o n p k,
          calls same_ref default_options original current "" o n p ->
          enters same_ref default_options o n p = true ->
          isPlainObject o = true -> isPlainObject n = true ->
          In k (own_keys o) -> has_own n k = false ->
          exists r ps,
            diff same_ref original current default_options = Ok r
            /\ record_at r p = Some (VObj ps)
            /\ lookup_prop k ps = Some VUndef)
  /\ ((forall a b, same_ref a b = true -> a = b) ->
      (forall os cs r k,
         diff same_ref (VObj os) (VObj cs) default_options = Ok r ->
         Forall (fun k' => Str.includes_dot k' = false) (map fst os) ->
         k <> "" -> In k (map fst os) -> has_key k cs = false ->
         exists ps, r = VObj ps /\ lookup_prop k ps = Some VUndef)
      /\ diff same_ref
           (VObj [("a", VNum (num_of_N 1)); ("b", VNum (num_of_N 2))])
           (VObj [("a", VNum (num_of_N 1))]) default_options
         = Ok (VObj [("b", VUndef)])
      /\ diff same_ref
           (VObj [("a", VObj [("b", VNum (num_of_N 1)); ("c", VNum (num_of_N 2))])])
           (VObj [("a", VObj [("c", VNum (num_of_N 2))])]) default_options
         = Ok (VObj [("a", VObj [("b", VUndef)])])).
Proof.
  split; [|split; [|intros Hsound; split; [|split]]].
  - intros original current.
    destruct (computeDiff_writes_total same_ref default_options eq_refl
                current original "" []) as [t Ht].
    exists t. split; [exact Ht|]. split; [now apply diff_replays_writes|].
    intros o n p k Hcalls He Ho Hn Hk Hno.
    destruct (calls_incl same_ref default_options _ _ _ _ _ _ Hcalls t Ht)
      as [t' [Ht' Hincl]].
    apply Hincl.
    exact (computeDiff_reports_removals same_ref default_options o n p t' k
             Ht' He Ho Hn Hk Hno).
  - intros original current Hto Htn o n p k Hcalls He Ho Hn Hk Hno.
    destruct (removal_held same_ref original current o n p k Hto Htn Hcalls He Ho Hn Hk Hno)
      as [r [Hr Hat]].
    destruct (diff_holds_frame same_ref original current Hto Htn) as [t [Ht _]].
    destruct (calls_frame same_ref _ _ _ _ _ _ Hcalls [] t eq_refl eq_refl Hto Htn Ht)
      as [X [t1 [_ [_ [Hto' _]]]]].
    destruct (path_key_facts k (tidy_keys o k Hto' Ho Hk)) as [Hd _].
    rewrite (change_at_child r p k Hd) in Hat.
    destruct (record_at r p) as [[| | | | | | | |ps]|] eqn:Hrec; try discriminate.
    exists r, ps. split; [exact Hr|]. split; [exact Hrec|exact Hat].
  - intros os cs r k Hrun Hdots Hk Hin Hno.
    assert (He : enters same_ref default_options (VObj os) (VObj cs) "" = true).
    { unfold enters. simpl. destruct (same_ref (VObj os) (VObj cs)) eqn:E; [|reflexivity].
      apply Hsound in E. injection E as ->.
      rewrite (has_key_In _ _ Hin) in Hno. discriminate. }
    destruct (computeDiff_writes_total same_ref default_options eq_refl
                (VObj cs) (VObj os) "" []) as [t Ht].
    destruct (computeDiff_replays same_ref default_options _ _ _ _ _ Ht)
      as [t' [Heq [_ Hreplay]]].
    simpl in Heq. subst t'.
    unfold diff in Hrun. rewrite Hreplay in Hrun.
    rewrite computeDiff_record in Ht by (assumption || reflexivity).
    apply bind_Ok in Ht as [tm [_ Hdel]].
    pose proof (replays_trace _ _ tm (replays_deleted (VObj os) (VObj cs) "")) as Hd.
    cbv beta in Hd. rewrite Hd in Hdel. injection Hdel as <-.
    rewrite replay_app in Hrun. apply bind_Ok in Hrun as [c1 [Hc1 Hrun]].
    destruct (replay_keeps_record _ _ _ Hc1) as [ps1 ->].
    unfold deleted_writes in Hrun.
    assert (Hplain : Forall (fun k' => Str.includes_dot k' = false)
              (List.filter (fun key => negb (has_own (VObj cs) key)) (own_keys (VObj os)))).
    { apply List.Forall_forall. intros k' Hk'. apply filter_In in Hk' as [Hk' _].
      rewrite List.Forall_forall in Hdots. now apply Hdots. }
    destruct (replay_removals k _ ps1 r Hk Hplain Hrun) as [ps' [-> Hl]].
    exists ps'. split; [reflexivity|]. apply Hl. left.
    apply filter_In. split; [exact Hin|]. simpl. now rewrite Hno.
  - unfold diff.
    rewrite computeDiff_record; [|unfold enters; simpl|reflexivity].
    + simpl. unfold diff_head. simpl.
      rewrite num_of_N_eqb by reflexivity. reflexivity.
    + destruct (same_ref _ _) eqn:E; [|reflexivity]. apply Hsound in E. discriminate.
  - assert (Hne : forall a b, a <> b -> same_ref a b = false).
    { intros a b Hab. destruct (same_ref a b) eqn:E; [|reflexivity].
      now apply Hsound in E. }
    unfold diff.
    rewrite computeDiff_record; [|unfold enters; simpl; now rewrite Hne by discriminate
                                 |reflexivity].
    simpl. unfold diff_head. simpl. rewrite Hne by discriminate. simpl.
    rewrite num_of_N_eqb by reflexivity. reflexivity.
Qed.


(** C9, amended: with deep comparison on, a differing scalar element [i]
    of two sequences of one length is reported at the path
    [`${path}[${i}]`].  On tidy trees, for the sequences at a key [k]
    without a dot, the change tree [diff] returns holds the change under
    the literal key ["k[i]"] of the record the path of the parent leads
    to, and a sequence under [k], if other reports built one, holds
    nothing at [i].  The write itself sets the literal key and leaves the
    slot [i] of a sequence at the path as it was: a bracketed segment is
    expanded into a sequence only when another segment follows it.
    [diff({items:[1,2]}, {items:[1,3]})] is [{"items[1]": 3}] and
    [diff({a:{items:[1,2]}}, {a:{items:[1,3]}})] is
    [{a: {"items[1]": 3}}], while the path ["items[1].id"] builds
    [{items: [<empty>, {id: v}]}]. *)
Theorem diff_index_key :
  (forall (opts : diff_options) (oelems elems : list (option value)) (p : string)
          (i : nat) (x : value) t,
     compareArrays opts = true ->
     computeDiff same_ref record_write opts (VArr oelems) (VArr elems) p [] = Ok t ->
     enters same_ref opts (VArr oelems) (VArr elems) p = true ->
     length oelems = length elems ->
     nth_error elems i = Some (Some x) ->
     is_scalar x = true ->
     strict_eq same_ref (slot oelems i) x = false ->
     existsb (String.eqb (item_path p i)) (ignoreFields opts) = false ->
     In (item_path p i, x) t)
  /\ (forall original current,
        tidy original = true -> tidy current = true ->
        forall (oelems elems : list (option value)) (q k : string) (i : nat) (x : value),
          calls same_ref default_options original current "" (VArr oelems) (VArr elems)
                (child_path q k) ->
          Str.includes_dot k = false ->
          enters same_ref default_options (VArr oelems) (VArr elems) (child_path q k)
          = true ->
          length oelems = length elems ->
          nth_error elems i = Some (Some x) ->
          is_scalar x = true ->
          strict_eq same_ref (slot oelems i) x = false ->
          exists r ps,
            diff same_ref original current default_options = Ok r
            /\ record_at r q = Some (VObj ps)
            /\ lookup_prop (k ++ "[" ++ Str.of_nat i ++ "]")%string ps = Some x
            /\ forall es, lookup_prop k ps = Some (VArr es) -> slot_opt es i = None)
  /\ (forall (c : value) (p : string) (i : nat) (x : value),
        admits c (address (item_path p i)) ->
        bounded (address (item_path p i)) ->
        exists c',
          setChangePath c (item_path p i) x = Ok c'
          /\ change_at c' (item_path p i) = Some x
          /\ read_at c' (address p ++ [ASlot (N.of_nat i)])
             = read_at c (address p ++ [ASlot (N.of_nat i)]))
  /\ (forall (ps : props) (k : string) (i : nat) (v : value),
        Str.includes_dot k = false ->
        setChangePath (VObj ps) (item_path k i) v
        = Ok (VObj (obj_set (item_path k i) v ps)))
  /\ (forall v : value,
        setChangePath (VObj []) "items[1].id" v
        = Ok (VObj [("items", VArr [None; Some (VObj [("id", v)])])]))
  /\ ((forall a b, same_ref a b = true -> a = b) ->
      diff same_ref
        (VObj [("items", VArr [Some (VNum (num_of_N 1)); Some (VNum (num_of_N 2))])])
        (VObj [("items", VArr [Some (VNum (num_of_N 1)); Some (VNum (num_of_N 3))])])
        default_options
      = Ok (VObj [("items[1]", VNum (num_of_N 3))])
      /\ diff same_ref
           (VObj [("a", VObj [("items", VArr [Some (VNum (num_of_N 1));
                                              Some (VNum (num_of_N 2))])])])
           (VObj [("a", VObj [("items", VArr [Some (VNum (num_of_N 1));
                                              Some (VNum (num_of_N 3))])])])
           default_options
         = Ok (VObj [("a", VObj [("items[1]", VNum (num_of_N 3))])])
      /\ diff same_ref
           (VObj [("items", VArr [Some (VObj [("id", VNum (num_of_N 1))]);
                                  Some (VObj [("id", VNum (num_of_N 2))])])])
           (VObj [("items", VArr [Some (VObj [("id", VNum (num_of_N 1))]);
                                  Some (VObj [("id", VNum (num_of_N 3))])])])
           default_options
         = Ok (VObj [("items", VArr [None; Some (VObj [("id", VNum (num_of_N 3))])])])).
Proof.
  split; [|split; [|split; [|split; [|split]]]].
  - intros opts oelems elems p i x t Hdeep Hrun He Hl Hi Hx Hs Hig.
    rewrite computeDiff_items in Hrun by assumption.
    destruct (diff_items_incl same_ref opts _ _ _ _ _ _ _ _ Hrun Hi) as [tx [Htx Hincl]].
    simpl in Htx. rewrite computeDiff_scalar_changed in Htx by assumption.
    assert (Heq : tx = [(item_path p i, x)])
      by (unfold record_write in Htx; simpl in Htx; congruence).
    subst tx. apply Hincl. now left.
  - intros original current Hto Htn oelems elems q k i x Hcalls Hd He Hl Hi Hx Hs.
    destruct (item_held same_ref original current oelems elems (child_path q k) i x
                Hto Htn Hcalls He Hl Hi Hx Hs) as [r [Hr [Hat Hslot]]].
    rewrite (change_at_item r q k i Hd) in Hat.
    rewrite read_at_app, (record_at_child r q k Hd) in Hslot.
    destruct (record_at r q) as [[| | | | | | | |ps]|] eqn:Hrec; try discriminate.
    exists r, ps. split; [exact Hr|]. split; [exact Hrec|]. split; [exact Hat|].
    intros es Hes. rewrite Hes in Hslot. cbn [read_at child] in Hslot.
    rewrite Nat2N.id in Hslot. now destruct (slot_opt es i).
  - exact setChangePath_item_literal.
  - intros ps k i v Hk. destruct (item_path_plain k i Hk) as [Hd Hne].
    now apply setChangePath_plain.
  - intros v. reflexivity.
  - intros Hsound.
    assert (Hne : forall a b, a <> b -> same_ref a b = false).
    { intros a b Hab. destruct (same_ref a b) eqn:E; [|reflexivity].
      now apply Hsound in E. }
    assert (Hnum : forall a b, (a < 2 ^ 53)%N -> (b < 2 ^ 53)%N -> a <> b ->
                               num_of_N a <> num_of_N b).
    { intros a b Ha Hb Hab E. now apply num_of_N_inj in E. }
    split; [|split]; unfold diff.
    + rewrite computeDiff_record; [|unfold enters; simpl|reflexivity].
      * simpl. unfold diff_head. simpl.
        rewrite Hne by (intros [= E]; now apply Hnum in E). simpl.
        rewrite !num_of_N_eqb by reflexivity. reflexivity.
      * rewrite Hne; [reflexivity|]. intros [= E]. now apply Hnum in E.
    + rewrite computeDiff_record; [|unfold enters; simpl|reflexivity].
      * simpl. unfold diff_head. simpl.
        rewrite !Hne by (intros [= E]; now apply Hnum in E). simpl.
        rewrite !num_of_N_eqb by reflexivity. reflexivity.
      * rewrite Hne; [reflexivity|]. intros [= E]. now apply Hnum in E.
    + rewrite computeDiff_record; [|unfold enters; simpl|reflexivity].
      * simpl. unfold diff_head, slot. simpl.
        destruct (same_ref (VObj [("id", VNum (num_of_N 1))])
                           (VObj [("id", VNum (num_of_N 1))]));
          rewrite !Hne by (intros [= E]; now apply Hnum in E); simpl;
          rewrite !num_of_N_eqb by reflexivity; reflexivity.
      * rewrite Hne; [reflexivity|]. intros [= E]. now apply Hnum in E.
Qed.

End ChangeTreeClaims.

(** ** The store *)

Module StoreFacts.
Import Store.

Section WithHost.
Context {host : Host}.

Lemma grows_ret {A : Type} (a : A) : grows (ret a).
Proof. intros h a' h' [= _ <-]. reflexivity. Qed.

Lemma grows_throw {A : Type} (e : error) : grows (@throw _ A e).
Proof. intros h a h' [=]. Qed.

Lemma grows_unmodelled {A : Type} : grows (@unmodelled _ A).
Proof. intros h a h' [=]. Qed.

Lemma grows_alloc (o : hobj) : grows (alloc o).
Proof. intros h a h' [= _ <-]. rewrite length_app. simpl. lia. Qed.

Lemma grows_load (l : loc) : grows (load l).
Proof.
  intros h a h'. unfold load.
  destruct (h !! l); [intros [= _ <-]|intros [=]]. reflexivity.
Qed.

Lemma grows_store_at (l : loc) (o : hobj) : grows (store_at l o).
Proof.
  intros h a h'. unfold store_at. intros [= _ <-].
  unfold store, loc in *. now rewrite length_insert.
Qed.

Lemma grows_bind {A B : Type} (m : M A) (k : A -> M B) :
  grows m -> (forall a, grows (k a)) -> grows (mbind m k).
Proof.
  intros Hm Hk h b h'. unfold mbind.
  destruct (m h) as [[a h1]| |] eqn:E; try discriminate.
  intros H. etransitivity; [exact (Hm _ _ _ E)|exact (Hk _ _ _ _ H)].
Qed.

Lemma grows_each {A : Type} (f : A -> M unit) (l : list A) :
  (forall a, grows (f a)) -> grows (each f l).
Proof.
  intros Hf. induction l as [|a l IH]; simpl.
  - apply grows_ret.
  - apply grows_bind; [apply Hf|intros _; exact IH].
Qed.

Lemma grows_mfold {A B : Type} (f : B -> A -> M B) (l : list A) (b : B) :
  (forall b a, grows (f b a)) -> grows (mfold f l b).
Proof.
  intros Hf. revert b. induction l as [|a l IH]; intros b; simpl.
  - apply grows_ret.
  - apply grows_bind; [apply Hf|intros b'; apply IH].
Qed.

Lemma grows_stringify (v : hval) : grows (stringify v).
Proof.
  intros h a h'. unfold stringify.
  destruct (reify _ h v); [|discriminate].
  destruct (JSON_stringify v0); try discriminate. intros [= _ <-]. reflexivity.
Qed.

Create HintDb grows.
#[local] Hint Resolve grows_ret grows_throw grows_unmodelled grows_alloc grows_load
  grows_store_at grows_stringify : grows.

Ltac grows_step :=
  match goal with
  | |- grows (mbind _ _) => apply grows_bind; [|intros]
  | |- grows (each _ _) => apply grows_each; intros
  | |- grows (mfold _ _ _) => apply grows_mfold; intros
  | |- grows (if ?b then _ else _) => destruct b
  | |- grows (match ?x with _ => _ end) => destruct x
  | |- grows _ => solve [auto with grows]
  end.

Ltac grows_tac := repeat grows_step.

Lemma grows_isPlainObject v : grows (isPlainObject v).
Proof. unfold isPlainObject. grows_tac. Qed.

Lemma grows_isArray v : grows (isArray v).
Proof. unfold isArray. grows_tac. Qed.

Lemma grows_own_slots v : grows (own_slots v).
Proof. unfold own_slots. grows_tac. Qed.

Lemma grows_get_own v k : grows (get_own v k).
Proof. unfold get_own. grows_tac. Qed.

Lemma grows_get_prop v k : grows (get_prop v k).
Proof. unfold get_prop, get_own. grows_tac. Qed.

Lemma grows_get_prop_opt v k : grows (get_prop_opt v k).
Proof. unfold get_prop_opt, get_own. grows_tac. Qed.

Lemma grows_set_prop v k x : grows (set_prop v k x).
Proof. unfold set_prop. grows_tac. Qed.

Lemma grows_own_props v : grows (own_props v).
Proof. unfold own_props. grows_tac. Qed.

Lemma grows_has_own v k : grows (has_own v k).
Proof. unfold has_own. grows_tac. Qed.

#[local] Hint Resolve grows_isPlainObject grows_isArray grows_own_slots grows_get_own
  grows_get_prop grows_get_prop_opt grows_set_prop grows_own_props grows_has_own : grows.

Lemma grows_spread vs : grows (spread vs).
Proof. unfold spread. grows_tac. Qed.

Lemma grows_object_assign obj v : grows (object_assign obj v).
Proof. unfold object_assign. grows_tac. Qed.

Lemma grows_setChange_loop keys : forall current lastKey v,
  grows (setChange_loop current keys lastKey v).
Proof.
  induction keys as [|key rest IH]; intros current lastKey v; simpl; grows_tac.
Qed.

#[local] Hint Resolve grows_spread grows_object_assign grows_setChange_loop : grows.

Lemma grows_setChangePath obj path v : grows (setChangePath obj path v).
Proof. unfold setChangePath. grows_tac. Qed.

#[local] Hint Resolve grows_setChangePath : grows.

Lemma grows_computeDiff fuel : forall opts changes oldVal newVal path,
  grows (computeDiff fuel opts changes oldVal newVal path).
Proof.
  induction fuel as [|fuel IH]; intros opts changes oldVal newVal path; simpl;
    grows_tac.
Qed.

#[local] Hint Resolve grows_computeDiff : grows.

Lemma grows_diff fuel original current opts : grows (diff fuel original current opts).
Proof. unfold diff. grows_tac. Qed.

Lemma grows_hasChanges a b : grows (hasChanges a b).
Proof. unfold hasChanges. grows_tac. Qed.

#[local] Hint Resolve grows_diff grows_hasChanges : grows.














(** *** The bound on the recursion *)









(** *** A run on a shallow edit *)


















End WithHost.
End StoreFacts.

(** * Concrete runs *)

Module Runs.
Import IntHost Examples.

Lemma distinct_sound : forall a b : value, distinct a b = true -> a = b.
Proof. intros a b H. discriminate H. Qed.

(** The round trip on a contact record: the mapped paths [user_name],
    [contact.email_address] and [contact.phone] read the same in the
    source and in the payload built back from the form. *)
Lemma roundtrip_two_levels_run :
  exists form r,
    normalize no_fn contact_source (VObj contact_mapping) coercion_off = Ok form
    /\ denormalize no_fn form (VObj contact_mapping) denormalize_defaults = Ok r
    /\ forall path name, In (path, name) (mapped_leaves contact_mapping) ->
         getNestedValue r (dotted path) = getNestedValue contact_source (dotted path).
Proof.
  apply roundtrip_two_levels; try reflexivity.
  repeat constructor; simpl; intuition discriminate.
Defined.

Lemma diff_same_witness :
  well_formed nested_tree = true
  /\ nan_free nested_tree = true
  /\ diff distinct nested_tree nested_tree default_options = Ok (VObj [])
  /\ diff (fun _ _ => true) nested_tree nested_tree default_options = Ok (VObj []).
Proof.
  split; [reflexivity|]. split; [reflexivity|]. split.
  - apply (proj2 (diff_same distinct nested_tree)); reflexivity.
  - apply (proj1 (diff_same (fun _ _ => true) nested_tree)). right. reflexivity.
Defined.

Lemma diff_reports_removals_witness :
  (exists t,
     diff_writes distinct (VObj [("a", num 1); ("b", num 2)]) (VObj [("a", num 1)])
                 default_options = Ok t
     /\ In ("b", VUndef) t)
  /\ (exists r ps,
        diff distinct (VObj [("a", VObj [("b", num 1); ("c", num 2)])])
             (VObj [("a", VObj [("c", num 2)])]) default_options = Ok r
        /\ record_at r "a" = Some (VObj ps)
        /\ lookup_prop "b" ps = Some VUndef)
  /\ (exists ps,
        diff distinct (VObj [("a", num 1); ("b", num 2)]) (VObj [("a", num 1)])
             default_options = Ok (VObj ps)
        /\ lookup_prop "b" ps = Some VUndef)
  /\ diff distinct (VObj [("a", num 1); ("b", num 2)]) (VObj [("a", num 1)])
          default_options = Ok (VObj [("b", VUndef)]).
Proof.
  split; [|split; [|split]].
  - destruct (proj1 (diff_reports_removals distinct)
                (VObj [("a", num 1); ("b", num 2)]) (VObj [("a", num 1)]))
      as [t [Ht [_ Hall]]].
    exists t. split; [exact Ht|].
    apply (Hall (VObj [("a", num 1); ("b", num 2)]) (VObj [("a", num 1)]) "" "b").
    + apply calls_here.
    + reflexivity.
    + reflexivity.
    + reflexivity.
    + right. left. reflexivity.
    + reflexivity.
  - apply (proj1 (proj2 (diff_reports_removals distinct))
             (VObj [("a", VObj [("b", num 1); ("c", num 2)])])
             (VObj [("a", VObj [("c", num 2)])]) eq_refl eq_refl
             (VObj [("b", num 1); ("c", num 2)]) (VObj [("c", num 2)]) "a" "b").
    + apply (calls_key distinct default_options _ [("a", VObj [("c", num 2)])] "" "a"
               (VObj [("c", num 2)])); [reflexivity|reflexivity|now left|apply calls_here].
    + reflexivity.
    + reflexivity.
    + reflexivity.
    + left. reflexivity.
    + reflexivity.
  - destruct (proj1 (proj2 (proj2 (diff_reports_removals distinct)) distinct_sound)
                [("a", num 1); ("b", num 2)] [("a", num 1)] (VObj [("b", VUndef)]) "b")
      as [ps [Heq Hl]].
    + reflexivity.
    + repeat constructor.
    + discriminate.
    + right. left. reflexivity.
    + reflexivity.
    + exists ps. split; [now rewrite <- Heq|exact Hl].
  - exact (proj1 (proj2 (proj2 (proj2 (diff_reports_removals distinct)) distinct_sound))).
Defined.


Lemma diff_index_key_witness :
  In ("items[1]", num 3) [("items[1]", num 3)]
  /\ (exists r ps,
        diff distinct (VObj [("a", VObj [("items", VArr [Some (num 1); Some (num 2)])])])
             (VObj [("a", VObj [("items", VArr [Some (num 1); Some (num 3)])])])
             default_options = Ok r
        /\ record_at r "a" = Some (VObj ps)
        /\ lookup_prop "items[1]" ps = Some (num 3)
        /\ forall es, lookup_prop "items" ps = Some (VArr es) -> slot_opt es 1 = None)
  /\ (exists c',
        setChangePath (VObj [("a", VObj [])]) "a.items[1]" (num 3) = Ok c'
        /\ change_at c' "a.items[1]" = Some (num 3)
        /\ read_at c' [AKey "a"; AKey "items"; ASlot 1] = None)
  /\ setChangePath (VObj []) "items[1]" (num 3) = Ok (VObj [("items[1]", num 3)])
  /\ diff distinct (VObj [("items", VArr [Some (num 1); Some (num 2)])])
          (VObj [("items", VArr [Some (num 1); Some (num 3)])]) default_options
     = Ok (VObj [("items[1]", num 3)]).
Proof.
  split; [|split; [|split; [|split]]].
  - apply (proj1 (diff_index_key distinct) default_options
             [Some (num 1); Some (num 2)] [Some (num 1); Some (num 3)] "items" 1%nat
             (num 3) [("items[1]", num 3)]); reflexivity.
  - apply (proj1 (proj2 (diff_index_key distinct))
             (VObj [("a", VObj [("items", VArr [Some (num 1); Some (num 2)])])])
             (VObj [("a", VObj [("items", VArr [Some (num 1); Some (num 3)])])])
             eq_refl eq_refl
             [Some (num 1); Some (num 2)] [Some (num 1); Some (num 3)] "a" "items"
             1%nat (num 3)).
    + apply (calls_key distinct default_options _
               [("a", VObj [("items", VArr [Some (num 1); Some (num 3)])])]
               "" "a" (VObj [("items", VArr [Some (num 1); Some (num 3)])]));
        [reflexivity|reflexivity|now left|].
      apply (calls_key distinct default_options _
               [("items", VArr [Some (num 1); Some (num 3)])]
               "a" "items" (VArr [Some (num 1); Some (num 3)]));
        [reflexivity|reflexivity|now left|apply calls_here].
    + reflexivity.
    + reflexivity.
    + reflexivity.
    + reflexivity.
    + reflexivity.
    + reflexivity.
  - apply (proj1 (proj2 (proj2 (diff_index_key distinct)))
             (VObj [("a", VObj [])]) "a.items" 1%nat (num 3)).
    + simpl. repeat split.
    + repeat constructor.
  - apply (proj1 (proj2 (proj2 (proj2 (diff_index_key distinct)))) [] "items" 1%nat (num 3)).
    reflexivity.
  - exact (proj1 (proj2 (proj2 (proj2 (proj2 (proj2 (diff_index_key distinct)))))
                    distinct_sound)).
Defined.

Lemma coerceType_rules_witness :
  coerceType (num 5) = num 5
  /\ coerceType (VStr "2020-01-02T10:00:00Z") = VDate (num_of_N 1577959200000).
Proof.
  split.
  - apply (proj1 (proj2 (coerceType_rules no_fn)) (num 5)). intros s H. discriminate H.
  - rewrite (proj1 (coerceType_rules no_fn)). reflexivity.
Defined.

(** Two dates that differ: the texts differ, [diff] reports nothing, and
    the patch is [null]. *)
Lemma patch_null_when_diff_empty_witness :
  isEqual (VObj [("a", VDate (num_of_N 1))]) (VObj [("a", VDate (num_of_N 2))]) = Ok false
  /\ diff distinct (VObj [("a", VDate (num_of_N 1))]) (VObj [("a", VDate (num_of_N 2))])
          default_options = Ok (VObj [])
  /\ buildPatchPayload no_fn distinct
       (VObj [("a", VDate (num_of_N 1))]) (VObj [("a", VDate (num_of_N 2))])
       (VObj [("a", VStr "a")]) builder_defaults
     = Ok VNull.
Proof.
  split; [reflexivity|]. split; [reflexivity|].
  apply (patch_null_when_diff_empty no_fn distinct _ _ _ (VObj []) VNull false);
    reflexivity.
Defined.

Lemma clone_overrides_keys_witness :
  unique_keys [("defaults", VObj [("username", VStr "guest")])] = true
  /\ Mapper_clone handle guest_overrides
     = Mapper_new (Mapper_overridden handle guest_overrides).
Proof.
  split; [reflexivity|].
  apply (clone_overrides_keys handle [("defaults", VObj [("username", VStr "guest")])]).
  reflexivity.
Defined.

(** C2 as stated fails: every changed field is unmapped, the patch is
    [null], and the change tree is not empty. *)
Lemma patch_null_despite_changes :
  ~ (buildPatchPayload no_fn distinct (VObj [("x", num 1)]) (VObj [("x", num 2)])
       unmapped_mapping builder_defaults = Ok VNull
     <-> diff distinct (VObj [("x", num 1)]) (VObj [("x", num 2)]) default_options
         = Ok (VObj [])).
Proof. intros [H _]. specialize (H eq_refl). discriminate H. Qed.

(** C4 as stated fails: the clone's defaults are the override's record,
    whole; a deep merge would keep the key [theme] of the handle. *)
Lemma clone_is_not_deep_merge :
  Mapper_new handle_config = Ok handle
  /\ Mapper_clone handle guest_overrides = Ok guest_handle
  /\ Mapper_config guest_handle <> deepMerge (Mapper_config handle) guest_overrides
  /\ get_own (deepMerge (Mapper_config handle) guest_overrides) "defaults"
     = VObj [("username", VStr "guest"); ("theme", VStr "light")].
Proof.
  split; [reflexivity|]. split; [reflexivity|]. split; [|reflexivity].
  intros H. discriminate H.
Qed.

(** C7 as stated fails: the key [""] of the original is absent from the
    current record, and the change tree is empty.  The removal is
    reported at the path [""], where [setChangePath] merges
    [undefined] into the change record. *)
Lemma removal_of_empty_key_is_dropped :
  In "" (own_keys (VObj [("", num 1)]))
  /\ has_own (VObj []) "" = false
  /\ diff_writes distinct (VObj [("", num 1)]) (VObj []) default_options
     = Ok [("", VUndef)]
  /\ diff distinct (VObj [("", num 1)]) (VObj []) default_options = Ok (VObj []).
Proof. repeat split; try reflexivity. now left. Qed.

(** A removal below a key is lost when a later key holds a dot and
    reads as the same path. *)
Lemma removal_overwritten_by_dotted_key :
  diff distinct
    (VObj [("a", VObj [("b", num 1)]); ("a.b", num 2)])
    (VObj [("a", VObj []); ("a.b", num 3)]) default_options
  = Ok (VObj [("a", VObj [("b", num 3)])]).
Proof. reflexivity. Qed.

(** A removal below a key that ends in a bracketed index is lost when the
    sequence of that name is replaced afterwards. *)
Lemma removal_overwritten_by_bracketed_key :
  diff distinct
    (VObj [("x[0]", VObj [("k", num 1)]); ("x", VArr [Some (num 5)])])
    (VObj [("x[0]", VObj []); ("x", VArr [Some (num 6); Some (num 7)])])
    default_options
  = Ok (VObj [("x", VArr [Some (num 6); Some (num 7)])]).
Proof. reflexivity. Qed.


(** C9 as stated fails: for a key that holds a dot the change of the
    element is stored under the text after the dot, in a record under the
    text before it; the change record has no key ["a.b[1]"]. *)
Lemma dotted_key_index_is_nested :
  diff distinct (VObj [("a.b", VArr [Some (num 1); Some (num 2)])])
       (VObj [("a.b", VArr [Some (num 1); Some (num 3)])]) default_options
  = Ok (VObj [("a", VObj [("b[1]", num 3)])])
  /\ lookup_prop "a.b[1]" [("a", VObj [("b[1]", num 3)])] = None.
Proof. split; reflexivity. Qed.

(** The change of an element is lost when the record has a key of the
    same text as the path of the element. *)
Lemma index_key_overwritten_by_bracketed_key :
  diff distinct
    (VObj [("items", VArr [Some (num 1); Some (num 2)]); ("items[1]", num 6)])
    (VObj [("items", VArr [Some (num 1); Some (num 3)]); ("items[1]", num 7)])
    default_options
  = Ok (VObj [("items[1]", num 7)]).
Proof. reflexivity. Qed.


(** [normalize] copies the defaults one level deep: a dotted target name
    that enters a nested record of the defaults writes into that record. *)
Lemma normalize_writes_into_defaults :
  exists h',
    Store.normalize (Store.HRef 2) city_mapping true (Store.HRef 0) defaults_store
    = Ok (Store.HRef 3, h')
    /\ defaults_store !! 1%nat = Some (Store.HRecord [("country", Store.HStr "US")])
    /\ h' !! 1%nat
       = Some (Store.HRecord [("country", Store.HStr "US"); ("city", Store.HStr "Paris")]).
Proof. eexists. repeat split; reflexivity. Qed.


(** ** Runs of the rest of the library *)

Lemma setNestedValue_then_get_run :
  setNestedValue (VObj [("a", num 1)]) "b.c" (num 2)
  = Ok (VObj [("a", num 1); ("b", VObj [("c", num 2)])])
  /\ getNestedValue (VObj [("a", num 1); ("b", VObj [("c", num 2)])]) "b.c" = num 2.
Proof.
  split; [reflexivity|].
  exact (proj1 (setNestedValue_then_get [("a", num 1)] "b.c" (num 2) _ eq_refl)).
Defined.

Lemma setNestedValue_other_keys_run :
  get_own (VObj [("a", num 1); ("b", VObj [("c", num 2)])]) "a"
  = get_own (VObj [("a", num 1)]) "a".
Proof.
  apply (setNestedValue_other_keys [("a", num 1)] "b.c" (num 2)).
  - reflexivity.
  - discriminate.
Defined.

Lemma deepClone_equal_run :
  deepClone nested_tree = nested_tree /\ deepClone (VDate (num_of_N 0)) = VObj [].
Proof.
  split.
  - apply (proj1 deepClone_equal); reflexivity.
  - apply (proj2 deepClone_equal).
Defined.

Lemma invertMapping_flat_run :
  get_own (invertMapping (VObj shared_name_mapping)) "username" = VStr "login"
  /\ get_own (invertMapping (VObj shared_name_mapping)) "user_name" = VUndef.
Proof.
  split.
  - exact (invertMapping_flat shared_name_mapping "username" eq_refl).
  - exact (invertMapping_flat shared_name_mapping "user_name" eq_refl).
Defined.

Lemma deepMerge_lookup_run :
  get_own (deepMerge (VObj [("a", VObj [("x", num 1)]); ("b", num 2)])
                     (VObj [("a", VObj [("y", num 3)])])) "a"
  = VObj [("x", num 1); ("y", num 3)]
  /\ get_own (deepMerge (VObj [("a", VObj [("x", num 1)]); ("b", num 2)])
                        (VObj [("a", VObj [("y", num 3)])])) "b"
     = num 2.
Proof.
  split.
  - exact (deepMerge_lookup [("a", VObj [("x", num 1)]); ("b", num 2)]
             [("a", VObj [("y", num 3)])] "a" eq_refl eq_refl).
  - exact (deepMerge_lookup [("a", VObj [("x", num 1)]); ("b", num 2)]
             [("a", VObj [("y", num 3)])] "b" eq_refl eq_refl).
Defined.

Lemma normalize_is_normalizeFlat_run :
  normalize no_fn contact_source (VObj shared_name_mapping) coercion_off
  = normalizeFlat contact_source (VObj shared_name_mapping)
  /\ normalizeFlat contact_source (VObj shared_name_mapping)
     = Ok (VObj [("username", VStr "ann")]).
Proof.
  split; [|reflexivity].
  apply (normalize_is_normalizeFlat no_fn contact_source shared_name_mapping);
    reflexivity.
Defined.

Lemma normalize_source_over_defaults_run :
  exists fs,
    normalize no_fn contact_source (VObj contact_mapping) phone_default = Ok (VObj fs)
    /\ (forall path name, In (path, name) (mapped_leaves contact_mapping) ->
          get_own (VObj fs) name
          = let v := getNested_loop contact_source path in
            if is_undefined v then get_own (spread [defaultValues phone_default]) name
            else coerced phone_default v)
    /\ (forall k, ~ In k (map snd (mapped_leaves contact_mapping)) ->
          get_own (VObj fs) k = get_own (spread [defaultValues phone_default]) k).
Proof.
  apply (normalize_source_over_defaults no_fn phone_default eq_refl
           contact_mapping contact_source); try reflexivity.
  repeat constructor; simpl; intuition discriminate.
Defined.

Lemma undefined_member_is_no_change_run :
  hasChanges (VObj [("a", num 1)]) (VObj [("a", num 1); ("b", VUndef)]) = Ok false
  /\ forall mapping opts,
       buildPatchPayload no_fn distinct (VObj [("a", num 1)])
                         (VObj [("a", num 1); ("b", VUndef)]) mapping opts = Ok VNull.
Proof.
  exact (undefined_member_is_no_change no_fn distinct
           [("a", num 1); ("b", VUndef)] _ eq_refl eq_refl).
Defined.

Lemma buildPartialPayload_listed_only_run :
  buildPartialPayload no_fn (VObj [("username", VStr "ann"); ("age", num 30)])
                      ["username"] (VObj [("user_name", VStr "username")])
                      denormalize_defaults
  = buildPartialPayload no_fn (VObj [("username", VStr "ann"); ("age", num 31)])
                        ["username"] (VObj [("user_name", VStr "username")])
                        denormalize_defaults.
Proof.
  apply buildPartialPayload_listed_only.
  intros f [<-|[]]. reflexivity.
Defined.

Lemma createPatchFromApi_unedited_run :
  Mapper_createPatchFromApi no_fn distinct handle
    (VObj [("user_name", VStr "ann")])
    (VObj [("username", VStr "ann"); ("theme", VStr "light")])
  = Ok VNull.
Proof.
  exact (createPatchFromApi_unedited no_fn distinct handle
           (VObj [("user_name", VStr "ann")])
           (VObj [("username", VStr "ann"); ("theme", VStr "light")]) _
           eq_refl eq_refl).
Defined.

Lemma post_fails_on_third_level_run :
  let mapping := VObj [("a", VObj [("b", VObj deep_mapping_inner)])] in
  (forall r, buildPostPayload no_fn (VObj [("x", num 1)]) mapping builder_defaults
             <> Ok r)
  /\ (forall r, buildPutPayload no_fn (VObj [("x", num 1)]) mapping builder_defaults
                <> Ok r)
  /\ buildPostPayload no_fn (VObj [("x", num 1)]) mapping builder_defaults
     = Throw TypeError.
Proof.
  destruct (post_fails_on_third_level no_fn (VObj [("x", num 1)]) "a" "b"
              deep_mapping_inner builder_defaults eq_refl) as [Hpost [Hput Hthrow]].
  - constructor; [split; [discriminate|reflexivity]|constructor].
  - split; [exact Hpost|]. split; [exact Hput|]. now apply Hthrow.
Defined.

Lemma ignored_path_gets_no_value_run :
  diff distinct (VObj [("a", num 1); ("b", num 2)]) (VObj [("a", num 5)])
       {| compareArrays := true; ignoreFields := ["b"] |}
  = replay setChangePath [("a", num 5); ("b", VUndef)] (VObj [])
  /\ forall p v,
       In (p, v) [("a", num 5); ("b", VUndef)] ->
       existsb (String.eqb p) ["b"] = true -> v = VUndef.
Proof.
  exact (ignored_path_gets_no_value distinct
           {| compareArrays := true; ignoreFields := ["b"] |}
           (VObj [("a", num 1); ("b", num 2)]) (VObj [("a", num 5)])
           [("a", num 5); ("b", VUndef)] eq_refl).
Defined.

Lemma changed_paths_of_flat_form_run :
  exists t,
    diff_writes distinct (VObj [("a", num 1); ("b", num 2)])
                (VObj [("a", num 5); ("c", VStr "new")]) default_options = Ok t
    /\ diff distinct (VObj [("a", num 1); ("b", num 2)])
            (VObj [("a", num 5); ("c", VStr "new")]) default_options
       = replay setChangePath t (VObj [])
    /\ getChangedPaths distinct (VObj [("a", num 1); ("b", num 2)])
                       (VObj [("a", num 5); ("c", VStr "new")]) = Ok (map fst t).
Proof.
  apply (changed_paths_of_flat_form distinct). reflexivity.
Defined.

Lemma diff_applies_to_flat_form_run :
  exists ds,
    diff distinct (VObj [("a", num 1); ("b", num 2)])
         (VObj [("a", num 5); ("c", VStr "new")]) default_options = Ok (VObj ds)
    /\ forall k,
         get_own (spread [VObj [("a", num 1); ("b", num 2)]; VObj ds]) k
         = get_own (VObj [("a", num 5); ("c", VStr "new")]) k
         \/ strict_eq distinct
              (get_own (spread [VObj [("a", num 1); ("b", num 2)]; VObj ds]) k)
              (get_own (VObj [("a", num 5); ("c", VStr "new")]) k) = true.
Proof.
  apply (diff_applies_to_flat_form distinct); try reflexivity.
  exact distinct_sound.
Defined.

Lemma arrayMatch_item_path_run :
  Str.arrayMatch "items[12]" = Some ("items", 12%N)
  /\ Str.arrayMatch "[12]" = None.
Proof.
  split.
  - apply (proj1 (arrayMatch_item_path 12) "items"); [discriminate|reflexivity].
  - apply (proj2 (arrayMatch_item_path 12)).
Defined.

Lemma setChangePath_item_field_run :
  setChangePath (VObj []) "items[2].id" (num 7)
  = Ok (VObj [("items", VArr [None; None; Some (VObj [("id", num 7)])])]).
Proof.
  apply (setChangePath_item_field "items" "id" 2 (num 7));
    try reflexivity; discriminate.
Defined.

Lemma unflatten_flatten_run :
  flattenObject (VObj profile) ""
  = VObj [("a.b", num 1); ("a.c.d", VStr "s"); ("e", VNull)]
  /\ unflattenObject (flattenObject (VObj profile) "") = Ok (VObj profile).
Proof.
  split; [reflexivity|]. apply unflatten_flatten. reflexivity.
Defined.

Lemma getConfig_drops_validator_run :
  exists m,
    Mapper_new (Mapper_getConfig checked_handle) = Ok m
    /\ validator m = VNull
    /\ apiToFormMapping m = deepClone (apiToFormMapping checked_handle).
Proof.
  apply (getConfig_drops_validator checked_handle [("user_name", VStr "username")]).
  - reflexivity.
  - discriminate.
Defined.

(** The removal of a top-level key gives no patch; the removal of a key
    of a nested record is sent inside that record. *)
Lemma patch_omits_top_level_removals_run :
  diff distinct (VObj [("a", num 1); ("b", num 2)]) (VObj [("a", num 1)]) default_options
  = Ok (VObj [("b", VUndef)])
  /\ buildPatchPayload no_fn distinct (VObj [("a", num 1); ("b", num 2)])
       (VObj [("a", num 1)]) (VObj [("api_a", VStr "a"); ("api_b", VStr "b")])
       builder_defaults
     = Ok VNull
  /\ diff distinct (VObj [("a", VObj [("b", VStr "x")])]) (VObj [("a", VObj [])])
          default_options
     = Ok (VObj [("a", VObj [("b", VUndef)])])
  /\ buildPatchPayload no_fn distinct (VObj [("a", VObj [("b", VStr "x")])])
       (VObj [("a", VObj [])]) (VObj [("api_a", VStr "a")]) builder_defaults
     = Ok (VObj [("api_a", VObj [("b", VUndef)])]).
Proof.
  split; [reflexivity|]. split; [|split; [reflexivity|]].
  - apply (proj1 (patch_omits_top_level_removals no_fn distinct _ _
                    (VObj [("api_a", VStr "a"); ("api_b", VStr "b")])
                    builder_defaults false [("b", VUndef)] eq_refl));
      try reflexivity.
    repeat constructor.
  - apply (proj2 (patch_omits_top_level_removals no_fn distinct VUndef VUndef VUndef
                    builder_defaults false [] eq_refl)).
    + exact distinct_sound.
    + reflexivity.
Defined.

End Runs.
